(** * otConverters: a shallow embedding of the binary table converters

    The converters of [Lib/fontTools/ttLib/tables/otConverters.py] are
    embedded as functions over an explicit byte cursor ([Reader]) and
    byte sink ([Writer]).  Python exceptions are values of [exn]; a
    converter that can raise returns a [result]. *)

From Stdlib Require Import ZArith List Lia Bool.
From stdpp Require Import base option list sorting gmap strings.
From coqutil Require Import Z.bitblast.

Local Open Scope Z_scope.

(** ** Exceptions and the error monad *)

Inductive exn : Type :=
| AssertionError   (* a failed [assert] *)
| IndexError       (* list index out of range *)
| KeyError         (* missing dict key *)
| ValueError       (* e.g. [max] of an empty sequence *)
| StructError      (* a scalar that does not fit, or a read past the end *)
| NameError        (* a loop variable read after a loop that never ran *)
| AttributeError.  (* a missing attribute *)

Inductive result (A : Type) : Type :=
| Ok (a : A)
| Raise (e : exn).
Arguments Ok {A} a.
Arguments Raise {A} e.

Definition bind {A B} (m : result A) (k : A -> result B) : result B :=
  match m with
  | Ok a => k a
  | Raise e => Raise e
  end.

Notation "'do' x <- m ; k" := (bind m (fun x => k))
  (at level 10, x name, m at level 100, k at level 200, only parsing).
Notation "'do' ' p <- m ; k" := (bind m (fun x => match x with p => k end))
  (at level 10, p pattern, m at level 100, k at level 200, only parsing).

Definition assert (b : bool) : result unit :=
  if b then Ok tt else Raise AssertionError.

Definition is_ok {A} (m : result A) : bool :=
  match m with Ok _ => true | Raise _ => false end.

(** ** Bytes, big-endian scalars *)

(** A byte is a [Z] in [0, 256); a byte string is a [list Z]. *)
Definition bytes := list Z.

Fixpoint be_encode (n : nat) (v : Z) : bytes :=
  match n with
  | O => []
  | S n' => (v / 256 ^ Z.of_nat n') mod 256 :: be_encode n' v
  end.

Definition be_decode (bs : bytes) : Z :=
  fold_left (fun acc b => acc * 256 + b) bs 0.

Definition is_byte (b : Z) : Prop := 0 <= b < 256.

(** ** The byte cursor *)

(** Modelled from the spec: the Reader/Cursor capability (OTTableReader of
    otBase.py, which is not part of the sources): absolute and relative
    seek, big-endian fixed-width scalar reads, and [getSubReader] giving
    an independent cursor anchored elsewhere in the same buffer. *)
Record Reader : Type := mkReader {
  r_data : bytes;
  r_offset : Z;
  r_pos : Z;
}.

Definition seek (r : Reader) (pos : Z) : Reader :=
  mkReader (r_data r) (r_offset r) pos.

Definition advance (r : Reader) (count : Z) : Reader :=
  mkReader (r_data r) (r_offset r) (r_pos r + count).

Definition getSubReader (r : Reader) (offset : Z) : Reader :=
  mkReader (r_data r) (r_offset r + offset) (r_offset r + offset).

Definition readData (r : Reader) (count : Z) : result (bytes * Reader) :=
  if (0 <=? r_pos r) && (0 <=? count)
     && (r_pos r + count <=? Z.of_nat (length (r_data r)))
  then Ok (take (Z.to_nat count) (drop (Z.to_nat (r_pos r)) (r_data r)),
           advance r count)
  else Raise StructError.

Definition readU (n : Z) (r : Reader) : result (Z * Reader) :=
  do '(bs, r') <- readData r n; Ok (be_decode bs, r').

Definition to_signed (bits v : Z) : Z :=
  if v <? 2 ^ (bits - 1) then v else v - 2 ^ bits.

Definition readS (n : Z) (r : Reader) : result (Z * Reader) :=
  do '(v, r') <- readU n r; Ok (to_signed (8 * n) v, r').

Definition readUInt8 := readU 1.
Definition readUShort := readU 2.
Definition readUInt24 := readU 3.
Definition readULong := readU 4.
Definition readInt8 := readS 1.
Definition readShort := readS 2.
Definition readLong := readS 4.

(** ** The byte sink *)

(** Modelled from the spec: the Writer/Sink capability (OTTableWriter of
    otBase.py, which is not part of the sources).  A sink is a list of
    items: byte spans already emitted, and deferred sub-sinks that the
    parent later splices in behind an offset of 2 or 4 bytes.  A scalar
    write refuses a value outside the range of its width. *)
Inductive item : Type :=
| IData (bs : bytes)
| ISub (longOffset : bool) (name : string) (repeatIndex : option nat)
       (sub : list item).

Record Writer : Type := mkWriter {
  w_items : list item;
  w_longOffset : bool;
  w_Extension : bool;
  w_name : string;
  w_repeatIndex : option nat;
  (* writer[name]: the count cells visible to this sink; [None] is a
     cell that has not been set yet *)
  w_store : gmap string (option Z);
}.

Definition newWriter : Writer := mkWriter [] false false "" None ∅.

Definition getSubWriter (w : Writer) : Writer :=
  mkWriter [] false false "" None (w_store w).

(** [extend w its]: the sink [w] after the items [its] were appended. *)
Definition extend (w : Writer) (its : list item) : Writer :=
  mkWriter (w_items w ++ its) (w_longOffset w) (w_Extension w)
           (w_name w) (w_repeatIndex w) (w_store w).

Definition w_append (w : Writer) (it : item) : Writer := extend w [it].

(** [writer[name].setValue(value)]: fills the count cell, or checks that
    it already holds [value]. *)
Definition setValue (w : Writer) (name : string) (value : Z)
  : result Writer :=
  match w_store w !! name with
  | None => Raise KeyError
  | Some None =>
      Ok (mkWriter (w_items w) (w_longOffset w) (w_Extension w) (w_name w)
                   (w_repeatIndex w) (<[name := Some value]> (w_store w)))
  | Some (Some v) => if v =? value then Ok w else Raise AssertionError
  end.

Definition writeData (w : Writer) (bs : bytes) : Writer :=
  w_append w (IData bs).

Definition writeU (n : nat) (w : Writer) (v : Z) : result Writer :=
  if (0 <=? v) && (v <? 256 ^ Z.of_nat n)
  then Ok (writeData w (be_encode n v))
  else Raise StructError.

Definition writeS (n : nat) (w : Writer) (v : Z) : result Writer :=
  if (- 2 ^ (8 * Z.of_nat n - 1) <=? v) && (v <? 2 ^ (8 * Z.of_nat n - 1))
  then Ok (writeData w (be_encode n (v mod 256 ^ Z.of_nat n)))
  else Raise StructError.

Definition writeUInt8 := writeU 1.
Definition writeUShort := writeU 2.
Definition writeUInt24 := writeU 3.
Definition writeULong := writeU 4.
Definition writeInt8 := writeS 1.
Definition writeShort := writeS 2.
Definition writeLong := writeS 4.

Definition writeSubTable (w : Writer) (sub : Writer) : Writer :=
  w_append w (ISub (w_longOffset sub) (w_name sub) (w_repeatIndex sub)
                   (w_items sub)).

Definition item_length (it : item) : Z :=
  match it with
  | IData bs => Z.of_nat (length bs)
  | ISub long _ _ _ => if long then 4 else 2
  end.

Definition items_length (its : list item) : Z :=
  fold_right (fun it acc => item_length it + acc) 0 its.

Definition getDataLength (w : Writer) : Z := items_length (w_items w).

(** The bytes of a sink that holds byte spans only; a deferred sub-sink
    has no position before the sink lays its tree out. *)
Fixpoint items_data (its : list item) : option bytes :=
  match its with
  | [] => Some []
  | IData bs :: rest => option_map (app bs) (items_data rest)
  | ISub _ _ _ _ :: _ => None
  end.

(** ** The sibling fields of the enclosing table *)

(** [tableDict]: the fields of the enclosing table decoded or encoded
    so far, by name.  A missing key raises [KeyError]. *)
Definition getitem (tableDict : gmap string Z) (key : string) : result Z :=
  match tableDict !! key with
  | Some v => Ok v
  | None => Raise KeyError
  end.

(** ** DeltaValue *)

Module DeltaValue.

Definition legal_format (DeltaFormat : Z) : bool :=
  (DeltaFormat =? 1) || (DeltaFormat =? 2) || (DeltaFormat =? 3).

(** The body of [for i in range(nItems)] of [read]; [tmp] and [shift]
    are the loop-carried locals. *)
Fixpoint read_loop (nBits : Z) (nItems : nat) (tmp shift : Z)
         (reader : Reader) : result (list Z * Reader) :=
  match nItems with
  | O => Ok ([], reader)
  | S n =>
      let minusOffset := Z.shiftl 1 nBits in
      let mask := Z.shiftl 1 nBits - 1 in
      let signMask := Z.shiftl 1 (nBits - 1) in
      do '(tmp, shift, reader) <-
         (if shift =? 0
          then do '(w, r') <- readUShort reader; Ok (w, 16, r')
          else Ok (tmp, shift, reader));
      let shift := shift - nBits in
      let value := Z.land (Z.shiftr tmp shift) mask in
      let value := if Z.land value signMask =? 0 then value
                   else value - minusOffset in
      do '(rest, reader) <- read_loop nBits n tmp shift reader;
      Ok (value :: rest, reader)
  end.

Definition read (reader : Reader) (tableDict : gmap string Z)
  : result (list Z * Reader) :=
  do StartSize <- getitem tableDict "StartSize";
  do EndSize <- getitem tableDict "EndSize";
  do DeltaFormat <- getitem tableDict "DeltaFormat";
  do _ <- assert (legal_format DeltaFormat);
  let nItems := EndSize - StartSize + 1 in
  let nBits := Z.shiftl 1 DeltaFormat in
  read_loop nBits (Z.to_nat nItems) 0 0 reader.

(** The body of [for value in DeltaValue] of [write]. *)
Fixpoint write_loop (nBits : Z) (values : list Z) (tmp shift : Z)
         (writer : Writer) : result (Z * Z * Writer) :=
  match values with
  | [] => Ok (tmp, shift, writer)
  | value :: rest =>
      let mask := Z.shiftl 1 nBits - 1 in
      let shift := shift - nBits in
      let tmp := Z.lor tmp (Z.shiftl (Z.land value mask) shift) in
      if shift =? 0
      then do writer <- writeUShort writer tmp;
           write_loop nBits rest 0 16 writer
      else write_loop nBits rest tmp shift writer
  end.

Definition write (writer : Writer) (tableDict : gmap string Z)
           (value : list Z) : result Writer :=
  do StartSize <- getitem tableDict "StartSize";
  do EndSize <- getitem tableDict "EndSize";
  do DeltaFormat <- getitem tableDict "DeltaFormat";
  do _ <- assert (legal_format DeltaFormat);
  let nItems := EndSize - StartSize + 1 in
  let nBits := Z.shiftl 1 DeltaFormat in
  do _ <- assert (Z.of_nat (length value) =? nItems);
  do '(tmp, shift, writer) <- write_loop nBits value 0 16 writer;
  if negb (shift =? 16) then writeUShort writer tmp else Ok writer.

End DeltaValue.


(** ** Version *)

Section Version.
(** The in-memory version values (Python numbers) and
    [ensureVersionIsLong] of fontTools.misc.fixedTools, which turns one
    into its 16.16 form; the module is not part of the sources. *)
Variable V : Type.
Variable fi2ve : V -> Z.

Definition Version_read (reader : Reader) : result (Z * Reader) :=
  do '(value, reader) <- readLong reader;
  do _ <- assert (Z.shiftr value 16 =? 1);
  Ok (value, reader).

Definition Version_write (writer : Writer) (value : V) : result Writer :=
  let value := fi2ve value in
  do _ <- assert (Z.shiftr value 16 =? 1);
  writeLong writer value.
End Version.

(** Modelled from the spec: the normalized 16.16 form of a version given
    as a Python int ([ensureVersionIsLong] is missing from the sources):
    a value below 0x10000 is a major.minor number and is scaled by 65536,
    any other value is already in 16.16 form. *)
Definition fi2ve_int (value : Z) : Z :=
  if value <? 0x10000 then value * 65536 else value.

(** ** Table, LTable and their subclasses: offset-addressed sub-tables *)

Inductive OffsetConverter : Type :=
| CTable | CLTable | CSubTable | CExtSubTable | CFeatureParams.

Definition longOffset (c : OffsetConverter) : bool :=
  match c with
  | CLTable | CExtSubTable => true
  | CTable | CSubTable | CFeatureParams => false
  end.

Definition staticSize_of_offset (c : OffsetConverter) : Z :=
  if longOffset c then 4 else 2.

Section Table.
(** The table class of the converter: its objects, and their
    [decompile] and [compile] (BaseTable of otBase.py). *)
Variable T : Type.
Variable decompile : Reader -> result T.
Variable compile : T -> Writer -> result Writer.

(** A table object that was found behind an offset: decoded, or, for
    a lazy font, only holding the cursor to decode from later. *)
Inductive TableValue : Type :=
| Decoded (t : T)
| Deferred (reader : Reader).

Definition readOffset (c : OffsetConverter) (reader : Reader)
  : result (Z * Reader) :=
  match c with
  | CLTable | CExtSubTable => readULong reader
  | CTable | CSubTable | CFeatureParams => readUShort reader
  end.

Definition writeNullOffset (c : OffsetConverter) (writer : Writer)
  : result Writer :=
  if longOffset c then writeULong writer 0 else writeUShort writer 0.

Definition Table_read (c : OffsetConverter) (lazy : bool)
           (reader : Reader) : result (option TableValue * Reader) :=
  do '(offset, reader) <- readOffset c reader;
  if offset =? 0 then Ok (None, reader)
  else
    let sub := getSubReader reader offset in
    if lazy then Ok (Some (Deferred sub), reader)
    else do t <- decompile sub; Ok (Some (Decoded t), reader).

Definition Table_write_base (c : OffsetConverter) (name : string)
           (writer : Writer) (value : option T)
           (repeatIndex : option nat) : result Writer :=
  match value with
  | None => writeNullOffset c writer
  | Some t =>
      let subWriter := getSubWriter writer in
      let subWriter :=
        mkWriter (w_items subWriter) (longOffset c) (w_Extension subWriter)
                 name
                 (match repeatIndex with
                  | Some i => Some i
                  | None => w_repeatIndex subWriter
                  end)
                 (w_store subWriter) in
      do subWriter <- compile t subWriter;
      Ok (writeSubTable writer subWriter)
  end.

(** [ExtSubTable.write] flags the sink before it delegates. *)
Definition Table_write (c : OffsetConverter) (name : string)
           (writer : Writer) (value : option T)
           (repeatIndex : option nat) : result Writer :=
  match c with
  | CExtSubTable =>
      let writer :=
        mkWriter (w_items writer) (w_longOffset writer) true
                 (w_name writer) (w_repeatIndex writer) (w_store writer) in
      Table_write_base c name writer value repeatIndex
  | _ => Table_write_base c name writer value repeatIndex
  end.
End Table.

Arguments Decoded {T} t.
Arguments Deferred {T} reader.

(** ** VarIdxMapValue *)

Module VarIdxMapValue.

Definition pick_read (entrySize : Z)
  : result (Reader -> result (Z * Reader)) :=
  match entrySize with
  | 1 => Ok readUInt8
  | 2 => Ok readUShort
  | 3 => Ok readUInt24
  | 4 => Ok readULong
  | _ => Raise KeyError
  end.

Definition pick_write (entrySize : Z)
  : result (Writer -> Z -> result Writer) :=
  match entrySize with
  | 1 => Ok writeUInt8
  | 2 => Ok writeUShort
  | 3 => Ok writeUInt24
  | 4 => Ok writeULong
  | _ => Raise KeyError
  end.

Definition innerBits (fmt : Z) : Z := 1 + Z.land fmt 0x000F.
Definition entrySize (fmt : Z) : Z := 1 + Z.shiftr (Z.land fmt 0x0030) 4.

(** [idx] of the loop body of [read]. *)
Definition decode_entry (fmt raw : Z) : Z :=
  let innerMask := Z.shiftl 1 (innerBits fmt) - 1 in
  let outerMask := 0xFFFFFFFF - innerMask in
  let outerShift := 16 - innerBits fmt in
  Z.lor (Z.shiftl (Z.land raw outerMask) outerShift) (Z.land raw innerMask).

(** [raw] of the loop body of [write]. *)
Definition encode_entry (fmt idx : Z) : Z :=
  let innerMask := Z.shiftl 1 (innerBits fmt) - 1 in
  let outerShift := 16 - innerBits fmt in
  Z.lor (Z.shiftr (Z.land idx 0xFFFF0000) outerShift) (Z.land idx innerMask).

Fixpoint read_loop (rd : Reader -> result (Z * Reader)) (fmt : Z)
         (nItems : nat) (reader : Reader) : result (list Z * Reader) :=
  match nItems with
  | O => Ok ([], reader)
  | S n =>
      do '(raw, reader) <- rd reader;
      let idx := decode_entry fmt raw in
      do '(mapping, reader) <- read_loop rd fmt n reader;
      Ok (idx :: mapping, reader)
  end.

Definition read (reader : Reader) (tableDict : gmap string Z)
  : result (list Z * Reader) :=
  do fmt <- getitem tableDict "EntryFormat";
  do nItems <- getitem tableDict "MappingCount";
  do rd <- pick_read (entrySize fmt);
  read_loop rd fmt (Z.to_nat nItems) reader.

Fixpoint write_loop (wr : Writer -> Z -> result Writer) (fmt : Z)
         (mapping : list Z) (writer : Writer) : result Writer :=
  match mapping with
  | [] => Ok writer
  | idx :: rest =>
      do writer <- wr writer (encode_entry fmt idx);
      write_loop wr fmt rest writer
  end.

Definition write (writer : Writer) (tableDict : gmap string Z)
           (value : list Z) : result Writer :=
  do fmt <- getitem tableDict "EntryFormat";
  let mapping := value in
  do writer <- setValue writer "MappingCount" (Z.of_nat (length mapping));
  do wr <- pick_write (entrySize fmt);
  write_loop wr fmt mapping writer.

End VarIdxMapValue.

(** ** Loops that can raise *)

Fixpoint foldM {A S} (f : S -> A -> result S) (l : list A) (s : S)
  : result S :=
  match l with
  | [] => Ok s
  | a :: rest => do s' <- f s a; foldM f rest s'
  end.

(** [range(n)] *)
Definition range (n : Z) : list Z := seqZ 0 n.

(** Modelled from the spec: the standard power-of-two search-range
    construction of a binary-search header ([getSearchRange] of
    fontTools.ttLib, which is not part of the sources): the largest power
    of two that does not exceed the number of units, times the unit
    size; its exponent; and what is left of the table. *)
Definition getSearchRange (n itemSize : Z) : Z * Z * Z :=
  let exponent := Z.log2 n in
  let searchRange := 2 ^ exponent * itemSize in
  let entrySelector := exponent in
  let rangeShift := Z.max 0 (n * itemSize - searchRange) in
  (searchRange, entrySelector, rangeShift).

(** ** AATLookup *)

Section AATLookup.
(** The values of the mapping, with Python's [!=] and [<=] on them
    ([sorted] compares the values of two entries with the same glyph
    ID). *)
Context {Val : Type} `{EqDecision Val}.
Variable val_le : Val -> Val -> Prop.
Context `{forall x y, Decision (val_le x y)}.

(** [self.converter]: its [staticSize], [write] and [read]. *)
Variable valueSize : Z.
Variable conv_write : Writer -> Val -> result Writer.
Variable conv_read : Reader -> result (Val * Reader).

(** The glyph namespace of the font. *)
Variable getGlyphID : string -> result Z.
Variable getGlyphName : Z -> string.
Variable numGlyphs : Z.   (* len(font.getGlyphOrder()) *)

Definition BIN_SEARCH_HEADER_SIZE : Z := 10.

(** A candidate encoding: [(dataSize, lookupFormat, writeMethod)]. *)
Definition candidate : Type := Z * Z * (Writer -> result Writer).

Definition writeBinSearchHeader (writer : Writer) (numUnits unitSize : Z)
  : result Writer :=
  do writer <- writeUShort writer unitSize;
  do writer <- writeUShort writer numUnits;
  let '(searchRange, entrySelector, rangeShift) :=
    getSearchRange numUnits unitSize in
  do writer <- writeUShort writer searchRange;
  do writer <- writeUShort writer entrySelector;
  writeUShort writer rangeShift.

Definition writeFormat0 (writer : Writer) (values : list (Z * Val))
  : result Writer :=
  do writer <- writeUShort writer 0;
  foldM (fun writer '(_, value) => conv_write writer value) values writer.

Definition buildFormat0 (values : list (Z * Val)) : option candidate :=
  if negb (Z.of_nat (length values) =? numGlyphs) then None
  else Some (2 + numGlyphs * valueSize, 0,
             fun writer => writeFormat0 writer values).

Definition writeFormat2 (writer : Writer) (segments : list (Z * Z * Val))
  : result Writer :=
  do writer <- writeUShort writer 2;
  let numUnits := Z.of_nat (length segments) in
  let unitSize := valueSize + 4 in
  do writer <- writeBinSearchHeader writer numUnits unitSize;
  do writer <-
     foldM (fun writer '(firstGlyph, lastGlyph, value) =>
              do writer <- writeUShort writer lastGlyph;
              do writer <- writeUShort writer firstGlyph;
              conv_write writer value) segments writer;
  do writer <- writeUShort writer 0xFFFF;
  do writer <- writeUShort writer 0xFFFF;
  Ok (writeData writer (replicate (Z.to_nat valueSize) 0)).

(** The loop of [buildFormat2] that merges adjacent glyphs sharing a
    value; returns the segments with the last one appended. *)
Fixpoint segments_loop (rest : list (Z * Val)) (segStart segEnd : Z)
         (segValue : Val) (segments : list (Z * Z * Val))
  : list (Z * Z * Val) :=
  match rest with
  | [] => segments ++ [(segStart, segEnd, segValue)]
  | (glyphID, curValue) :: rest' =>
      if negb (glyphID =? segEnd + 1)
         || negb (bool_decide (curValue = segValue))
      then segments_loop rest' glyphID glyphID curValue
                         (segments ++ [(segStart, segEnd, segValue)])
      else segments_loop rest' segStart glyphID segValue segments
  end.

Definition buildFormat2 (values : list (Z * Val)) : result candidate :=
  match values with
  | [] => Raise IndexError
  | (segStart, segValue) :: rest =>
      let segments := segments_loop rest segStart segStart segValue [] in
      let numUnits := Z.of_nat (length segments) + 1 in
      let unitSize := valueSize + 4 in
      Ok (2 + BIN_SEARCH_HEADER_SIZE + numUnits * unitSize, 2,
          fun writer => writeFormat2 writer segments)
  end.

Definition writeFormat6 (writer : Writer) (values : list (Z * Val))
  : result Writer :=
  do writer <- writeUShort writer 6;
  let numUnits := Z.of_nat (length values) in
  let unitSize := valueSize + 2 in
  do writer <- writeBinSearchHeader writer numUnits unitSize;
  do writer <-
     foldM (fun writer '(glyphID, value) =>
              do writer <- writeUShort writer glyphID;
              conv_write writer value) values writer;
  do writer <- writeUShort writer 0xFFFF;
  Ok (writeData writer (replicate (Z.to_nat valueSize) 0)).

Definition buildFormat6 (values : list (Z * Val)) : candidate :=
  let numUnits := Z.of_nat (length values) in
  let unitSize := valueSize + 2 in
  (2 + BIN_SEARCH_HEADER_SIZE + (numUnits + 1) * unitSize, 6,
   fun writer => writeFormat6 writer values).

Definition writeFormat8 (writer : Writer) (values : list (Z * Val))
  : result Writer :=
  match values with
  | [] => Raise IndexError
  | (firstGlyphID, _) :: _ =>
      do writer <- writeUShort writer 8;
      do writer <- writeUShort writer firstGlyphID;
      do writer <- writeUShort writer (Z.of_nat (length values));
      foldM (fun writer '(_, value) => conv_write writer value)
            values writer
  end.

Definition buildFormat8 (values : list (Z * Val))
  : result (option candidate) :=
  match values, last values with
  | (minGlyphID, _) :: _, Some (maxGlyphID, _) =>
      if negb (Z.of_nat (length values) =? maxGlyphID - minGlyphID + 1)
      then Ok None
      else Ok (Some (6 + Z.of_nat (length values) * valueSize, 8,
                     fun writer => writeFormat8 writer values))
  | _, _ => Raise IndexError
  end.

(** Python's order on the [(glyphID, value)] tuples and on the
    [(dataSize, lookupFormat, writeMethod)] tuples; two candidates
    never agree on the format, so the methods are never compared. *)
Definition entry_le (a b : Z * Val) : Prop :=
  a.1 < b.1 \/ (a.1 = b.1 /\ val_le a.2 b.2).

Definition candidate_le (a b : candidate) : Prop :=
  a.1.1 < b.1.1 \/ (a.1.1 = b.1.1 /\ a.1.2 <= b.1.2).

#[local] Instance entry_le_dec a b : Decision (entry_le a b).
Proof. unfold entry_le. apply _. Defined.

#[local] Instance candidate_le_dec a b : Decision (candidate_le a b).
Proof. unfold candidate_le. apply _. Defined.

(** [values] of [write]: the entries by glyph ID, sorted. *)
Definition sorted_values (value : list (string * Val))
  : result (list (Z * Val)) :=
  do entries <-
     foldM (fun acc '(glyph, val) =>
              do gid <- getGlyphID glyph; Ok (acc ++ [(gid, val)]))
           value [];
  Ok (merge_sort entry_le entries).

(** [formats] of [write]: the candidates that exist, sorted. *)
Definition formats (values : list (Z * Val)) : result (list candidate) :=
  let f0 := buildFormat0 values in
  do f2 <- buildFormat2 values;
  let f6 := buildFormat6 values in
  do f8 <- buildFormat8 values;
  Ok (merge_sort candidate_le (omap id [f0; Some f2; Some f6; f8])).

Definition AATLookup_write (writer : Writer) (value : list (string * Val))
  : result Writer :=
  do values <- sorted_values value;
  do formats <- formats values;
  match formats with
  | [] => Raise IndexError
  | (dataSize, lookupFormat, writeMethod) :: _ =>
      let pos := getDataLength writer in
      do writer <- writeMethod writer;
      let actualSize := getDataLength writer - pos in
      do _ <- assert (actualSize =? dataSize);
      Ok writer
  end.

(** [readArray] of the value converter, element by element. *)
Fixpoint readArray_eager (count : nat) (reader : Reader)
  : result (list Val * Reader) :=
  match count with
  | O => Ok ([], reader)
  | S n =>
      do '(v, reader) <- conv_read reader;
      do '(l, reader) <- readArray_eager n reader;
      Ok (v :: l, reader)
  end.

(** [{font.getGlyphName(first + k): value for k, value in
    enumerate(data)}], added to [mapping]. *)
Definition insert_run (first : Z) (data : list Val)
           (mapping : gmap string Val) : gmap string Val :=
  foldl (fun m '(k, value) => <[getGlyphName (first + Z.of_nat k) := value]> m)
        mapping (imap (fun k v => (k, v)) data).

Definition readFormat0 (reader : Reader)
  : result (gmap string Val * Reader) :=
  do '(data, reader) <- readArray_eager (Z.to_nat numGlyphs) reader;
  Ok (insert_run 0 data ∅, reader).

Definition readFormat2 (reader : Reader)
  : result (gmap string Val * Reader) :=
  let pos := r_pos reader - 2 in
  do '(unitSize, reader) <- readUShort reader;
  do '(numUnits, reader) <- readUShort reader;
  do _ <- assert (4 + valueSize <=? unitSize);
  foldM (fun '(mapping, reader) i =>
           let reader := seek reader (pos + i * unitSize + 12) in
           do '(last, reader) <- readUShort reader;
           do '(first, reader) <- readUShort reader;
           do '(value, reader) <- conv_read reader;
           if negb (last =? 0xFFFF)
           then Ok (foldl (fun m k => <[getGlyphName k := value]> m)
                          mapping (seqZ first (last + 1 - first)), reader)
           else Ok (mapping, reader))
        (range numUnits) (∅, reader).

Definition readFormat4 (reader : Reader)
  : result (gmap string Val * Reader) :=
  let pos := r_pos reader - 2 in
  do '(unitSize, reader) <- readUShort reader;
  do _ <- assert (6 <=? unitSize);
  do '(numUnits, reader) <- readUShort reader;
  foldM (fun '(mapping, reader) i =>
           let reader := seek reader (pos + i * unitSize + 12) in
           do '(last, reader) <- readUShort reader;
           do '(first, reader) <- readUShort reader;
           do '(offset, reader) <- readUShort reader;
           if negb (last =? 0xFFFF)
           then
             let dataReader := getSubReader reader 0 in
             let dataReader := seek dataReader (pos + offset) in
             do '(data, _) <-
                readArray_eager (Z.to_nat (last - first + 1)) dataReader;
             Ok (insert_run first data mapping, reader)
           else Ok (mapping, reader))
        (range numUnits) (∅, reader).

Definition readFormat6 (reader : Reader)
  : result (gmap string Val * Reader) :=
  let pos := r_pos reader - 2 in
  do '(unitSize, reader) <- readUShort reader;
  do _ <- assert (2 + valueSize <=? unitSize);
  do '(numUnits, reader) <- readUShort reader;
  foldM (fun '(mapping, reader) i =>
           let reader := seek reader (pos + i * unitSize + 12) in
           do '(glyphID, reader) <- readUShort reader;
           do '(value, reader) <- conv_read reader;
           if negb (glyphID =? 0xFFFF)
           then Ok (<[getGlyphName glyphID := value]> mapping, reader)
           else Ok (mapping, reader))
        (range numUnits) (∅, reader).

Definition readFormat8 (reader : Reader)
  : result (gmap string Val * Reader) :=
  do '(first, reader) <- readUShort reader;
  do '(count, reader) <- readUShort reader;
  do '(data, reader) <- readArray_eager (Z.to_nat count) reader;
  Ok (insert_run first data ∅, reader).

Definition AATLookup_read (reader : Reader)
  : result (gmap string Val * Reader) :=
  do '(format, reader) <- readUShort reader;
  if format =? 0 then readFormat0 reader
  else if format =? 2 then readFormat2 reader
  else if format =? 4 then readFormat4 reader
  else if format =? 6 then readFormat6 reader
  else if format =? 8 then readFormat8 reader
  else Raise AssertionError.
End AATLookup.

(** ** STXHeader *)

(** Modelled from the spec: [pad] of fontTools.misc.textTools (not part
    of the sources): zero bytes up to the next multiple of [size]. *)
Definition pad (data : bytes) (size : Z) : bytes :=
  if 1 <? size then
    let remainder := Z.of_nat (length data) mod size in
    if remainder =? 0 then data
    else data ++ replicate (Z.to_nat (size - remainder)) 0
  else data.

(** [max(d.values())] of a dict with integer values. *)
Definition max_values (d : list (string * Z)) : result Z :=
  match d with
  | [] => Raise ValueError
  | (_, v) :: rest => Ok (foldl (fun m '(_, x) => Z.max m x) v rest)
  end.

(** Python's [<=] on glyph names. *)
Definition str_le (a b : string) : Prop := String.leb a b = true.

#[global] Instance str_le_dec a b : Decision (str_le a b).
Proof. unfold str_le. apply _. Defined.

Section STXHeader.
(** The transitions: objects of the action class of the converter
    ([AATAction] and its subclasses, of otTables.py). *)
Variable Action : Type.
(** [transition.compile] into a fresh sink, then [getAllData]. *)
Variable compile_action : Action -> result bytes.
Variable staticSize : Action -> Z.
(** [(MarkIndex, CurrentIndex)] when the transition is an instance of
    [ContextualMorphAction]. *)
Variable contextual : Action -> option (Z * Z).

(** The glyph namespace of the font. *)
Variable getGlyphID : string -> result Z.
Variable getGlyphName : Z -> string.
Variable numGlyphs : Z.

(** [getAllData] of a sink with deferred sub-sinks: the layout pass of
    the sink, which places the sub-sinks and fills in their offsets. *)
Variable layout : list item -> bytes.

(** [self.perGlyphLookup is not None]: the action class is
    [ContextualMorphAction] or a subclass. *)
Variable hasPerGlyphLookup : bool.

Record AATState : Type := mkAATState {
  Transitions : gmap Z Action;
}.

Record AATStateTable : Type := mkAATStateTable {
  GlyphClassCount : Z;
  GlyphClasses : list (string * Z);
  States : list AATState;
  PerGlyphLookups : list (list (string * string));
}.

Definition getAllData (w : Writer) : bytes :=
  match items_data (w_items w) with
  | Some bs => bs
  | None => layout (w_items w)
  end.

(** The two [if] statements of [_countPerGlyphLookups] for one
    transition. *)
Definition count_transition (numLookups : Z) (t : Action) : Z :=
  match contextual t with
  | Some (MarkIndex, CurrentIndex) =>
      let numLookups :=
        if negb (MarkIndex =? 0xFFFF)
        then Z.max numLookups (MarkIndex + 1) else numLookups in
      if negb (CurrentIndex =? 0xFFFF)
      then Z.max numLookups (CurrentIndex + 1) else numLookups
  | None => numLookups
  end.

Definition _countPerGlyphLookups (table : AATStateTable) : Z :=
  foldl (fun numLookups state =>
           foldl count_transition numLookups
                 (snd <$> map_to_list (Transitions state)))
        0 (States table).

(** [self.perGlyphLookup]: an AATLookup of glyph names. *)
Definition perGlyphLookup_write (writer : Writer)
           (lookup : list (string * string)) : result Writer :=
  AATLookup_write str_le 2
    (fun w name => do gid <- getGlyphID name; writeUShort w gid)
    getGlyphID numGlyphs writer lookup.

Definition perGlyphLookup_read (reader : Reader)
  : result (gmap string string * Reader) :=
  AATLookup_read 2
    (fun r => do '(gid, r) <- readUShort r; Ok (getGlyphName gid, r))
    getGlyphName numGlyphs reader.

(** [self.classLookup]: an AATLookup of 16-bit class indices. *)
Definition classLookup_write (writer : Writer)
           (classes : list (string * Z)) : result Writer :=
  AATLookup_write Z.le 2 writeUShort getGlyphID numGlyphs writer classes.

Definition _readPerGlyphLookups (table : AATStateTable) (reader : Reader)
  : result (list (gmap string string) * Reader) :=
  let pos := r_pos reader in
  foldM (fun '(lookups, reader) _ =>
           let lookupReader := getSubReader reader 0 in
           do '(offset, reader) <- readULong reader;
           let lookupReader := seek lookupReader (pos + offset) in
           do '(lookup, _) <- perGlyphLookup_read lookupReader;
           Ok (lookups ++ [lookup], reader))
        (range (_countPerGlyphLookups table)) ([], reader).

Definition _compilePerGlyphLookups (table : AATStateTable)
  : result bytes :=
  if negb hasPerGlyphLookup then Ok []
  else
    let numLookups := _countPerGlyphLookups table in
    do _ <- assert (Z.of_nat (length (PerGlyphLookups table))
                    =? numLookups);
    let writer := newWriter in
    do writer <-
       foldM (fun writer lookup =>
                let lookupWriter := getSubWriter writer in
                let lookupWriter :=
                  mkWriter (w_items lookupWriter) true
                           (w_Extension lookupWriter) (w_name lookupWriter)
                           (w_repeatIndex lookupWriter)
                           (w_store lookupWriter) in
                do lookupWriter <- perGlyphLookup_write lookupWriter lookup;
                Ok (writeSubTable writer lookupWriter))
             (PerGlyphLookups table) writer;
    Ok (getAllData writer).

(** One cell of the state array: the body of the inner loop of
    [write].  The state is [(entries, entryIDs, stateArrayWriter)]. *)
Definition compile_cell (state : AATState)
           (acc : list bytes * gmap bytes Z * Writer) (glyphClass : Z)
  : result (list bytes * gmap bytes Z * Writer) :=
  let '(entries, entryIDs, stateArrayWriter) := acc in
  do transition <-
     match Transitions state !! glyphClass with
     | Some t => Ok t
     | None => Raise KeyError
     end;
  do entryData <- compile_action transition;
  do _ <- assert (Z.of_nat (length entryData) =? staticSize transition);
  let '(entryIndex, entries, entryIDs) :=
    match entryIDs !! entryData with
    | Some entryIndex => (entryIndex, entries, entryIDs)
    | None =>
        let entryIndex := Z.of_nat (length entries) in
        (entryIndex, entries ++ [entryData],
         <[entryData := entryIndex]> entryIDs)
    end in
  do stateArrayWriter <- writeUShort stateArrayWriter entryIndex;
  Ok (entries, entryIDs, stateArrayWriter).

(** The two nested loops of [write]. *)
Definition compile_states (states : list AATState) (glyphClassCount : Z)
  : result (list bytes * gmap bytes Z * Writer) :=
  foldM (fun acc state =>
           foldM (compile_cell state) (range glyphClassCount) acc)
        states ([], ∅, newWriter).

Definition STXHeader_write (writer : Writer) (value : AATStateTable)
  : result Writer :=
  let glyphClassWriter := newWriter in
  do glyphClassWriter <-
     classLookup_write glyphClassWriter (GlyphClasses value);
  let glyphClassData := pad (getAllData glyphClassWriter) 4 in
  do maxClass <- max_values (GlyphClasses value);
  let glyphClassCount := maxClass + 1 in
  let glyphClassTableOffset := 16 in
  let glyphClassTableOffset :=
    if hasPerGlyphLookup then glyphClassTableOffset + 4
    else glyphClassTableOffset in
  do '(entries, entryIDs, stateArrayWriter) <-
     compile_states (States value) glyphClassCount;
  let stateArrayOffset :=
    glyphClassTableOffset + Z.of_nat (length glyphClassData) in
  let stateArrayData := pad (getAllData stateArrayWriter) 4 in
  let entryTableOffset :=
    stateArrayOffset + Z.of_nat (length stateArrayData) in
  let entryTableData := pad (concat entries) 4 in
  let perGlyphOffset :=
    entryTableOffset + Z.of_nat (length entryTableData) in
  do perGlyph <- _compilePerGlyphLookups value;
  let perGlyphData := pad perGlyph 4 in
  do writer <- writeULong writer glyphClassCount;
  do writer <- writeULong writer glyphClassTableOffset;
  do writer <- writeULong writer stateArrayOffset;
  do writer <- writeULong writer entryTableOffset;
  do writer <-
     (if hasPerGlyphLookup then writeULong writer perGlyphOffset
      else Ok writer);
  let writer := writeData writer glyphClassData in
  let writer := writeData writer stateArrayData in
  let writer := writeData writer entryTableData in
  Ok (writeData writer perGlyphData).
End STXHeader.

Arguments Transitions {Action} _.
Arguments mkAATState {Action} _.
Arguments GlyphClassCount {Action} _.
Arguments GlyphClasses {Action} _.
Arguments States {Action} _.
Arguments PerGlyphLookups {Action} _.
Arguments mkAATStateTable {Action} _ _ _ _.

(** ** StructWithLength *)

(** A converter as [StructWithLength.write] uses the one of the length
    field: its name, its [staticSize] when the class has one, and its
    [write] for an integer value. *)
Record Converter : Type := mkConverter {
  c_name : string;
  c_staticSize : option Z;
  c_write : Writer -> Z -> result Writer;
}.

(** The integer converters. *)
Definition Long (name : string) := mkConverter name (Some 4) writeLong.
Definition ULong (name : string) := mkConverter name (Some 4) writeULong.
Definition Short (name : string) := mkConverter name (Some 2) writeShort.
Definition UShort (name : string) := mkConverter name (Some 2) writeUShort.
Definition Int8 (name : string) := mkConverter name (Some 1) writeInt8.
Definition UInt8 (name : string) := mkConverter name (Some 1) writeUInt8.
Definition UInt24 (name : string) := mkConverter name (Some 3) writeUInt24.

(** [for convIndex, conv in enumerate(value.getConverters()):
       if conv.name == "StructLength": break]:
    the two loop variables after the loop, [last] being their values
    before it; they are unbound when the loop never ran. *)
Fixpoint StructLength_loop (convIndex : nat) (convs : list Converter)
         (last : option (nat * Converter)) : option (nat * Converter) :=
  match convs with
  | [] => last
  | conv :: rest =>
      if String.eqb (c_name conv) "StructLength"
      then Some (convIndex, conv)
      else StructLength_loop (S convIndex) rest (Some (convIndex, conv))
  end.

(** [{1:0xDE, 2:0xDEAD, 4:0xDEADBEEF}[staticSize]] *)
Definition deadbeef_of (staticSize : Z) : result Z :=
  if staticSize =? 1 then Ok 0xDE
  else if staticSize =? 2 then Ok 0xDEAD
  else if staticSize =? 4 then Ok 0xDEADBEEF
  else Raise KeyError.

(** [b"\xde\xad\xbe\xef"[:staticSize]] *)
Definition deadbeef_bytes (staticSize : Z) : bytes :=
  take (Z.to_nat staticSize) [0xDE; 0xAD; 0xBE; 0xEF].

(** [item == data] for a byte string [data]: a sub-sink is not a byte
    string. *)
Definition item_is (it : item) (data : bytes) : bool :=
  match it with
  | IData bs => bool_decide (bs = data)
  | ISub _ _ _ _ => false
  end.

(** [writer.items[i] = it] *)
Definition set_item (w : Writer) (i : nat) (it : item) : Writer :=
  mkWriter (<[i := it]> (w_items w)) (w_longOffset w) (w_Extension w)
           (w_name w) (w_repeatIndex w) (w_store w).

Section StructWithLength.
(** How a sink lays out its deferred sub-sinks. *)
Variable layout : list item -> bytes.
(** [value.getConverters()] and
    [isinstance(value, FormatSwitchingBaseTable)]. *)
Variable getConverters : list Converter.
Variable isFormatSwitching : bool.
(** [value.compile(writer, font)] of a table whose [StructLength] is
    the first argument (BaseTable.compile of otBase.py, which is not
    part of the sources). *)
Variable compile : Z -> Writer -> result Writer.

Definition StructWithLength_write (writer : Writer) : result Writer :=
  do '(convIndex, conv) <-
     match StructLength_loop 0 getConverters None with
     | Some found => Ok found
     | None => Raise NameError
     end;
  let lengthIndex := (length (w_items writer) + convIndex)%nat in
  let lengthIndex :=
    if isFormatSwitching then (lengthIndex + 1)%nat else lengthIndex in
  do staticSize <-
     match c_staticSize conv with
     | Some size => Ok size
     | None => Raise AttributeError
     end;
  do deadbeef <- deadbeef_of staticSize;
  let before := getDataLength writer in
  do writer <- compile deadbeef writer;
  let length := getDataLength writer - before in
  let lengthWriter := getSubWriter writer in
  do lengthWriter <- c_write conv lengthWriter length;
  do it <-
     match w_items writer !! lengthIndex with
     | Some it => Ok it
     | None => Raise IndexError
     end;
  do _ <- assert (item_is it (deadbeef_bytes staticSize));
  Ok (set_item writer lengthIndex
               (IData (getAllData layout lengthWriter))).
End StructWithLength.

(** ** Arrays: eager and lazy decoding *)

(** [l[k]] of a Python list, with the position it denotes: a negative
    [k] counts from the end. *)
Definition list_index {A} (l : list A) (k : Z) : result (nat * A) :=
  let k := if k <? 0 then k + Z.of_nat (length l) else k in
  if k <? 0 then Raise IndexError
  else match l !! Z.to_nat k with
       | Some a => Ok (Z.to_nat k, a)
       | None => Raise IndexError
       end.

(** [slice(start, stop, step)]; [None] is an omitted bound. *)
Record slice : Type := mkSlice {
  s_start : option Z;
  s_stop : option Z;
  s_step : option Z;
}.

(** Python's [k.indices(length)]. *)
Definition slice_indices (k : slice) (length : Z) : result (Z * Z * Z) :=
  let step := default 1 (s_step k) in
  if step =? 0 then Raise ValueError
  else
    let lower := if step <? 0 then -1 else 0 in
    let upper := if step <? 0 then length - 1 else length in
    let clamp (bound : Z) :=
      if bound <? 0
      then Z.max (bound + length) lower
      else Z.min bound upper in
    let start :=
      match s_start k with
      | None => if step <? 0 then upper else lower
      | Some bound => clamp bound
      end in
    let stop :=
      match s_stop k with
      | None => if step <? 0 then lower else upper
      | Some bound => clamp bound
      end in
    Ok (start, stop, step).

(** Python's [range(start, stop, step)] for a step that is not 0. *)
Definition range3 (start stop step : Z) : list Z :=
  let n :=
    if 0 <? step then (stop - start + step - 1) / step
    else (start - stop - step - 1) / (- step) in
  (fun i => start + i * step) <$> seqZ 0 n.

(** An element of a lazy list: [_MissingItem([i])], or the value
    decoded for the position. *)
Inductive slot (V : Type) : Type :=
| MissingItem (i : Z)
| Item (v : V).
Arguments MissingItem {V} i.
Arguments Item {V} v.

(** [_LazyList]: the elements, and the cursor, position and record size
    [readArray] sets on it. *)
Record _LazyList (V : Type) : Type := mkLazyList {
  ll_data : list (slot V);
  ll_reader : Reader;
  ll_pos : Z;
  ll_recordSize : Z;
}.
Arguments mkLazyList {V} _ _ _ _.
Arguments ll_data {V} _.
Arguments ll_reader {V} _.
Arguments ll_pos {V} _.
Arguments ll_recordSize {V} _.

(** What [readArray] returns: a list, or a lazy list. *)
Inductive ArrayValue (V : Type) : Type :=
| EagerList (l : list V)
| LazyList (l : _LazyList V).
Arguments EagerList {V} l.
Arguments LazyList {V} l.

(** [BaseConverter.getRecordSize]: the [staticSize] of the class when it
    has one, [NotImplemented] ([None]) otherwise. *)
Definition getRecordSize_static (staticSize : option Z) (reader : Reader)
  : option Z := staticSize.

Section LazyList.
Context {V : Type}.
(** [conv.read(reader, font, tableDict)] and [conv.getRecordSize] of
    the element converter. *)
Variable conv_read : gmap string Z -> Reader -> result (V * Reader).
Variable getRecordSize : Reader -> option Z.

(** [self[k]] for an integer [k]. *)
Definition LazyList_getitem (self : _LazyList V) (k : Z)
  : result (V * _LazyList V) :=
  do '(k, item) <- list_index (ll_data self) k;
  match item with
  | MissingItem i =>
      let reader :=
        seek (ll_reader self) (ll_pos self + i * ll_recordSize self) in
      do '(item, reader) <- conv_read ∅ reader;
      Ok (item, mkLazyList (<[k := Item item]> (ll_data self)) reader
                           (ll_pos self) (ll_recordSize self))
  | Item item => Ok (item, self)
  end.

(** [self[k]] for a slice [k]: the list of [self[i]] for [i] in the
    range that [k.indices(len(self))] gives. *)
Definition LazyList_getslice (self : _LazyList V) (k : slice)
  : result (list V * _LazyList V) :=
  do '(start, stop, step) <-
     slice_indices k (Z.of_nat (length (ll_data self)));
  foldM (fun '(l, self) i =>
           do '(item, self) <- LazyList_getitem self i;
           Ok (l ++ [item], self))
        (range3 start stop step) ([], self).

(** [readArray]: [lazy] is [font.lazy]; the array is read lazily when
    [lazy and count > 8] and the converter knows its record size. *)
Definition readArray (lazy : bool) (reader : Reader)
           (tableDict : gmap string Z) (count : Z)
  : result (ArrayValue V * Reader) :=
  let lazy := lazy && (8 <? count) in
  let recordSize := if lazy then getRecordSize reader else None in
  match recordSize with
  | None =>
      do '(l, reader) <-
         foldM (fun '(l, reader) _ =>
                  do '(item, reader) <- conv_read tableDict reader;
                  Ok (l ++ [item], reader))
               (range count) ([], reader);
      Ok (EagerList l, reader)
  | Some recordSize =>
      let l := mkLazyList (MissingItem <$> range count) reader
                          (r_pos reader) recordSize in
      Ok (LazyList l, advance reader (count * recordSize))
  end.
End LazyList.

(** ** VarDataValue *)

Module VarDataValue.

Definition read (reader : Reader) (tableDict : gmap string Z)
  : result (list Z * Reader) :=
  let values := [] in
  do regionCount <- getitem tableDict "VarRegionCount";
  do shortCount <- getitem tableDict "NumShorts";
  let n := Z.min regionCount shortCount in
  do '(values, reader) <-
     foldM (fun '(values, reader) _ =>
              do '(v, reader) <- readShort reader;
              Ok (values ++ [v], reader))
           (range n) (values, reader);
  do '(values, reader) <-
     foldM (fun '(values, reader) _ =>
              do '(v, reader) <- readInt8 reader;
              Ok (values ++ [v], reader))
           (seqZ n (regionCount - n)) (values, reader);
  do reader <-
     foldM (fun reader _ => do '(_, reader) <- readInt8 reader; Ok reader)
           (seqZ regionCount (shortCount - regionCount)) reader;
  Ok (values, reader).

Definition write (writer : Writer) (tableDict : gmap string Z)
           (value : list Z) : result Writer :=
  do regionCount <- getitem tableDict "VarRegionCount";
  do shortCount <- getitem tableDict "NumShorts";
  let n := Z.min regionCount shortCount in
  do writer <-
     foldM (fun writer i =>
              do '(_, v) <- list_index value i; writeShort writer v)
           (range n) writer;
  do writer <-
     foldM (fun writer i =>
              do '(_, v) <- list_index value i; writeInt8 writer v)
           (seqZ n (regionCount - n)) writer;
  foldM (fun writer _ => writeInt8 writer 0)
        (seqZ regionCount (shortCount - regionCount)) writer.

End VarDataValue.

(** ** The integer converters *)

(** The classes [Long], [ULong], [Short], [UShort], [Int8], [UInt8] and
    [UInt24]. *)
Inductive IntValue : Type :=
| CLong | CULong | CShort | CUShort | CInt8 | CUInt8 | CUInt24.

Definition IntValue_staticSize (c : IntValue) : Z :=
  match c with
  | CLong | CULong => 4
  | CShort | CUShort => 2
  | CInt8 | CUInt8 => 1
  | CUInt24 => 3
  end.

Definition IntValue_read (c : IntValue) (reader : Reader)
  : result (Z * Reader) :=
  match c with
  | CLong => readLong reader
  | CULong => readULong reader
  | CShort => readShort reader
  | CUShort => readUShort reader
  | CInt8 => readInt8 reader
  | CUInt8 => readUInt8 reader
  | CUInt24 => readUInt24 reader
  end.

Definition IntValue_write (c : IntValue) (writer : Writer) (value : Z)
  : result Writer :=
  match c with
  | CLong => writeLong writer value
  | CULong => writeULong writer value
  | CShort => writeShort writer value
  | CUShort => writeUShort writer value
  | CInt8 => writeInt8 writer value
  | CUInt8 => writeUInt8 writer value
  | CUInt24 => writeUInt24 writer value
  end.

(** ** BaseConverter.writeArray *)

(** [for i, value in enumerate(values):
       self.write(writer, font, tableDict, value, i)] *)
Definition writeArray {V : Type}
           (conv_write : Writer -> V -> option nat -> result Writer)
           (writer : Writer) (values : list V) : result Writer :=
  foldM (fun writer '(i, value) => conv_write writer value (Some i))
        (imap (fun i value => (i, value)) values) writer.

(** ** CIDGlyphMap and GlyphCIDMap *)

(** [max(items)] of a dict with integer keys; [None] for the empty dict,
    on which Python's [max] is not called. *)
Definition max_key {V : Type} (items : gmap Z V) : option Z :=
  foldr (fun k acc => Some (match acc with
                            | Some m => Z.max k m
                            | None => k
                            end))
        None (map fst (map_to_list items)).

Section CIDMaps.
(** [reader.readUShortArray(count)]: a method of the reader, which is not
    part of the sources. *)
Variable readUShortArray : Reader -> Z -> result (list Z * Reader).

(** The glyph namespace of the font. *)
Variable getGlyphID : string -> result Z.
Variable getGlyphName : Z -> string.
Variable glyphOrder : list string.

Definition CIDGlyphMap_read (reader : Reader)
  : result (gmap Z string * Reader) :=
  do '(numCIDs, reader) <- readUShort reader;
  do '(glyphIDs, reader) <- readUShortArray reader numCIDs;
  Ok (foldl (fun result '(cid, glyphID) =>
               if negb (glyphID =? 0xFFFF)
               then <[Z.of_nat cid := getGlyphName glyphID]> result
               else result)
            ∅ (imap (fun cid glyphID => (cid, glyphID)) glyphIDs),
      reader).

(** [value] is the dict as the list of its items. *)
Definition CIDGlyphMap_write (writer : Writer) (value : list (Z * string))
  : result Writer :=
  do items <-
     foldM (fun (items : gmap Z Z) '(cid, glyph) =>
              do gid <- getGlyphID glyph; Ok (<[cid := gid]> items))
           value ∅;
  let count := match max_key items with Some m => m + 1 | None => 0 end in
  do writer <- writeUShort writer count;
  foldM (fun writer cid =>
           writeUShort writer (default 0xFFFF (items !! cid)))
        (range count) writer.

(** The warning about a map longer than the glyph order has no effect
    on the result. *)
Definition GlyphCIDMap_read (reader : Reader)
  : result (gmap string Z * Reader) :=
  do '(count, reader) <- readUShort reader;
  do '(cids, reader) <- readUShortArray reader count;
  do result <-
     foldM (fun (result : gmap string Z) glyphID =>
              do '(_, cid) <- list_index cids glyphID;
              if negb (cid =? 0xFFFF)
              then do '(_, glyph) <- list_index glyphOrder glyphID;
                   Ok (<[glyph := cid]> result)
              else Ok result)
           (range (Z.min (Z.of_nat (length cids))
                         (Z.of_nat (length glyphOrder)))) ∅;
  Ok (result, reader).

(** A value of the dict is a CID or [None]. *)
Definition GlyphCIDMap_write (writer : Writer)
           (value : list (string * option Z)) : result Writer :=
  do items <-
     foldM (fun (items : gmap Z Z) '(g, cid) =>
              match cid with
              | Some cid =>
                  if negb (cid =? 0xFFFF)
                  then do gid <- getGlyphID g; Ok (<[gid := cid]> items)
                  else Ok items
              | None => Ok items
              end)
           value ∅;
  let count := match max_key items with Some m => m + 1 | None => 0 end in
  do writer <- writeUShort writer count;
  foldM (fun writer glyphID =>
           writeUShort writer (default 0xFFFF (items !! glyphID)))
        (range count) writer.
End CIDMaps.

(** ** Char64 *)

(** [data.find(b)]: the index of the first byte [b], or [-1]. *)
Fixpoint find (data : bytes) (b : Z) : Z :=
  match data with
  | [] => -1
  | x :: rest =>
      if x =? b then 0
      else let i := find rest b in if i <? 0 then -1 else i + 1
  end.

Section Char64.
(** Modelled from the spec: [tobytes] and [tounicode] of
    fontTools.misc.py23, which is not part of the sources, for the
    [ascii] encoding with [errors="replace"]: what is not ASCII is
    replaced by a replacement character.  A string is the list of its
    code points; the two replacement characters are those of the
    codec. *)
Variable replacement_byte : Z.
Variable replacement_char : Z.

Definition tobytes (value : list Z) : bytes :=
  map (fun c => if c <? 128 then c else replacement_byte) value.

Definition tounicode (data : bytes) : list Z :=
  map (fun b => if b <? 128 then b else replacement_char) data.

Definition Char64_staticSize : Z := 64.

(** The warnings have no effect on the value that is returned. *)
Definition Char64_read (reader : Reader) : result (list Z * Reader) :=
  do '(data, reader) <- readData reader Char64_staticSize;
  let zeroPos := find data 0 in
  let data := if 0 <=? zeroPos then take (Z.to_nat zeroPos) data else data in
  Ok (tounicode data, reader).

Definition Char64_write (writer : Writer) (value : list Z)
  : result Writer :=
  let data := tobytes value in
  let data := take (Z.to_nat Char64_staticSize)
                   (data ++ replicate (Z.to_nat Char64_staticSize) 0) in
  Ok (writeData writer data).
End Char64.

(** ** AATLookupWithDataOffset *)

Section AATLookupWithDataOffset.
(** The objects of [self.tableClass], with [compile] into a fresh sink
    followed by [getAllData]. *)
Variable T : Type.
Variable compile_table : T -> result bytes.

(** The glyph namespace of the font. *)
Variable getGlyphID : string -> result Z.
Variable numGlyphs : Z.

(** The order of the keys of [sorted]. *)
Definition key_le (a b : Z * (string * T)) : Prop := a.1 <= b.1.

#[local] Instance key_le_dec a b : Decision (key_le a b).
Proof. unfold key_le. apply _. Defined.

(** [sorted(value, key=font.getGlyphID)], each glyph with its glyph ID
    and with [value[glyph]]: the keys are computed first, then the
    glyphs are sorted by them.  Different glyphs have different glyph
    IDs, so that the order among equal keys is of no account. *)
Definition sorted_by_glyphID (value : list (string * T))
  : result (list (Z * (string * T))) :=
  do keyed <-
     foldM (fun acc '(glyph, table) =>
              do gid <- getGlyphID glyph; Ok (acc ++ [(gid, (glyph, table))]))
           value [];
  Ok (merge_sort key_le keyed).

(** The body of the loop of [write]; the state is [(offsetByGlyph,
    offsetByData, dataLen, compiledData)].  The keys of [value] are
    distinct, so each assignment to [offsetByGlyph] adds an item. *)
Definition data_step
           (acc : list (string * Z) * gmap bytes Z * Z * list bytes)
           (x : Z * (string * T))
  : result (list (string * Z) * gmap bytes Z * Z * list bytes) :=
  let '(offsetByGlyph, offsetByData, dataLen, compiledData) := acc in
  let '(_, (glyph, table)) := x in
  do data <- compile_table table;
  let '(offset, offsetByData, dataLen, compiledData) :=
    match offsetByData !! data with
    | Some offset => (offset, offsetByData, dataLen, compiledData)
    | None =>
        (dataLen, <[data := dataLen]> offsetByData,
         dataLen + Z.of_nat (length data), compiledData ++ [data])
    end in
  Ok (offsetByGlyph ++ [(glyph, offset)], offsetByData, dataLen,
      compiledData).

(** [subWriter.longOffset = True] *)
Definition set_longOffset (w : Writer) : Writer :=
  mkWriter (w_items w) true (w_Extension w) (w_name w) (w_repeatIndex w)
           (w_store w).

(** The sink holds the data sub-sink itself, not a copy: the spans that
    are written to the sub-sink after [writeSubTable] are part of what
    the sink holds, so the sub-sink is attached here once it is
    complete. *)
Definition AATLookupWithDataOffset_write (writer : Writer)
           (value : list (string * T)) : result Writer :=
  do glyphs <- sorted_by_glyphID value;
  do '(offsetByGlyph, offsetByData, dataLen, compiledData) <-
     foldM data_step glyphs ([], ∅, 0, []);
  let lookupWriter := set_longOffset (getSubWriter writer) in
  do lookupWriter <-
     AATLookup_write Z.le 2 writeUShort getGlyphID numGlyphs lookupWriter
                     offsetByGlyph;
  let dataWriter := set_longOffset (getSubWriter writer) in
  let writer := writeSubTable writer lookupWriter in
  let dataWriter := foldl writeData dataWriter compiledData in
  Ok (writeSubTable writer dataWriter).
End AATLookupWithDataOffset.

(** ** GlyphID *)

Section GlyphID.
(** [reader.readUShortArray(count)]: a method of the reader, which is not
    part of the sources. *)
Variable readUShortArray : Reader -> Z -> result (list Z * Reader).

(** The glyph namespace of the font. *)
Variable getGlyphID : string -> result Z.
Variable getGlyphName : Z -> string.
Variable glyphOrder : list string.

Definition GlyphID_staticSize : Z := 2.

Definition GlyphID_read (reader : Reader) : result (string * Reader) :=
  do '(gid, reader) <- readUShort reader;
  Ok (getGlyphName gid, reader).

Definition GlyphID_write (writer : Writer) (value : string)
  : result Writer :=
  do gid <- getGlyphID value;
  writeUShort writer gid.

(** The list comprehension over [glyphOrder] raises [IndexError] at the
    first glyph ID that the glyph order does not have; the handler then
    names every glyph ID with [getGlyphName]. *)
Definition GlyphID_readArray (reader : Reader) (count : Z)
  : result (list string * Reader) :=
  do '(gids, reader) <- readUShortArray reader count;
  match foldM (fun l gid =>
                 do '(_, glyph) <- list_index glyphOrder gid;
                 Ok (l ++ [glyph]))
              gids [] with
  | Ok l => Ok (l, reader)
  | Raise IndexError => Ok (map getGlyphName gids, reader)
  | Raise e => Raise e
  end.
End GlyphID.

(** ** mutator.main: the location arguments *)

(** A string of the command line: the list of its characters, as [len]
    counts them (the code points of a Python 3 string, not the bytes of
    an encoding). *)
Definition text : Type := list Z.

(** [s.split(sep)] for a separator of one character. *)
Fixpoint split (sep : Z) (s : text) : list text :=
  match s with
  | [] => [[]]
  | c :: rest =>
      if c =? sep then [] :: split sep rest
      else match split sep rest with
           | first :: others => (c :: first) :: others
           | [] => [[c]]
           end
  end.

(** The characters [=] and space. *)
Definition equals_sign : Z := 61.
Definition space : Z := 32.

(** [while len(tag) < 4: tag += ' '], which runs its body at most four
    times. *)
Fixpoint pad_tag_loop (fuel : nat) (tag : text) : text :=
  match fuel with
  | O => tag
  | S fuel' =>
      if (length tag <? 4)%nat
      then pad_tag_loop fuel' (tag ++ [space])
      else tag
  end.

Section Mutator.
(** [float(valstr)]: the floats and their parser are not modelled. *)
Variable F : Type.
Variable float : text -> result F.

(** The body of the loop over [locargs]. *)
Definition location_step (loc : gmap text F) (arg : text)
  : result (gmap text F) :=
  do '(tag, valstr) <-
     match split equals_sign arg with
     | [tag; valstr] => Ok (tag, valstr)
     | _ => Raise ValueError
     end;
  let tag := pad_tag_loop 4 tag in
  do _ <- assert (length tag <=? 4)%nat;
  do value <- float valstr;
  Ok (<[tag := value]> loc).

Definition location (locargs : list text) : result (gmap text F) :=
  foldM location_step locargs ∅.
End Mutator.

(* ===================================================================== *)
(** * Vocabulary of the properties *)
(* ===================================================================== *)

Definition u16 (t : Z) : Prop := 0 <= t < 65536.

Definition clear_below (t s : Z) : Prop :=
  forall i, 0 <= i < s -> Z.testbit t i = false.

Definition field (n v : Z) : Z := Z.land v (Z.shiftl 1 n - 1).

Definition pack_field (t n s v : Z) : Z := Z.lor t (Z.shiftl (field n v) s).

Definition word_items (ws : list Z) : list item :=
  map (fun x => IData (be_encode 2 x)) ws.

Definition words_bytes (ws : list Z) : bytes :=
  concat (map (be_encode 2) ws).

(** What the decoder makes of the words [out], when the encoder was in
    state [(tmp, shift)] before it packed [vs]: at a word boundary the
    decoder fetches a fresh word; inside a word it already holds the word
    whose upper bits the encoder has fixed so far. *)
Definition reads_back (nBits : Z) (vs : list Z) (tmp shift : Z)
           (out : list Z) : Prop :=
  if shift =? 16 then
    forall pre post off tr,
      DeltaValue.read_loop nBits (length vs) tr 0
        (mkReader (pre ++ words_bytes out ++ post) off (Z.of_nat (length pre)))
      = Ok (vs, mkReader (pre ++ words_bytes out ++ post) off
                  (Z.of_nat (length pre) + 2 * Z.of_nat (length out)))
  else
    exists w0 rest,
      out = w0 :: rest /\ u16 w0 /\ Z.shiftr w0 shift = Z.shiftr tmp shift /\
      forall pre post off,
        DeltaValue.read_loop nBits (length vs) w0 shift
          (mkReader (pre ++ words_bytes rest ++ post) off
                    (Z.of_nat (length pre)))
        = Ok (vs, mkReader (pre ++ words_bytes rest ++ post) off
                    (Z.of_nat (length pre) + 2 * Z.of_nat (length rest))).

Definition in_field (nBits v : Z) : Prop :=
  - 2 ^ (nBits - 1) <= v < 2 ^ (nBits - 1).

Definition td_delta (StartSize EndSize DeltaFormat : Z) : gmap string Z :=
  <["StartSize" := StartSize]>
    (<["EndSize" := EndSize]> (<["DeltaFormat" := DeltaFormat]> ∅)).

(** An index the converter keeps: a 32-bit value whose low half fits the
    inner field and whose on-disk form fits one entry. *)
Definition storable (fmt idx : Z) : Prop :=
  0 <= idx < 2 ^ 32 /\
  Z.land idx 0xFFFF < 2 ^ VarIdxMapValue.innerBits fmt /\
  VarIdxMapValue.encode_entry fmt idx < 256 ^ VarIdxMapValue.entrySize fmt.

Definition entry_items (n : nat) (fmt : Z) (mapping : list Z) : list item :=
  map (fun idx => IData (be_encode n (VarIdxMapValue.encode_entry fmt idx)))
      mapping.

Definition entry_bytes (n : nat) (fmt : Z) (mapping : list Z) : bytes :=
  concat (map (fun idx => be_encode n (VarIdxMapValue.encode_entry fmt idx))
              mapping).

Definition td_varidx (EntryFormat MappingCount : Z) : gmap string Z :=
  <["EntryFormat" := EntryFormat]> (<["MappingCount" := MappingCount]> ∅).

(** A sink whose MappingCount cell is still to be filled. *)
Definition writer_with_count : Writer :=
  mkWriter [] false false "" None (<["MappingCount" := None]> ∅).

(** Encode one mapping into a fresh sink, then decode the bytes. *)
Definition VarIdx_write_then_read (fmt : Z) (mapping : list Z)
  : result (list Z) :=
  let td := td_varidx fmt (Z.of_nat (length mapping)) in
  do w <- VarIdxMapValue.write writer_with_count td mapping;
  match items_data (w_items w) with
  | Some bs => do '(m, _) <- VarIdxMapValue.read (mkReader bs 0 0) td; Ok m
  | None => Raise ValueError
  end.

Definition null_offset (c : OffsetConverter) : bytes :=
  if longOffset c then [0; 0; 0; 0] else [0; 0].

(** [emits n w w']: the sink [w'] is [w] with [n] more bytes of data,
    nothing of [w] changed. *)
Definition emits (n : Z) (w w' : Writer) : Prop :=
  getDataLength w' = getDataLength w + n /\
  w_items w `prefix_of` w_items w'.

(** A step that always succeeds and emits [n] bytes. *)
Definition step_emits (n : Z) (f : Writer -> result Writer) : Prop :=
  forall w, exists w', f w = Ok w' /\ emits n w w'.

(** A table writer: always succeeds, starts with the format word and
    emits [size] bytes in all. *)
Definition writes_table (fmt size : Z) (f : Writer -> result Writer) : Prop :=
  forall w, exists w',
    f w = Ok w' /\
    getDataLength w' = getDataLength w + size /\
    (w_items w ++ [IData (be_encode 2 fmt)]) `prefix_of` w_items w'.

Section AATLookupWritable.
Context {Val : Type}.
Variable valueSize : Z.
Variable conv_write : Writer -> Val -> result Writer.

(** A value the converter writes, in [valueSize] bytes. *)
Definition okv (v : Val) : Prop :=
  step_emits valueSize (fun w => conv_write w v).

(** An entry that can be written: a 16-bit glyph ID and such a value. *)
Definition oke (e : Z * Val) : Prop := u16 e.1 /\ okv e.2.

Definition oks (s : Z * Z * Val) : Prop :=
  u16 s.1.1 /\ u16 s.1.2 /\ okv s.2.
End AATLookupWritable.

Section AATLookupCandidates.
Context {Val : Type} `{EqDecision Val}.
Variable valueSize : Z.
Variable numGlyphs : Z.

(** The segments of format 2, for sorted entries. *)
Definition segments_of (values : list (Z * Val)) : list (Z * Z * Val) :=
  match values with
  | [] => []
  | (segStart, segValue) :: rest =>
      segments_loop rest segStart segStart segValue []
  end.

(** The glyph IDs of sorted entries form one unbroken run. *)
Definition contiguous (values : list (Z * Val)) : bool :=
  match values, last values with
  | (minGlyphID, _) :: _, Some (maxGlyphID, _) =>
      Z.of_nat (length values) =? maxGlyphID - minGlyphID + 1
  | _, _ => false
  end.

(** The structurally valid formats with their sizes: format 0 when the
    mapping has as many entries as the font has glyphs, format 8 when
    the glyph IDs are contiguous, formats 2 and 6 always. *)
Definition candidate_sizes (values : list (Z * Val)) : list (Z * Z) :=
  (if Z.of_nat (length values) =? numGlyphs
   then [(2 + numGlyphs * valueSize, 0)] else [])
  ++ [(2 + 10 + (Z.of_nat (length (segments_of values)) + 1)
                * (valueSize + 4), 2);
      (2 + 10 + (Z.of_nat (length values) + 1) * (valueSize + 2), 6)]
  ++ (if contiguous values
      then [(6 + Z.of_nat (length values) * valueSize, 8)] else []).
End AATLookupCandidates.

(** A candidate whose method writes what the candidate announces. *)
Definition good (c : candidate) : Prop := writes_table c.1.2 c.1.1 c.2.

(** The five fields of the binary-search header of [numUnits] units of
    [unitSize] bytes all fit 16 bits. *)
Definition header_fits (numUnits unitSize : Z) : Prop :=
  u16 unitSize /\ u16 numUnits /\
  u16 (getSearchRange numUnits unitSize).1.1 /\
  u16 (getSearchRange numUnits unitSize).1.2 /\
  u16 (getSearchRange numUnits unitSize).2.

(** What the sink has to take, besides the entries, for the table of
    format [lookupFormat]: the binary-search header of the formats 2
    and 6, the count of format 8. *)
Definition format_fits {Val : Type} `{EqDecision Val} (valueSize : Z)
           (values : list (Z * Val)) (lookupFormat : Z) : Prop :=
  if lookupFormat =? 2
  then header_fits (Z.of_nat (length (segments_of values))) (valueSize + 4)
  else if lookupFormat =? 6
  then header_fits (Z.of_nat (length values)) (valueSize + 2)
  else if lookupFormat =? 8
  then u16 (Z.of_nat (length values))
  else True.

(** A font fragment for the examples: four glyphs named after their IDs. *)
Definition ex_getGlyphID (g : string) : result Z :=
  if bool_decide (g = "g10") then Ok 10
  else if bool_decide (g = "g11") then Ok 11
  else if bool_decide (g = "g12") then Ok 12
  else if bool_decide (g = "g13") then Ok 13
  else Raise KeyError.

(** A CID-keyed font for the examples: the glyph of glyph ID [n] is
    named [cid] and the five decimal digits of [n]. *)
Definition digit (d : Z) : Ascii.ascii := Ascii.ascii_of_nat (48 + Z.to_nat d).

Definition ex_cid_name (gid : Z) : string :=
  String.append "cid"
    (String (digit (gid / 10000 mod 10))
       (String (digit (gid / 1000 mod 10))
          (String (digit (gid / 100 mod 10))
             (String (digit (gid / 10 mod 10))
                (String (digit (gid mod 10)) EmptyString))))).

Definition ex_cid_getGlyphID (g : string) : result Z :=
  if String.eqb (String.substring 0 3 g) "cid"
  then Ok (foldl (fun n c => 10 * n + (Z.of_nat (Ascii.nat_of_ascii c) - 48))
                 0 (String.list_ascii_of_string (String.substring 3 5 g)))
  else Raise KeyError.

(** Every other glyph of the first 32768, all with one value: 16384
    entries that no two form a segment. *)
Definition ex_cid_mapping : list (string * Z) :=
  map (fun i => (ex_cid_name (2 * i), 0)) (seqZ 0 16384).

(** The running maximum of [index + 1] over a list of indices. *)
Definition max_succ (numLookups : Z) (indices : list Z) : Z :=
  foldl (fun a i => Z.max a (i + 1)) numLookups indices.

Section STXReferences.
Variable Action : Type.
Variable contextual : Action -> option (Z * Z).

(** The per-glyph-lookup indices one transition refers to: both
    indices of a contextual action, 0xFFFF standing for none. *)
Definition refs_of_transition (t : Action) : list Z :=
  match contextual t with
  | Some (MarkIndex, CurrentIndex) =>
      (if MarkIndex =? 0xFFFF then [] else [MarkIndex])
      ++ (if CurrentIndex =? 0xFFFF then [] else [CurrentIndex])
  | None => []
  end.

Definition refs_of_state (state : AATState Action) : list Z :=
  concat (refs_of_transition <$> (snd <$> map_to_list (Transitions state))).

(** All the indices the transitions of a table refer to. *)
Definition referenced (table : AATStateTable Action) : list Z :=
  concat (refs_of_state <$> States table).
End STXReferences.
Arguments referenced {Action} contextual table.

(** An action class for the examples, shaped like the contextual morph
    action: four 16-bit fields NewState, Flags, MarkIndex, CurrentIndex. *)
Definition ex_Action : Type := Z * Z * Z * Z.

Definition ex_compile (a : ex_Action) : result bytes :=
  let '(NewState, Flags, MarkIndex, CurrentIndex) := a in
  Ok (be_encode 2 NewState ++ be_encode 2 Flags
      ++ be_encode 2 MarkIndex ++ be_encode 2 CurrentIndex).

Definition ex_staticSize (a : ex_Action) : Z := 8.

Definition ex_contextual (a : ex_Action) : option (Z * Z) :=
  let '(_, _, MarkIndex, CurrentIndex) := a in Some (MarkIndex, CurrentIndex).

(** Two states over two classes; three of the four cells compile to the
    same bytes. *)
Definition ex_table (lookups : list (list (string * string)))
  : AATStateTable ex_Action :=
  mkAATStateTable 2 [("g10", 0); ("g11", 1)]
    [mkAATState (<[0 := (0, 0, 0xFFFF, 0xFFFF)]>
                   (<[1 := (1, 0x8000, 2, 0xFFFF)]> ∅));
     mkAATState (<[0 := (0, 0, 0xFFFF, 0xFFFF)]>
                   (<[1 := (0, 0, 0xFFFF, 0xFFFF)]> ∅))]
    lookups.

Section STXCells.
Variable Action : Type.
Variable compile_action : Action -> result bytes.
Variable staticSize : Action -> Z.

Local Abbreviation State := (AATState Action).

(** The compiled bytes of the cell [(state, glyphClass)], when the
    state has a transition for the class and it compiles. *)
Definition cell_of (state : State) (glyphClass : Z) : option bytes :=
  match Transitions state !! glyphClass with
  | Some t => match compile_action t with
              | Ok b => Some b
              | Raise _ => None
              end
  | None => None
  end.

(** The cells of the state array in the order [write] visits them:
    state by state, class by class, each with its compiled bytes. *)
Definition row_cells (glyphClassCount : Z) (state : State)
  : list (State * Z * bytes) :=
  omap (fun c => (fun b => (state, c, b)) <$> cell_of state c)
       (range glyphClassCount).

Definition cell_list (states : list State) (glyphClassCount : Z)
  : list (State * Z * bytes) :=
  concat (row_cells glyphClassCount <$> states).

(** A cell [write] can encode: the transition is there and compiles
    to as many bytes as its class announces. *)
Definition cell_ok (state : State) (glyphClass : Z) : Prop :=
  exists t b, Transitions state !! glyphClass = Some t /\
              compile_action t = Ok b /\
              Z.of_nat (length b) = staticSize t.

Definition cell_step (acc : list bytes * gmap bytes Z * Writer)
           (cell : State * Z * bytes) :=
  compile_cell Action compile_action staticSize cell.1.1 acc cell.1.2.

(** A listed cell carries the bytes its transition compiles to. *)
Definition cell_compiled (cell : State * Z * bytes) : Prop :=
  exists t, Transitions cell.1.1 !! cell.1.2 = Some t /\
            compile_action t = Ok cell.2 /\
            Z.of_nat (length cell.2) = staticSize t.
End STXCells.

(** What the loop has built after the cells [cs]: [entries] has no
    duplicate, [entryIDs] maps each entry to its position, the state
    array [indices] holds for each cell the position of its bytes,
    and the entries are the bytes met so far. *)
Definition entries_inv (entries : list bytes) (entryIDs : gmap bytes Z)
           (indices : list Z) (cs : list bytes) : Prop :=
  NoDup entries /\
  (forall b i, entryIDs !! b = Some i <->
               0 <= i /\ entries !! Z.to_nat i = Some b) /\
  Forall2 (fun i b => 0 <= i /\ entries !! Z.to_nat i = Some b)
          indices cs /\
  (forall b, b ∈ entries <-> b ∈ cs).

(** The unsigned integer converters a length field is declared with, and
    their widths. *)
Inductive length_field : Converter -> nat -> Prop :=
| length_field_UInt8 name : length_field (UInt8 name) 1
| length_field_UShort name : length_field (UShort name) 2
| length_field_ULong name : length_field (ULong name) 4.

(** Two fields and three bytes behind them: a struct of 2 + 1 + 3 bytes
    whose length field is a byte. *)
Definition ex_struct_converters : list Converter :=
  [UShort "Flags"; UInt8 "StructLength"].

Definition ex_struct_compile (StructLength : Z) (writer : Writer)
  : result Writer :=
  do writer <- writeUShort writer 7;
  do writer <- writeUInt8 writer StructLength;
  Ok (writeData writer [1; 2; 3]).

Section LazyListInvariant.
Context {V : Type}.
Variable conv_read : gmap string Z -> Reader -> result (V * Reader).
Variable recordSize : Z.

(** A lazy list of the array [l] behind [reader]: its cursor is on the
    buffer of [reader], and position [k] holds [_MissingItem([k])] or the
    value [l[k]]. *)
Definition lazy_of (reader : Reader) (l : list V) (self : _LazyList V)
  : Prop :=
  ll_pos self = r_pos reader /\ ll_recordSize self = recordSize /\
  r_data (ll_reader self) = r_data reader /\
  r_offset (ll_reader self) = r_offset reader /\
  length (ll_data self) = length l /\
  forall k s, ll_data self !! k = Some s ->
              s = MissingItem (Z.of_nat k) \/
              exists v, s = Item v /\ l !! k = Some v.

(** [l] is what [read] decodes at the multiples of [recordSize] behind
    [reader]. *)
Definition decodes_to (reader : Reader) (l : list V) : Prop :=
  forall k v, l !! k = Some v ->
              conv_read ∅ (advance reader (Z.of_nat k * recordSize))
              = Ok (v, advance reader (Z.of_nat (S k) * recordSize)).
End LazyListInvariant.

(** Nine 16-bit values, read by the converter of class [UShort]. *)
Definition ex_array : bytes :=
  [0; 1; 0; 2; 0; 3; 0; 4; 0; 5; 0; 6; 0; 7; 0; 8; 0; 9].

Definition ex_UShort_read (tableDict : gmap string Z) (reader : Reader)
  : result (Z * Reader) := readUShort reader.

(** A signed value of [n] bytes, and its bytes on the wire. *)
Definition fits_signed (n : nat) (v : Z) : Prop :=
  - 2 ^ (8 * Z.of_nat n - 1) <= v < 2 ^ (8 * Z.of_nat n - 1).

Definition signed_bytes (n : nat) (v : Z) : bytes :=
  be_encode n (v mod 256 ^ Z.of_nat n).

Definition td_vardata (VarRegionCount NumShorts : Z) : gmap string Z :=
  <["VarRegionCount" := VarRegionCount]> (<["NumShorts" := NumShorts]> ∅).

(** The value of the low [bits] bits of [v], read as a signed number. *)
Definition wrap_signed (bits v : Z) : Z := to_signed bits (v mod 2 ^ bits).

(** What [VarIdxMapValue] keeps of an index: its upper half and the low
    [innerBits] bits. *)
Definition kept_index (fmt idx : Z) : Z :=
  Z.lor (Z.land idx 0xFFFF0000)
        (Z.land idx (Z.shiftl 1 (VarIdxMapValue.innerBits fmt) - 1)).

(** The range of an integer converter, and a value of it on the wire. *)
Definition IntValue_signed (c : IntValue) : bool :=
  match c with
  | CLong | CShort | CInt8 => true
  | CULong | CUShort | CUInt8 | CUInt24 => false
  end.

Definition IntValue_fits (c : IntValue) (v : Z) : Prop :=
  let n := Z.to_nat (IntValue_staticSize c) in
  if IntValue_signed c then fits_signed n v else 0 <= v < 256 ^ Z.of_nat n.

Definition IntValue_bytes (c : IntValue) (v : Z) : bytes :=
  let n := Z.to_nat (IntValue_staticSize c) in
  if IntValue_signed c then signed_bytes n v else be_encode n v.

(** ** AATLookup on the wire *)

(** [writes f bs]: on every sink, [f] succeeds and appends byte spans
    that make up [bs]. *)
Definition writes (f : Writer -> result Writer) (bs : bytes) : Prop :=
  forall w, exists its,
    f w = Ok (extend w its) /\ items_data its = Some bs.

(** The five words of a binary-search header. *)
Definition header_bytes (numUnits unitSize : Z) : bytes :=
  let '(searchRange, entrySelector, rangeShift) :=
    getSearchRange numUnits unitSize in
  be_encode 2 unitSize ++ be_encode 2 numUnits ++ be_encode 2 searchRange
  ++ be_encode 2 entrySelector ++ be_encode 2 rangeShift.

Section AATLookupWire.
Context {Val : Type}.
Variable valueSize : Z.
Variable enc : Val -> bytes.
Variable conv_read : Reader -> result (Val * Reader).
Variable getGlyphName : Z -> string.
Variable numGlyphs : Z.

(** The tables of the four formats that [write] knows. *)
Definition values_bytes (values : list (Z * Val)) : bytes :=
  concat (map (fun e => enc e.2) values).

Definition format0_bytes (values : list (Z * Val)) : bytes :=
  be_encode 2 0 ++ values_bytes values.

Definition format8_bytes (first : Z) (values : list (Z * Val)) : bytes :=
  be_encode 2 8 ++ be_encode 2 first
  ++ be_encode 2 (Z.of_nat (length values)) ++ values_bytes values.

Definition unit6 (e : Z * Val) : bytes := be_encode 2 e.1 ++ enc e.2.

Definition format6_bytes (values : list (Z * Val)) : bytes :=
  be_encode 2 6
  ++ header_bytes (Z.of_nat (length values)) (valueSize + 2)
  ++ concat (map unit6 values)
  ++ be_encode 2 0xFFFF ++ replicate (Z.to_nat valueSize) 0.

Definition unit2 (s : Z * Z * Val) : bytes :=
  be_encode 2 s.1.2 ++ be_encode 2 s.1.1 ++ enc s.2.

Definition format2_bytes (segments : list (Z * Z * Val)) : bytes :=
  be_encode 2 2
  ++ header_bytes (Z.of_nat (length segments)) (valueSize + 4)
  ++ concat (map unit2 segments)
  ++ be_encode 2 0xFFFF ++ be_encode 2 0xFFFF
  ++ replicate (Z.to_nat valueSize) 0.

(** The mapping that [(glyphID, value)] entries stand for, the later of
    two entries for a glyph winning. *)
Definition insert_entries (m : gmap string Val) (values : list (Z * Val))
  : gmap string Val :=
  foldl (fun m e => <[getGlyphName e.1 := e.2]> m) m values.

(** The entries that [(firstGlyph, lastGlyph, value)] segments stand
    for. *)
Definition expand (segments : list (Z * Z * Val)) : list (Z * Val) :=
  flat_map (fun s => map (fun k => (k, s.2))
                         (seqZ s.1.1 (s.1.2 + 1 - s.1.1))) segments.

(** [reads_mapping bs m]: wherever the bytes [bs] lie in a buffer,
    [AATLookup.read] decodes the mapping [m] from them. *)
Definition reads_mapping (bs : bytes) (m : gmap string Val) : Prop :=
  forall pre post off, exists reader',
    AATLookup_read valueSize conv_read getGlyphName numGlyphs
                   (mkReader (pre ++ bs ++ post) off (Z.of_nat (length pre)))
    = Ok (m, reader').

(** A glyph of the font: its name resolves to a glyph ID below the
    number of glyphs, which names it. *)
Definition glyph_of_font (getGlyphID : string -> result Z) (g : string)
  : Prop :=
  exists gid, getGlyphID g = Ok gid /\ 0 <= gid < numGlyphs /\
              getGlyphName gid = g.
End AATLookupWire.

(** The names of the glyphs of the font fragment of the examples. *)
Definition ex_getGlyphName (gid : Z) : string :=
  if gid =? 10 then "g10"
  else if gid =? 11 then "g11"
  else if gid =? 12 then "g12"
  else if gid =? 13 then "g13"
  else ".notdef".

(** ** CIDGlyphMap and GlyphCIDMap on the wire *)

(** The count that both [write]s derive from the keys of a dict. *)
Definition count_of {V : Type} (items : gmap Z V) : Z :=
  match max_key items with Some m => m + 1 | None => 0 end.

(** The cells that follow the count: the value of each index below the
    count, [0xFFFF] for an index that is not a key. *)
Definition cells (items : gmap Z Z) : list Z :=
  map (fun i => default 0xFFFF (items !! i)) (range (count_of items)).

Definition cells_bytes (items : gmap Z Z) : bytes :=
  be_encode 2 (count_of items) ++ concat (map (be_encode 2) (cells items)).

(** What is asked of [readUShortArray]: from a buffer that holds [count]
    big-endian 16-bit words at the cursor, it returns these words and
    leaves the cursor behind them. *)
Definition reads_words
           (readUShortArray : Reader -> Z -> result (list Z * Reader))
  : Prop :=
  forall pre ws post off, Forall u16 ws ->
    readUShortArray
      (mkReader (pre ++ concat (map (be_encode 2) ws) ++ post) off
                (Z.of_nat (length pre)))
      (Z.of_nat (length ws))
    = Ok (ws, mkReader (pre ++ concat (map (be_encode 2) ws) ++ post) off
                       (Z.of_nat (length pre) + 2 * Z.of_nat (length ws))).

(** The glyph ID of a glyph that the font resolves. *)
Definition gid_of (getGlyphID : string -> result Z) (g : string) : Z :=
  match getGlyphID g with Ok gid => gid | Raise _ => 0 end.

(** The entries of a glyph-to-CID dict that [GlyphCIDMap.write] keeps. *)
Definition kept_cids (value : list (string * option Z))
  : list (string * Z) :=
  omap (fun x : string * option Z =>
          match x.2 with
          | Some cid => if cid =? 0xFFFF then None else Some (x.1, cid)
          | None => None
          end) value.

(** An array reader for the examples: one [readUShort] for each word. *)
Definition ex_readUShortArray (reader : Reader) (count : Z)
  : result (list Z * Reader) :=
  foldM (fun '(values, reader) _ =>
           do '(v, reader) <- readUShort reader; Ok (values ++ [v], reader))
        (range count) ([], reader).

(** A glyph order for the examples: fourteen glyphs, the last four of
    them named. *)
Definition ex_glyphOrder : list string := map ex_getGlyphName (range 14).

(** ** Char64 on the wire *)

(** A byte string up to its first NUL. *)
Fixpoint until_nul (data : bytes) : bytes :=
  match data with
  | [] => []
  | x :: rest => if x =? 0 then [] else x :: until_nul rest
  end.

(** The 64 bytes of a string. *)
Definition Char64_bytes (replacement_byte : Z) (value : list Z) : bytes :=
  take 64 (tobytes replacement_byte value ++ replicate 64 0).

(** ** AATLookupWithDataOffset: where the data lies *)

(** [located table offset data]: the bytes [data] lie at [offset] in
    [table]. *)
Definition located (table : bytes) (offset : Z) (data : bytes) : Prop :=
  exists pre post,
    table = pre ++ data ++ post /\ Z.of_nat (length pre) = offset.

Section DataOffsets.
Variable T : Type.
Variable compile_table : T -> result bytes.

(** The state of the loop of [write] after the glyphs [done]. *)
Definition data_inv (done : list (Z * (string * T)))
           (acc : list (string * Z) * gmap bytes Z * Z * list bytes)
  : Prop :=
  let '(offsetByGlyph, offsetByData, dataLen, compiledData) := acc in
  dataLen = Z.of_nat (length (concat compiledData)) /\
  NoDup compiledData /\
  (forall data offset,
     offsetByData !! data = Some offset ->
     data ∈ compiledData /\ located (concat compiledData) offset data) /\
  (forall data, data ∈ compiledData ->
     is_Some (offsetByData !! data) /\
     exists x, x ∈ done /\ compile_table x.2.2 = Ok data) /\
  Forall2 (fun (o : string * Z) (x : Z * (string * T)) =>
             o.1 = x.2.1 /\
             exists data, compile_table x.2.2 = Ok data /\
                          offsetByData !! data = Some o.2)
          offsetByGlyph done.
End DataOffsets.

(** Two tables for the examples, by their compiled bytes. *)
Definition ex_compile_table (t : bytes) : result bytes := Ok t.

(** [extends_only f]: when [f] succeeds, the sink it returns is the
    sink it was given with more items at its end. *)
Definition extends_only (f : Writer -> result Writer) : Prop :=
  forall w w', f w = Ok w' -> exists its, w' = extend w its.

(** The characters of a string of ASCII characters. *)
Definition chars (s : string) : text :=
  map (fun c => Z.of_nat (Ascii.nat_of_ascii c)) (String.list_ascii_of_string s).

(* ===================================================================== *)
(** * Properties *)
(* ===================================================================== *)

(** ** The error monad *)

Lemma bind_ok {A B} (m : result A) (k : A -> result B) b :
  bind m k = Ok b -> exists a, m = Ok a /\ k a = Ok b.
Proof. destruct m; simpl; intros H; [eauto | discriminate]. Qed.

(** ** Bits *)

Lemma land_pow2 m k : 0 <= k ->
  Z.land m (2 ^ k) = if Z.testbit m k then 2 ^ k else 0.
Proof.
  intros Hk. apply Z.bits_inj'. intros i Hi.
  rewrite Z.land_spec, Z.pow2_bits_eqb by lia.
  destruct (Z.eqb_spec k i) as [->|Hne].
  - destruct (Z.testbit m i); simpl.
    + rewrite Z.pow2_bits_eqb, Z.eqb_refl by lia. reflexivity.
    + rewrite Z.testbit_0_l. reflexivity.
  - rewrite andb_false_r. destruct (Z.testbit m k).
    + rewrite Z.pow2_bits_eqb by lia. symmetry. apply Z.eqb_neq. lia.
    + rewrite Z.testbit_0_l. reflexivity.
Qed.

Lemma testbit_top m k : 0 <= k -> 0 <= m < 2 ^ (k + 1) ->
  Z.testbit m k = (2 ^ k <=? m).
Proof.
  intros Hk Hm.
  rewrite Z.pow_add_r, Z.pow_1_r in Hm by lia.
  assert (Hp : 0 < 2 ^ k) by (apply Z.pow_pos_nonneg; lia).
  destruct (Z.leb_spec (2 ^ k) m) as [H|H].
  - apply Z.testbit_true; [lia|].
    assert (m / 2 ^ k = 1) as ->; [|reflexivity].
    symmetry. apply Z.div_unique with (r := m - 2 ^ k); lia.
  - rewrite Z.testbit_false by lia.
    rewrite Z.div_small by lia. reflexivity.
Qed.

Lemma testbit_high t n i : 0 <= n -> 0 <= t < 2 ^ n -> n <= i ->
  Z.testbit t i = false.
Proof.
  intros Hn Ht Hi. rewrite <- (Z.mod_small t (2 ^ n)) by lia.
  apply Z.mod_pow2_bits_high. lia.
Qed.

Lemma bounded_by_bits t n : 0 <= n -> 0 <= t ->
  (forall i, n <= i -> Z.testbit t i = false) -> t < 2 ^ n.
Proof.
  intros Hn Ht H.
  assert (E : t mod 2 ^ n = t).
  { apply Z.bits_inj'. intros i Hi. rewrite Z.testbit_mod_pow2 by lia.
    destruct (Z.ltb_spec i n); simpl; [reflexivity|].
    symmetry. apply H. lia. }
  rewrite <- E. apply Z.mod_pos_bound. apply Z.pow_pos_nonneg; lia.
Qed.

(** Two's complement over an [n]-bit field: masking then sign-extending
    gives the value back. *)
Lemma sign_fix n v : 0 < n -> - 2 ^ (n - 1) <= v < 2 ^ (n - 1) ->
  let mask := Z.shiftl 1 n - 1 in
  let value := Z.land v mask in
  (if Z.land value (Z.shiftl 1 (n - 1)) =? 0 then value
   else value - Z.shiftl 1 n) = v.
Proof.
  intros Hn Hv mask value. subst mask value.
  rewrite !Z.shiftl_1_l.
  replace (2 ^ n - 1) with (Z.ones n) by (rewrite Z.ones_equiv; lia).
  rewrite Z.land_ones by lia.
  assert (Hp : 0 < 2 ^ (n - 1)) by (apply Z.pow_pos_nonneg; lia).
  assert (H2 : 2 ^ n = 2 * 2 ^ (n - 1)).
  { replace n with (n - 1 + 1) at 1 by lia. rewrite Z.pow_add_r by lia. lia. }
  assert (Hm : 0 <= v mod 2 ^ n < 2 ^ n) by (apply Z.mod_pos_bound; lia).
  rewrite land_pow2 by lia.
  rewrite testbit_top by (replace (n - 1 + 1) with n by lia; lia).
  destruct (Z.leb_spec (2 ^ (n - 1)) (v mod 2 ^ n)) as [H|H].
  - destruct (Z.eqb_spec (2 ^ (n - 1)) 0); [lia|].
    assert (v mod 2 ^ n = v + 2 ^ n); [|lia].
    symmetry. apply Z.mod_unique with (q := -1); [|lia].
    left. destruct (Z.le_gt_cases 0 v); [|lia].
    rewrite Z.mod_small in H by lia. lia.
  - simpl. destruct (Z.le_gt_cases 0 v).
    + apply Z.mod_small. lia.
    + assert (v mod 2 ^ n = v + 2 ^ n); [|lia].
      symmetry. apply Z.mod_unique with (q := -1); lia.
Qed.

Section PackStep.
Variables n s t v : Z.
Hypothesis Hn : 0 < n.
Hypothesis Hs : 0 <= s.
Hypothesis Hfit : s + n <= 16.
Hypothesis Ht : u16 t.
Hypothesis Hclear : clear_below t (s + n).

Local Abbreviation m := (field n v).
Local Abbreviation t' := (pack_field t n s v).

Lemma mask_ones : Z.shiftl 1 n - 1 = Z.ones n.
Proof. rewrite Z.shiftl_1_l, Z.ones_equiv. lia. Qed.

Lemma field_range : 0 <= m < 2 ^ n.
Proof.
  unfold field. rewrite mask_ones, Z.land_ones by lia.
  apply Z.mod_pos_bound. apply Z.pow_pos_nonneg; lia.
Qed.

Lemma pack_u16 : u16 t'.
Proof.
  pose proof field_range as Hm. unfold u16 in *. split.
  - unfold pack_field. apply Z.lor_nonneg. split; [lia|].
    apply Z.shiftl_nonneg. lia.
  - change 65536 with (2 ^ 16). apply bounded_by_bits; [lia | |].
    + unfold pack_field. apply Z.lor_nonneg. split; [lia|].
      apply Z.shiftl_nonneg. lia.
    + intros i Hi. unfold pack_field. rewrite Z.lor_spec, Z.shiftl_spec by lia.
      rewrite (testbit_high t 16 i) by (change (2 ^ 16) with 65536; lia).
      rewrite (testbit_high m n (i - s)) by lia. reflexivity.
Qed.

Lemma pack_clear : clear_below t' s.
Proof.
  intros i Hi. unfold pack_field. rewrite Z.lor_spec, Hclear by lia.
  rewrite Z.shiftl_spec_low by lia. reflexivity.
Qed.

(** A word that agrees with [t'] from bit [s] upwards holds the field
    at bit [s], and agrees with [t] above the field. *)
Lemma unpack_field w :
  Z.shiftr w s = Z.shiftr t' s ->
  Z.land (Z.shiftr w s) (Z.shiftl 1 n - 1) = m.
Proof.
  intros ->. pose proof field_range as Hm.
  rewrite mask_ones. apply Z.bits_inj'. intros i Hi.
  rewrite Z.land_spec, Z.shiftr_spec by lia. unfold pack_field.
  rewrite Z.lor_spec, Z.shiftl_spec by lia.
  replace (i + s - s) with i by lia.
  rewrite Z.testbit_ones_nonneg by lia.
  destruct (Z.ltb_spec i n).
  - rewrite Hclear by lia. simpl. apply andb_true_r.
  - rewrite andb_false_r. symmetry. apply (testbit_high m n); lia.
Qed.

Lemma unpack_above w :
  Z.shiftr w s = Z.shiftr t' s ->
  Z.shiftr w (s + n) = Z.shiftr t (s + n).
Proof.
  intros H. pose proof field_range as Hm.
  rewrite <- (Z.shiftr_shiftr w s n), H, Z.shiftr_shiftr by lia.
  apply Z.bits_inj'. intros i Hi.
  rewrite !Z.shiftr_spec by lia. unfold pack_field.
  rewrite Z.lor_spec, Z.shiftl_spec by lia.
  rewrite (testbit_high m n (i + (s + n) - s)) by lia.
  apply orb_false_r.
Qed.
End PackStep.

(** ** Big-endian scalars and the cursor *)

Lemma be_decode_from n : forall v acc,
  fold_left (fun a b => a * 256 + b) (be_encode n v) acc
  = acc * 256 ^ Z.of_nat n + v mod 256 ^ Z.of_nat n.
Proof.
  induction n as [|n IH]; intros v acc.
  - simpl. rewrite Z.mod_1_r. lia.
  - cbn [be_encode fold_left]. rewrite IH.
    rewrite Nat2Z.inj_succ, Z.pow_succ_r by lia.
    assert (Hp : 0 < 256 ^ Z.of_nat n) by (apply Z.pow_pos_nonneg; lia).
    rewrite (Z.mul_comm 256 (256 ^ Z.of_nat n)).
    rewrite (Z.rem_mul_r v (256 ^ Z.of_nat n) 256) by lia. lia.
Qed.

Lemma be_decode_encode n v :
  0 <= v < 256 ^ Z.of_nat n -> be_decode (be_encode n v) = v.
Proof.
  intros Hv. unfold be_decode. rewrite be_decode_from, Z.mod_small; lia.
Qed.

Lemma length_be_encode n v : length (be_encode n v) = n.
Proof. induction n; simpl; congruence. Qed.

Lemma readData_at pre bs post off :
  readData (mkReader (pre ++ bs ++ post) off (Z.of_nat (length pre)))
           (Z.of_nat (length bs))
  = Ok (bs, mkReader (pre ++ bs ++ post) off
                     (Z.of_nat (length pre) + Z.of_nat (length bs))).
Proof.
  unfold readData. cbn [r_pos r_data].
  rewrite !length_app.
  match goal with
  | |- context [if ?c then _ else _] =>
      replace c with true
        by (symmetry; rewrite !andb_true_iff, !Z.leb_le; lia)
  end.
  rewrite !Nat2Z.id, drop_app_length, take_app_length. reflexivity.
Qed.

Lemma readU_at (n : nat) pre v post off :
  0 <= v < 256 ^ Z.of_nat n ->
  readU (Z.of_nat n)
        (mkReader (pre ++ be_encode n v ++ post) off (Z.of_nat (length pre)))
  = Ok (v, mkReader (pre ++ be_encode n v ++ post) off
                    (Z.of_nat (length pre) + Z.of_nat n)).
Proof.
  intros Hv. unfold readU.
  pose proof (readData_at pre (be_encode n v) post off) as H.
  rewrite length_be_encode in H. rewrite H. cbn [bind].
  rewrite be_decode_encode by assumption. reflexivity.
Qed.

Lemma readUShort_at pre v post off :
  u16 v ->
  readUShort (mkReader (pre ++ be_encode 2 v ++ post) off
                       (Z.of_nat (length pre)))
  = Ok (v, mkReader (pre ++ be_encode 2 v ++ post) off
                    (Z.of_nat (length pre) + 2)).
Proof. intros Hv. apply (readU_at 2). exact Hv. Qed.

(** ** DeltaValue: decode after encode *)

Lemma extend_nil w : extend w [] = w.
Proof. destruct w. unfold extend. simpl. rewrite app_nil_r. reflexivity. Qed.

Lemma extend_extend w a b : extend (extend w a) b = extend w (a ++ b).
Proof. unfold extend. simpl. rewrite app_assoc. reflexivity. Qed.

Lemma writeUShort_ok w v :
  u16 v -> writeUShort w v = Ok (extend w (word_items [v])).
Proof.
  intros [H0 H1]. unfold writeUShort, writeU.
  change (256 ^ Z.of_nat 2) with 65536.
  destruct (Z.leb_spec 0 v); [|lia]. destruct (Z.ltb_spec v 65536); [|lia].
  reflexivity.
Qed.

Lemma items_data_words ws : items_data (word_items ws) = Some (words_bytes ws).
Proof.
  induction ws as [|x ws IH]; [reflexivity|].
  cbn [word_items map items_data]. fold (word_items ws). rewrite IH.
  reflexivity.
Qed.

Lemma length_words_bytes ws :
  Z.of_nat (length (words_bytes ws)) = 2 * Z.of_nat (length ws).
Proof.
  induction ws as [|x ws IH]; [reflexivity|].
  unfold words_bytes in *. cbn [map concat]. rewrite length_app.
  rewrite length_be_encode. cbn [length]. lia.
Qed.

Lemma write_loop_reads_back nBits :
  0 < nBits -> (nBits | 16) ->
  forall vs tmp shift w,
    Forall (in_field nBits) vs ->
    0 < shift <= 16 -> (nBits | shift) -> u16 tmp -> clear_below tmp shift ->
    exists words tmp' shift',
      DeltaValue.write_loop nBits vs tmp shift w
      = Ok (tmp', shift', extend w (word_items words)) /\
      u16 tmp' /\ 0 < shift' <= 16 /\
      reads_back nBits vs tmp shift
        (words ++ if shift' =? 16 then [] else [tmp']).
Proof.
  intros Hn H16 vs.
  induction vs as [|v vs IH]; intros tmp shift w Hvs Hs Hd Ht Hc.
  - exists [], tmp, shift. cbn [DeltaValue.write_loop word_items map].
    rewrite extend_nil. repeat split; try tauto; try lia; try apply Ht.
    unfold reads_back. destruct (Z.eqb_spec shift 16) as [E|E].
    + intros pre post off tr. cbn. do 3 f_equal. lia.
    + exists tmp, []. repeat split; try apply Ht.
      intros pre post off. cbn. do 3 f_equal. lia.
  - inversion Hvs as [|? ? Hv Hvs']; subst.
    destruct Hd as [k Hk].
    assert (Hk1 : 1 <= k) by (destruct (Z.le_gt_cases 1 k); [assumption | nia]).
    assert (Hs' : 0 <= shift - nBits) by nia.
    cbn [DeltaValue.write_loop].
    fold (field nBits v). fold (pack_field tmp nBits (shift - nBits) v).
    set (s := shift - nBits) in *.
    assert (Hsn : s + nBits = shift) by (subst s; lia).
    assert (Hfit : s + nBits <= 16) by lia.
    assert (Hc' : clear_below tmp (s + nBits)) by (rewrite Hsn; exact Hc).
    assert (Ht1 : u16 (pack_field tmp nBits s v))
      by (apply pack_u16; assumption).
    assert (Hc1 : clear_below (pack_field tmp nBits s v) s)
      by (apply pack_clear; assumption).
    assert (Hfield : forall w0,
               Z.shiftr w0 s = Z.shiftr (pack_field tmp nBits s v) s ->
               Z.land (Z.shiftr w0 s) (Z.shiftl 1 nBits - 1) = field nBits v)
      by (intros w0; apply unpack_field; assumption).
    assert (Habove : forall w0,
               Z.shiftr w0 s = Z.shiftr (pack_field tmp nBits s v) s ->
               Z.shiftr w0 shift = Z.shiftr tmp shift)
      by (intros w0 Hw0; rewrite <- Hsn; apply (unpack_above nBits s tmp v);
          assumption).
    set (t1 := pack_field tmp nBits s v) in *.
    pose proof (sign_fix nBits v Hn Hv) as Hsign. cbv zeta in Hsign.
    fold (field nBits v) in Hsign.
    destruct (Z.eqb_spec s 0) as [Es|Es].
    + (* the word is full: it is emitted *)
      rewrite (writeUShort_ok w t1 Ht1). cbn [bind].
      destruct (IH 0 16 (extend w (word_items [t1])) Hvs')
        as (words & tmp' & shift' & Hw & Ht' & Hs2 & Hrb);
        [lia | exact H16 | unfold u16; lia | intros i _; apply Z.testbit_0_l |].
      exists (t1 :: words), tmp', shift'.
      rewrite Hw, extend_extend. split; [reflexivity|].
      split; [exact Ht'|]. split; [exact Hs2|].
      unfold reads_back in Hrb. cbn [Z.eqb Pos.eqb] in Hrb.
      unfold reads_back. cbn [app].
      set (out2 := words ++ (if shift' =? 16 then [] else [tmp'])) in *.
      destruct (Z.eqb_spec shift 16) as [E|E].
      * intros pre post off tr. cbn [length DeltaValue.read_loop].
        cbn [Z.eqb]. unfold words_bytes. cbn [map concat].
        fold (words_bytes out2). rewrite <- app_assoc.
        rewrite readUShort_at by exact Ht1. cbn [bind].
        replace (16 - nBits) with s by (subst s; lia).
        rewrite Hfield by reflexivity. rewrite Hsign.
        rewrite Es.
        specialize (Hrb (pre ++ be_encode 2 t1) post off t1).
        rewrite <- app_assoc, length_app, length_be_encode, Nat2Z.inj_add
          in Hrb.
        change (Z.of_nat 2) with 2 in Hrb.
        rewrite Hrb. cbn [bind]. do 3 f_equal. cbn [length]. lia.
      * exists t1, out2. split; [reflexivity|]. split; [exact Ht1|].
        split; [apply Habove; reflexivity|].
        intros pre post off. cbn [length DeltaValue.read_loop].
        destruct (Z.eqb_spec shift 0); [lia|]. cbn [bind].
        fold s. rewrite Hfield by reflexivity. rewrite Hsign. rewrite Es.
        rewrite (Hrb pre post off t1). reflexivity.
    + (* the word is not full yet *)
      destruct (IH t1 s w Hvs')
        as (words & tmp' & shift' & Hw & Ht' & Hs2 & Hrb);
        [lia | exists (k - 1); subst s; lia | exact Ht1 | exact Hc1 |].
      exists words, tmp', shift'. rewrite Hw. split; [reflexivity|].
      split; [exact Ht'|]. split; [exact Hs2|].
      unfold reads_back in Hrb.
      destruct (Z.eqb_spec s 16) as [E16|_]; [lia|].
      destruct Hrb as (w0 & rest & Hout & Hw0 & Hsh & Hread).
      unfold reads_back. rewrite Hout.
      destruct (Z.eqb_spec shift 16) as [E|E].
      * intros pre post off tr. cbn [length DeltaValue.read_loop].
        cbn [Z.eqb]. unfold words_bytes. cbn [map concat].
        fold (words_bytes rest). rewrite <- app_assoc.
        rewrite readUShort_at by exact Hw0. cbn [bind].
        replace (16 - nBits) with s by (subst s; lia).
        rewrite (Hfield w0 Hsh). rewrite Hsign.
        specialize (Hread (pre ++ be_encode 2 w0) post off).
        rewrite <- app_assoc, length_app, length_be_encode, Nat2Z.inj_add
          in Hread.
        change (Z.of_nat 2) with 2 in Hread.
        rewrite Hread. cbn [bind]. do 3 f_equal. cbn [length]. lia.
      * exists w0, rest. split; [reflexivity|]. split; [exact Hw0|].
        split; [apply Habove; exact Hsh|].
        intros pre post off. cbn [length DeltaValue.read_loop].
        destruct (Z.eqb_spec shift 0); [lia|]. cbn [bind].
        fold s. rewrite (Hfield w0 Hsh). rewrite Hsign.
        rewrite (Hread pre post off). reflexivity.
Qed.

(** C4.  For every DeltaFormat in {1,2,3}, with n = 2^DeltaFormat bits per
    value, and every sequence of exactly EndSize - StartSize + 1 integers,
    each in [-2^(n-1), 2^(n-1) - 1], [DeltaValue.write] succeeds and emits
    16-bit words only, and [DeltaValue.read], placed at the first of these
    words, returns the original sequence and stops behind the last word. *)
Theorem DeltaValue_read_write
  (tableDict : gmap string Z) (StartSize EndSize DeltaFormat : Z)
  (values : list Z) (writer : Writer) (pre post : bytes) (off : Z) :
  tableDict !! "StartSize" = Some StartSize ->
  tableDict !! "EndSize" = Some EndSize ->
  tableDict !! "DeltaFormat" = Some DeltaFormat ->
  DeltaFormat = 1 \/ DeltaFormat = 2 \/ DeltaFormat = 3 ->
  Z.of_nat (length values) = EndSize - StartSize + 1 ->
  Forall (in_field (2 ^ DeltaFormat)) values ->
  exists words,
    DeltaValue.write writer tableDict values
    = Ok (extend writer (word_items words)) /\
    DeltaValue.read
      (mkReader (pre ++ words_bytes words ++ post) off (Z.of_nat (length pre)))
      tableDict
    = Ok (values,
          mkReader (pre ++ words_bytes words ++ post) off
                   (Z.of_nat (length pre) + 2 * Z.of_nat (length words))).
Proof.
  intros HS HE HF Hfmt Hlen Hvs.
  assert (Hlegal : DeltaValue.legal_format DeltaFormat = true)
    by (destruct Hfmt as [->|[->| ->]]; reflexivity).
  assert (HnB : Z.shiftl 1 DeltaFormat = 2 ^ DeltaFormat)
    by (rewrite Z.shiftl_1_l; reflexivity).
  assert (Hn : 0 < 2 ^ DeltaFormat)
    by (destruct Hfmt as [->|[->| ->]]; reflexivity).
  assert (H16 : (2 ^ DeltaFormat | 16)).
  { destruct Hfmt as [->|[->| ->]];
      [exists 8 | exists 4 | exists 2]; reflexivity. }
  destruct (write_loop_reads_back (2 ^ DeltaFormat) Hn H16 values 0 16 writer)
    as (words & tmp' & shift' & Hw & Ht' & Hs' & Hrb);
    [exact Hvs | lia | exact H16 | unfold u16; lia
    | intros i _; apply Z.testbit_0_l |].
  exists (words ++ if shift' =? 16 then [] else [tmp']). split.
  - unfold DeltaValue.write, getitem. rewrite HS, HE, HF. cbn [bind].
    rewrite Hlegal. cbn [assert bind].
    rewrite Hlen, Z.eqb_refl. cbn [assert bind].
    rewrite HnB, Hw. cbn [bind].
    destruct (Z.eqb_spec shift' 16) as [E|E]; cbn [negb].
    + rewrite app_nil_r. reflexivity.
    + rewrite (writeUShort_ok _ _ Ht'), extend_extend.
      unfold word_items. rewrite map_app. reflexivity.
  - unfold DeltaValue.read, getitem. rewrite HS, HE, HF. cbn [bind].
    rewrite Hlegal. cbn [assert bind].
    rewrite HnB, <- Hlen, Nat2Z.id.
    unfold reads_back in Hrb. cbn [Z.eqb Pos.eqb] in Hrb. apply Hrb.
Qed.

Lemma DeltaValue_read_write_witness :
  exists words,
    DeltaValue.write newWriter (td_delta 9 13 1) [1; -1; 0; -2; 1]
    = Ok (extend newWriter (word_items words)) /\
    DeltaValue.read (mkReader ([] ++ words_bytes words ++ []) 0 0)
                    (td_delta 9 13 1)
    = Ok ([1; -1; 0; -2; 1],
          mkReader ([] ++ words_bytes words ++ []) 0
                   (0 + 2 * Z.of_nat (length words))).
Proof.
  apply (DeltaValue_read_write (td_delta 9 13 1) 9 13 1 [1; -1; 0; -2; 1]
           newWriter [] [] 0).
  - reflexivity.
  - reflexivity.
  - reflexivity.
  - left. reflexivity.
  - reflexivity.
  - unfold in_field. repeat constructor; simpl; lia.
Defined.

(** The packing is most-significant-bit-first, and the last word is
    padded with zero bits: five 2-bit values 01 11 00 10 01 give the
    words 0111001001000000 and nothing else. *)
Example DeltaValue_write_packing :
  DeltaValue.write newWriter (td_delta 9 13 1) [1; -1; 0; -2; 1]
  = Ok (extend newWriter (word_items [0x7240])).
Proof. reflexivity. Qed.

(** Any other DeltaFormat is refused by both directions. *)
Lemma DeltaValue_illegal_format tableDict StartSize EndSize DeltaFormat
      values writer reader :
  tableDict !! "StartSize" = Some StartSize ->
  tableDict !! "EndSize" = Some EndSize ->
  tableDict !! "DeltaFormat" = Some DeltaFormat ->
  DeltaValue.legal_format DeltaFormat = false ->
  DeltaValue.write writer tableDict values = Raise AssertionError /\
  DeltaValue.read reader tableDict = Raise AssertionError.
Proof.
  intros HS HE HF Hl. unfold DeltaValue.write, DeltaValue.read, getitem.
  rewrite HS, HE, HF. cbn [bind]. rewrite Hl. split; reflexivity.
Qed.

(** ** Signed scalars *)

Lemma to_signed_mod bits v : 0 < bits ->
  - 2 ^ (bits - 1) <= v < 2 ^ (bits - 1) ->
  to_signed bits (v mod 2 ^ bits) = v.
Proof.
  intros Hb Hv. unfold to_signed.
  assert (Hp : 0 < 2 ^ (bits - 1)) by (apply Z.pow_pos_nonneg; lia).
  assert (H2 : 2 ^ bits = 2 * 2 ^ (bits - 1)).
  { replace bits with (bits - 1 + 1) at 1 by lia.
    rewrite Z.pow_add_r by lia. lia. }
  destruct (Z.le_gt_cases 0 v).
  - rewrite Z.mod_small by lia. destruct (Z.ltb_spec v (2 ^ (bits - 1))); lia.
  - assert (E : v mod 2 ^ bits = v + 2 ^ bits)
      by (symmetry; apply Z.mod_unique with (q := -1); lia).
    rewrite E.
    destruct (Z.ltb_spec (v + 2 ^ bits) (2 ^ (bits - 1))); lia.
Qed.

Lemma writeU_ok n w v :
  0 <= v < 256 ^ Z.of_nat n ->
  writeU n w v = Ok (extend w [IData (be_encode n v)]).
Proof.
  intros [H0 H1]. unfold writeU.
  destruct (Z.leb_spec 0 v); [|lia].
  destruct (Z.ltb_spec v (256 ^ Z.of_nat n)); [|lia]. reflexivity.
Qed.

Lemma writeU_raise n w v :
  ~ 0 <= v < 256 ^ Z.of_nat n -> writeU n w v = Raise StructError.
Proof.
  intros H. unfold writeU.
  destruct (Z.leb_spec 0 v); [|reflexivity].
  destruct (Z.ltb_spec v (256 ^ Z.of_nat n)); [lia|reflexivity].
Qed.

(** ** VarIdxMapValue: the outer/inner split *)

Lemma innerBits_range fmt : 1 <= VarIdxMapValue.innerBits fmt <= 16.
Proof.
  unfold VarIdxMapValue.innerBits.
  change 15 with (Z.ones 4). rewrite Z.land_ones by lia.
  pose proof (Z.mod_pos_bound fmt (2 ^ 4) ltac:(reflexivity)) as H.
  change (2 ^ 4) with 16 in *. lia.
Qed.

Lemma entrySize_range fmt : 1 <= VarIdxMapValue.entrySize fmt <= 4.
Proof.
  unfold VarIdxMapValue.entrySize.
  assert (H : 0 <= Z.shiftr (Z.land fmt 48) 4 < 2 ^ 2);
    [|change (2^2) with 4 in H; lia].
  split.
  - apply Z.shiftr_nonneg. apply Z.land_nonneg. lia.
  - apply bounded_by_bits; [lia | |].
    + apply Z.shiftr_nonneg. apply Z.land_nonneg. lia.
    + intros i Hi. rewrite Z.shiftr_spec, Z.land_spec by lia.
      change 48 with (Z.shiftl (Z.ones 2) 4).
      rewrite Z.shiftl_spec by lia.
      rewrite Z.testbit_ones_nonneg by lia.
      destruct (Z.ltb_spec (i + 4 - 4) 2); [lia|]. apply andb_false_r.
Qed.

Lemma outer_mask_shape ib : 0 <= ib <= 32 ->
  0xFFFFFFFF - (Z.shiftl 1 ib - 1) = Z.shiftl (Z.ones (32 - ib)) ib.
Proof.
  intros Hib.
  rewrite Z.shiftl_1_l, Z.shiftl_mul_pow2, Z.ones_equiv by lia.
  replace 0xFFFFFFFF with (2 ^ 32 - 1) by reflexivity.
  replace (2 ^ 32) with (2 ^ (32 - ib + ib)) by (f_equal; lia).
  rewrite Z.pow_add_r by lia. lia.
Qed.

(** The split loses nothing when the index is a 32-bit value whose low
    half fits the inner field. *)
Lemma decode_encode_entry fmt idx :
  0 <= idx < 2 ^ 32 ->
  Z.land idx 0xFFFF < 2 ^ VarIdxMapValue.innerBits fmt ->
  VarIdxMapValue.decode_entry fmt (VarIdxMapValue.encode_entry fmt idx) = idx.
Proof.
  intros Hidx Hinner.
  pose proof (innerBits_range fmt) as Hib.
  assert (Hlow : forall i, VarIdxMapValue.innerBits fmt <= i < 16 ->
                           Z.testbit idx i = false).
  { intros i Hi.
    assert (E : Z.testbit (Z.land idx 0xFFFF) i = false).
    { apply (testbit_high _ (VarIdxMapValue.innerBits fmt)); try lia.
      split; [apply Z.land_nonneg; lia | exact Hinner]. }
    change 0xFFFF with (Z.ones 16) in E.
    rewrite Z.land_spec, Z.testbit_ones_nonneg in E by lia.
    destruct (Z.ltb_spec i 16); [|lia]. rewrite andb_true_r in E. exact E. }
  assert (Hhigh : forall i, 32 <= i -> Z.testbit idx i = false)
    by (intros i Hi; apply (testbit_high _ 32); lia).
  unfold VarIdxMapValue.decode_entry, VarIdxMapValue.encode_entry. cbv zeta.
  rewrite outer_mask_shape by lia. rewrite mask_ones.
  change 0xFFFF0000 with (Z.shiftl (Z.ones 16) 16).
  set (ib := VarIdxMapValue.innerBits fmt) in *.
  apply Z.bits_inj'. intros j Hj.
  repeat rewrite ?Z.lor_spec, ?Z.land_spec, ?Z.shiftl_spec', ?Z.shiftr_spec',
         ?Z.testbit_ones_nonneg' by lia.
  replace (j - (16 - ib) + (16 - ib)) with j by lia.
  repeat match goal with
         | |- context [?a <? ?b] => destruct (Z.ltb_spec a b)
         end; cbn [negb andb orb];
    rewrite ?andb_true_r, ?andb_false_r, ?orb_false_r; try lia;
    try reflexivity.
  all: try (symmetry; apply Hlow; lia).
  all: try (symmetry; apply Hhigh; lia).
  all: try (destruct (Z.testbit idx j); reflexivity).
Qed.

Lemma encode_entry_nonneg fmt idx : 0 <= idx ->
  0 <= VarIdxMapValue.encode_entry fmt idx.
Proof.
  intros Hidx. unfold VarIdxMapValue.encode_entry. apply Z.lor_nonneg. split.
  - apply Z.shiftr_nonneg. apply Z.land_nonneg. lia.
  - apply Z.land_nonneg. lia.
Qed.

(** With a 9-bit inner field the on-disk form is [(outer << 9) | inner]. *)
Lemma encode_entry_9 fmt idx : Z.land fmt 0xF = 8 -> 0 <= idx < 2 ^ 32 ->
  VarIdxMapValue.encode_entry fmt idx
  = Z.lor (Z.shiftl (Z.shiftr idx 16) 9) (Z.land idx 0x1FF).
Proof.
  intros Hib Hidx. unfold VarIdxMapValue.encode_entry, VarIdxMapValue.innerBits.
  rewrite Hib. cbv zeta. f_equal.
  assert (Hhigh : forall i, 32 <= i -> Z.testbit idx i = false)
    by (intros i Hi; apply (testbit_high _ 32); lia).
  change 0xFFFF0000 with (Z.shiftl (Z.ones 16) 16).
  apply Z.bits_inj'. intros j Hj.
  repeat rewrite ?Z.lor_spec, ?Z.land_spec, ?Z.shiftl_spec', ?Z.shiftr_spec',
         ?Z.testbit_ones_nonneg' by lia.
  replace (j + (16 - (1 + 8))) with (j + 7) by lia.
  replace (j - 9 + 16) with (j + 7) by lia.
  repeat match goal with
         | |- context [?a <? ?b] => destruct (Z.ltb_spec a b)
         end; cbn [negb andb orb];
    rewrite ?andb_true_r, ?andb_false_r, ?orb_false_r; try lia;
    try reflexivity.
  all: try (apply Hhigh; lia).
  all: try (symmetry; apply Hhigh; lia).
Qed.

Lemma VarIdx_write_loop (n : nat) fmt mapping : forall w,
  Forall (fun idx => 0 <= VarIdxMapValue.encode_entry fmt idx
                          < 256 ^ Z.of_nat n) mapping ->
  VarIdxMapValue.write_loop (writeU n) fmt mapping w
  = Ok (extend w (entry_items n fmt mapping)).
Proof.
  induction mapping as [|idx rest IH]; intros w H.
  - cbn. rewrite extend_nil. reflexivity.
  - inversion H as [|? ? Hidx Hrest]; subst.
    cbn [VarIdxMapValue.write_loop]. rewrite writeU_ok by exact Hidx.
    cbn [bind]. rewrite IH by exact Hrest. rewrite extend_extend. reflexivity.
Qed.

Lemma VarIdx_read_loop (n : nat) fmt mapping : forall pre post off,
  Forall (fun idx =>
            0 <= VarIdxMapValue.encode_entry fmt idx < 256 ^ Z.of_nat n /\
            VarIdxMapValue.decode_entry fmt
              (VarIdxMapValue.encode_entry fmt idx) = idx) mapping ->
  VarIdxMapValue.read_loop (readU (Z.of_nat n)) fmt (length mapping)
    (mkReader (pre ++ entry_bytes n fmt mapping ++ post) off
              (Z.of_nat (length pre)))
  = Ok (mapping,
        mkReader (pre ++ entry_bytes n fmt mapping ++ post) off
                 (Z.of_nat (length pre)
                  + Z.of_nat n * Z.of_nat (length mapping))).
Proof.
  induction mapping as [|idx rest IH]; intros pre post off H.
  - cbn. do 3 f_equal. lia.
  - inversion H as [|? ? [Hidx Hrt] Hrest]; subst.
    cbn [length VarIdxMapValue.read_loop].
    unfold entry_bytes. cbn [map concat]. fold (entry_bytes n fmt rest).
    rewrite <- app_assoc. rewrite readU_at by exact Hidx. cbn [bind].
    rewrite Hrt.
    specialize (IH (pre ++ be_encode n (VarIdxMapValue.encode_entry fmt idx))
                   post off Hrest).
    rewrite <- app_assoc, length_app, length_be_encode, Nat2Z.inj_add in IH.
    rewrite IH. cbn [bind]. do 3 f_equal. lia.
Qed.

Lemma pick_write_ok fmt :
  VarIdxMapValue.pick_write (VarIdxMapValue.entrySize fmt)
  = Ok (writeU (Z.to_nat (VarIdxMapValue.entrySize fmt))).
Proof.
  pose proof (entrySize_range fmt) as H.
  assert (E : VarIdxMapValue.entrySize fmt = 1 \/
              VarIdxMapValue.entrySize fmt = 2 \/
              VarIdxMapValue.entrySize fmt = 3 \/
              VarIdxMapValue.entrySize fmt = 4) by lia.
  destruct E as [->|[->|[->| ->]]]; reflexivity.
Qed.

Lemma pick_read_ok fmt :
  VarIdxMapValue.pick_read (VarIdxMapValue.entrySize fmt)
  = Ok (readU (VarIdxMapValue.entrySize fmt)).
Proof.
  pose proof (entrySize_range fmt) as H.
  assert (E : VarIdxMapValue.entrySize fmt = 1 \/
              VarIdxMapValue.entrySize fmt = 2 \/
              VarIdxMapValue.entrySize fmt = 3 \/
              VarIdxMapValue.entrySize fmt = 4) by lia.
  destruct E as [->|[->|[->| ->]]]; reflexivity.
Qed.

(** C3, as amended.  For an EntryFormat with innerBits = 9 and any of the
    four entry sizes, a mapping round-trips through [VarIdxMapValue]
    when each index is a 32-bit value whose low 16 bits fit the 9-bit
    inner field and whose on-disk form [(outer << 9) | inner] fits the
    entry size: [write] fills the MappingCount cell and emits one entry
    per index, and [read] gives the mapping back. *)
Theorem VarIdxMapValue_read_write
  (tableDict : gmap string Z) (fmt : Z) (mapping : list Z)
  (writer : Writer) (pre post : bytes) (off : Z) :
  tableDict !! "EntryFormat" = Some fmt ->
  tableDict !! "MappingCount" = Some (Z.of_nat (length mapping)) ->
  Z.land fmt 0xF = 8 ->
  w_store writer !! "MappingCount" = Some None ->
  Forall (fun idx => 0 <= idx < 2 ^ 32 /\ Z.land idx 0xFFFF < 2 ^ 9 /\
                     Z.lor (Z.shiftl (Z.shiftr idx 16) 9) (Z.land idx 0x1FF)
                     < 256 ^ VarIdxMapValue.entrySize fmt) mapping ->
  let n := Z.to_nat (VarIdxMapValue.entrySize fmt) in
  exists writer',
    VarIdxMapValue.write writer tableDict mapping = Ok writer' /\
    w_items writer' = w_items writer ++ entry_items n fmt mapping /\
    w_store writer' !! "MappingCount"
      = Some (Some (Z.of_nat (length mapping))) /\
    VarIdxMapValue.read
      (mkReader (pre ++ entry_bytes n fmt mapping ++ post) off
                (Z.of_nat (length pre))) tableDict
    = Ok (mapping,
          mkReader (pre ++ entry_bytes n fmt mapping ++ post) off
                   (Z.of_nat (length pre)
                    + VarIdxMapValue.entrySize fmt
                      * Z.of_nat (length mapping))).
Proof.
  intros HF HC Hib Hcell Hm0 n.
  assert (Hm : Forall (storable fmt) mapping).
  { eapply Forall_impl; [exact Hm0|]. intros idx (Hi & Hin & Hr). cbv beta.
    unfold storable, VarIdxMapValue.innerBits. rewrite Hib.
    repeat split; try lia.
    rewrite encode_entry_9 by (exact Hib || lia). exact Hr. }
  pose proof (entrySize_range fmt) as Hes.
  assert (Hn : Z.of_nat n = VarIdxMapValue.entrySize fmt)
    by (subst n; rewrite Z2Nat.id; lia).
  eexists. split; [|split; [|split]].
  - unfold VarIdxMapValue.write, getitem, setValue. rewrite HF. cbn [bind].
    rewrite Hcell. cbn [bind]. rewrite pick_write_ok. cbn [bind]. fold n.
    apply VarIdx_write_loop.
    eapply Forall_impl; [exact Hm|]. intros idx (Hi & _ & Hr). cbv beta.
    rewrite Hn. split; [apply encode_entry_nonneg; lia | exact Hr].
  - reflexivity.
  - cbn [w_store extend]. apply lookup_insert_eq.
  - unfold VarIdxMapValue.read, getitem. rewrite HF, HC. cbn [bind].
    rewrite pick_read_ok. cbn [bind]. rewrite Nat2Z.id, <- Hn.
    apply VarIdx_read_loop.
    eapply Forall_impl; [exact Hm|]. intros idx (Hi & Hin & Hr). cbv beta.
    rewrite Hn. split.
    + split; [apply encode_entry_nonneg; lia | exact Hr].
    + apply decode_encode_entry; assumption.
Qed.

Lemma VarIdxMapValue_read_write_witness :
  exists writer',
    VarIdxMapValue.write writer_with_count (td_varidx 0x18 2)
                         [0x00010145; 0x002A0001] = Ok writer' /\
    w_items writer'
    = w_items writer_with_count
      ++ entry_items 2 0x18 [0x00010145; 0x002A0001] /\
    w_store writer' !! "MappingCount" = Some (Some 2) /\
    VarIdxMapValue.read
      (mkReader ([] ++ entry_bytes 2 0x18 [0x00010145; 0x002A0001] ++ []) 0 0)
      (td_varidx 0x18 2)
    = Ok ([0x00010145; 0x002A0001],
          mkReader ([] ++ entry_bytes 2 0x18 [0x00010145; 0x002A0001] ++ [])
                   0 4).
Proof.
  apply (VarIdxMapValue_read_write (td_varidx 0x18 2) 0x18
           [0x00010145; 0x002A0001] writer_with_count [] [] 0).
  - reflexivity.
  - reflexivity.
  - reflexivity.
  - reflexivity.
  - repeat constructor; vm_compute; congruence.
Defined.

(** C3, counterexample.  With innerBits = 9, the index 0x00012345 does
    not round-trip for any of the four entry sizes: bits 9..15 of the
    index are masked off, so the 2-, 3- and 4-byte entries decode to
    0x00010145, and the 1-byte entry cannot hold the value 0x345. *)
Lemma VarIdxMapValue_0x12345_not_kept :
  VarIdxMapValue.innerBits 0x08 = 9 /\ VarIdxMapValue.entrySize 0x08 = 1 /\
  VarIdxMapValue.innerBits 0x18 = 9 /\ VarIdxMapValue.entrySize 0x18 = 2 /\
  VarIdxMapValue.innerBits 0x28 = 9 /\ VarIdxMapValue.entrySize 0x28 = 3 /\
  VarIdxMapValue.innerBits 0x38 = 9 /\ VarIdxMapValue.entrySize 0x38 = 4 /\
  VarIdx_write_then_read 0x08 [0x00012345] = Raise StructError /\
  VarIdx_write_then_read 0x18 [0x00012345] = Ok [0x00010145] /\
  VarIdx_write_then_read 0x28 [0x00012345] = Ok [0x00010145] /\
  VarIdx_write_then_read 0x38 [0x00012345] = Ok [0x00010145] /\
  VarIdx_write_then_read 0x18 [0x00012345] <> Ok [0x00012345].
Proof. repeat split; try reflexivity. vm_compute. congruence. Qed.

(** ** Signed scalars on the wire *)

Lemma writeS_ok n w v :
  - 2 ^ (8 * Z.of_nat n - 1) <= v < 2 ^ (8 * Z.of_nat n - 1) ->
  writeS n w v = Ok (extend w [IData (be_encode n (v mod 256 ^ Z.of_nat n))]).
Proof.
  intros [H0 H1]. unfold writeS.
  destruct (Z.leb_spec (- 2 ^ (8 * Z.of_nat n - 1)) v); [|lia].
  destruct (Z.ltb_spec v (2 ^ (8 * Z.of_nat n - 1))); [|lia]. reflexivity.
Qed.

Lemma readLong_at pre v post off :
  - 2 ^ 31 <= v < 2 ^ 31 ->
  readLong (mkReader (pre ++ be_encode 4 (v mod 2 ^ 32) ++ post) off
                     (Z.of_nat (length pre)))
  = Ok (v, mkReader (pre ++ be_encode 4 (v mod 2 ^ 32) ++ post) off
                    (Z.of_nat (length pre) + 4)).
Proof.
  intros Hv. unfold readLong, readS.
  pose proof (Z.mod_pos_bound v (2 ^ 32) ltac:(reflexivity)) as Hm.
  rewrite (readU_at 4) by (change (256 ^ Z.of_nat 4) with (2 ^ 32); exact Hm).
  cbn [bind]. change (8 * 4) with 32.
  rewrite to_signed_mod by (lia || exact Hv). reflexivity.
Qed.

(** ** Version *)

Lemma major_one v : Z.shiftr v 16 = 1 <-> 0x10000 <= v < 0x20000.
Proof.
  rewrite Z.shiftr_div_pow2 by lia. change (2 ^ 16) with 65536.
  split; intros H.
  - pose proof (Z.div_mod v 65536 ltac:(lia)) as E.
    pose proof (Z.mod_pos_bound v 65536 ltac:(lia)). lia.
  - symmetry. apply Z.div_unique with (r := v - 65536); lia.
Qed.

(** C9.  [Version.read] returns only 32-bit values whose upper 16 bits
    equal 1, and raises on a stored long with any other major version;
    [Version.write] raises for every value whose normalized 16.16 form
    does not have upper 16 bits equal to 1, and otherwise writes that
    form unchanged, as the four bytes that [Version.read] gives back. *)
Theorem Version_major_one (V : Type) (fi2ve : V -> Z) :
  (forall reader value reader',
     Version_read reader = Ok (value, reader') ->
     Z.shiftr value 16 = 1 /\ 0 <= value < 2 ^ 32) /\
  (forall pre post off stored,
     - 2 ^ 31 <= stored < 2 ^ 31 -> Z.shiftr stored 16 <> 1 ->
     Version_read (mkReader (pre ++ be_encode 4 (stored mod 2 ^ 32) ++ post)
                            off (Z.of_nat (length pre)))
     = Raise AssertionError) /\
  (forall writer value,
     Z.shiftr (fi2ve value) 16 <> 1 ->
     Version_write V fi2ve writer value = Raise AssertionError) /\
  (forall writer value pre post off,
     Z.shiftr (fi2ve value) 16 = 1 ->
     Version_write V fi2ve writer value
     = Ok (extend writer [IData (be_encode 4 (fi2ve value))]) /\
     Version_read (mkReader (pre ++ be_encode 4 (fi2ve value) ++ post)
                            off (Z.of_nat (length pre)))
     = Ok (fi2ve value,
           mkReader (pre ++ be_encode 4 (fi2ve value) ++ post) off
                    (Z.of_nat (length pre) + 4))).
Proof.
  split; [|split; [|split]].
  - intros reader value reader' H. unfold Version_read in H.
    apply bind_ok in H. destruct H as ([v r1] & _ & H).
    destruct (Z.eqb_spec (Z.shiftr v 16) 1) as [E|E]; [|discriminate].
    cbn in H. injection H as <- <-. split; [exact E|].
    apply major_one in E. lia.
  - intros pre post off stored Hs Hne. unfold Version_read.
    rewrite readLong_at by exact Hs. cbn [bind].
    destruct (Z.eqb_spec (Z.shiftr stored 16) 1); [contradiction|reflexivity].
  - intros writer value Hne. unfold Version_write.
    destruct (Z.eqb_spec (Z.shiftr (fi2ve value) 16) 1);
      [contradiction|reflexivity].
  - intros writer value pre post off E.
    pose proof (proj1 (major_one _) E) as Hr.
    assert (Hmod : fi2ve value mod 2 ^ 32 = fi2ve value)
      by (apply Z.mod_small; lia).
    split.
    + unfold Version_write. rewrite E. cbn [Z.eqb Pos.eqb assert bind].
      unfold writeLong. rewrite writeS_ok by (cbn; lia).
      change (256 ^ Z.of_nat 4) with (2 ^ 32). rewrite Hmod. reflexivity.
    + unfold Version_read. rewrite <- Hmod at 1.
      rewrite readLong_at by lia. cbn [bind]. rewrite E.
      cbn [Z.eqb Pos.eqb assert bind]. rewrite Hmod. reflexivity.
Qed.

Lemma Version_major_one_witness :
  (Z.shiftr 0x00010203 16 = 1 /\ 0 <= 0x00010203 < 2 ^ 32) /\
  Version_read (mkReader [0; 2; 0; 0] 0 0) = Raise AssertionError /\
  Version_write Z fi2ve_int newWriter 0x00020000 = Raise AssertionError /\
  Version_write Z fi2ve_int newWriter 1
  = Ok (extend newWriter [IData [0; 1; 0; 0]]) /\
  Version_read (mkReader [0; 1; 0; 0] 0 0)
  = Ok (0x00010000, mkReader [0; 1; 0; 0] 0 4).
Proof.
  destruct (Version_major_one Z fi2ve_int) as (Hv & Hr & Hw & Hrt).
  split; [|split; [|split]].
  - apply (Hv (mkReader [0; 1; 2; 3] 0 0) 0x00010203
              (mkReader [0; 1; 2; 3] 0 4)). reflexivity.
  - apply (Hr [] [] 0 0x00020000); [lia | vm_compute; congruence].
  - apply Hw. vm_compute. congruence.
  - exact (Hrt newWriter 1 [] [] 0 eq_refl).
Defined.

(** ** Offset-addressed tables: the absent sub-table *)

Lemma items_length_app a b :
  items_length (a ++ b) = items_length a + items_length b.
Proof.
  induction a as [|x a IH]; cbn [app items_length fold_right].
  - reflexivity.
  - fold (items_length (a ++ b)). fold (items_length a). lia.
Qed.

(** C5.  For every offset-addressed table converter, 16-bit or 32-bit:
    writing [None] succeeds and appends exactly one item to the sink, an
    all-zero offset of the declared width (2 or 4 bytes), and no
    sub-sink; reading a zero offset succeeds with [None] and moves the
    cursor past the offset only, whatever the rest of the buffer holds,
    whether the font is lazy or not and whatever the table class would
    decode: no sub-reader is made. *)
Theorem Table_absent (T : Type) (decompile : Reader -> result T)
        (compile : T -> Writer -> result Writer)
        (c : OffsetConverter) (name : string) (writer : Writer)
        (repeatIndex : option nat) (lazy : bool)
        (pre post : bytes) (off : Z) :
  (exists writer',
     Table_write T compile c name writer None repeatIndex = Ok writer' /\
     w_items writer' = w_items writer ++ [IData (null_offset c)] /\
     Z.of_nat (length (null_offset c)) = staticSize_of_offset c /\
     getDataLength writer' = getDataLength writer + staticSize_of_offset c) /\
  Table_read T decompile c lazy
    (mkReader (pre ++ null_offset c ++ post) off (Z.of_nat (length pre)))
  = Ok (None,
        mkReader (pre ++ null_offset c ++ post) off
                 (Z.of_nat (length pre) + staticSize_of_offset c)).
Proof.
  split.
  - destruct c; (eexists; split; [reflexivity|]);
      (split; [reflexivity|]); (split; [reflexivity|]);
      unfold getDataLength;
      match goal with
      | |- items_length ?l = _ =>
          let l' := eval cbn in l in change l with l'
      end;
      rewrite items_length_app; reflexivity.
  - pose proof (readU_at 2 pre 0 post off ltac:(cbn; lia)) as H2.
    pose proof (readU_at 4 pre 0 post off ltac:(cbn; lia)) as H4.
    change (be_encode 2 0) with [0; 0] in H2.
    change (be_encode 4 0) with [0; 0; 0; 0] in H4.
    change (readU (Z.of_nat 2)) with readUShort in H2.
    change (readU (Z.of_nat 4)) with readULong in H4.
    unfold Table_read, readOffset, null_offset, staticSize_of_offset.
    destruct c; cbn [longOffset]; rewrite ?H2, ?H4; reflexivity.
Qed.

(** A non-zero offset does make a sub-reader: for a lazy font the table
    object only keeps it. *)
Example Table_read_present :
  Table_read unit (fun _ => Raise StructError) CTable true
             (mkReader [0; 4; 9; 9; 7; 7] 0 0)
  = Ok (Some (Deferred (mkReader [0; 4; 9; 9; 7; 7] 4 4)),
        mkReader [0; 4; 9; 9; 7; 7] 0 2).
Proof. reflexivity. Qed.

(** ** AATLookup: what the four writers emit *)

Lemma emits_refl w : emits 0 w w.
Proof. split; [lia | reflexivity]. Qed.

Lemma emits_trans a b w w' w'' :
  emits a w w' -> emits b w' w'' -> emits (a + b) w w''.
Proof.
  intros [Ha Pa] [Hb Pb]. split; [lia | etransitivity; eassumption].
Qed.

Lemma emits_extend w its : emits (items_length its) w (extend w its).
Proof.
  split.
  - unfold getDataLength. cbn [w_items extend]. apply items_length_app.
  - cbn [w_items extend]. apply prefix_app_r. reflexivity.
Qed.

Lemma writeUShort_emits v : u16 v -> step_emits 2 (fun w => writeUShort w v).
Proof.
  intros Hv w. exists (extend w (word_items [v])). split.
  - apply writeUShort_ok. exact Hv.
  - apply (emits_extend w (word_items [v])).
Qed.

Lemma writeData_emits bs :
  step_emits (Z.of_nat (length bs)) (fun w => Ok (writeData w bs)).
Proof.
  intros w. exists (writeData w bs). split; [reflexivity|].
  pose proof (emits_extend w [IData bs]) as H.
  cbn in H. rewrite Z.add_0_r in H. exact H.
Qed.

Lemma step_emits_bind a b f g :
  step_emits a f -> step_emits b g ->
  step_emits (a + b) (fun w => bind (f w) g).
Proof.
  intros Hf Hg w. destruct (Hf w) as (w1 & E1 & H1).
  destruct (Hg w1) as (w2 & E2 & H2).
  exists w2. rewrite E1. cbn [bind]. split; [exact E2|].
  eapply emits_trans; eassumption.
Qed.

Lemma step_emits_eq a b f : a = b -> step_emits a f -> step_emits b f.
Proof. intros ->. exact id. Qed.

Lemma step_emits_ext n f g :
  (forall w, f w = g w) -> step_emits n f -> step_emits n g.
Proof. intros E H w. rewrite <- E. apply H. Qed.

Lemma foldM_emits {A} (k : Z) (f : Writer -> A -> result Writer)
      (l : list A) :
  Forall (fun a => step_emits k (fun w => f w a)) l ->
  step_emits (k * Z.of_nat (length l)) (fun w => foldM f l w).
Proof.
  induction l as [|a l IH]; intros H w.
  - exists w. split; [reflexivity|]. cbn [length].
    replace (k * Z.of_nat 0) with 0 by lia. apply emits_refl.
  - inversion H as [|? ? Ha Hl]; subst.
    destruct (Ha w) as (w1 & E1 & H1).
    destruct (IH Hl w1) as (w2 & E2 & H2).
    exists w2. cbn [foldM]. rewrite E1. cbn [bind]. split; [exact E2|].
    replace (k * Z.of_nat (length (a :: l)))
      with (k + k * Z.of_nat (length l))
      by (cbn [length]; lia).
    eapply emits_trans; eassumption.
Qed.

(** The header fields fit 16 bits when the table does. *)
Lemma getSearchRange_u16 n u :
  0 <= n <= 65535 -> 0 <= u <= 65535 -> n * u <= 65535 ->
  let '(searchRange, entrySelector, rangeShift) := getSearchRange n u in
  u16 searchRange /\ u16 entrySelector /\ u16 rangeShift.
Proof.
  intros Hn Hu Hnu. unfold getSearchRange. cbv zeta.
  pose proof (Z.log2_nonneg n) as Hl0.
  assert (Hp : 0 < 2 ^ Z.log2 n) by (apply Z.pow_pos_nonneg; lia).
  assert (Hsr : 2 ^ Z.log2 n * u <= 65535).
  { destruct (Z.eq_dec n 0) as [->|Hn0].
    - cbn. lia.
    - pose proof (Z.log2_spec n ltac:(lia)) as [Hlo _]. nia. }
  assert (Hes : Z.log2 n <= 65535)
    by (pose proof (Z.log2_le_lin n ltac:(lia)); lia).
  assert (Hsr0 : 0 <= 2 ^ Z.log2 n * u) by nia.
  unfold u16. repeat split; lia.
Qed.

Lemma writes_table_intro fmt n g :
  u16 fmt -> step_emits n g ->
  writes_table fmt (2 + n) (fun w => bind (writeUShort w fmt) g).
Proof.
  intros Hf Hg w. rewrite (writeUShort_ok w fmt Hf). cbn [bind].
  destruct (Hg (extend w (word_items [fmt]))) as (w' & E & Hlen & Hpre).
  exists w'. split; [exact E|]. split.
  - rewrite Hlen.
    pose proof (emits_extend w (word_items [fmt])) as [H _].
    rewrite H. cbn. lia.
  - exact Hpre.
Qed.

Section AATLookupProps.
Context {Val : Type} `{EqDecision Val}.
Variable val_le : Val -> Val -> Prop.
Context {val_le_dec : forall x y, Decision (val_le x y)}.
Variable valueSize : Z.
Variable conv_write : Writer -> Val -> result Writer.
Variable getGlyphID : string -> result Z.
Variable numGlyphs : Z.

Hypothesis valueSize_nonneg : 0 <= valueSize.

Local Abbreviation okv := (okv valueSize conv_write).
Local Abbreviation oke := (oke valueSize conv_write).
Local Abbreviation oks := (oks valueSize conv_write).

Lemma writeBinSearchHeader_emits n u :
  0 <= n <= 65535 -> 0 <= u <= 65535 -> n * u <= 65535 ->
  step_emits 10 (fun w => writeBinSearchHeader w n u).
Proof.
  intros Hn Hu Hnu. unfold writeBinSearchHeader.
  pose proof (getSearchRange_u16 n u Hn Hu Hnu) as Hsr.
  destruct (getSearchRange n u) as [[sr es] rs].
  destruct Hsr as (Hsr & Hes & Hrs).
  apply (step_emits_bind 2 8); [apply writeUShort_emits; unfold u16; lia|].
  apply (step_emits_bind 2 6); [apply writeUShort_emits; unfold u16; lia|].
  apply (step_emits_bind 2 4); [apply writeUShort_emits; exact Hsr|].
  apply (step_emits_bind 2 2); [apply writeUShort_emits; exact Hes|].
  apply writeUShort_emits; exact Hrs.
Qed.

Lemma values_emit (values : list (Z * Val)) :
  Forall oke values ->
  step_emits (valueSize * Z.of_nat (length values))
    (fun w => foldM (fun writer '(_, value) => conv_write writer value)
                    values w).
Proof.
  intros H. apply foldM_emits. eapply Forall_impl; [exact H|].
  intros [g v] [_ Hv]. exact Hv.
Qed.

Lemma zeros_emit :
  step_emits valueSize
    (fun w => Ok (writeData w (replicate (Z.to_nat valueSize) 0))).
Proof.
  eapply step_emits_eq; [|apply writeData_emits].
  rewrite length_replicate. lia.
Qed.

Lemma writeFormat0_table values :
  Forall oke values ->
  writes_table 0 (2 + Z.of_nat (length values) * valueSize)
    (fun w => writeFormat0 conv_write w values).
Proof.
  intros H. unfold writeFormat0.
  rewrite (Z.mul_comm (Z.of_nat (length values))).
  apply writes_table_intro; [unfold u16; lia | apply values_emit, H].
Qed.

Lemma writeFormat8_table values :
  values <> [] -> Forall oke values ->
  Z.of_nat (length values) <= 65535 ->
  writes_table 8 (6 + Z.of_nat (length values) * valueSize)
    (fun w => writeFormat8 conv_write w values).
Proof.
  intros Hne H Hlen. destruct values as [|[g0 v0] rest]; [contradiction|].
  unfold writeFormat8.
  set (values := (g0, v0) :: rest) in *.
  replace (6 + Z.of_nat (length values) * valueSize)
    with (2 + (2 + (2 + valueSize * Z.of_nat (length values)))) by lia.
  apply writes_table_intro; [unfold u16; lia|].
  apply step_emits_bind.
  { apply writeUShort_emits. inversion H as [|? ? [Hg _] _]. exact Hg. }
  apply step_emits_bind.
  { apply writeUShort_emits. unfold u16. lia. }
  apply values_emit, H.
Qed.

Lemma writeFormat6_table values :
  Forall oke values ->
  (Z.of_nat (length values) + 1) * (valueSize + 4) <= 65535 ->
  writes_table 6
    (2 + BIN_SEARCH_HEADER_SIZE
     + (Z.of_nat (length values) + 1) * (valueSize + 2))
    (fun w => writeFormat6 valueSize conv_write w values).
Proof.
  intros H Hfit. unfold writeFormat6, BIN_SEARCH_HEADER_SIZE.
  set (n := Z.of_nat (length values)) in *.
  assert (Hn : 0 <= n) by (subst n; lia).
  replace (2 + 10 + (n + 1) * (valueSize + 2))
    with (2 + (10 + ((2 + valueSize) * n + (2 + valueSize)))) by lia.
  apply writes_table_intro; [unfold u16; lia|].
  apply step_emits_bind.
  { apply writeBinSearchHeader_emits; nia. }
  apply step_emits_bind.
  { apply foldM_emits. eapply Forall_impl; [exact H|].
    intros [g v] [Hg Hv]. cbn [fst snd] in *.
    apply step_emits_bind; [apply writeUShort_emits; exact Hg | exact Hv]. }
  apply step_emits_bind; [apply writeUShort_emits; unfold u16; lia|].
  apply zeros_emit.
Qed.

Lemma writeFormat2_table segments :
  Forall oks segments ->
  (Z.of_nat (length segments) + 1) * (valueSize + 4) <= 65535 ->
  writes_table 2
    (2 + BIN_SEARCH_HEADER_SIZE
     + (Z.of_nat (length segments) + 1) * (valueSize + 4))
    (fun w => writeFormat2 valueSize conv_write w segments).
Proof.
  intros H Hfit. unfold writeFormat2, BIN_SEARCH_HEADER_SIZE.
  set (n := Z.of_nat (length segments)) in *.
  assert (Hn : 0 <= n) by (subst n; lia).
  replace (2 + 10 + (n + 1) * (valueSize + 4))
    with (2 + (10 + ((2 + (2 + valueSize)) * n + (2 + (2 + valueSize)))))
    by lia.
  apply writes_table_intro; [unfold u16; lia|].
  apply step_emits_bind.
  { apply writeBinSearchHeader_emits; nia. }
  apply step_emits_bind.
  { apply foldM_emits. eapply Forall_impl; [exact H|].
    intros [[f l] v] (Hf & Hl & Hv). cbn [fst snd] in *.
    apply step_emits_bind; [apply writeUShort_emits; exact Hl|].
    apply step_emits_bind; [apply writeUShort_emits; exact Hf | exact Hv]. }
  apply step_emits_bind; [apply writeUShort_emits; unfold u16; lia|].
  apply step_emits_bind; [apply writeUShort_emits; unfold u16; lia|].
  apply zeros_emit.
Qed.

(** The segments: never more than the entries, and made of their
    glyph IDs and values. *)
Lemma segments_loop_spec rest : forall segStart segEnd segValue segments,
  Forall oke rest -> u16 segStart -> u16 segEnd -> okv segValue ->
  Forall oks segments ->
  let out := segments_loop rest segStart segEnd segValue segments in
  Forall oks out /\
  (1 <= length out - length segments <= 1 + length rest)%nat.
Proof.
  induction rest as [|[g v] rest IH];
    intros segStart segEnd segValue segments Hr Hs He Hv Hsegs;
    cbn [segments_loop].
  - split.
    + apply Forall_app. split; [exact Hsegs|].
      constructor; [|constructor].
      unfold oks; cbn [fst snd]; split; [|split]; assumption.
    + rewrite length_app. cbn [length]. lia.
  - inversion Hr as [|? ? [Hg Hgv] Hr']; subst. cbn [fst snd] in *.
    destruct (negb (g =? segEnd + 1)
              || negb (bool_decide (v = segValue))).
    + destruct (IH g g v (segments ++ [(segStart, segEnd, segValue)]))
        as [Hf Hl]; try assumption.
      { apply Forall_app. split; [exact Hsegs|].
        constructor; [|constructor].
      unfold oks; cbn [fst snd]; split; [|split]; assumption. }
      split; [exact Hf|]. rewrite length_app in Hl. cbn [length] in *. lia.
    + destruct (IH segStart g segValue segments) as [Hf Hl];
        try assumption.
      split; [exact Hf|]. cbn [length]. lia.
Qed.
End AATLookupProps.

(** ** AATLookup: the choice of the format *)

Section AATLookupChoice.
Context {Val : Type} `{EqDecision Val}.
Variable val_le : Val -> Val -> Prop.
Context {val_le_dec : forall x y, Decision (val_le x y)}.
Variable valueSize : Z.
Variable conv_write : Writer -> Val -> result Writer.
Variable getGlyphID : string -> result Z.
Variable numGlyphs : Z.

Local Abbreviation cand := (@candidate).
Local Abbreviation cle := (@candidate_le).

#[local] Instance candidate_le_total : Total cle.
Proof. intros a b. unfold candidate_le. lia. Qed.

#[local] Instance candidate_le_trans : Transitive cle.
Proof. intros a b c. unfold candidate_le. lia. Qed.

Local Abbreviation candidate_sizes := (candidate_sizes valueSize numGlyphs).

Lemma sorted_values_length value values :
  sorted_values val_le getGlyphID value = Ok values ->
  length values = length value.
Proof.
  unfold sorted_values. intros Hs.
  apply bind_ok in Hs. destruct Hs as (entries & Hf & Hs).
  injection Hs as <-.
  rewrite (Permutation_length (merge_sort_Permutation _ entries)).
  assert (G : forall (l : list (string * Val)) (acc r : list (Z * Val)),
            foldM (fun acc '(glyph, val) =>
                     bind (getGlyphID glyph)
                          (fun gid => Ok (acc ++ [(gid, val)]))) l acc
            = Ok r -> length r = (length acc + length l)%nat).
  { induction l as [|[g v] l IH]; intros acc r Hr; cbn [foldM] in Hr.
    - injection Hr as <-. cbn. lia.
    - apply bind_ok in Hr. destruct Hr as (acc' & Ha & Hr).
      apply bind_ok in Ha. destruct Ha as (gid & _ & Ha).
      injection Ha as <-. apply IH in Hr. rewrite length_app in Hr.
      cbn [length] in *. lia. }
  apply G in Hf. cbn in Hf. exact Hf.
Qed.

Section Candidates.
Variable values : list (Z * Val).
Hypothesis valueSize_nonneg : 0 <= valueSize.
Hypothesis nonempty : values <> [].
Hypothesis entries_ok : Forall (oke valueSize conv_write) values.
Hypothesis fits :
  (Z.of_nat (length values) + 1) * (valueSize + 4) <= 65535.

Lemma segments_of_ok :
  Forall (oks valueSize conv_write) (segments_of values) /\
  (length (segments_of values) <= length values)%nat.
Proof.
  destruct values as [|[g v] rest]; [contradiction|].
  inversion entries_ok as [|? ? [Hg Hv] Hrest]; subst.
  cbn [fst snd] in *.
  destruct (segments_loop_spec valueSize conv_write rest g g v [])
    as [Hf Hl]; try assumption; [constructor|].
  split; [exact Hf|]. cbn [segments_of length] in *. lia.
Qed.

(** The candidates of [write], in the order of the list literal. *)
Lemma formats_candidates :
  exists cands : list cand,
    formats valueSize conv_write numGlyphs values
    = Ok (merge_sort cle cands) /\
    map fst cands = candidate_sizes values /\
    Forall good cands.
Proof.
  destruct segments_of_ok as [Hsegs Hnseg].
  assert (Hlen : Z.of_nat (length values) <= 65535) by nia.
  unfold formats, candidate_sizes.
  (* format 2 *)
  assert (E2 : exists f2,
             buildFormat2 valueSize conv_write values = Ok f2 /\
             f2.1 = (2 + 10 + (Z.of_nat (length (segments_of values)) + 1)
                              * (valueSize + 4), 2) /\ good f2).
  { destruct values as [|[g v] rest] eqn:Ev; [contradiction|].
    eexists. split; [reflexivity|]. split; [reflexivity|].
    unfold good. cbn [fst snd].
    apply writeFormat2_table; [assumption | exact Hsegs |].
    cbn [segments_of] in Hnseg. cbn [length] in *. nia. }
  destruct E2 as (f2 & -> & K2 & G2). cbn [bind].
  (* format 6 *)
  set (f6 := buildFormat6 valueSize conv_write values).
  assert (G6 : good f6).
  { unfold good, f6, buildFormat6. cbn [fst snd].
    apply writeFormat6_table; assumption. }
  (* format 8 *)
  assert (E8 : exists f8,
             buildFormat8 valueSize conv_write values = Ok f8 /\
             map fst (omap id [f8])
             = (if contiguous values
                then [(6 + Z.of_nat (length values) * valueSize, 8)]
                else []) /\
             Forall good (omap id [f8])).
  { unfold buildFormat8, contiguous.
    destruct values as [|[g v] rest] eqn:Ev; [contradiction|].
    rewrite <- Ev in *.
    assert (Hl : exists e, last values = Some e).
    { rewrite Ev. destruct (last_is_Some ((g, v) :: rest)) as [_ Hs].
      destruct Hs as [e He]; [discriminate|]. eauto. }
    destruct Hl as [[mx vx] ->].
    destruct (Z.of_nat (length values) =? mx - g + 1).
    - eexists. split; [reflexivity|]. split; [reflexivity|].
      constructor; [|constructor]. unfold good. cbn [fst snd].
      apply writeFormat8_table; assumption.
    - eexists. split; [reflexivity|]. split; [reflexivity|].
      constructor. }
  destruct E8 as (f8 & -> & K8 & G8). cbn [bind].
  (* format 0 *)
  set (f0 := buildFormat0 valueSize conv_write numGlyphs values).
  assert (E0 : map fst (omap id [f0])
               = (if Z.of_nat (length values) =? numGlyphs
                  then [(2 + numGlyphs * valueSize, 0)] else []) /\
               Forall good (omap id [f0])).
  { unfold f0, buildFormat0.
    destruct (Z.eqb_spec (Z.of_nat (length values)) numGlyphs) as [E|E];
      cbn [negb].
    - split; [reflexivity|]. constructor; [|constructor].
      unfold good. cbn [fst snd]. rewrite <- E.
      apply writeFormat0_table. assumption.
    - split; [reflexivity|]. constructor. }
  destruct E0 as [K0 G0].
  exists (omap id [f0] ++ [f2; f6] ++ omap id [f8]).
  split; [|split].
  - f_equal. f_equal. destruct f0, f8; reflexivity.
  - rewrite !map_app. f_equal; [exact K0|]. f_equal; [|exact K8].
    cbn [map]. f_equal. exact K2.
  - rewrite !Forall_app. split; [exact G0|]. split; [|exact G8].
    constructor; [exact G2|]. constructor; [exact G6|]. constructor.
Qed.

(** The head of the sorted candidates is smallest, ties going to the
    lower format. *)
Lemma formats_head :
  exists chosen rest,
    formats valueSize conv_write numGlyphs values = Ok (chosen :: rest) /\
    map fst (chosen :: rest) ≡ₚ candidate_sizes values /\
    Forall (cle chosen) rest /\
    good chosen.
Proof.
  destruct formats_candidates as (cands & Hf & Hk & Hg).
  pose proof (merge_sort_Permutation cle cands) as Hp.
  pose proof (StronglySorted_merge_sort cle cands) as Hs.
  destruct (merge_sort cle cands) as [|chosen rest] eqn:Es.
  - apply Permutation_nil_l in Hp. subst cands.
    unfold candidate_sizes in Hk. symmetry in Hk.
    apply app_eq_nil in Hk. destruct Hk as [_ Hk]. discriminate.
  - exists chosen, rest. split; [exact Hf|]. split; [|split].
    + rewrite <- Hk. apply fmap_Permutation. exact Hp.
    + inversion Hs; assumption.
    + rewrite <- Hp in Hg. inversion Hg; assumption.
Qed.
End Candidates.
End AATLookupChoice.

Lemma candidate_sizes_formats {Val : Type} `{EqDecision Val}
      valueSize numGlyphs (values : list (Z * Val)) size fmt :
  (size, fmt) ∈ candidate_sizes valueSize numGlyphs values ->
  fmt = 0 \/ fmt = 2 \/ fmt = 6 \/ fmt = 8.
Proof.
  unfold candidate_sizes. intros Hin.
  apply elem_of_app in Hin. destruct Hin as [Hin|Hin].
  { destruct (Z.of_nat (length values) =? numGlyphs);
      [|apply elem_of_nil in Hin; contradiction].
    apply list_elem_of_singleton in Hin. injection Hin as _ ->. auto. }
  apply elem_of_app in Hin. destruct Hin as [Hin|Hin].
  { apply elem_of_cons in Hin. destruct Hin as [Hin|Hin];
      [injection Hin as _ ->; auto|].
    apply list_elem_of_singleton in Hin. injection Hin as _ ->. auto. }
  destruct (contiguous values); [|apply elem_of_nil in Hin; contradiction].
  apply list_elem_of_singleton in Hin. injection Hin as _ ->. auto.
Qed.

Lemma u16_dec v : {u16 v} + {~ u16 v}.
Proof.
  unfold u16. destruct (Z_le_dec 0 v); [|right; lia].
  destruct (Z_lt_dec v 65536); [left; lia | right; lia].
Qed.

Lemma writeUShort_raise w v : ~ u16 v -> writeUShort w v = Raise StructError.
Proof.
  intros Hv. unfold writeUShort, writeU.
  change (256 ^ Z.of_nat 2) with 65536.
  destruct (Z.leb_spec 0 v); destruct (Z.ltb_spec v 65536);
    try reflexivity.
  exfalso. apply Hv. unfold u16. lia.
Qed.

Lemma writeBinSearchHeader_fits n u :
  header_fits n u -> step_emits 10 (fun w => writeBinSearchHeader w n u).
Proof.
  intros (Hu & Hn & Hsr & Hes & Hrs). unfold writeBinSearchHeader.
  destruct (getSearchRange n u) as [[sr es] rs]. cbn [fst snd] in *.
  apply (step_emits_bind 2 8); [apply writeUShort_emits; exact Hu|].
  apply (step_emits_bind 2 6); [apply writeUShort_emits; exact Hn|].
  apply (step_emits_bind 2 4); [apply writeUShort_emits; exact Hsr|].
  apply (step_emits_bind 2 2); [apply writeUShort_emits; exact Hes|].
  apply writeUShort_emits; exact Hrs.
Qed.

Lemma writeBinSearchHeader_raises n u w :
  ~ header_fits n u -> writeBinSearchHeader w n u = Raise StructError.
Proof.
  intros Hno. unfold writeBinSearchHeader, header_fits in *.
  destruct (getSearchRange n u) as [[sr es] rs]. cbn [fst snd] in *.
  destruct (u16_dec u) as [Hu|Hu];
    [rewrite (writeUShort_ok _ _ Hu) | rewrite (writeUShort_raise _ _ Hu);
                                       reflexivity].
  cbn [bind].
  destruct (u16_dec n) as [Hn|Hn];
    [rewrite (writeUShort_ok _ _ Hn) | rewrite (writeUShort_raise _ _ Hn);
                                       reflexivity].
  cbn [bind].
  destruct (u16_dec sr) as [Hsr|Hsr];
    [rewrite (writeUShort_ok _ _ Hsr) | rewrite (writeUShort_raise _ _ Hsr);
                                        reflexivity].
  cbn [bind].
  destruct (u16_dec es) as [Hes|Hes];
    [rewrite (writeUShort_ok _ _ Hes) | rewrite (writeUShort_raise _ _ Hes);
                                        reflexivity].
  cbn [bind].
  destruct (u16_dec rs) as [Hrs|Hrs];
    [tauto | apply writeUShort_raise; exact Hrs].
Qed.

Section AATLookupChosen.
Context {Val : Type} `{EqDecision Val}.
Variable valueSize : Z.
Variable conv_write : Writer -> Val -> result Writer.
Variable numGlyphs : Z.

Hypothesis valueSize_nonneg : 0 <= valueSize.

Local Abbreviation oke := (oke valueSize conv_write).
Local Abbreviation oks := (oks valueSize conv_write).
Local Abbreviation cle := (@candidate_le).
Local Abbreviation fits := (format_fits valueSize).

#[local] Instance cle_total : Total cle.
Proof. intros a b. unfold candidate_le. lia. Qed.

#[local] Instance cle_trans : Transitive cle.
Proof. intros a b c. unfold candidate_le. lia. Qed.

Lemma writeFormat6_fits values :
  Forall oke values ->
  header_fits (Z.of_nat (length values)) (valueSize + 2) ->
  writes_table 6
    (2 + BIN_SEARCH_HEADER_SIZE
     + (Z.of_nat (length values) + 1) * (valueSize + 2))
    (fun w => writeFormat6 valueSize conv_write w values).
Proof.
  intros H Hfit. unfold writeFormat6, BIN_SEARCH_HEADER_SIZE.
  set (n := Z.of_nat (length values)) in *.
  replace (2 + 10 + (n + 1) * (valueSize + 2))
    with (2 + (10 + ((2 + valueSize) * n + (2 + valueSize)))) by lia.
  apply writes_table_intro; [unfold u16; lia|].
  apply step_emits_bind.
  { apply writeBinSearchHeader_fits. exact Hfit. }
  apply step_emits_bind.
  { apply foldM_emits. eapply Forall_impl; [exact H|].
    intros [g v] [Hg Hv]. cbn [fst snd] in *.
    apply step_emits_bind; [apply writeUShort_emits; exact Hg | exact Hv]. }
  apply step_emits_bind; [apply writeUShort_emits; unfold u16; lia|].
  apply zeros_emit. exact valueSize_nonneg.
Qed.

Lemma writeFormat6_raises values w :
  ~ header_fits (Z.of_nat (length values)) (valueSize + 2) ->
  writeFormat6 valueSize conv_write w values = Raise StructError.
Proof.
  intros Hno. unfold writeFormat6.
  rewrite writeUShort_ok by (unfold u16; lia). cbn [bind].
  rewrite writeBinSearchHeader_raises by exact Hno. reflexivity.
Qed.

Lemma writeFormat2_fits segments :
  Forall oks segments ->
  header_fits (Z.of_nat (length segments)) (valueSize + 4) ->
  writes_table 2
    (2 + BIN_SEARCH_HEADER_SIZE
     + (Z.of_nat (length segments) + 1) * (valueSize + 4))
    (fun w => writeFormat2 valueSize conv_write w segments).
Proof.
  intros H Hfit. unfold writeFormat2, BIN_SEARCH_HEADER_SIZE.
  set (n := Z.of_nat (length segments)) in *.
  replace (2 + 10 + (n + 1) * (valueSize + 4))
    with (2 + (10 + ((2 + (2 + valueSize)) * n + (2 + (2 + valueSize)))))
    by lia.
  apply writes_table_intro; [unfold u16; lia|].
  apply step_emits_bind.
  { apply writeBinSearchHeader_fits. exact Hfit. }
  apply step_emits_bind.
  { apply foldM_emits. eapply Forall_impl; [exact H|].
    intros [[f l] v] (Hf & Hl & Hv). cbn [fst snd] in *.
    apply step_emits_bind; [apply writeUShort_emits; exact Hl|].
    apply step_emits_bind; [apply writeUShort_emits; exact Hf | exact Hv]. }
  apply step_emits_bind; [apply writeUShort_emits; unfold u16; lia|].
  apply step_emits_bind; [apply writeUShort_emits; unfold u16; lia|].
  apply zeros_emit. exact valueSize_nonneg.
Qed.

Lemma writeFormat2_raises segments w :
  ~ header_fits (Z.of_nat (length segments)) (valueSize + 4) ->
  writeFormat2 valueSize conv_write w segments = Raise StructError.
Proof.
  intros Hno. unfold writeFormat2.
  rewrite writeUShort_ok by (unfold u16; lia). cbn [bind].
  rewrite writeBinSearchHeader_raises by exact Hno. reflexivity.
Qed.

Lemma writeFormat8_raises values w :
  values <> [] -> Forall oke values ->
  ~ u16 (Z.of_nat (length values)) ->
  writeFormat8 conv_write w values = Raise StructError.
Proof.
  intros Hne H Hno. destruct values as [|[g0 v0] rest]; [contradiction|].
  unfold writeFormat8.
  rewrite writeUShort_ok by (unfold u16; lia). cbn [bind].
  inversion H as [|? ? [Hg _] _]; subst. cbn [fst] in Hg.
  rewrite (writeUShort_ok _ g0 Hg). cbn [bind].
  rewrite writeUShort_raise by exact Hno. reflexivity.
Qed.

(** A candidate is written as announced when the sink takes its header,
    and its method raises when not. *)
Definition settled (values : list (Z * Val)) (c : candidate) : Prop :=
  (fits values c.1.2 -> good c) /\
  (~ fits values c.1.2 -> forall w, c.2 w = Raise StructError).

(** The head of the sorted candidates without a bound on the tables. *)
Lemma formats_chosen values :
  values <> [] -> Forall oke values ->
  exists chosen rest,
    formats valueSize conv_write numGlyphs values = Ok (chosen :: rest) /\
    map fst (chosen :: rest) ≡ₚ candidate_sizes valueSize numGlyphs values /\
    Forall (cle chosen) rest /\
    settled values chosen.
Proof.
  intros nonempty entries_ok.
  assert (Hcands : exists cands : list candidate,
             formats valueSize conv_write numGlyphs values
             = Ok (merge_sort cle cands) /\
             map fst cands = candidate_sizes valueSize numGlyphs values /\
             Forall (settled values) cands).
  { assert (Hsegs : Forall oks (segments_of values)).
    { destruct values as [|[g v] rest]; [contradiction|].
      inversion entries_ok as [|? ? [Hg Hv] Hrest]; subst.
      cbn [fst snd] in *.
      destruct (segments_loop_spec valueSize conv_write rest g g v [])
        as [Hf _]; try assumption. constructor. }
    unfold formats, candidate_sizes.
    (* format 2 *)
    assert (E2 : exists f2,
               buildFormat2 valueSize conv_write values = Ok f2 /\
               f2.1 = (2 + 10 + (Z.of_nat (length (segments_of values)) + 1)
                                * (valueSize + 4), 2) /\ settled values f2).
    { destruct values as [|[g v] rest] eqn:Ev; [contradiction|].
      eexists. split; [reflexivity|]. split; [reflexivity|].
      unfold settled, good, format_fits. cbn [fst snd Z.eqb Pos.eqb].
      split.
      - intros Hfit. apply writeFormat2_fits; assumption.
      - intros Hno w. apply writeFormat2_raises. exact Hno. }
    destruct E2 as (f2 & -> & K2 & G2). cbn [bind].
    (* format 6 *)
    set (f6 := buildFormat6 valueSize conv_write values).
    assert (G6 : settled values f6).
    { unfold settled, good, format_fits, f6, buildFormat6.
      cbn [fst snd Z.eqb Pos.eqb]. split.
      - intros Hfit. apply writeFormat6_fits; assumption.
      - intros Hno w. apply writeFormat6_raises. exact Hno. }
    (* format 8 *)
    assert (E8 : exists f8,
               buildFormat8 valueSize conv_write values = Ok f8 /\
               map fst (omap id [f8])
               = (if contiguous values
                  then [(6 + Z.of_nat (length values) * valueSize, 8)]
                  else []) /\
               Forall (settled values) (omap id [f8])).
    { unfold buildFormat8, contiguous.
      destruct values as [|[g v] rest] eqn:Ev; [contradiction|].
      rewrite <- Ev in *.
      assert (Hl : exists e, last values = Some e).
      { rewrite Ev. destruct (last_is_Some ((g, v) :: rest)) as [_ Hs].
        destruct Hs as [e He]; [discriminate|]. eauto. }
      destruct Hl as [[mx vx] ->].
      destruct (Z.of_nat (length values) =? mx - g + 1).
      - eexists. split; [reflexivity|]. split; [reflexivity|].
        constructor; [|constructor].
        unfold settled, good, format_fits. cbn [fst snd Z.eqb Pos.eqb].
        split.
        + intros Hfit. apply writeFormat8_table; try assumption.
          unfold u16 in Hfit. lia.
        + intros Hno w. apply writeFormat8_raises; assumption.
      - eexists. split; [reflexivity|]. split; [reflexivity|].
        constructor. }
    destruct E8 as (f8 & -> & K8 & G8). cbn [bind].
    (* format 0 *)
    set (f0 := buildFormat0 valueSize conv_write numGlyphs values).
    assert (E0 : map fst (omap id [f0])
                 = (if Z.of_nat (length values) =? numGlyphs
                    then [(2 + numGlyphs * valueSize, 0)] else []) /\
                 Forall (settled values) (omap id [f0])).
    { unfold f0, buildFormat0.
      destruct (Z.eqb_spec (Z.of_nat (length values)) numGlyphs) as [E|E];
        cbn [negb].
      - split; [reflexivity|]. constructor; [|constructor].
        unfold settled, good, format_fits. cbn [fst snd Z.eqb]. split.
        + intros _. rewrite <- E. apply writeFormat0_table; assumption.
        + intros Hno. exfalso. apply Hno. exact I.
      - split; [reflexivity|]. constructor. }
    destruct E0 as [K0 G0].
    exists (omap id [f0] ++ [f2; f6] ++ omap id [f8]).
    split; [|split].
    - f_equal. f_equal. destruct f0, f8; reflexivity.
    - rewrite !map_app. f_equal; [exact K0|]. f_equal; [|exact K8].
      cbn [map]. f_equal. exact K2.
    - rewrite !Forall_app. split; [exact G0|]. split; [|exact G8].
      constructor; [exact G2|]. constructor; [exact G6|]. constructor. }
  destruct Hcands as (cands & Hf & Hk & Hg).
  pose proof (merge_sort_Permutation cle cands) as Hp.
  pose proof (StronglySorted_merge_sort cle cands) as Hs.
  destruct (merge_sort cle cands) as [|chosen rest] eqn:Es.
  - apply Permutation_nil_l in Hp. subst cands.
    unfold candidate_sizes in Hk. symmetry in Hk.
    apply app_eq_nil in Hk. destruct Hk as [_ Hk]. discriminate.
  - exists chosen, rest. split; [exact Hf|]. split; [|split].
    + rewrite <- Hk. apply fmap_Permutation. exact Hp.
    + inversion Hs; assumption.
    + rewrite <- Hp in Hg. inversion Hg; assumption.
Qed.
End AATLookupChosen.

(** The head of a list of sizes sorted by size and format is its least
    element. *)
Lemma chosen_is_least (dataSize lookupFormat : Z) (rest : list candidate)
      (sizes : list (Z * Z)) (least : Z * Z) :
  (dataSize, lookupFormat) :: map fst rest ≡ₚ sizes ->
  Forall (fun c => dataSize < c.1.1 \/
                   (dataSize = c.1.1 /\ lookupFormat <= c.1.2)) rest ->
  least ∈ sizes ->
  Forall (fun x => x = least \/ least.1 < x.1 \/
                   (least.1 = x.1 /\ least.2 < x.2)) sizes ->
  (dataSize, lookupFormat) = least.
Proof.
  intros Hp Hle Hin Hmin.
  assert (Hhd : (dataSize, lookupFormat) ∈ sizes)
    by (rewrite <- Hp; apply elem_of_cons; left; reflexivity).
  rewrite Forall_forall in Hmin. specialize (Hmin _ Hhd).
  rewrite <- Hp in Hin. apply elem_of_cons in Hin.
  destruct Hin as [Hin|Hin]; [congruence|].
  apply list_elem_of_fmap in Hin. destruct Hin as (c & Hc & Hcin).
  rewrite Forall_forall in Hle. specialize (Hle c Hcin).
  rewrite <- Hc in Hle. cbn [fst snd] in *.
  destruct Hmin as [Hmin|Hmin]; [exact Hmin | lia].
Qed.



Lemma digit_value d :
  0 <= d < 10 -> Z.of_nat (Ascii.nat_of_ascii (digit d)) - 48 = d.
Proof.
  intros Hd. unfold digit. rewrite Ascii.nat_ascii_embedding by lia. lia.
Qed.

Lemma ex_cid_resolves n :
  0 <= n < 100000 -> ex_cid_getGlyphID (ex_cid_name n) = Ok n.
Proof.
  intros Hn. unfold ex_cid_getGlyphID, ex_cid_name.
  pose proof (digit_value (n / 10000 mod 10)
                ltac:(apply Z.mod_pos_bound; lia)) as H4.
  pose proof (digit_value (n / 1000 mod 10)
                ltac:(apply Z.mod_pos_bound; lia)) as H3.
  pose proof (digit_value (n / 100 mod 10)
                ltac:(apply Z.mod_pos_bound; lia)) as H2.
  pose proof (digit_value (n / 10 mod 10)
                ltac:(apply Z.mod_pos_bound; lia)) as H1.
  pose proof (digit_value (n mod 10)
                ltac:(apply Z.mod_pos_bound; lia)) as H0.
  remember (digit (n / 10000 mod 10)) as c4 eqn:E4. clear E4.
  remember (digit (n / 1000 mod 10)) as c3 eqn:E3. clear E3.
  remember (digit (n / 100 mod 10)) as c2 eqn:E2. clear E2.
  remember (digit (n / 10 mod 10)) as c1 eqn:E1. clear E1.
  remember (digit (n mod 10)) as c0 eqn:E0. clear E0.
  change (String.append "cid" ?s)
    with (String (Ascii.ascii_of_nat 99)
            (String (Ascii.ascii_of_nat 105)
               (String (Ascii.ascii_of_nat 100) s))).
  cbn [String.substring String.eqb String.list_ascii_of_string foldl].
  change (Ascii.eqb (Ascii.ascii_of_nat 99) (Ascii.ascii_of_nat 99))
    with true.
  change (Ascii.eqb (Ascii.ascii_of_nat 105) (Ascii.ascii_of_nat 105))
    with true.
  change (Ascii.eqb (Ascii.ascii_of_nat 100) (Ascii.ascii_of_nat 100))
    with true.
  cbv iota. f_equal.
  remember (Z.of_nat (Ascii.nat_of_ascii c4)) as z4.
  remember (Z.of_nat (Ascii.nat_of_ascii c3)) as z3.
  remember (Z.of_nat (Ascii.nat_of_ascii c2)) as z2.
  remember (Z.of_nat (Ascii.nat_of_ascii c1)) as z1.
  remember (Z.of_nat (Ascii.nat_of_ascii c0)) as z0.
  clear - Hn H4 H3 H2 H1 H0.
  Z.div_mod_to_equations. lia.
Qed.

Lemma ex_cid_entries (l : list Z) : forall acc,
  Forall (fun i => 0 <= i < 50000) l ->
  foldM (fun acc '(glyph, val) =>
           do gid <- ex_cid_getGlyphID glyph; Ok (acc ++ [(gid, val)]))
        (map (fun i => (ex_cid_name (2 * i), 0)) l) acc
  = Ok (acc ++ map (fun i => (2 * i, 0)) l).
Proof.
  induction l as [|i l IH]; intros acc Hl.
  - cbn [map foldM]. rewrite app_nil_r. reflexivity.
  - apply Forall_cons in Hl. destruct Hl as [Hi Hl].
    cbn [map foldM]. rewrite ex_cid_resolves by lia. cbn [bind].
    rewrite IH by exact Hl. rewrite <- app_assoc. reflexivity.
Qed.

(** The sorted entries of such a mapping: as many as the mapping has,
    with even glyph IDs. *)
Lemma ex_cid_sorted (l : list Z) :
  Forall (fun i => 0 <= i < 16384) l ->
  exists values,
    sorted_values Z.le ex_cid_getGlyphID
                  (map (fun i => (ex_cid_name (2 * i), 0)) l) = Ok values /\
    length values = length l /\
    Forall (fun e : Z * Z =>
              exists i, 0 <= i < 16384 /\ e.1 = 2 * i /\ e.2 = 0) values.
Proof.
  intros Hl.
  assert (Hs : exists values,
             sorted_values Z.le ex_cid_getGlyphID
                           (map (fun i => (ex_cid_name (2 * i), 0)) l)
             = Ok values /\
             values ≡ₚ map (fun i => (2 * i, 0)) l).
  { unfold sorted_values.
    rewrite ex_cid_entries.
    - cbn [bind app]. eexists. split; [reflexivity|].
      apply merge_sort_Permutation.
    - eapply Forall_impl; [exact Hl|]. cbv beta. intros i Hi. lia. }
  destruct Hs as (values & Hsorted & Hperm).
  exists values. split; [exact Hsorted|]. split.
  - rewrite Hperm, length_map. reflexivity.
  - rewrite Hperm. apply Forall_forall. intros e He.
    apply list_elem_of_fmap in He. destruct He as (i & -> & Hi).
    rewrite Forall_forall in Hl. specialize (Hl i Hi).
    exists i. cbn [fst snd]. lia.
Qed.

(** Glyphs of which no two are neighbours make one segment each. *)
Lemma segments_loop_apart (rest : list (Z * Z)) :
  forall segStart segEnd segValue segments,
    Forall (fun e => exists i, e.1 = 2 * i) rest ->
    (exists j, segEnd = 2 * j) ->
    length (segments_loop rest segStart segEnd segValue segments)
    = (length segments + 1 + length rest)%nat.
Proof.
  induction rest as [|[g v] rest IH];
    intros segStart segEnd segValue segments Hr [j Hj];
    cbn [segments_loop].
  - rewrite length_app. cbn [length]. lia.
  - apply Forall_cons in Hr. destruct Hr as [[i Hi] Hr]. cbn [fst] in Hi.
    destruct (Z.eqb_spec g (segEnd + 1)) as [E|E]; [lia|].
    cbn [negb orb].
    rewrite IH by (try exact Hr; exists i; exact Hi).
    rewrite length_app. cbn [length]. lia.
Qed.

(** The candidates for such entries: the formats 2 and 6. *)
Lemma ex_cid_sizes (values : list (Z * Z)) :
  Z.of_nat (length values) = 16384 ->
  Forall (fun e : Z * Z => exists i, e.1 = 2 * i) values ->
  candidate_sizes 2 65535 values = [(98322, 2); (65552, 6)].
Proof.
  intros Hlen Hev. unfold candidate_sizes.
  assert (Hseg : Z.of_nat (length (segments_of values)) = 16384).
  { destruct values as [|[g v] tl]; [discriminate Hlen|].
    apply Forall_cons in Hev. destruct Hev as [Hi Hev].
    cbn [fst] in Hi. cbn [segments_of].
    rewrite segments_loop_apart by assumption.
    cbn [length] in *. lia. }
  assert (Hc : contiguous values = false).
  { unfold contiguous. destruct values as [|[g v] tl]; [reflexivity|].
    destruct (last ((g, v) :: tl)) as [[mx vx]|] eqn:El; [|reflexivity].
    assert (Hin : (mx, vx) ∈ (g, v) :: tl).
    { apply last_Some in El. destruct El as [l' ->].
      apply elem_of_app. right. apply elem_of_cons. left. reflexivity. }
    rewrite Forall_forall in Hev.
    destruct (Hev _ Hin) as (i & Hi).
    destruct (Hev (g, v) ltac:(apply elem_of_cons; left; reflexivity))
      as (j & Hj).
    cbn [fst] in *. apply Z.eqb_neq. lia. }
  rewrite Hseg, Hc, Hlen. reflexivity.
Qed.


(** The bytes of that table: format 8, first glyph 10, four values. *)
Example AATLookup_write_format8_bytes :
  option_map (fun w => items_data (w_items w))
    (match AATLookup_write Z.le 2 writeUShort ex_getGlyphID 20 newWriter
             [("g12", 5); ("g10", 5); ("g13", 5); ("g11", 5)] with
     | Ok w => Some w
     | Raise _ => None
     end)
  = Some (Some [0; 8; 0; 10; 0; 4; 0; 5; 0; 5; 0; 5; 0; 5]).
Proof. vm_compute. reflexivity. Qed.

(** C10.  For the empty mapping, [AATLookup.write] raises: the entries
    sort to the empty list, and the format-2 candidate builder indexes
    its first entry, so that no list of candidates is ever made and no
    size is compared.  Yet the empty mapping is a wire form that decodes:
    a format-6 table with zero units reads as the empty mapping. *)
Theorem AATLookup_write_empty {Val : Type} `{EqDecision Val}
        (val_le : Val -> Val -> Prop)
        {val_le_dec : forall x y, Decision (val_le x y)}
        (valueSize : Z) (conv_write : Writer -> Val -> result Writer)
        (conv_read : Reader -> result (Val * Reader))
        (getGlyphID : string -> result Z) (getGlyphName : Z -> string)
        (numGlyphs : Z) (writer : Writer) (post : bytes) (off : Z) :
  sorted_values val_le getGlyphID [] = Ok [] /\
  buildFormat2 valueSize conv_write [] = Raise IndexError /\
  formats valueSize conv_write numGlyphs [] = Raise IndexError /\
  AATLookup_write val_le valueSize conv_write getGlyphID numGlyphs writer []
  = Raise IndexError /\
  AATLookup_read 2 conv_read getGlyphName numGlyphs
    (mkReader ([0; 6; 0; 4; 0; 0; 0; 0; 0; 0; 0; 0; 255; 255; 0; 0] ++ post)
              off 0)
  = Ok (∅,
        mkReader ([0; 6; 0; 4; 0; 0; 0; 0; 0; 0; 0; 0; 255; 255; 0; 0] ++ post)
                 off 6).
Proof.
  split; [reflexivity|]. split; [reflexivity|]. split; [reflexivity|].
  split; [reflexivity|].
  set (tail := [0; 0; 0; 0; 0; 0; 255; 255; 0; 0] ++ post).
  set (data := [0; 6; 0; 4; 0; 0; 0; 0; 0; 0; 0; 0; 255; 255; 0; 0] ++ post).
  assert (E0 : readUShort (mkReader data off 0)
               = Ok (6, mkReader data off 2))
    by exact (readU_at 2 [] 6 ([0; 4; 0; 0] ++ tail) off ltac:(cbn; lia)).
  assert (E2 : readUShort (mkReader data off 2)
               = Ok (4, mkReader data off 4))
    by exact (readU_at 2 [0; 6] 4 ([0; 0] ++ tail) off ltac:(cbn; lia)).
  assert (E4 : readUShort (mkReader data off 4)
               = Ok (0, mkReader data off 6))
    by exact (readU_at 2 [0; 6; 0; 4] 0 tail off ltac:(cbn; lia)).
  unfold AATLookup_read. rewrite E0. cbn [bind Z.eqb Pos.eqb].
  unfold readFormat6. rewrite E2. cbn [bind]. rewrite E4. reflexivity.
Qed.

(** ** STXHeader: the number of per-glyph lookups *)

Lemma length_range n : length (range n) = Z.to_nat n.
Proof. unfold range. apply length_seqZ. Qed.

Lemma max_succ_spec indices : forall n,
  n <= max_succ n indices /\
  Forall (fun i => i + 1 <= max_succ n indices) indices /\
  (max_succ n indices = n \/
   exists i, i ∈ indices /\ max_succ n indices = i + 1).
Proof.
  induction indices as [|i l IH]; intros n; cbn [max_succ foldl].
  - split; [lia|]. split; [constructor|]. left. reflexivity.
  - fold (max_succ (Z.max n (i + 1)) l).
    destruct (IH (Z.max n (i + 1))) as (Hle & Hall & Hex).
    split; [lia|]. split; [constructor; [lia | exact Hall]|].
    destruct Hex as [E|(j & Hj & E)].
    + destruct (Z.max_spec n (i + 1)) as [[_ E']|[_ E']].
      * right. exists i. split; [left|]. rewrite E, E'. reflexivity.
      * left. rewrite E, E'. reflexivity.
    + right. exists j. split; [right; exact Hj | exact E].
Qed.

Section STXCount.
Variable Action : Type.
Variable contextual : Action -> option (Z * Z).

Local Abbreviation refs_of_transition := (refs_of_transition Action contextual).
Local Abbreviation refs_of_state := (refs_of_state Action contextual).
Local Abbreviation referenced := (referenced contextual).

Lemma count_transition_refs n t :
  count_transition Action contextual n t
  = max_succ n (refs_of_transition t).
Proof.
  unfold count_transition, refs_of_transition.
  destruct (contextual t) as [[m c]|]; [|reflexivity].
  destruct (m =? 65535), (c =? 65535); reflexivity.
Qed.

Lemma max_succ_app n a b : max_succ n (a ++ b) = max_succ (max_succ n a) b.
Proof. unfold max_succ. apply foldl_app. Qed.

Lemma count_transitions_refs (ts : list Action) : forall n,
  foldl (count_transition Action contextual) n ts
  = max_succ n (concat (refs_of_transition <$> ts)).
Proof.
  induction ts as [|t ts IH]; intros n; [reflexivity|].
  cbn [foldl fmap list_fmap concat]. rewrite IH, max_succ_app.
  rewrite count_transition_refs. reflexivity.
Qed.

Lemma count_referenced (table : AATStateTable Action) :
  _countPerGlyphLookups Action contextual table
  = max_succ 0 (referenced table).
Proof.
  unfold _countPerGlyphLookups, referenced.
  generalize 0. induction (States table) as [|s ss IH]; intros n;
    [reflexivity|].
  cbn [foldl fmap list_fmap concat]. rewrite IH, max_succ_app.
  rewrite count_transitions_refs. reflexivity.
Qed.
End STXCount.

Lemma readU_advance n r v r' : readU n r = Ok (v, r') -> r' = advance r n.
Proof.
  unfold readU, readData. intros H.
  destruct ((0 <=? r_pos r) && (0 <=? n)
            && (r_pos r + n <=? Z.of_nat (length (r_data r))));
    [|discriminate].
  cbn in H. injection H as _ <-. reflexivity.
Qed.

Lemma readPerGlyphLookups_length
      (Action : Type) (contextual : Action -> option (Z * Z))
      getGlyphName numGlyphs (table : AATStateTable Action)
      reader lookups reader' :
  _readPerGlyphLookups Action contextual getGlyphName numGlyphs table reader
  = Ok (lookups, reader') ->
  length lookups = Z.to_nat (_countPerGlyphLookups Action contextual table) /\
  r_pos reader' = r_pos reader + 4 * Z.of_nat (length lookups).
Proof.
  unfold _readPerGlyphLookups. rewrite <- length_range. cbv zeta.
  set (step := fun (pos : Z) '(lookups, reader) (_ : Z) =>
         bind (readULong reader) (fun '(offset, reader0) =>
           bind (perGlyphLookup_read getGlyphName numGlyphs
                   (seek (getSubReader reader 0) (pos + offset)))
                (fun '(lookup, _) => Ok (lookups ++ [lookup], reader0)))).
  assert (G : forall pos (l : list Z) (acc : list (gmap string string)) r,
            foldM (step pos) l (acc, r) = Ok (lookups, reader') ->
            length lookups = (length acc + length l)%nat /\
            r_pos reader' = r_pos r + 4 * Z.of_nat (length l)).
  { intros pos l. induction l as [|x l IH]; intros acc r H; cbn [foldM] in H.
    - injection H as <- <-. cbn [length]. lia.
    - apply bind_ok in H. destruct H as ([acc1 r1] & Hstep & Hrest).
      unfold step in Hstep.
      apply bind_ok in Hstep. destruct Hstep as ([offset r2] & Hrd & Hstep).
      apply bind_ok in Hstep. destruct Hstep as ([lookup r3] & _ & Hstep).
      injection Hstep as <- <-.
      apply readU_advance in Hrd. subst r2.
      apply IH in Hrest. destruct Hrest as [Hl Hp].
      rewrite length_app in Hl. cbn [length advance r_pos] in *. lia. }
  intros H. apply (G (r_pos reader)) in H. destruct H as [Hl Hp].
  cbn [length] in Hl. split; [exact Hl|]. rewrite Hp, Hl. reflexivity.
Qed.

(** C8.  The number of per-glyph lookup tables is derived from the
    transitions: it is 0 when no transition refers to a lookup, and else
    the largest index referred to plus one, where a contextual action
    refers to its MarkIndex and to its CurrentIndex unless they are
    0xFFFF.  Decoding reads exactly that many offsets and lookups,
    whatever the buffer holds.  Encoding with a converter that has a
    per-glyph lookup (a contextual action class) a table whose
    [PerGlyphLookups] has any other length fails the assertion of
    [_compilePerGlyphLookups], so that [write] raises; a converter
    without a per-glyph lookup returns no bytes before the assertion,
    whatever the length. *)
Theorem STX_perGlyphLookups_count
        (Action : Type) (compile_action : Action -> result bytes)
        (staticSize : Action -> Z) (contextual : Action -> option (Z * Z))
        (getGlyphID : string -> result Z) (getGlyphName : Z -> string)
        (numGlyphs : Z) (layout : list item -> bytes)
        (table : AATStateTable Action) :
  let count := _countPerGlyphLookups Action contextual table in
  (0 <= count /\
   Forall (fun i => i + 1 <= count) (referenced contextual table) /\
   (count = 0 \/ exists i, i ∈ referenced contextual table /\ count = i + 1))
  /\
  (forall reader lookups reader',
     _readPerGlyphLookups Action contextual getGlyphName numGlyphs table
                          reader = Ok (lookups, reader') ->
     Z.of_nat (length lookups) = count /\
     r_pos reader' = r_pos reader + 4 * count) /\
  (forall writer,
     Z.of_nat (length (PerGlyphLookups table)) <> count ->
     _compilePerGlyphLookups Action contextual getGlyphID numGlyphs layout
                             true table = Raise AssertionError /\
     exists e,
       STXHeader_write Action compile_action staticSize contextual getGlyphID
                       numGlyphs layout true writer table = Raise e) /\
  _compilePerGlyphLookups Action contextual getGlyphID numGlyphs layout
                          false table = Ok [].
Proof.
  intros count.
  pose proof (max_succ_spec (referenced contextual table) 0)
    as (H0 & Hall & Hex).
  rewrite <- (count_referenced Action contextual table) in H0, Hall, Hex.
  fold count in H0, Hall, Hex.
  split; [split; [exact H0 | split; [exact Hall | exact Hex]]|].
  split; [|split; [|reflexivity]].
  - intros reader lookups reader' H.
    apply readPerGlyphLookups_length in H. fold count in H.
    destruct H as [Hl Hp]. split; [lia|]. rewrite Hp. lia.
  - intros writer Hne.
    assert (Hc : _compilePerGlyphLookups Action contextual getGlyphID
                   numGlyphs layout true table = Raise AssertionError).
    { unfold _compilePerGlyphLookups. cbn [negb]. fold count.
      destruct (Z.eqb_spec (Z.of_nat (length (PerGlyphLookups table))) count);
        [contradiction | reflexivity]. }
    split; [exact Hc|].
    unfold STXHeader_write.
    destruct (classLookup_write getGlyphID numGlyphs newWriter
                                (GlyphClasses table)) as [gcw|e];
      [|exists e; reflexivity].
    cbn [bind].
    destruct (max_values (GlyphClasses table)) as [maxClass|e];
      [|exists e; reflexivity].
    cbn [bind].
    destruct (compile_states Action compile_action staticSize (States table)
                             (maxClass + 1)) as [[[entries entryIDs] saw]|e];
      [|exists e; reflexivity].
    cbn [bind]. rewrite Hc. exists AssertionError. reflexivity.
Qed.

Lemma STX_perGlyphLookups_count_witness :
  _countPerGlyphLookups ex_Action ex_contextual (ex_table []) = 3 /\
  (exists lookups reader',
     _readPerGlyphLookups ex_Action ex_contextual (fun _ => "g") 20
       (ex_table [])
       (mkReader [0; 0; 0; 12; 0; 0; 0; 12; 0; 0; 0; 12; 0; 6; 0; 4; 0; 0]
                 0 0)
     = Ok (lookups, reader') /\
     Z.of_nat (length lookups) = 3 /\ r_pos reader' = 0 + 4 * 3) /\
  _compilePerGlyphLookups ex_Action ex_contextual ex_getGlyphID 20
                          (fun _ => []) true (ex_table [])
  = Raise AssertionError /\
  exists e,
    STXHeader_write ex_Action ex_compile ex_staticSize ex_contextual
                    ex_getGlyphID 20 (fun _ => []) true newWriter
                    (ex_table []) = Raise e.
Proof.
  destruct (STX_perGlyphLookups_count ex_Action ex_compile ex_staticSize
              ex_contextual ex_getGlyphID (fun _ => "g") 20 (fun _ => [])
              (ex_table [])) as (_ & Hread & Hwrite & _).
  split; [reflexivity|]. split.
  - set (data := [0; 0; 0; 12; 0; 0; 0; 12; 0; 0; 0; 12; 0; 6; 0; 4; 0; 0]).
    assert (E : _readPerGlyphLookups ex_Action ex_contextual (fun _ => "g")
                  20 (ex_table []) (mkReader data 0 0)
                = Ok ([∅; ∅; ∅], mkReader data 0 12))
      by (vm_compute; reflexivity).
    exists [∅; ∅; ∅], (mkReader data 0 12).
    split; [exact E|]. exact (Hread _ _ _ E).
  - apply (Hwrite newWriter). vm_compute. congruence.
Defined.

(** C8, counterexample.  A converter without a per-glyph lookup (an
    action class that is not contextual) checks nothing: the
    transitions of the table refer to no lookup, the table carries one
    lookup, and [write] succeeds all the same, emitting what it emits
    for the table without the lookup. *)
Lemma STX_perGlyphLookups_unchecked :
  let table := ex_table [[("g10", "g11")]] in
  _countPerGlyphLookups ex_Action (fun _ => None) table = 0 /\
  length (PerGlyphLookups table) = 1%nat /\
  _compilePerGlyphLookups ex_Action (fun _ => None) ex_getGlyphID 20
                          (fun _ => []) false table = Ok [] /\
  (exists writer',
     STXHeader_write ex_Action ex_compile ex_staticSize (fun _ => None)
                     ex_getGlyphID 20 (fun _ => []) false newWriter table
     = Ok writer') /\
  STXHeader_write ex_Action ex_compile ex_staticSize (fun _ => None)
                  ex_getGlyphID 20 (fun _ => []) false newWriter table
  = STXHeader_write ex_Action ex_compile ex_staticSize (fun _ => None)
                    ex_getGlyphID 20 (fun _ => []) false newWriter
                    (ex_table []).
Proof.
  cbv zeta. split; [reflexivity|]. split; [reflexivity|].
  split; [reflexivity|]. split; [|reflexivity].
  eexists. vm_compute. reflexivity.
Qed.

(** ** STXHeader: the entry table holds each compiled transition once *)

Lemma foldM_app {A S} (f : S -> A -> result S) (a b : list A) (s : S) :
  foldM f (a ++ b) s = bind (foldM f a s) (foldM f b).
Proof.
  revert s. induction a as [|x a IH]; intros s; cbn [app foldM bind].
  - reflexivity.
  - destruct (f s x) as [s'|e]; cbn [bind]; [apply IH | reflexivity].
Qed.

Section STXEntries.
Variable Action : Type.
Variable compile_action : Action -> result bytes.
Variable staticSize : Action -> Z.

Local Abbreviation State := (AATState Action).
Local Abbreviation cell_of := (cell_of Action compile_action).
Local Abbreviation row_cells := (row_cells Action compile_action).
Local Abbreviation cell_list := (cell_list Action compile_action).
Local Abbreviation cell_ok := (cell_ok Action compile_action staticSize).
Local Abbreviation cell_step := (cell_step Action compile_action staticSize).

Lemma row_flat glyphClassCount state :
  Forall (cell_ok state) (range glyphClassCount) ->
  forall acc,
    foldM (compile_cell Action compile_action staticSize state)
          (range glyphClassCount) acc
    = foldM cell_step (row_cells glyphClassCount state) acc.
Proof.
  unfold row_cells. generalize (range glyphClassCount) as l.
  induction l as [|c l IH]; intros Hok acc; [reflexivity|].
  inversion Hok as [|? ? (t & b & Ht & Hb & _) Hl]; subst.
  cbn [omap list_omap]. unfold cell_of at 1. rewrite Ht, Hb.
  cbn [fmap option_fmap option_map foldM]. unfold cell_step at 1.
  cbn [fst snd].
  destruct (compile_cell Action compile_action staticSize state acc c);
    cbn [bind]; [apply IH; exact Hl | reflexivity].
Qed.

Lemma states_flat glyphClassCount states :
  Forall (fun state => Forall (cell_ok state) (range glyphClassCount))
         states ->
  forall acc,
    foldM (fun acc state =>
             foldM (compile_cell Action compile_action staticSize state)
                   (range glyphClassCount) acc) states acc
    = foldM cell_step (cell_list states glyphClassCount) acc.
Proof.
  unfold cell_list.
  induction states as [|s ss IH]; intros Hok acc; [reflexivity|].
  inversion Hok as [|? ? Hs Hss]; subst.
  cbn [fmap list_fmap concat foldM]. rewrite foldM_app.
  rewrite (row_flat glyphClassCount s Hs).
  destruct (foldM cell_step (row_cells glyphClassCount s) acc);
    cbn [bind]; [apply IH; exact Hss | reflexivity].
Qed.

Lemma entries_inv_init : entries_inv [] ∅ [] [].
Proof.
  split; [constructor|]. split; [|split; [constructor | reflexivity]].
  intros b i. rewrite lookup_empty. split; [discriminate|].
  intros [_ H]. rewrite lookup_nil in H. discriminate.
Qed.

Lemma entries_inv_step entries entryIDs indices cs state c t b :
  entries_inv entries entryIDs indices cs ->
  Transitions state !! c = Some t -> compile_action t = Ok b ->
  Z.of_nat (length b) = staticSize t ->
  (forall es, NoDup es -> (forall x, x ∈ es -> x ∈ cs ++ [b]) ->
              Z.of_nat (length es) <= 65536) ->
  exists entries' entryIDs' i,
    compile_cell Action compile_action staticSize state
      (entries, entryIDs, extend newWriter (word_items indices)) c
    = Ok (entries', entryIDs',
          extend newWriter (word_items (indices ++ [i]))) /\
    entries_inv entries' entryIDs' (indices ++ [i]) (cs ++ [b]).
Proof.
  intros (Hnd & Hids & Hidx & Hmem) Ht Hb Hsz Hroom.
  unfold compile_cell. rewrite Ht. cbn [bind]. rewrite Hb. cbn [bind].
  rewrite Hsz, Z.eqb_refl. cbn [assert bind].
  destruct (entryIDs !! b) as [i|] eqn:E.
  - (* the bytes are in the table already *)
    apply Hids in E. destruct E as [Hi0 Hi].
    assert (Hlt : (Z.to_nat i < length entries)%nat)
      by (eapply lookup_lt_Some; exact Hi).
    assert (Hlen : Z.of_nat (length entries) <= 65536).
    { apply Hroom; [exact Hnd|]. intros x Hx. apply elem_of_app. left.
      apply Hmem. exact Hx. }
    exists entries, entryIDs, i.
    rewrite writeUShort_ok by (unfold u16; lia).
    cbn [bind]. rewrite extend_extend.
    unfold word_items. rewrite <- map_app. fold (word_items (indices ++ [i])).
    split; [reflexivity|].
    split; [exact Hnd|]. split; [exact Hids|]. split.
    + apply Forall2_app; [exact Hidx|]. constructor; [|constructor].
      split; assumption.
    + intros x. rewrite elem_of_app, list_elem_of_singleton, Hmem.
      split; [tauto|]. intros [Hx| ->]; [exact Hx|].
      apply Hmem. eapply list_elem_of_lookup_2. exact Hi.
  - (* new bytes: appended *)
    assert (Hnew : b ∉ entries).
    { intros Hin. apply list_elem_of_lookup_1 in Hin.
      destruct Hin as [k Hk].
      assert (Hs : entryIDs !! b = Some (Z.of_nat k))
        by (apply Hids; rewrite Nat2Z.id; split; [lia | exact Hk]).
      congruence. }
    assert (Hnd' : NoDup (entries ++ [b])).
    { apply NoDup_app. split; [exact Hnd|]. split.
      - intros x Hx Hxb. apply list_elem_of_singleton in Hxb. subst x.
        contradiction.
      - apply NoDup_singleton. }
    assert (Hlen : Z.of_nat (length (entries ++ [b])) <= 65536).
    { apply Hroom; [exact Hnd'|]. intros x Hx.
      rewrite elem_of_app in Hx. rewrite elem_of_app, <- Hmem. exact Hx. }
    rewrite length_app in Hlen. cbn [length] in Hlen.
    exists (entries ++ [b]), (<[b := Z.of_nat (length entries)]> entryIDs),
      (Z.of_nat (length entries)).
    rewrite writeUShort_ok by (unfold u16; lia).
    cbn [bind]. rewrite extend_extend.
    unfold word_items. rewrite <- map_app.
    fold (word_items (indices ++ [Z.of_nat (length entries)])).
    split; [reflexivity|].
    split; [exact Hnd'|]. split; [|split].
    + intros x i. destruct (decide (x = b)) as [->|Hne].
      * rewrite lookup_insert_eq. split.
        -- intros Hi. injection Hi as <-. split; [lia|].
           rewrite Nat2Z.id. apply list_lookup_middle. reflexivity.
        -- intros [Hi0 Hi]. f_equal.
           destruct (decide (Z.to_nat i < length entries)%nat) as [Hlt|Hge].
           ++ rewrite lookup_app_l in Hi by exact Hlt.
              exfalso. apply Hnew. eapply list_elem_of_lookup_2. exact Hi.
           ++ apply lookup_lt_Some in Hi. rewrite length_app in Hi.
              cbn [length] in Hi. lia.
      * rewrite lookup_insert_ne by congruence. rewrite Hids.
        split; intros [Hi0 Hi]; (split; [exact Hi0|]).
        -- apply lookup_app_l_Some. exact Hi.
        -- apply lookup_app_Some in Hi. destruct Hi as [Hi|[_ Hi]];
             [exact Hi|].
           apply list_lookup_singleton_Some in Hi. destruct Hi as [_ Hi].
           congruence.
    + apply Forall2_app.
      * eapply Forall2_impl; [exact Hidx|]. intros i x [Hi0 Hi].
        split; [exact Hi0|]. apply lookup_app_l_Some. exact Hi.
      * constructor; [|constructor]. split; [lia|].
        rewrite Nat2Z.id. apply list_lookup_middle. reflexivity.
    + intros x. rewrite !elem_of_app, Hmem. reflexivity.
Qed.
End STXEntries.

Lemma writeU_inv n w v w' :
  writeU n w v = Ok w' -> w' = extend w [IData (be_encode n v)].
Proof.
  unfold writeU. destruct ((0 <=? v) && (v <? 256 ^ Z.of_nat n));
    [|discriminate].
  intros H. injection H as <-. reflexivity.
Qed.

Section STXEntriesLoop.
Variable Action : Type.
Variable compile_action : Action -> result bytes.
Variable staticSize : Action -> Z.

Local Abbreviation State := (AATState Action).
Local Abbreviation cell_compiled :=
  (cell_compiled Action compile_action staticSize).

Lemma cell_list_compiled states glyphClassCount :
  Forall (fun state =>
            Forall (cell_ok Action compile_action staticSize state)
                   (range glyphClassCount)) states ->
  Forall cell_compiled
         (cell_list Action compile_action states glyphClassCount) /\
  fst <$> cell_list Action compile_action states glyphClassCount
  = concat ((fun state => (fun c => (state, c)) <$> range glyphClassCount)
              <$> states).
Proof.
  unfold cell_list. induction states as [|s ss IH]; intros Hok.
  - split; [constructor | reflexivity].
  - inversion Hok as [|? ? Hs Hss]; subst.
    destruct (IH Hss) as [IH1 IH2].
    cbn [fmap list_fmap concat].
    assert (Hrow : Forall cell_compiled
                     (row_cells Action compile_action glyphClassCount s) /\
                   fst <$> row_cells Action compile_action glyphClassCount s
                   = (fun c => (s, c)) <$> range glyphClassCount).
    { unfold row_cells. clear -Hs.
      induction (range glyphClassCount) as [|c l IHl].
      - split; [constructor | reflexivity].
      - inversion Hs as [|? ? (t & b & Ht & Hb & Hsz) Hl]; subst.
        destruct (IHl Hl) as [I1 I2].
        assert (E : cell_of Action compile_action s c = Some b)
          by (unfold cell_of; rewrite Ht, Hb; reflexivity).
        cbn [omap list_omap]. rewrite E.
        cbn [fmap option_fmap option_map list_fmap]. split.
        + constructor; [|exact I1]. exists t. cbn [fst snd]. auto.
        + f_equal. exact I2. }
    destruct Hrow as [R1 R2]. split.
    + apply Forall_app. split; assumption.
    + rewrite fmap_app. f_equal; assumption.
Qed.

Lemma cells_loop (todo : list (State * Z * bytes)) :
  forall entries entryIDs indices cs,
    entries_inv entries entryIDs indices cs ->
    Forall cell_compiled todo ->
    (forall es, NoDup es -> (forall x, x ∈ es -> x ∈ cs ++ (snd <$> todo)) ->
                Z.of_nat (length es) <= 65536) ->
    exists entries' entryIDs' indices',
      foldM (cell_step Action compile_action staticSize) todo
            (entries, entryIDs, extend newWriter (word_items indices))
      = Ok (entries', entryIDs',
            extend newWriter (word_items indices')) /\
      entries_inv entries' entryIDs' indices' (cs ++ (snd <$> todo)).
Proof.
  induction todo as [|[[state c] b] todo IH];
    intros entries entryIDs indices cs Hinv Hok Hroom.
  - exists entries, entryIDs, indices. cbn [foldM fmap list_fmap].
    rewrite app_nil_r. split; [reflexivity | exact Hinv].
  - inversion Hok as [|? ? (t & Ht & Hb & Hsz) Hrest]; subst.
    cbn [fst snd] in *.
    destruct (entries_inv_step Action compile_action staticSize
                entries entryIDs indices cs state c t b Hinv Ht Hb Hsz)
      as (entries1 & entryIDs1 & i & Hstep & Hinv1).
    { intros es Hnd Hsub. apply Hroom; [exact Hnd|]. intros x Hx.
      apply Hsub in Hx. cbn [fmap list_fmap].
      rewrite elem_of_app in Hx. rewrite elem_of_app, elem_of_cons.
      rewrite list_elem_of_singleton in Hx. tauto. }
    destruct (IH entries1 entryIDs1 (indices ++ [i]) (cs ++ [b]) Hinv1 Hrest)
      as (entries' & entryIDs' & indices' & Hloop & Hinv').
    { intros es Hnd Hsub. apply Hroom; [exact Hnd|]. intros x Hx.
      apply Hsub in Hx. cbn [fmap list_fmap].
      rewrite <- app_assoc in Hx. exact Hx. }
    exists entries', entryIDs', indices'.
    cbn [foldM]. unfold cell_step at 1. cbn [fst snd].
    rewrite Hstep. cbn [bind]. split; [exact Hloop|].
    cbn [fmap list_fmap]. rewrite <- app_assoc in Hinv'. exact Hinv'.
Qed.
End STXEntriesLoop.

(** C2.  [STXHeader.write], for a state table each of whose (state,
    class) cells has a transition that compiles to its static size, and
    with at most 65536 distinct compiled transitions (an entry index is a
    16-bit word): the loop over the cells succeeds; the state array holds
    one index per cell, in the order of the cells, and the entry at that
    index is the compiled transition of the cell; two cells whose
    transitions compile to the same bytes hold the same index; the entry
    table has no duplicate, and as many records as there are distinct
    compiled byte strings among the cells; and these two lists, padded,
    are the state array and the entry table [write] emits. *)
Theorem STX_entries_deduplicated
        (Action : Type) (compile_action : Action -> result bytes)
        (staticSize : Action -> Z) (contextual : Action -> option (Z * Z))
        (getGlyphID : string -> result Z) (numGlyphs : Z)
        (layout : list item -> bytes) (hasPerGlyphLookup : bool)
        (value : AATStateTable Action) (maxClass : Z) :
  max_values (GlyphClasses value) = Ok maxClass ->
  let glyphClassCount := maxClass + 1 in
  let cells :=
    cell_list Action compile_action (States value) glyphClassCount in
  Forall (fun state =>
            Forall (cell_ok Action compile_action staticSize state)
                   (range glyphClassCount)) (States value) ->
  Z.of_nat (length (remove_dups (snd <$> cells))) <= 65536 ->
  exists entries entryIDs indices,
    compile_states Action compile_action staticSize (States value)
                   glyphClassCount
    = Ok (entries, entryIDs, extend newWriter (word_items indices)) /\
    fst <$> cells
    = concat ((fun state => (fun c => (state, c)) <$> range glyphClassCount)
                <$> States value) /\
    Forall2 (fun i cell => 0 <= i /\ entries !! Z.to_nat i = Some cell.2)
            indices cells /\
    (forall k1 k2 cell1 cell2 i1 i2,
       cells !! k1 = Some cell1 -> cells !! k2 = Some cell2 ->
       indices !! k1 = Some i1 -> indices !! k2 = Some i2 ->
       cell1.2 = cell2.2 -> i1 = i2) /\
    NoDup entries /\
    length entries = length (remove_dups (snd <$> cells)) /\
    (forall writer writer',
       STXHeader_write Action compile_action staticSize contextual
                       getGlyphID numGlyphs layout hasPerGlyphLookup
                       writer value = Ok writer' ->
       exists header glyphClassData perGlyphData,
         w_items writer'
         = w_items writer ++ header
           ++ [IData glyphClassData;
               IData (pad (words_bytes indices) 4);
               IData (pad (concat entries) 4);
               IData perGlyphData]).
Proof.
  intros Hmax glyphClassCount cells Hwf Hsmall.
  destruct (cell_list_compiled Action compile_action staticSize
              (States value) glyphClassCount Hwf) as [Hcomp Hfst].
  fold cells in Hcomp, Hfst.
  destruct (cells_loop Action compile_action staticSize cells [] ∅ [] []
              (entries_inv_init) Hcomp)
    as (entries & entryIDs & indices & Hloop & Hnd & Hids & Hidx & Hmem).
  { intros es Hes Hsub. etransitivity; [|exact Hsmall].
    apply inj_le. apply submseteq_length. apply NoDup_submseteq; [exact Hes|].
    intros x Hx. apply elem_of_remove_dups. apply Hsub in Hx. exact Hx. }
  cbn [app] in Hidx, Hmem.
  assert (Hcs : compile_states Action compile_action staticSize
                  (States value) glyphClassCount
                = Ok (entries, entryIDs,
                      extend newWriter (word_items indices))).
  { unfold compile_states. rewrite states_flat by exact Hwf.
    fold cells. rewrite <- Hloop. f_equal. }
  assert (Hidx' : Forall2 (fun i cell =>
                             0 <= i /\ entries !! Z.to_nat i = Some cell.2)
                          indices cells).
  { apply Forall2_fmap_r in Hidx. exact Hidx. }
  exists entries, entryIDs, indices.
  split; [exact Hcs|]. split; [exact Hfst|]. split; [exact Hidx'|].
  split; [|split; [exact Hnd|split]].
  - intros k1 k2 cell1 cell2 i1 i2 Hc1 Hc2 Hi1 Hi2 Heq.
    destruct (Forall2_lookup_lr _ _ _ _ _ _ Hidx' Hi1 Hc1) as [H1 E1].
    destruct (Forall2_lookup_lr _ _ _ _ _ _ Hidx' Hi2 Hc2) as [H2 E2].
    rewrite Heq in E1.
    pose proof (NoDup_lookup _ _ _ _ Hnd E1 E2). lia.
  - apply Permutation_length. apply NoDup_Permutation.
    + exact Hnd.
    + apply NoDup_remove_dups.
    + intros x. rewrite elem_of_remove_dups. apply Hmem.
  - intros writer writer' Hw. unfold STXHeader_write in Hw.
    apply bind_ok in Hw. destruct Hw as (gcw & _ & Hw).
    rewrite Hmax in Hw. cbn [bind] in Hw.
    fold glyphClassCount in Hw. rewrite Hcs in Hw. cbn [bind] in Hw.
    apply bind_ok in Hw. destruct Hw as (pg & _ & Hw).
    apply bind_ok in Hw. destruct Hw as (w1 & E1 & Hw).
    apply bind_ok in Hw. destruct Hw as (w2 & E2 & Hw).
    apply bind_ok in Hw. destruct Hw as (w3 & E3 & Hw).
    apply bind_ok in Hw. destruct Hw as (w4 & E4 & Hw).
    apply bind_ok in Hw. destruct Hw as (w5 & E5 & Hw).
    injection Hw as <-.
    apply writeU_inv in E1, E2, E3, E4. subst w1 w2 w3 w4.
    assert (Hdata : getAllData layout (extend newWriter (word_items indices))
                    = words_bytes indices).
    { unfold getAllData. cbn [w_items extend newWriter app].
      rewrite items_data_words. reflexivity. }
    rewrite Hdata.
    destruct hasPerGlyphLookup.
    + apply writeU_inv in E5. subst w5.
      unfold writeData, w_append. rewrite !extend_extend.
      cbn [w_items extend].
      eexists [_; _; _; _; _], _, _. cbn [app]. reflexivity.
    + injection E5 as <-.
      unfold writeData, w_append. rewrite !extend_extend.
      cbn [w_items extend].
      eexists [_; _; _; _], _, _. cbn [app]. reflexivity.
Qed.

Lemma STX_entries_deduplicated_witness :
  exists entries entryIDs indices,
    compile_states ex_Action ex_compile ex_staticSize
                   (States (ex_table [])) 2
    = Ok (entries, entryIDs, extend newWriter (word_items indices)) /\
    NoDup entries /\ length entries = 2%nat /\ length indices = 4%nat.
Proof.
  destruct (STX_entries_deduplicated ex_Action ex_compile ex_staticSize
              ex_contextual ex_getGlyphID 20 (fun _ => []) false
              (ex_table []) 1)
    as (entries & entryIDs & indices & Hcs & _ & Hidx & _ & Hnd & Hlen & _).
  - reflexivity.
  - repeat constructor; eexists _, _;
      (split; [vm_compute; reflexivity|split; vm_compute; reflexivity]).
  - vm_compute. congruence.
  - exists entries, entryIDs, indices.
    split; [exact Hcs|]. split; [exact Hnd|]. split; [exact Hlen|].
    apply Forall2_length in Hidx. exact Hidx.
Defined.

(** ** StructWithLength: the length field holds the size of the struct *)

Lemma items_length_nonneg its : 0 <= items_length its.
Proof.
  induction its as [|it its IH]; cbn [items_length fold_right]; [lia|].
  fold (items_length its).
  destruct it as [bs|long ? ? ?]; cbn [item_length]; [lia|].
  destruct long; lia.
Qed.

Lemma items_length_insert its i old new :
  its !! i = Some old -> item_length new = item_length old ->
  items_length (<[i := new]> its) = items_length its.
Proof.
  revert i. induction its as [|it its IH]; intros i Hi Hlen; [discriminate|].
  destruct i as [|i]; simpl in Hi |- *.
  - injection Hi as ->. unfold items_length. simpl. lia.
  - unfold items_length in *. simpl. rewrite (IH i Hi Hlen). reflexivity.
Qed.

Lemma length_field_spec conv n :
  length_field conv n ->
  c_staticSize conv = Some (Z.of_nat n) /\ c_write conv = writeU n /\
  deadbeef_of (Z.of_nat n) = Ok (be_decode (deadbeef_bytes (Z.of_nat n))) /\
  be_encode n (be_decode (deadbeef_bytes (Z.of_nat n)))
  = deadbeef_bytes (Z.of_nat n) /\
  0 <= be_decode (deadbeef_bytes (Z.of_nat n)) < 256 ^ Z.of_nat n.
Proof.
  intros []; repeat split; try reflexivity; vm_compute; congruence.
Qed.



(** A body that does not fit the field: the converter of the length
    field raises before the placeholder is looked at. *)
Lemma StructWithLength_write_too_long
      (layout : list item -> bytes) (getConverters : list Converter)
      (isFormatSwitching : bool) (compile : Z -> Writer -> result Writer)
      (writer writer' : Writer) (convIndex n : nat) (conv : Converter) :
  StructLength_loop 0 getConverters None = Some (convIndex, conv) ->
  length_field conv n ->
  compile (be_decode (deadbeef_bytes (Z.of_nat n))) writer = Ok writer' ->
  256 ^ Z.of_nat n <= getDataLength writer' - getDataLength writer ->
  StructWithLength_write layout getConverters isFormatSwitching compile
                         writer
  = Raise StructError.
Proof.
  intros Hloop Hfield Hcompile Hbig.
  destruct (length_field_spec conv n Hfield)
    as (Hsize & Hwrite & Hdead & _ & _).
  unfold StructWithLength_write. rewrite Hloop. cbn [bind].
  rewrite Hsize. cbn [bind]. rewrite Hdead. cbn [bind].
  rewrite Hcompile. cbn [bind]. rewrite Hwrite. unfold writeU.
  destruct (Z.ltb_spec (getDataLength writer' - getDataLength writer)
                       (256 ^ Z.of_nat n)); [lia|].
  rewrite andb_false_r. reflexivity.
Qed.

(** ** Arrays: a lazy list holds what the eager loop decodes *)

Lemma advance_advance r a b : advance (advance r a) b = advance r (a + b).
Proof. unfold advance. cbn [r_data r_offset r_pos]. f_equal. lia. Qed.

Lemma advance_0 r : advance r 0 = r.
Proof. destruct r. unfold advance. cbn. f_equal. lia. Qed.

Lemma slice_indices_bounds k len start stop step :
  0 <= len -> slice_indices k len = Ok (start, stop, step) ->
  step <> 0 /\
  (0 < step -> 0 <= start <= len /\ 0 <= stop <= len) /\
  (step < 0 -> -1 <= start <= len - 1 /\ -1 <= stop <= len - 1).
Proof.
  intros Hlen. unfold slice_indices.
  destruct (Z.eqb_spec (default 1 (s_step k)) 0) as [|Hst]; [discriminate|].
  intros H. injection H as <- <- <-.
  split; [exact Hst|].
  destruct (Z.ltb_spec (default 1 (s_step k)) 0);
    destruct (s_start k) as [b1|], (s_stop k) as [b2|];
    try destruct (Z.ltb_spec b1 0); try destruct (Z.ltb_spec b2 0); lia.
Qed.

(** The positions a slice denotes are positions of the list. *)
Lemma range3_bounds k len start stop step :
  0 <= len -> slice_indices k len = Ok (start, stop, step) ->
  Forall (fun i => 0 <= i < len) (range3 start stop step).
Proof.
  intros Hlen H.
  destruct (slice_indices_bounds _ _ _ _ _ Hlen H) as (Hst & Hpos & Hneg).
  unfold range3. apply Forall_fmap, Forall_seqZ. intros i Hi.
  unfold compose. cbn beta.
  destruct (Z.ltb_spec 0 step) as [Hs|Hs].
  - destruct (Hpos Hs) as [H1 H2].
    pose proof (Z.mul_div_le (stop - start + step - 1) step Hs) as Hdiv.
    set (n := (stop - start + step - 1) / step) in *.
    assert (0 <= i * step) by nia.
    assert (i * step <= (n - 1) * step) by nia.
    lia.
  - assert (Hs' : 0 < - step) by lia.
    destruct (Hneg ltac:(lia)) as [H1 H2].
    pose proof (Z.mul_div_le (start - stop - step - 1) (- step) Hs') as Hdiv.
    set (n := (start - stop - step - 1) / (- step)) in *.
    assert (i * step <= 0) by nia.
    assert ((n - 1) * step <= i * step) by nia.
    lia.
Qed.

Lemma list_index_inv {A} (l : list A) k j a :
  list_index l k = Ok (j, a) ->
  l !! j = Some a /\
  Z.of_nat j = (if k <? 0 then k + Z.of_nat (length l) else k).
Proof.
  unfold list_index.
  set (k' := if k <? 0 then k + Z.of_nat (length l) else k).
  destruct (Z.ltb_spec k' 0); [discriminate|].
  destruct (l !! Z.to_nat k') as [a'|] eqn:E; [|discriminate].
  intros Heq. injection Heq as <- <-. split; [exact E|lia].
Qed.

Lemma list_index_nonneg {A} (l : list A) k a :
  0 <= k -> l !! Z.to_nat k = Some a ->
  list_index l k = Ok (Z.to_nat k, a).
Proof.
  intros Hk Hl. unfold list_index.
  replace (k <? 0) with false by (symmetry; apply Z.ltb_ge; lia).
  cbn zeta. replace (k <? 0) with false by (symmetry; apply Z.ltb_ge; lia).
  rewrite Hl. reflexivity.
Qed.

(** Two lists of the same length have the same positions. *)
Lemma list_index_same_length {A B} (l : list A) (d : list B) k j a :
  length d = length l -> list_index l k = Ok (j, a) ->
  exists b, list_index d k = Ok (j, b).
Proof.
  intros Hlen. unfold list_index. rewrite Hlen.
  set (k' := if k <? 0 then k + Z.of_nat (length l) else k).
  destruct (Z.ltb_spec k' 0); [discriminate|].
  destruct (l !! Z.to_nat k') as [a'|] eqn:E; [|discriminate].
  intros Heq. injection Heq as <- <-.
  apply lookup_lt_Some in E. rewrite <- Hlen in E.
  apply lookup_lt_is_Some_2 in E. destruct E as [b E].
  exists b. rewrite E. reflexivity.
Qed.

Section LazyArrays.
Context {V : Type}.
Variable conv_read : gmap string Z -> Reader -> result (V * Reader).
Variable recordSize : Z.

(** What makes a converter one of fixed record size: a value it decodes
    takes [recordSize] bytes of the buffer.  And its [read] has no use
    for the sibling fields. *)
Hypothesis read_fixed :
  forall r v r', conv_read ∅ r = Ok (v, r') -> r' = advance r recordSize.
Hypothesis read_tableDict :
  forall tableDict r, conv_read tableDict r = conv_read ∅ r.

(** The eager loop: the values it appends are the ones [read] decodes at
    the multiples of [recordSize] behind the cursor. *)
Lemma eager_loop tableDict (js : list Z) :
  forall acc r l r',
    foldM (fun '(l, reader) _ =>
             do '(item, reader) <- conv_read tableDict reader;
             Ok (l ++ [item], reader))
          js (acc, r) = Ok (l, r') ->
    exists vs,
      l = acc ++ vs /\ length vs = length js /\
      r' = advance r (Z.of_nat (length js) * recordSize) /\
      forall k v, vs !! k = Some v ->
                  conv_read ∅ (advance r (Z.of_nat k * recordSize))
                  = Ok (v, advance r (Z.of_nat (S k) * recordSize)).
Proof.
  induction js as [|j js IH]; intros acc r l r'; cbn [foldM].
  - intros H. injection H as <- <-. exists [].
    rewrite app_nil_r. split; [reflexivity|]. split; [reflexivity|].
    split; [symmetry; apply advance_0|]. intros k v Hk. discriminate.
  - rewrite read_tableDict.
    destruct (conv_read ∅ r) as [[v r1]|e] eqn:E; cbn [bind];
      [|discriminate].
    intros H. apply IH in H. destruct H as (vs & -> & Hlen & -> & Hvs).
    pose proof (read_fixed _ _ _ E) as ->.
    exists (v :: vs). rewrite <- app_assoc. split; [reflexivity|].
    split; [cbn [length]; congruence|]. split.
    + rewrite advance_advance. f_equal. cbn [length]. lia.
    + intros [|k] w Hk.
      * injection Hk as <-. rewrite advance_0.
        replace (Z.of_nat 1 * recordSize) with recordSize by lia. exact E.
      * cbn in Hk. apply Hvs in Hk. rewrite !advance_advance in Hk.
        replace (Z.of_nat (S k) * recordSize)
          with (recordSize + Z.of_nat k * recordSize) by lia.
        replace (Z.of_nat (S (S k)) * recordSize)
          with (recordSize + Z.of_nat (S k) * recordSize) by lia.
        exact Hk.
Qed.

Local Abbreviation lazy_of := (lazy_of recordSize).
Local Abbreviation decodes_to := (decodes_to conv_read recordSize).

Lemma getitem_lazy_of reader l self k j v :
  decodes_to reader l -> lazy_of reader l self ->
  list_index l k = Ok (j, v) ->
  exists self',
    LazyList_getitem conv_read self k = Ok (v, self') /\
    ll_data self' = <[j := Item v]> (ll_data self) /\
    lazy_of reader l self'.
Proof.
  intros Hdec (Hpos & Hsize & Hdata & Hoff & Hlen & Hslots) Hk.
  destruct (list_index_same_length l (ll_data self) k j v Hlen Hk)
    as [s Hs].
  apply list_index_inv in Hk. destruct Hk as [Hl _].
  pose proof (list_index_inv _ _ _ _ Hs) as [Hd _].
  unfold LazyList_getitem. rewrite Hs. cbn [bind].
  destruct (Hslots j s Hd) as [->|(w & -> & Hw)].
  - assert (Er : seek (ll_reader self)
                      (ll_pos self + Z.of_nat j * ll_recordSize self)
                 = advance reader (Z.of_nat j * recordSize)).
    { unfold seek, advance. rewrite Hdata, Hoff, Hpos, Hsize. reflexivity. }
    rewrite Er, (Hdec j v Hl). cbn [bind]. eexists. split; [reflexivity|].
    split; [reflexivity|].
    unfold lazy_of. cbn [ll_pos ll_recordSize ll_reader ll_data advance
                         r_data r_offset].
    rewrite length_insert.
    repeat (split; [assumption || reflexivity|]).
    intros i s Hi. destruct (decide (i = j)) as [->|Hij].
    + rewrite list_lookup_insert_eq in Hi
        by (apply lookup_lt_Some in Hd; exact Hd).
      injection Hi as <-. right. exists v. split; [reflexivity|exact Hl].
    + rewrite list_lookup_insert_ne in Hi by congruence.
      apply Hslots. exact Hi.
  - rewrite Hl in Hw. injection Hw as <-.
    exists self. split; [reflexivity|]. split.
    + symmetry. apply list_insert_id. exact Hd.
    + unfold lazy_of. repeat (split; [assumption|]). exact Hslots.
Qed.

Lemma getslice_loop reader l :
  decodes_to reader l ->
  forall (js : list Z) acc self,
    lazy_of reader l self ->
    Forall (fun i => 0 <= i < Z.of_nat (length l)) js ->
    exists vs self',
      foldM (fun '(l, self) i =>
               do '(item, self) <- LazyList_getitem conv_read self i;
               Ok (l ++ [item], self))
            js (acc, self) = Ok (acc ++ vs, self') /\
      Forall2 (fun i v => l !! Z.to_nat i = Some v) js vs /\
      lazy_of reader l self'.
Proof.
  intros Hdec. induction js as [|j js IH]; intros acc self Hinv Hjs.
  - exists [], self. cbn [foldM]. rewrite app_nil_r.
    split; [reflexivity|]. split; [constructor|exact Hinv].
  - apply Forall_cons in Hjs. destruct Hjs as [Hj Hjs].
    assert (Hv : is_Some (l !! Z.to_nat j)).
    { apply lookup_lt_is_Some_2. lia. }
    destruct Hv as [v Hv].
    destruct (getitem_lazy_of reader l self j (Z.to_nat j) v Hdec Hinv)
      as (self1 & Hget & _ & Hinv1).
    { apply list_index_nonneg; [lia|exact Hv]. }
    destruct (IH (acc ++ [v]) self1 Hinv1 Hjs)
      as (vs & self' & Hrun & Hvs & Hinv').
    exists (v :: vs), self'. cbn [foldM]. rewrite Hget. cbn [bind].
    rewrite Hrun, <- app_assoc. split; [reflexivity|].
    split; [constructor; assumption|exact Hinv'].
Qed.
End LazyArrays.



(** ** Runs of scalars *)

Lemma pow256 (n : nat) : 256 ^ Z.of_nat n = 2 ^ (8 * Z.of_nat n).
Proof. change 256 with (2 ^ 8). rewrite <- Z.pow_mul_r by lia. reflexivity. Qed.

Lemma readS_at (n : nat) pre v post off :
  (0 < n)%nat -> fits_signed n v ->
  readS (Z.of_nat n)
        (mkReader (pre ++ signed_bytes n v ++ post) off (Z.of_nat (length pre)))
  = Ok (v, mkReader (pre ++ signed_bytes n v ++ post) off
                    (Z.of_nat (length pre) + Z.of_nat n)).
Proof.
  intros Hn Hv. unfold readS, signed_bytes.
  pose proof (Z.mod_pos_bound v (256 ^ Z.of_nat n) ltac:(lia)) as Hm.
  rewrite (readU_at n) by exact Hm. cbn [bind].
  rewrite pow256, to_signed_mod by (lia || exact Hv). reflexivity.
Qed.

Lemma writeS_items (n : nat) w v :
  fits_signed n v -> writeS n w v = Ok (extend w [IData (signed_bytes n v)]).
Proof. intros Hv. apply writeS_ok. exact Hv. Qed.

Lemma writeS_raise (n : nat) w v :
  ~ fits_signed n v -> writeS n w v = Raise StructError.
Proof.
  unfold fits_signed, writeS. intros Hv.
  destruct (Z.leb_spec (- 2 ^ (8 * Z.of_nat n - 1)) v); [|reflexivity].
  destruct (Z.ltb_spec v (2 ^ (8 * Z.of_nat n - 1))); [lia|].
  reflexivity.
Qed.

Lemma length_signed_bytes n v : length (signed_bytes n v) = n.
Proof. apply length_be_encode. Qed.

Lemma items_data_map {A} (enc : A -> bytes) vs :
  items_data (map (fun v => IData (enc v)) vs) = Some (concat (map enc vs)).
Proof.
  induction vs as [|v vs IH]; [reflexivity|].
  cbn [map items_data concat]. rewrite IH. reflexivity.
Qed.

Lemma items_data_app a b x y :
  items_data a = Some x -> items_data b = Some y ->
  items_data (a ++ b) = Some (x ++ y).
Proof.
  revert x. induction a as [|[bs|? ? ? ?] a IH]; intros x Ha Hb.
  - injection Ha as <-. exact Hb.
  - cbn [app items_data] in *.
    destruct (items_data a) as [x'|]; [|discriminate].
    injection Ha as <-. rewrite (IH x' eq_refl Hb). cbn. rewrite app_assoc.
    reflexivity.
  - discriminate.
Qed.

Lemma length_concat_fixed {A} (enc : A -> bytes) (n : nat) vs :
  (forall v, length (enc v) = n) ->
  Z.of_nat (length (concat (map enc vs))) = Z.of_nat n * Z.of_nat (length vs).
Proof.
  intros Hn. induction vs as [|v vs IH]; [cbn; lia|].
  cbn [map concat length]. rewrite length_app, Hn. lia.
Qed.

Section ScalarRuns.
Context {A : Type}.
Variable n : nat.
Variable okp : A -> Prop.
Variable enc : A -> bytes.
Variable wr : Writer -> A -> result Writer.
Variable rd : Reader -> result (A * Reader).

Hypothesis enc_length : forall v, length (enc v) = n.
Hypothesis wr_ok :
  forall w v, okp v -> wr w v = Ok (extend w [IData (enc v)]).
Hypothesis rd_ok :
  forall pre v post off, okp v ->
    rd (mkReader (pre ++ enc v ++ post) off (Z.of_nat (length pre)))
    = Ok (v, mkReader (pre ++ enc v ++ post) off
                      (Z.of_nat (length pre) + Z.of_nat n)).

(** Writing [value[i]] for the positions of a run of the list. *)
Lemma write_run (suf : list A) : forall vs pre w,
  Forall okp vs ->
  foldM (fun w i => do '(_, v) <- list_index (pre ++ vs ++ suf) i; wr w v)
        (seqZ (Z.of_nat (length pre)) (Z.of_nat (length vs))) w
  = Ok (extend w (map (fun v => IData (enc v)) vs)).
Proof.
  induction vs as [|v vs IH]; intros pre w Hvs.
  - cbn. rewrite extend_nil. reflexivity.
  - apply Forall_cons in Hvs. destruct Hvs as [Hv Hvs].
    rewrite seqZ_cons by (cbn [length]; lia). cbn [foldM].
    rewrite (list_index_nonneg _ _ v) by
      (try lia; rewrite Nat2Z.id, lookup_app_r, Nat.sub_diag by lia;
       reflexivity).
    cbn [bind]. rewrite wr_ok by exact Hv. cbn [bind].
    replace (Z.succ (Z.of_nat (length pre)))
      with (Z.of_nat (length (pre ++ [v])))
      by (rewrite length_app; cbn [length]; lia).
    replace (Z.pred (Z.of_nat (length (v :: vs))))
      with (Z.of_nat (length vs)) by (cbn [length]; lia).
    replace (pre ++ (v :: vs) ++ suf) with ((pre ++ [v]) ++ vs ++ suf)
      by (rewrite <- app_assoc; reflexivity).
    rewrite IH by exact Hvs. rewrite extend_extend. reflexivity.
Qed.

(** Writing every value of a list in turn. *)
Lemma write_all : forall vs w,
  Forall okp vs ->
  foldM wr vs w = Ok (extend w (map (fun v => IData (enc v)) vs)).
Proof.
  induction vs as [|v vs IH]; intros w Hvs.
  - cbn. rewrite extend_nil. reflexivity.
  - apply Forall_cons in Hvs. destruct Hvs as [Hv Hvs].
    cbn [foldM]. rewrite wr_ok by exact Hv. cbn [bind].
    rewrite IH by exact Hvs. rewrite extend_extend. reflexivity.
Qed.

(** Reading a run back, one value for each step of the loop. *)
Lemma read_run {B} (post : bytes) off : forall vs (js : list B) acc pre,
  length js = length vs -> Forall okp vs ->
  foldM (fun '(values, reader) _ =>
           do '(v, reader) <- rd reader; Ok (values ++ [v], reader))
        js (acc, mkReader (pre ++ concat (map enc vs) ++ post) off
                          (Z.of_nat (length pre)))
  = Ok (acc ++ vs,
        mkReader (pre ++ concat (map enc vs) ++ post) off
                 (Z.of_nat (length pre) + Z.of_nat n * Z.of_nat (length vs))).
Proof.
  induction vs as [|v vs IH]; intros js acc pre Hlen Hvs.
  - destruct js; [|discriminate]. cbn. rewrite app_nil_r.
    do 3 f_equal. lia.
  - destruct js as [|j js]; [discriminate|].
    apply Forall_cons in Hvs. destruct Hvs as [Hv Hvs].
    cbn [foldM map concat]. rewrite <- (app_assoc (enc v)).
    rewrite rd_ok by exact Hv. cbn [bind].
    replace (Z.of_nat (length pre) + Z.of_nat n)
      with (Z.of_nat (length (pre ++ enc v)))
      by (rewrite length_app, enc_length; lia).
    replace (pre ++ enc v ++ concat (map enc vs) ++ post)
      with ((pre ++ enc v) ++ concat (map enc vs) ++ post)
      by (rewrite <- app_assoc; reflexivity).
    rewrite IH by (try exact Hvs; cbn [length] in Hlen; lia).
    rewrite <- app_assoc. cbn [app]. do 3 f_equal.
    rewrite length_app, enc_length. cbn [length]. lia.
Qed.
End ScalarRuns.

(** ** VarDataValue: decode after encode *)

Lemma concat_zeros {B} (js : list B) :
  concat (map (fun _ => signed_bytes 1 0) js) = replicate (length js) 0.
Proof. induction js as [|j js IH]; [reflexivity|]. cbn. rewrite <- IH. reflexivity. Qed.

(** The third loop of [read]: the padding is read and dropped. *)
Lemma skip_run {B} post off : forall (js : list B) pre,
  foldM (fun reader _ => do '(_, reader) <- readInt8 reader; Ok reader) js
        (mkReader (pre ++ replicate (length js) 0 ++ post) off
                  (Z.of_nat (length pre)))
  = Ok (mkReader (pre ++ replicate (length js) 0 ++ post) off
                 (Z.of_nat (length pre) + Z.of_nat (length js))).
Proof.
  induction js as [|j js IH]; intros pre.
  - cbn. do 2 f_equal. lia.
  - change (replicate (length (j :: js)) 0 ++ post)
      with (signed_bytes 1 0 ++ replicate (length js) 0 ++ post).
    cbn [foldM].
    pose proof (readS_at 1 pre 0 (replicate (length js) 0 ++ post) off
                  ltac:(lia) ltac:(unfold fits_signed; cbn; lia)) as E.
    change (readS (Z.of_nat 1)) with readInt8 in E. rewrite E.
    cbn [bind].
    replace (Z.of_nat (length pre) + Z.of_nat 1)
      with (Z.of_nat (length (pre ++ signed_bytes 1 0)))
      by (rewrite length_app, length_signed_bytes; lia).
    replace (pre ++ signed_bytes 1 0 ++ replicate (length js) 0 ++ post)
      with ((pre ++ signed_bytes 1 0) ++ replicate (length js) 0 ++ post)
      by (rewrite <- app_assoc; reflexivity).
    rewrite IH. do 2 f_equal. rewrite length_app, length_signed_bytes.
    cbn [length]. lia.
Qed.

(** X1.  [VarDataValue]: read after write.  With [VarRegionCount] values
    of which the first [min(VarRegionCount, NumShorts)] fit 16 bits and
    the others 8 bits, [write] succeeds and emits
    [VarRegionCount + NumShorts] bytes in all: the first values as
    16-bit words, the others as bytes, and a zero byte for each short
    above the region count; [read] of these bytes returns the values
    and leaves the cursor behind the padding. *)
Theorem VarDataValue_read_write
        (tableDict : gmap string Z) (regionCount shortCount : Z)
        (shorts rest : list Z) (writer : Writer) :
  tableDict !! "VarRegionCount" = Some regionCount ->
  tableDict !! "NumShorts" = Some shortCount ->
  0 <= shortCount ->
  Z.of_nat (length (shorts ++ rest)) = regionCount ->
  Z.of_nat (length shorts) = Z.min regionCount shortCount ->
  Forall (fits_signed 2) shorts -> Forall (fits_signed 1) rest ->
  let data := concat (map (signed_bytes 2) shorts)
              ++ concat (map (signed_bytes 1) rest)
              ++ replicate (Z.to_nat (shortCount - regionCount)) 0 in
  exists items,
    VarDataValue.write writer tableDict (shorts ++ rest)
    = Ok (extend writer items) /\
    items_data items = Some data /\
    Z.of_nat (length data) = regionCount + shortCount /\
    forall pre post off,
      VarDataValue.read
        (mkReader (pre ++ data ++ post) off (Z.of_nat (length pre))) tableDict
      = Ok (shorts ++ rest,
            mkReader (pre ++ data ++ post) off
                     (Z.of_nat (length pre) + (regionCount + shortCount))).
Proof.
  intros Hrc Hsc Hsc0 Hlen Hmin Hshorts Hrest data.
  rewrite length_app in Hlen.
  set (pad := seqZ regionCount (shortCount - regionCount)).
  assert (Hpad : length pad = Z.to_nat (shortCount - regionCount))
    by apply length_seqZ.
  assert (W1 : forall w,
             foldM (fun w i =>
                      do '(_, v) <- list_index ([] ++ shorts ++ rest) i;
                      writeShort w v)
                   (seqZ (Z.of_nat (length (@nil Z)))
                         (Z.of_nat (length shorts))) w
             = Ok (extend w (map (fun v => IData (signed_bytes 2 v)) shorts))).
  { intros w. apply write_run with (okp := fits_signed 2); [|exact Hshorts].
    intros w' v Hv. apply writeS_items. exact Hv. }
  assert (W2 : forall w,
             foldM (fun w i =>
                      do '(_, v) <- list_index (shorts ++ rest ++ []) i;
                      writeInt8 w v)
                   (seqZ (Z.of_nat (length shorts))
                         (Z.of_nat (length rest))) w
             = Ok (extend w (map (fun v => IData (signed_bytes 1 v)) rest))).
  { intros w. apply write_run with (okp := fits_signed 1); [|exact Hrest].
    intros w' v Hv. apply writeS_items. exact Hv. }
  assert (W3 : forall w,
             foldM (fun w (_ : Z) => writeInt8 w 0) pad w
             = Ok (extend w (map (fun _ => IData (signed_bytes 1 0)) pad))).
  { intros w. apply write_all with (okp := fun _ => True).
    - intros w' v _. apply writeS_items. unfold fits_signed. cbn. lia.
    - apply Forall_true. intros; exact I. }
  rewrite app_nil_r in W2. cbn [app length] in W1.
  exists (map (fun v => IData (signed_bytes 2 v)) shorts
          ++ map (fun v => IData (signed_bytes 1 v)) rest
          ++ map (fun _ => IData (signed_bytes 1 0)) pad).
  assert (Hdata : Z.of_nat (length data) = regionCount + shortCount).
  { unfold data. rewrite !length_app, length_replicate, !Nat2Z.inj_add.
    rewrite (length_concat_fixed _ 2) by apply length_signed_bytes.
    rewrite (length_concat_fixed _ 1) by apply length_signed_bytes. lia. }
  split; [|split; [|split; [exact Hdata|]]].
  - unfold VarDataValue.write, getitem. rewrite Hrc, Hsc. cbn [bind].
    unfold range. rewrite <- Hmin.
    change 0 with (Z.of_nat 0) at 1. rewrite W1. cbn [bind].
    replace (regionCount - Z.of_nat (length shorts))
      with (Z.of_nat (length rest)) by lia.
    rewrite W2. cbn [bind]. fold pad. rewrite W3.
    rewrite !extend_extend. reflexivity.
  - unfold data. rewrite <- Hpad, <- concat_zeros.
    apply items_data_app; [apply items_data_map|].
    apply items_data_app; apply (items_data_map (fun v => _)).
  - intros pre post off.
    unfold VarDataValue.read, getitem. rewrite Hrc, Hsc. cbn [bind].
    unfold range. rewrite <- Hmin. unfold data.
    rewrite <- !app_assoc.
    rewrite (read_run 2 (fits_signed 2) (signed_bytes 2) readShort)
      with (vs := shorts);
      [|apply length_signed_bytes
       |intros; apply (readS_at 2); [lia|assumption]
       |rewrite length_seqZ; lia
       |exact Hshorts].
    cbn [bind app].
    replace (regionCount - Z.of_nat (length shorts))
      with (Z.of_nat (length rest)) by lia.
    set (b1 := concat (map (signed_bytes 2) shorts)).
    assert (Hb1 : Z.of_nat (length b1) = 2 * Z.of_nat (length shorts)).
    { unfold b1. rewrite (length_concat_fixed _ 2)
        by apply length_signed_bytes. lia. }
    replace (Z.of_nat (length pre) + Z.of_nat 2 * Z.of_nat (length shorts))
      with (Z.of_nat (length (pre ++ b1)))
      by (rewrite length_app; lia).
    rewrite (app_assoc pre b1).
    rewrite (read_run 1 (fits_signed 1) (signed_bytes 1) readInt8)
      with (vs := rest);
      [|apply length_signed_bytes
       |intros; apply (readS_at 1); [lia|assumption]
       |rewrite length_seqZ; lia
       |exact Hrest].
    cbn [bind].
    set (b2 := concat (map (signed_bytes 1) rest)).
    assert (Hb2 : Z.of_nat (length b2) = Z.of_nat (length rest)).
    { unfold b2. rewrite (length_concat_fixed _ 1)
        by apply length_signed_bytes. lia. }
    replace (Z.of_nat (length (pre ++ b1))
             + Z.of_nat 1 * Z.of_nat (length rest))
      with (Z.of_nat (length ((pre ++ b1) ++ b2)))
      by (rewrite !length_app; lia).
    rewrite (app_assoc (pre ++ b1) b2). fold pad. rewrite <- Hpad.
    rewrite skip_run. cbn [bind]. do 3 f_equal.
    rewrite !length_app, Hpad. lia.
Qed.

Lemma VarDataValue_read_write_witness :
  exists items,
    VarDataValue.write newWriter (td_vardata 2 3) [1000; -2]
    = Ok (extend newWriter items) /\
    items_data items = Some [3; 232; 255; 254; 0].
Proof.
  destruct (VarDataValue_read_write (td_vardata 2 3) 2 3 [1000; -2] []
                                    newWriter)
    as (items & Hw & Hd & _);
    [reflexivity | reflexivity | lia | reflexivity | reflexivity
    | repeat constructor; unfold fits_signed; cbn; lia
    | constructor |].
  exists items. split; [exact Hw | exact Hd].
Defined.

(** ** Loops that raise, loops that agree *)

Lemma foldM_raise {A S} (f : S -> A -> result S) l a :
  a ∈ l -> (forall s, exists e, f s a = Raise e) ->
  forall s, exists e, foldM f l s = Raise e.
Proof.
  intros Hin Hf. induction l as [|x l IH]; intros s.
  - apply elem_of_nil in Hin. contradiction.
  - cbn [foldM]. apply elem_of_cons in Hin. destruct Hin as [->|Hl].
    + destruct (Hf s) as [e ->]. eauto.
    + destruct (f s x) as [s'|e]; cbn [bind]; [apply IH; exact Hl|eauto].
Qed.

Lemma foldM_ext_in {A S} (f g : S -> A -> result S) l :
  (forall s a, a ∈ l -> f s a = g s a) ->
  forall s, foldM f l s = foldM g l s.
Proof.
  induction l as [|x l IH]; intros H s; [reflexivity|].
  cbn [foldM]. rewrite (H s x) by (left).
  destruct (g s x) as [s1|e]; cbn [bind]; [|reflexivity].
  apply IH. intros s' a Ha. apply H. right. exact Ha.
Qed.

Lemma list_index_app_l {A} (l extra : list A) i :
  0 <= i < Z.of_nat (length l) ->
  list_index (l ++ extra) i = list_index l i.
Proof.
  intros Hi. unfold list_index.
  replace (i <? 0) with false by (symmetry; apply Z.ltb_ge; lia).
  rewrite lookup_app_l by lia. reflexivity.
Qed.

Lemma list_index_end {A} (l : list A) :
  list_index l (Z.of_nat (length l)) = Raise IndexError.
Proof.
  assert (E : (Z.of_nat (length l) <? 0) = false) by (apply Z.ltb_ge; lia).
  unfold list_index. rewrite !E.
  rewrite Nat2Z.id, (lookup_ge_None_2 l (length l)) by lia. reflexivity.
Qed.

Lemma VarDataValue_write_stops
      (tableDict : gmap string Z) (regionCount shortCount : Z)
      (shorts rest tail : list Z) (writer : Writer) (e : exn) :
  tableDict !! "VarRegionCount" = Some regionCount ->
  tableDict !! "NumShorts" = Some shortCount ->
  0 <= shortCount ->
  Z.of_nat (length (shorts ++ rest)) < regionCount ->
  Z.of_nat (length shorts)
  = Z.min (Z.of_nat (length (shorts ++ rest))) shortCount ->
  Forall (fits_signed 2) shorts -> Forall (fits_signed 1) rest ->
  (forall w,
     (do '(_, v) <- list_index (shorts ++ rest ++ tail)
                               (Z.of_nat (length (shorts ++ rest)));
      writeS (if (Z.of_nat (length (shorts ++ rest)) <? shortCount)%Z
              then 2 else 1)%nat w v) = Raise e) ->
  VarDataValue.write writer tableDict (shorts ++ rest ++ tail) = Raise e.
Proof.
  intros Hrc Hsc Hsc0 Hlt Hmin Hshorts Hrest Hstep.
  unfold VarDataValue.write, getitem. rewrite Hrc, Hsc. cbn [bind].
  rewrite length_app in *.
  assert (W1 : forall suf w,
             foldM (fun w i =>
                      do '(_, v) <- list_index ([] ++ shorts ++ suf) i;
                      writeShort w v)
                   (seqZ (Z.of_nat (length (@nil Z)))
                         (Z.of_nat (length shorts))) w
             = Ok (extend w (map (fun v => IData (signed_bytes 2 v)) shorts))).
  { intros suf w. apply write_run with (okp := fits_signed 2); [|exact Hshorts].
    intros w' v Hv. apply writeS_items. exact Hv. }
  assert (W2 : forall w,
             foldM (fun w i =>
                      do '(_, v) <- list_index (shorts ++ rest ++ tail) i;
                      writeInt8 w v)
                   (seqZ (Z.of_nat (length shorts))
                         (Z.of_nat (length rest))) w
             = Ok (extend w (map (fun v => IData (signed_bytes 1 v)) rest))).
  { intros w. apply write_run with (okp := fits_signed 1); [|exact Hrest].
    intros w' v Hv. apply writeS_items. exact Hv. }
  cbn [app length] in W1. unfold range.
  destruct (Z.ltb_spec (Z.of_nat (length shorts + length rest)) shortCount)
    as [Hj|Hj].
  - (* the missing position is one of the shorts *)
    assert (Hr : rest = []) by (destruct rest; [reflexivity|cbn in *; lia]).
    subst rest. rewrite Nat.add_0_r in *. cbn [app] in *.
    replace (Z.min regionCount shortCount)
      with (Z.of_nat (length shorts)
            + (Z.min regionCount shortCount - Z.of_nat (length shorts)))
      by lia.
    rewrite seqZ_app by lia. rewrite foldM_app.
    change 0 with (Z.of_nat 0) at 1. rewrite (W1 tail). cbn [bind].
    rewrite Z.add_0_l, seqZ_cons by lia. cbn [foldM].
    change writeShort with (writeS 2). rewrite Hstep. reflexivity.
  - (* the missing position is one of the bytes *)
    replace (Z.min regionCount shortCount) with (Z.of_nat (length shorts))
      by lia.
    change 0 with (Z.of_nat 0) at 1. rewrite (W1 (rest ++ tail)). cbn [bind].
    replace (regionCount - Z.of_nat (length shorts))
      with (Z.of_nat (length rest)
            + (regionCount - Z.of_nat (length shorts + length rest)))
      by lia.
    rewrite seqZ_app by lia. rewrite foldM_app, W2. cbn [bind].
    replace (Z.of_nat (length shorts) + Z.of_nat (length rest))
      with (Z.of_nat (length shorts + length rest)) by lia.
    rewrite seqZ_cons by lia. cbn [foldM].
    change writeInt8 with (writeS 1). rewrite Hstep. reflexivity.
Qed.

(** X2.  [VarDataValue.write] takes the first [VarRegionCount] values.
    With fewer values it raises.  The exception is [IndexError], at the
    first missing position, when the values that are there fit their
    fields: 16 bits at the positions below [NumShorts], 8 bits at the
    others.  A value below the region count that does not fit, behind
    values that do, raises the error of the sink instead, whatever
    follows it.  Values beyond the region count are not written. *)
Theorem VarDataValue_write_length
        (tableDict : gmap string Z) (regionCount shortCount : Z)
        (value extra : list Z) (writer : Writer) :
  tableDict !! "VarRegionCount" = Some regionCount ->
  tableDict !! "NumShorts" = Some shortCount ->
  0 <= shortCount ->
  (Z.of_nat (length value) < regionCount ->
   exists e, VarDataValue.write writer tableDict value = Raise e) /\
  (forall shorts rest,
     Z.of_nat (length (shorts ++ rest)) < regionCount ->
     Z.of_nat (length shorts)
     = Z.min (Z.of_nat (length (shorts ++ rest))) shortCount ->
     Forall (fits_signed 2) shorts -> Forall (fits_signed 1) rest ->
     VarDataValue.write writer tableDict (shorts ++ rest) = Raise IndexError /\
     forall v tail,
       ~ fits_signed (if (Z.of_nat (length (shorts ++ rest)) <? shortCount)%Z
                      then 2 else 1)%nat v ->
       VarDataValue.write writer tableDict (shorts ++ rest ++ v :: tail)
       = Raise StructError) /\
  (Z.of_nat (length value) = regionCount ->
   VarDataValue.write writer tableDict (value ++ extra)
   = VarDataValue.write writer tableDict value).
Proof.
  intros Hrc Hsc Hsc0. split; [|split].
  - unfold VarDataValue.write, getitem.
    rewrite Hrc, Hsc. cbn [bind].
    set (m := Z.min regionCount shortCount).
    intros Hlen.
    assert (Hend : forall (wr : Writer -> Z -> result Writer) (w : Writer),
               exists e,
                 (do '(_, v) <- list_index value (Z.of_nat (length value));
                  wr w v) = Raise e).
    { intros wr w. rewrite list_index_end. eauto. }
    destruct (Z.lt_ge_cases (Z.of_nat (length value)) m) as [Hm|Hm].
    + destruct (foldM_raise
                  (fun w i => do '(_, v) <- list_index value i; writeShort w v)
                  (range m) (Z.of_nat (length value))
                  ltac:(unfold range; apply elem_of_seqZ; lia)
                  (Hend writeShort) writer) as [e ->].
      eauto.
    + destruct (foldM _ (range m) writer) as [w1|e]; cbn [bind]; [|eauto].
      destruct (foldM_raise
                  (fun w i => do '(_, v) <- list_index value i; writeInt8 w v)
                  (seqZ m (regionCount - m)) (Z.of_nat (length value))
                  ltac:(apply elem_of_seqZ; lia)
                  (Hend writeInt8) w1) as [e ->].
      eauto.
  - intros shorts rest Hlt Hmin Hshorts Hrest. split.
    + rewrite <- (app_nil_r rest) at 1.
      apply (VarDataValue_write_stops tableDict regionCount shortCount
               shorts rest [] writer IndexError Hrc Hsc Hsc0 Hlt Hmin
               Hshorts Hrest).
      intros w. rewrite app_nil_r, list_index_end. reflexivity.
    + intros v tail Hv.
      apply (VarDataValue_write_stops tableDict regionCount shortCount
               shorts rest (v :: tail) writer StructError Hrc Hsc Hsc0 Hlt
               Hmin Hshorts Hrest).
      intros w.
      rewrite (list_index_nonneg _ _ v);
        [| lia
         | rewrite Nat2Z.id, app_assoc, lookup_app_r, Nat.sub_diag by lia;
           reflexivity].
      cbn [bind]. apply writeS_raise. exact Hv.
  - unfold VarDataValue.write, getitem.
    rewrite Hrc, Hsc. cbn [bind].
    set (m := Z.min regionCount shortCount).
    intros Hlen.
    rewrite (foldM_ext_in
               (fun w i => do '(_, v) <- list_index (value ++ extra) i;
                           writeShort w v)
               (fun w i => do '(_, v) <- list_index value i; writeShort w v));
      [|intros s a Ha; unfold range in Ha; apply elem_of_seqZ in Ha;
        rewrite list_index_app_l by lia; reflexivity].
    destruct (foldM _ (range m) writer) as [w1|e]; cbn [bind]; [|reflexivity].
    rewrite (foldM_ext_in
               (fun w i => do '(_, v) <- list_index (value ++ extra) i;
                           writeInt8 w v)
               (fun w i => do '(_, v) <- list_index value i; writeInt8 w v));
      [reflexivity|].
    intros s a Ha. apply elem_of_seqZ in Ha.
    rewrite list_index_app_l by lia. reflexivity.
Qed.

(** Three regions of which one is a short: [5; 6] lacks a value, in
    [5; 200] the second value does not fit its byte, and in
    [5; 6; 7; 8; 9] two values are left over. *)
Lemma VarDataValue_write_length_witness :
  (exists e, VarDataValue.write newWriter (td_vardata 3 1) [5; 6] = Raise e) /\
  VarDataValue.write newWriter (td_vardata 3 1) [5; 6] = Raise IndexError /\
  VarDataValue.write newWriter (td_vardata 3 1) [5; 200] = Raise StructError /\
  VarDataValue.write newWriter (td_vardata 3 1) ([5; 6; 7] ++ [8; 9])
  = VarDataValue.write newWriter (td_vardata 3 1) [5; 6; 7].
Proof.
  destruct (VarDataValue_write_length (td_vardata 3 1) 3 1 [5; 6] []
              newWriter eq_refl eq_refl Z.le_0_1) as (H1 & H2 & _).
  destruct (VarDataValue_write_length (td_vardata 3 1) 3 1 [5; 6; 7] [8; 9]
              newWriter eq_refl eq_refl Z.le_0_1) as (_ & _ & H3).
  assert (F5 : Forall (fits_signed 2) [5])
    by (constructor;
        [vm_compute; split; [discriminate|reflexivity] | constructor]).
  assert (F6 : Forall (fits_signed 1) [6])
    by (constructor;
        [vm_compute; split; [discriminate|reflexivity] | constructor]).
  assert (L2 : Z.of_nat (length ([5] ++ [6])) < 3) by (cbn; lia).
  assert (L1 : Z.of_nat (length ([5] ++ @nil Z)) < 3) by (cbn; lia).
  destruct (H2 [5] [6] L2 eq_refl F5 F6) as [Hindex _].
  destruct (H2 [5] [] L1 eq_refl F5 (Forall_nil_2 _)) as [_ Hfit].
  split; [|split; [|split]].
  - apply H1. cbn; lia.
  - exact Hindex.
  - apply (Hfit 200 []). vm_compute. intros [_ H']. discriminate H'.
  - apply H3. reflexivity.
Defined.

(** ** DeltaValue: values that do not fit, and the number of words *)

Lemma wrap_signed_mod bits v :
  0 < bits -> wrap_signed bits v mod 2 ^ bits = v mod 2 ^ bits.
Proof.
  intros Hb. unfold wrap_signed, to_signed.
  destruct (v mod 2 ^ bits <? 2 ^ (bits - 1)).
  - apply Z.mod_mod. apply Z.pow_nonzero; lia.
  - replace (v mod 2 ^ bits - 2 ^ bits)
      with (v mod 2 ^ bits + (-1) * 2 ^ bits) by lia.
    rewrite Z_mod_plus_full. apply Z.mod_mod. apply Z.pow_nonzero; lia.
Qed.

Lemma wrap_signed_in_field bits v :
  0 < bits -> in_field bits (wrap_signed bits v).
Proof.
  intros Hb. unfold in_field, wrap_signed, to_signed.
  assert (Hp : 0 < 2 ^ (bits - 1)) by (apply Z.pow_pos_nonneg; lia).
  assert (H2 : 2 ^ bits = 2 * 2 ^ (bits - 1)).
  { replace bits with (bits - 1 + 1) at 1 by lia.
    rewrite Z.pow_add_r by lia. lia. }
  pose proof (Z.mod_pos_bound v (2 ^ bits) ltac:(lia)) as Hm.
  destruct (Z.ltb_spec (v mod 2 ^ bits) (2 ^ (bits - 1))); lia.
Qed.

Lemma wrap_signed_id bits v :
  0 < bits -> in_field bits v -> wrap_signed bits v = v.
Proof. intros Hb Hv. apply to_signed_mod; assumption. Qed.

Lemma map_wrap_signed_id bits vs :
  0 < bits -> Forall (in_field bits) vs -> map (wrap_signed bits) vs = vs.
Proof.
  intros Hb Hin. induction Hin as [|v vs Hv _ IH]; [reflexivity|].
  cbn [map]. rewrite IH, wrap_signed_id by assumption. reflexivity.
Qed.

Lemma land_mask_mod bits v :
  0 <= bits -> Z.land v (Z.shiftl 1 bits - 1) = v mod 2 ^ bits.
Proof.
  intros Hb. rewrite Z.shiftl_1_l.
  replace (2 ^ bits - 1) with (Z.ones bits) by (rewrite Z.ones_equiv; lia).
  apply Z.land_ones. exact Hb.
Qed.

(** [write] keeps the low bits of a value only. *)
Lemma write_loop_wrap nBits : 0 < nBits ->
  forall vs tmp shift w,
    DeltaValue.write_loop nBits vs tmp shift w
    = DeltaValue.write_loop nBits (map (wrap_signed nBits) vs) tmp shift w.
Proof.
  intros Hn. induction vs as [|v vs IH]; intros tmp shift w; [reflexivity|].
  cbn [DeltaValue.write_loop map].
  rewrite !land_mask_mod, wrap_signed_mod by lia.
  destruct (shift - nBits =? 0).
  - destruct (writeUShort w _); cbn [bind]; [apply IH|reflexivity].
  - apply IH.
Qed.

(** The words and the bits in use after the loop of [write]. *)
Lemma write_loop_count nBits : 0 < nBits -> (nBits | 16) ->
  forall vs tmp shift w tmp' shift' w',
    0 < shift <= 16 -> (nBits | shift) ->
    DeltaValue.write_loop nBits vs tmp shift w = Ok (tmp', shift', w') ->
    0 < shift' <= 16 /\ (nBits | shift') /\
    16 * Z.of_nat (length (w_items w')) - shift'
    = 16 * Z.of_nat (length (w_items w)) - shift
      + nBits * Z.of_nat (length vs).
Proof.
  intros Hn H16. induction vs as [|v vs IH];
    intros tmp shift w tmp' shift' w' Hs Hd Hw.
  - cbn in Hw. injection Hw as <- <- <-. cbn [length]. repeat split; lia || auto.
  - cbn [DeltaValue.write_loop] in Hw.
    assert (Hge : nBits <= shift).
    { destruct Hd as [k Hk]. assert (1 <= k) by nia. nia. }
    destruct (Z.eqb_spec (shift - nBits) 0) as [E|E].
    + apply bind_ok in Hw. destruct Hw as (w1 & Hw1 & Hw).
      apply writeU_inv in Hw1. subst w1.
      apply IH in Hw; [|lia|exact H16].
      destruct Hw as (Hs' & Hd' & Hc). split; [exact Hs'|].
      split; [exact Hd'|]. rewrite Hc. cbn [w_items extend length].
      rewrite length_app. cbn [length]. lia.
    + apply IH in Hw; [|lia|].
      * destruct Hw as (Hs' & Hd' & Hc). split; [exact Hs'|].
        split; [exact Hd'|]. rewrite Hc. cbn [length]. lia.
      * apply Z.divide_sub_r; [exact Hd|apply Z.divide_refl].
Qed.

(** X3.  [DeltaValue.write] never rejects a value: for a legal
    DeltaFormat, with n = 2^DeltaFormat, and any EndSize - StartSize + 1
    integers, it succeeds and emits ceil(count * n / 16) 16-bit words;
    [read] of these words returns each value reduced to its low n bits,
    read as a signed number, so a value outside the n-bit range comes
    back changed and one inside comes back as it was. *)
Theorem DeltaValue_write_wraps
  (tableDict : gmap string Z) (StartSize EndSize DeltaFormat : Z)
  (values : list Z) (writer : Writer) (pre post : bytes) (off : Z) :
  tableDict !! "StartSize" = Some StartSize ->
  tableDict !! "EndSize" = Some EndSize ->
  tableDict !! "DeltaFormat" = Some DeltaFormat ->
  DeltaFormat = 1 \/ DeltaFormat = 2 \/ DeltaFormat = 3 ->
  Z.of_nat (length values) = EndSize - StartSize + 1 ->
  exists words,
    DeltaValue.write writer tableDict values
    = Ok (extend writer (word_items words)) /\
    Z.of_nat (length words)
    = (Z.of_nat (length values) * 2 ^ DeltaFormat + 15) / 16 /\
    DeltaValue.read
      (mkReader (pre ++ words_bytes words ++ post) off (Z.of_nat (length pre)))
      tableDict
    = Ok (map (wrap_signed (2 ^ DeltaFormat)) values,
          mkReader (pre ++ words_bytes words ++ post) off
                   (Z.of_nat (length pre) + 2 * Z.of_nat (length words))) /\
    (Forall (in_field (2 ^ DeltaFormat)) values ->
     map (wrap_signed (2 ^ DeltaFormat)) values = values).
Proof.
  intros HS HE HF Hfmt Hlen.
  assert (Hlegal : DeltaValue.legal_format DeltaFormat = true)
    by (destruct Hfmt as [->|[->| ->]]; reflexivity).
  assert (HnB : Z.shiftl 1 DeltaFormat = 2 ^ DeltaFormat)
    by (rewrite Z.shiftl_1_l; reflexivity).
  assert (Hn : 0 < 2 ^ DeltaFormat)
    by (destruct Hfmt as [->|[->| ->]]; reflexivity).
  assert (H16 : (2 ^ DeltaFormat | 16)).
  { destruct Hfmt as [->|[->| ->]];
      [exists 8 | exists 4 | exists 2]; reflexivity. }
  set (n := 2 ^ DeltaFormat) in *.
  set (wrapped := map (wrap_signed n) values).
  assert (Hwrapped : Forall (in_field n) wrapped).
  { apply Forall_forall. intros x Hx. apply list_elem_of_fmap in Hx.
    destruct Hx as (v & -> & _). apply wrap_signed_in_field. exact Hn. }
  destruct (write_loop_reads_back n Hn H16 wrapped 0 16 writer)
    as (words & tmp' & shift' & Hw & Ht' & Hs' & Hrb);
    [exact Hwrapped | lia | exact H16 | unfold u16; lia
    | intros i _; apply Z.testbit_0_l |].
  destruct (write_loop_count n Hn H16 wrapped 0 16 writer _ _ _
              ltac:(lia) H16 Hw) as (_ & Hdiv & Hcount).
  cbn [w_items extend] in Hcount. rewrite length_app in Hcount.
  unfold word_items in Hcount. rewrite length_map in Hcount.
  unfold wrapped in Hcount. rewrite length_map in Hcount.
  exists (words ++ if shift' =? 16 then [] else [tmp']).
  split; [|split; [|split]].
  - unfold DeltaValue.write, getitem. rewrite HS, HE, HF. cbn [bind].
    rewrite Hlegal. cbn [assert bind].
    rewrite Hlen, Z.eqb_refl. cbn [assert bind].
    rewrite HnB. fold n. rewrite (write_loop_wrap n Hn). fold wrapped.
    rewrite Hw. cbn [bind].
    destruct (Z.eqb_spec shift' 16) as [E|E]; cbn [negb].
    + rewrite app_nil_r. reflexivity.
    + rewrite (writeUShort_ok _ _ Ht'), extend_extend.
      unfold word_items. rewrite map_app. reflexivity.
  - rewrite length_app.
    destruct Hdiv as [k Hk].
    destruct (Z.eqb_spec shift' 16) as [E|E]; cbn [length].
    + apply Z.div_unique with (r := 15); lia.
    + apply Z.div_unique with (r := 15 - shift'); [|lia].
      left. lia.
  - unfold DeltaValue.read, getitem. rewrite HS, HE, HF. cbn [bind].
    rewrite Hlegal. cbn [assert bind].
    rewrite HnB, <- Hlen, Nat2Z.id. fold n.
    unfold reads_back in Hrb. cbn [Z.eqb Pos.eqb] in Hrb.
    replace (length values) with (length wrapped)
      by (unfold wrapped; apply length_map).
    apply Hrb.
  - intros Hin. apply map_wrap_signed_id; assumption.
Qed.

Lemma DeltaValue_write_wraps_witness :
  exists words,
    DeltaValue.write newWriter (td_delta 9 12 2) [9; -1; 7; -9]
    = Ok (extend newWriter (word_items words)) /\
    Z.of_nat (length words) = 1 /\
    DeltaValue.read (mkReader ([] ++ words_bytes words ++ []) 0 0)
                    (td_delta 9 12 2)
    = Ok ([-7; -1; 7; 7],
          mkReader ([] ++ words_bytes words ++ []) 0
                   (0 + 2 * Z.of_nat (length words))).
Proof.
  destruct (DeltaValue_write_wraps (td_delta 9 12 2) 9 12 2 [9; -1; 7; -9]
              newWriter [] [] 0)
    as (words & Hw & Hc & Hr & _);
    [reflexivity | reflexivity | reflexivity | auto | reflexivity |].
  exists words. split; [exact Hw|]. split; [exact Hc|exact Hr].
Defined.

(** X4.  What [DeltaValue] rejects: a DeltaFormat other than 1, 2, 3
    fails the assertion of [read] and of [write], whatever the values;
    with a legal format, [write] fails its second assertion when the
    number of values is not EndSize - StartSize + 1, so it never pads nor
    truncates the list. *)
Theorem DeltaValue_rejects
        (tableDict : gmap string Z) (StartSize EndSize DeltaFormat : Z)
        (values : list Z) (writer : Writer) (reader : Reader) :
  tableDict !! "StartSize" = Some StartSize ->
  tableDict !! "EndSize" = Some EndSize ->
  tableDict !! "DeltaFormat" = Some DeltaFormat ->
  (DeltaValue.legal_format DeltaFormat = false ->
   DeltaValue.write writer tableDict values = Raise AssertionError /\
   DeltaValue.read reader tableDict = Raise AssertionError) /\
  (Z.of_nat (length values) <> EndSize - StartSize + 1 ->
   DeltaValue.write writer tableDict values = Raise AssertionError).
Proof.
  intros HS HE HF. split.
  - intros Hl.
    apply (DeltaValue_illegal_format tableDict StartSize EndSize DeltaFormat);
      assumption.
  - intros Hlen. unfold DeltaValue.write, getitem.
    rewrite HS, HE, HF. cbn [bind].
    destruct (DeltaValue.legal_format DeltaFormat); cbn [assert bind];
      [|reflexivity].
    destruct (Z.eqb_spec (Z.of_nat (length values)) (EndSize - StartSize + 1));
      [contradiction|reflexivity].
Qed.

Lemma DeltaValue_rejects_witness :
  DeltaValue.write newWriter (td_delta 9 12 4) [0; 0; 0; 0]
  = Raise AssertionError /\
  DeltaValue.write newWriter (td_delta 9 12 2) [0; 0; 0]
  = Raise AssertionError.
Proof.
  split.
  - destruct (DeltaValue_rejects (td_delta 9 12 4) 9 12 4 [0; 0; 0; 0]
                newWriter (mkReader [] 0 0)) as [Hformat _];
      [reflexivity | reflexivity | reflexivity |].
    apply Hformat. reflexivity.
  - destruct (DeltaValue_rejects (td_delta 9 12 2) 9 12 2 [0; 0; 0]
                newWriter (mkReader [] 0 0)) as [_ Hlength];
      [reflexivity | reflexivity | reflexivity |].
    apply Hlength. cbn. lia.
Defined.

(** ** VarIdxMapValue: what any format keeps of an index *)

Ltac by_bits :=
  apply Z.bits_inj'; intros ?i ?Hi;
  repeat rewrite ?Z.lor_spec, ?Z.land_spec, ?Z.shiftl_spec', ?Z.shiftr_spec',
         ?Z.testbit_ones_nonneg' by lia;
  repeat match goal with
         | |- context [?a <? ?b] => destruct (Z.ltb_spec a b)
         end;
  cbn [negb andb orb];
  rewrite ?andb_true_r, ?andb_false_r, ?orb_false_r, ?orb_true_r,
          ?andb_true_l, ?andb_false_l, ?orb_false_l.

Lemma kept_index_range fmt idx :
  0 <= idx < 2 ^ 32 -> 0 <= kept_index fmt idx < 2 ^ 32.
Proof.
  intros Hidx. unfold kept_index. split.
  - apply Z.lor_nonneg. split; apply Z.land_nonneg; lia.
  - apply bounded_by_bits; [lia| |].
    + apply Z.lor_nonneg. split; apply Z.land_nonneg; lia.
    + intros i Hi. rewrite Z.lor_spec, !Z.land_spec.
      rewrite (testbit_high idx 32 i) by lia. reflexivity.
Qed.

Lemma kept_index_low fmt idx :
  Z.land (kept_index fmt idx) 0xFFFF < 2 ^ VarIdxMapValue.innerBits fmt.
Proof.
  pose proof (innerBits_range fmt) as Hib.
  assert (E : Z.land (kept_index fmt idx) 0xFFFF
              = idx mod 2 ^ VarIdxMapValue.innerBits fmt).
  { rewrite <- Z.land_ones by lia. unfold kept_index. rewrite mask_ones.
    change 0xFFFF0000 with (Z.shiftl (Z.ones 16) 16).
    change 0xFFFF with (Z.ones 16).
    by_bits; try lia; try reflexivity;
      destruct (Z.testbit idx i); reflexivity. }
  rewrite E. apply Z.mod_pos_bound. apply Z.pow_pos_nonneg; lia.
Qed.

Lemma encode_entry_kept fmt idx :
  VarIdxMapValue.encode_entry fmt (kept_index fmt idx)
  = VarIdxMapValue.encode_entry fmt idx.
Proof.
  pose proof (innerBits_range fmt) as Hib.
  unfold VarIdxMapValue.encode_entry, kept_index. cbv zeta.
  rewrite mask_ones.
  change 0xFFFF0000 with (Z.shiftl (Z.ones 16) 16).
  f_equal; [f_equal|];
    by_bits; try lia; try reflexivity;
    destruct (Z.testbit idx i); reflexivity.
Qed.

Lemma kept_index_id fmt idx :
  0 <= idx < 2 ^ 32 ->
  Z.land idx 0xFFFF < 2 ^ VarIdxMapValue.innerBits fmt ->
  kept_index fmt idx = idx.
Proof.
  intros Hidx Hlow.
  rewrite <- (decode_encode_entry fmt idx Hidx Hlow) at 2.
  rewrite <- encode_entry_kept.
  symmetry. apply decode_encode_entry.
  - apply kept_index_range. exact Hidx.
  - apply kept_index_low.
Qed.

Lemma encode_entry_u32 fmt idx :
  0 <= idx < 2 ^ 32 -> VarIdxMapValue.encode_entry fmt idx < 2 ^ 32.
Proof.
  intros Hidx. pose proof (innerBits_range fmt) as Hib.
  apply bounded_by_bits; [lia|apply encode_entry_nonneg; lia|].
  intros i Hi. unfold VarIdxMapValue.encode_entry. cbv zeta.
  rewrite Z.lor_spec, Z.shiftr_spec, !Z.land_spec by lia.
  rewrite (testbit_high idx 32 i), (testbit_high idx 32 (i + _)) by lia.
  reflexivity.
Qed.

Lemma entry_bytes_kept n fmt mapping :
  entry_bytes n fmt (map (kept_index fmt) mapping) = entry_bytes n fmt mapping.
Proof.
  unfold entry_bytes. rewrite map_map. f_equal.
  apply map_ext. intros idx. rewrite encode_entry_kept. reflexivity.
Qed.

(** X5.  [VarIdxMapValue] with any EntryFormat: for 32-bit indices whose
    on-disk form fits the entry size, which all do when the entry has 4
    bytes, [write] fills the MappingCount cell and emits one entry per
    index, and [read] returns each index with its upper half and its
    low [innerBits] bits kept and the bits between cleared; an index
    whose low half fits the inner field is returned as it was. *)
Theorem VarIdxMapValue_keeps
  (tableDict : gmap string Z) (fmt : Z) (mapping : list Z)
  (writer : Writer) (pre post : bytes) (off : Z) :
  tableDict !! "EntryFormat" = Some fmt ->
  tableDict !! "MappingCount" = Some (Z.of_nat (length mapping)) ->
  w_store writer !! "MappingCount" = Some None ->
  Forall (fun idx => 0 <= idx < 2 ^ 32) mapping ->
  VarIdxMapValue.entrySize fmt = 4 \/
  Forall (fun idx => VarIdxMapValue.encode_entry fmt idx
                     < 256 ^ VarIdxMapValue.entrySize fmt) mapping ->
  let n := Z.to_nat (VarIdxMapValue.entrySize fmt) in
  exists writer',
    VarIdxMapValue.write writer tableDict mapping = Ok writer' /\
    w_items writer' = w_items writer ++ entry_items n fmt mapping /\
    w_store writer' !! "MappingCount"
      = Some (Some (Z.of_nat (length mapping))) /\
    VarIdxMapValue.read
      (mkReader (pre ++ entry_bytes n fmt mapping ++ post) off
                (Z.of_nat (length pre))) tableDict
    = Ok (map (kept_index fmt) mapping,
          mkReader (pre ++ entry_bytes n fmt mapping ++ post) off
                   (Z.of_nat (length pre)
                    + VarIdxMapValue.entrySize fmt
                      * Z.of_nat (length mapping))) /\
    Forall (fun idx =>
              Z.land idx 0xFFFF < 2 ^ VarIdxMapValue.innerBits fmt ->
              kept_index fmt idx = idx) mapping.
Proof.
  intros HF HC Hcell Hidx Hfit n.
  pose proof (entrySize_range fmt) as Hes.
  assert (Hn : Z.of_nat n = VarIdxMapValue.entrySize fmt)
    by (subst n; rewrite Z2Nat.id; lia).
  assert (Hraw : Forall (fun idx =>
                           0 <= VarIdxMapValue.encode_entry fmt idx
                           < 256 ^ Z.of_nat n) mapping).
  { rewrite Hn. destruct Hfit as [E4|Hfit].
    - eapply Forall_impl; [exact Hidx|]. intros idx Hi. cbv beta in Hi |- *.
      split; [apply encode_entry_nonneg; lia|].
      rewrite E4. change (256 ^ 4) with (2 ^ 32).
      apply encode_entry_u32. exact Hi.
    - rewrite Forall_forall in Hidx, Hfit. apply Forall_forall.
      intros idx Hin. split; [|apply Hfit; exact Hin].
      apply encode_entry_nonneg. apply Hidx in Hin. lia. }
  eexists. split; [|split; [|split; [|split]]].
  - unfold VarIdxMapValue.write, getitem, setValue. rewrite HF. cbn [bind].
    rewrite Hcell. cbn [bind]. rewrite pick_write_ok. cbn [bind]. fold n.
    apply VarIdx_write_loop. exact Hraw.
  - reflexivity.
  - cbn [w_store extend]. apply lookup_insert_eq.
  - unfold VarIdxMapValue.read, getitem. rewrite HF, HC. cbn [bind].
    rewrite pick_read_ok. cbn [bind]. rewrite Nat2Z.id, <- Hn.
    rewrite <- entry_bytes_kept.
    rewrite <- (length_map (kept_index fmt) mapping).
    apply VarIdx_read_loop.
    apply Forall_forall. intros x Hx. apply list_elem_of_fmap in Hx.
    destruct Hx as (idx & -> & Hin).
    rewrite Forall_forall in Hidx, Hraw.
    rewrite encode_entry_kept. split; [apply Hraw; exact Hin|].
    rewrite <- encode_entry_kept. apply decode_encode_entry.
    + apply kept_index_range. apply Hidx. exact Hin.
    + apply kept_index_low.
  - eapply Forall_impl; [exact Hidx|]. intros idx Hi Hlow.
    apply kept_index_id; assumption.
Qed.

Lemma VarIdxMapValue_keeps_witness :
  exists writer',
    VarIdxMapValue.write writer_with_count (td_varidx 0x38 2)
                         [0x00012345; 0x002A0001] = Ok writer' /\
    VarIdxMapValue.read
      (mkReader ([] ++ entry_bytes 4 0x38 [0x00012345; 0x002A0001] ++ []) 0 0)
      (td_varidx 0x38 2)
    = Ok ([0x00010145; 0x002A0001],
          mkReader ([] ++ entry_bytes 4 0x38 [0x00012345; 0x002A0001] ++ [])
                   0 8).
Proof.
  destruct (VarIdxMapValue_keeps (td_varidx 0x38 2) 0x38
              [0x00012345; 0x002A0001] writer_with_count [] [] 0)
    as (writer' & Hw & _ & _ & Hr & _);
    [reflexivity | reflexivity | reflexivity
    | repeat constructor; lia | left; reflexivity |].
  exists writer'. split; [exact Hw | exact Hr].
Defined.

(** ** The integer converters: range, size and round trip *)

Lemma readS_advance n r v r' : readS n r = Ok (v, r') -> r' = advance r n.
Proof.
  unfold readS. intros H. apply bind_ok in H.
  destruct H as ([u r1] & Hu & H). injection H as _ <-.
  apply (readU_advance n r u r1 Hu).
Qed.

(** X6.  Each integer converter accepts exactly the values of its range
    (signed for [Long], [Short], [Int8], unsigned for the others): it
    writes such a value in [staticSize] bytes, from which its [read]
    returns the value, and raises on any other value; and whatever the
    buffer holds, a [read] that succeeds moves the cursor by
    [staticSize]. *)
Theorem IntValue_read_write
        (c : IntValue) (v : Z) (writer : Writer) (pre post : bytes)
        (off : Z) :
  (IntValue_fits c v ->
   IntValue_write c writer v
   = Ok (extend writer [IData (IntValue_bytes c v)]) /\
   Z.of_nat (length (IntValue_bytes c v)) = IntValue_staticSize c /\
   IntValue_read c (mkReader (pre ++ IntValue_bytes c v ++ post) off
                             (Z.of_nat (length pre)))
   = Ok (v, mkReader (pre ++ IntValue_bytes c v ++ post) off
                     (Z.of_nat (length pre) + IntValue_staticSize c))) /\
  (~ IntValue_fits c v -> IntValue_write c writer v = Raise StructError) /\
  (forall reader v' reader',
     IntValue_read c reader = Ok (v', reader') ->
     reader' = advance reader (IntValue_staticSize c)).
Proof.
  split; [|split].
  - intros Hv. unfold IntValue_fits, IntValue_bytes in *.
    destruct c; cbn [IntValue_signed IntValue_staticSize IntValue_write
                     IntValue_read] in *;
      (split; [|split;
        [rewrite ?length_signed_bytes, ?length_be_encode; reflexivity|]]);
      first [ apply writeS_items; exact Hv
            | apply writeU_ok; exact Hv
            | apply (readS_at 4); [lia|exact Hv]
            | apply (readS_at 2); [lia|exact Hv]
            | apply (readS_at 1); [lia|exact Hv]
            | apply (readU_at 4); exact Hv
            | apply (readU_at 3); exact Hv
            | apply (readU_at 2); exact Hv
            | apply (readU_at 1); exact Hv ].
  - intros Hv. unfold IntValue_fits in Hv.
    destruct c; cbn [IntValue_signed IntValue_staticSize IntValue_write] in *;
      first [ apply writeS_raise; exact Hv | apply writeU_raise; exact Hv ].
  - intros reader v' reader' H.
    destruct c; cbn [IntValue_read IntValue_staticSize] in *;
      first [ exact (readS_advance _ _ _ _ H)
            | exact (readU_advance _ _ _ _ H) ].
Qed.

Lemma IntValue_read_write_witness :
  IntValue_write CShort newWriter (-2)
  = Ok (extend newWriter [IData [255; 254]]) /\
  IntValue_read CShort (mkReader ([7] ++ [255; 254] ++ [9]) 0 1)
  = Ok (-2, mkReader ([7] ++ [255; 254] ++ [9]) 0 3) /\
  IntValue_write CUInt24 newWriter (-2) = Raise StructError.
Proof.
  destruct (IntValue_read_write CShort (-2) newWriter [7] [9] 0)
    as (Hin & _ & _).
  destruct (IntValue_read_write CUInt24 (-2) newWriter [] [] 0)
    as (_ & Hout & _).
  destruct Hin as (Hw & _ & Hr);
    [vm_compute; split; [discriminate|reflexivity]|].
  split; [exact Hw|]. split; [exact Hr|].
  apply Hout. intros [H _]. vm_compute in H. apply H. reflexivity.
Defined.

(** ** Offset-addressed tables: the size of the offset *)

(** X7.  An offset-addressed table converter takes [staticSize] bytes of
    the enclosing table, 2 for [Table], [SubTable] and [FeatureParams]
    and 4 for [LTable] and [ExtSubTable], whatever the value: a [read]
    that succeeds leaves the cursor [staticSize] bytes further, for an
    absent table, a decoded one and one left for later; and a [write]
    that succeeds, of a table object whose [compile] keeps the offset
    width of its sink, adds [staticSize] bytes to the data of the
    enclosing sink.  Only [ExtSubTable.write] marks the sink as an
    extension. *)
Theorem Table_fixed_size
        (T : Type) (decompile : Reader -> result T)
        (compile : T -> Writer -> result Writer)
        (c : OffsetConverter) (name : string) (lazy : bool)
        (reader : Reader) (writer : Writer) (value : option T)
        (repeatIndex : option nat) :
  (forall t w w', compile t w = Ok w' -> w_longOffset w' = w_longOffset w) ->
  (forall v reader',
     Table_read T decompile c lazy reader = Ok (v, reader') ->
     reader' = advance reader (staticSize_of_offset c)) /\
  (forall writer',
     Table_write T compile c name writer value repeatIndex = Ok writer' ->
     getDataLength writer'
     = getDataLength writer + staticSize_of_offset c /\
     w_Extension writer'
     = match c with CExtSubTable => true | _ => w_Extension writer end).
Proof.
  intros Hcompile. split.
  - intros v reader' H. unfold Table_read in H.
    apply bind_ok in H. destruct H as ([offset r1] & Hoff & H).
    assert (E : r1 = advance reader (staticSize_of_offset c)).
    { destruct c; cbn [readOffset] in Hoff;
        exact (readU_advance _ _ _ _ Hoff). }
    destruct (offset =? 0); [injection H as _ <-; exact E|].
    destruct lazy; [injection H as _ <-; exact E|].
    apply bind_ok in H. destruct H as (t & _ & H).
    injection H as _ <-. exact E.
  - intros writer' H.
    assert (G : forall w w',
               Table_write_base T compile c name w value repeatIndex = Ok w' ->
               getDataLength w' = getDataLength w + staticSize_of_offset c /\
               w_Extension w' = w_Extension w).
    { intros w w' Hw. unfold Table_write_base in Hw.
      destruct value as [t|].
      - apply bind_ok in Hw. destruct Hw as (sub & Hsub & Hw).
        injection Hw as <-. apply Hcompile in Hsub.
        cbn [w_longOffset] in Hsub.
        unfold writeSubTable, w_append, getDataLength.
        cbn [w_items extend w_Extension]. rewrite items_length_app.
        cbn [items_length fold_right item_length]. rewrite Hsub.
        unfold staticSize_of_offset. split; [lia|reflexivity].
      - unfold writeNullOffset in Hw. unfold staticSize_of_offset.
        destruct (longOffset c); apply writeU_inv in Hw; subst w';
          unfold getDataLength; cbn [w_items extend w_Extension];
          rewrite items_length_app; split; reflexivity. }
    unfold Table_write in H.
    destruct c; apply G in H; destruct H as [Hlen Hext];
      (split; [exact Hlen|exact Hext]).
Qed.

Lemma Table_fixed_size_witness :
  exists writer',
    Table_write Z (fun t w => writeUShort w t) CExtSubTable "Lookup"
                newWriter (Some 7) None = Ok writer' /\
    getDataLength writer' = 4 /\ w_Extension writer' = true.
Proof.
  destruct (Table_fixed_size
              Z (fun r => do '(v, _) <- readUShort r; Ok v)
              (fun t w => writeUShort w t)
              CExtSubTable "Lookup" false (mkReader [] 0 0) newWriter
              (Some 7) None) as [_ Hwrite].
  - intros t w w' H. apply writeU_inv in H. subst w'. reflexivity.
  - eexists. split; [vm_compute; reflexivity|].
    apply Hwrite. reflexivity.
Defined.

(** ** AATLookup: decode after encode *)

Lemma writes_ret : writes (fun w => Ok w) [].
Proof. intros w. exists []. rewrite extend_nil. split; reflexivity. Qed.

Lemma writes_bind f g a b :
  writes f a -> writes g b -> writes (fun w => bind (f w) g) (a ++ b).
Proof.
  intros Hf Hg w. destruct (Hf w) as (i1 & -> & H1). cbn [bind].
  destruct (Hg (extend w i1)) as (i2 & -> & H2).
  exists (i1 ++ i2). rewrite extend_extend. split; [reflexivity|].
  apply items_data_app; assumption.
Qed.

Lemma writes_writeU (n : nat) v :
  0 <= v < 256 ^ Z.of_nat n -> writes (fun w => writeU n w v) (be_encode n v).
Proof.
  intros Hv w. exists [IData (be_encode n v)].
  rewrite writeU_ok by exact Hv. split; [reflexivity|].
  cbn. rewrite app_nil_r. reflexivity.
Qed.

Lemma writes_word v :
  0 <= v <= 65535 -> writes (fun w => writeUShort w v) (be_encode 2 v).
Proof. intros Hv. apply (writes_writeU 2). cbn. lia. Qed.

Lemma writes_data bs : writes (fun w => Ok (writeData w bs)) bs.
Proof.
  intros w. exists [IData bs]. split; [reflexivity|].
  cbn. rewrite app_nil_r. reflexivity.
Qed.

Lemma writes_foldM {A} (f : Writer -> A -> result Writer) (e : A -> bytes)
      (l : list A) :
  Forall (fun x => writes (fun w => f w x) (e x)) l ->
  writes (fun w => foldM f l w) (concat (map e l)).
Proof.
  induction 1 as [|x l Hx Hl IH].
  - exact writes_ret.
  - cbn [map concat].
    exact (writes_bind (fun w => f w x) (fun w => foldM f l w) _ _ Hx IH).
Qed.

Lemma writes_header n u :
  0 <= n <= 65535 -> 0 <= u <= 65535 -> n * u <= 65535 ->
  writes (fun w => writeBinSearchHeader w n u) (header_bytes n u).
Proof.
  intros Hn Hu Hnu. unfold writeBinSearchHeader, header_bytes.
  pose proof (getSearchRange_u16 n u Hn Hu Hnu) as Hsr.
  destruct (getSearchRange n u) as [[sr es] rs].
  destruct Hsr as (Hsr & Hes & Hrs). unfold u16 in *.
  apply (writes_bind (fun w => writeUShort w u)); [apply writes_word; lia|].
  apply (writes_bind (fun w => writeUShort w n)); [apply writes_word; lia|].
  apply (writes_bind (fun w => writeUShort w sr)); [apply writes_word; lia|].
  apply (writes_bind (fun w => writeUShort w es)); [apply writes_word; lia|].
  apply writes_word; lia.
Qed.

Lemma length_header_bytes n u : length (header_bytes n u) = 10%nat.
Proof.
  unfold header_bytes. destruct (getSearchRange n u) as [[sr es] rs].
  rewrite !length_app, !length_be_encode. reflexivity.
Qed.

(** A loop over the units of a table that seeks each unit from the
    start of the table: what it does is a left fold over the units. *)
Lemma unit_loop {A M} (f : M * Reader -> Z -> result (M * Reader))
      (g : M -> A -> M) (keeps : Reader -> Prop) (units : list A) :
  (forall m r i u, keeps r -> units !! i = Some u ->
     exists r', f (m, r) (Z.of_nat i) = Ok (g m u, r') /\ keeps r') ->
  forall m r, keeps r ->
    exists r',
      foldM f (range (Z.of_nat (length units))) (m, r)
      = Ok (foldl g m units, r') /\ keeps r'.
Proof.
  induction units as [|u units IH] using rev_ind; intros Hstep m r Hr.
  - exists r. split; [reflexivity|exact Hr].
  - destruct (IH (fun m r i u' Hk Hi =>
                    Hstep m r i u' Hk (lookup_app_l_Some _ _ _ _ Hi)) m r Hr)
      as (r1 & E1 & Hr1).
    destruct (Hstep (foldl g m units) r1 (length units) u Hr1)
      as (r2 & E2 & Hr2).
    { rewrite lookup_app_r by lia. rewrite Nat.sub_diag. reflexivity. }
    exists r2. split; [|exact Hr2].
    rewrite length_app. cbn [length]. unfold range in *.
    replace (Z.of_nat (length units + 1))
      with (Z.of_nat (length units) + 1) by lia.
    rewrite seqZ_app by lia. rewrite foldM_app, E1. cbn [bind].
    replace (seqZ (0 + Z.of_nat (length units)) 1)
      with [Z.of_nat (length units)] by (cbn; f_equal; lia).
    cbn [foldM]. rewrite E2. cbn [bind]. rewrite foldl_app. reflexivity.
Qed.

(** Strictly increasing glyph IDs that all lie in a range of as many
    IDs as there are entries are the IDs of that range, in order. *)
Lemma increasing_dense {V} (values : list (Z * V)) : forall lo,
  StronglySorted (fun a b => a.1 < b.1) values ->
  Forall (fun e => lo <= e.1 < lo + Z.of_nat (length values)) values ->
  forall k e, values !! k = Some e -> e.1 = lo + Z.of_nat k.
Proof.
  induction values as [|h rest IH]; intros lo Hs Hr k e Hk;
    [discriminate|].
  apply StronglySorted_inv in Hs. destruct Hs as [Hs Hh].
  apply Forall_cons in Hr. destruct Hr as [Hlo Hr].
  cbn [length] in *.
  assert (Hr' : Forall (fun e => lo + 1 <= e.1
                                 < lo + 1 + Z.of_nat (length rest)) rest).
  { rewrite Forall_forall in *. intros x Hx.
    specialize (Hr x Hx). specialize (Hh x Hx). lia. }
  specialize (IH (lo + 1) Hs Hr').
  destruct k as [|k].
  - injection Hk as <-. destruct rest as [|e0 rest'].
    + cbn [length] in Hlo. lia.
    + specialize (IH 0%nat e0 eq_refl).
      apply Forall_cons in Hh. destruct Hh as [Hh _]. lia.
  - cbn in Hk. specialize (IH k e Hk). lia.
Qed.

(** Moving the boundary between what was read and what is left. *)
Lemma reader_skip pre a rest off n :
  Z.of_nat (length a) = n ->
  mkReader (pre ++ a ++ rest) off (Z.of_nat (length pre) + n)
  = mkReader ((pre ++ a) ++ rest) off (Z.of_nat (length (pre ++ a))).
Proof.
  intros <-. rewrite <- app_assoc. f_equal. rewrite length_app. lia.
Qed.

Lemma foldl_insert_entries {V} (name : Z -> string) (l : list (Z * V)) :
  foldl (fun m e => <[name e.1 := e.2]> m) (∅ : gmap string V) l
  = list_to_map (reverse (map (fun e => (name e.1, e.2)) l)).
Proof.
  induction l as [|e l IH] using rev_ind; [reflexivity|].
  rewrite foldl_app, map_app, reverse_app. cbn [foldl map reverse].
  rewrite IH. reflexivity.
Qed.

Section AATLookupRoundTrip.
Context {Val : Type} `{EqDecision Val}.
Variable val_le : Val -> Val -> Prop.
Context {val_le_dec : forall x y, Decision (val_le x y)}.
Variable valueSize : Z.
Variable okp : Val -> Prop.
Variable enc : Val -> bytes.
Variable conv_write : Writer -> Val -> result Writer.
Variable conv_read : Reader -> result (Val * Reader).
Variable getGlyphID : string -> result Z.
Variable getGlyphName : Z -> string.
Variable numGlyphs : Z.

(** The value converter is one of plain values of [valueSize] bytes:
    [write] appends the bytes of the value, [read] decodes them. *)
Hypothesis enc_length : forall v, Z.of_nat (length (enc v)) = valueSize.
Hypothesis conv_write_ok :
  forall w v, okp v -> conv_write w v = Ok (extend w [IData (enc v)]).
Hypothesis conv_read_ok :
  forall pre v post off, okp v ->
    conv_read (mkReader (pre ++ enc v ++ post) off (Z.of_nat (length pre)))
    = Ok (v, mkReader (pre ++ enc v ++ post) off
                      (Z.of_nat (length pre) + valueSize)).

Local Abbreviation values_bytes := (values_bytes enc).
Local Abbreviation format0_bytes := (format0_bytes enc).
Local Abbreviation format8_bytes := (format8_bytes enc).
Local Abbreviation format6_bytes := (format6_bytes valueSize enc).
Local Abbreviation format2_bytes := (format2_bytes valueSize enc).
Local Abbreviation unit6 := (unit6 enc).
Local Abbreviation unit2 := (unit2 enc).
Local Abbreviation insert_entries := (insert_entries getGlyphName).
Local Abbreviation reads_mapping :=
  (reads_mapping valueSize conv_read getGlyphName numGlyphs).
Local Abbreviation okval := (fun e : Z * Val => okp e.2).

Lemma valueSize_nonneg_of (v : Val) : 0 <= valueSize.
Proof. rewrite <- (enc_length v). lia. Qed.

Lemma value_written v : okp v -> writes (fun w => conv_write w v) (enc v).
Proof.
  intros Hv w. exists [IData (enc v)]. rewrite conv_write_ok by exact Hv.
  split; [reflexivity|]. cbn. rewrite app_nil_r. reflexivity.
Qed.

Lemma values_written (values : list (Z * Val)) :
  Forall okval values ->
  writes (fun w => foldM (fun writer '(_, value) => conv_write writer value)
                         values w)
         (values_bytes values).
Proof.
  intros Hv. unfold values_bytes. apply writes_foldM.
  eapply Forall_impl; [exact Hv|]. intros [g v] Hgv.
  apply value_written. exact Hgv.
Qed.

Lemma readArray_eager_at (values : list (Z * Val)) : forall pre post off,
  Forall okval values ->
  readArray_eager conv_read (length values)
    (mkReader (pre ++ values_bytes values ++ post) off
              (Z.of_nat (length pre)))
  = Ok (map snd values,
        mkReader (pre ++ values_bytes values ++ post) off
                 (Z.of_nat (length pre)
                  + valueSize * Z.of_nat (length values))).
Proof.
  induction values as [|[g v] values IH]; intros pre post off Hv.
  - cbn. do 3 f_equal. lia.
  - apply Forall_cons in Hv. destruct Hv as [Hv Hvs]. cbn [fst snd] in Hv.
    unfold values_bytes in *.
    cbn [length readArray_eager map concat fst snd].
    rewrite <- (app_assoc (enc v)). rewrite conv_read_ok by exact Hv.
    cbn [bind].
    rewrite (reader_skip pre (enc v) _ off valueSize (enc_length v)).
    rewrite IH by exact Hvs. cbn [bind].
    rewrite <- app_assoc. do 3 f_equal. rewrite length_app.
    pose proof (enc_length v). lia.
Qed.

(** A run of values read for the glyphs [first], [first + 1], ... *)
Lemma insert_run_dense first (values : list (Z * Val)) m :
  (forall k e, values !! k = Some e -> e.1 = first + Z.of_nat k) ->
  insert_run getGlyphName first (map snd values) m
  = insert_entries m values.
Proof.
  induction values as [|e values IH] using rev_ind; intros Hd;
    [reflexivity|].
  unfold insert_run, insert_entries in *.
  rewrite map_app, imap_app, !foldl_app. cbn [map imap foldl].
  rewrite IH by (intros k x Hk; apply Hd, lookup_app_l_Some, Hk).
  rewrite (Hd (length values) e)
    by (rewrite lookup_app_r by lia; rewrite Nat.sub_diag; reflexivity).
  unfold compose. rewrite length_map, Nat.add_0_r. reflexivity.
Qed.

(** *** Format 8 *)

Lemma writeFormat8_writes first v0 rest :
  0 <= first <= 65535 ->
  Z.of_nat (length ((first, v0) :: rest)) <= 65535 ->
  Forall okval ((first, v0) :: rest) ->
  writes (fun w => writeFormat8 conv_write w ((first, v0) :: rest))
         (format8_bytes first ((first, v0) :: rest)).
Proof.
  intros Hf Hl Hv. unfold writeFormat8, format8_bytes.
  set (values := (first, v0) :: rest) in *.
  apply (writes_bind (fun w => writeUShort w 8)); [apply writes_word; lia|].
  apply (writes_bind (fun w => writeUShort w first));
    [apply writes_word; lia|].
  apply (writes_bind (fun w => writeUShort w (Z.of_nat (length values))));
    [apply writes_word; lia|].
  apply values_written. exact Hv.
Qed.

Lemma format8_reads first (values : list (Z * Val)) :
  0 <= first <= 65535 -> Z.of_nat (length values) <= 65535 ->
  Forall okval values ->
  (forall k e, values !! k = Some e -> e.1 = first + Z.of_nat k) ->
  reads_mapping (format8_bytes first values) (insert_entries ∅ values).
Proof.
  intros Hf Hl Hv Hd pre post off.
  unfold AATLookup_read, format8_bytes. rewrite <- !app_assoc.
  rewrite readUShort_at by (unfold u16; lia). cbn [bind].
  change (8 =? 0) with false. change (8 =? 2) with false.
  change (8 =? 4) with false. change (8 =? 6) with false.
  change (8 =? 8) with true. cbv iota. unfold readFormat8.
  rewrite (reader_skip pre (be_encode 2 8) _ off 2 eq_refl).
  rewrite readUShort_at by (unfold u16; lia). cbn [bind].
  rewrite (reader_skip _ (be_encode 2 first) _ off 2 eq_refl).
  rewrite readUShort_at by (unfold u16; lia). cbn [bind].
  rewrite (reader_skip _ (be_encode 2 (Z.of_nat (length values))) _ off 2
                       eq_refl).
  rewrite Nat2Z.id. rewrite readArray_eager_at by exact Hv. cbn [bind].
  eexists. rewrite insert_run_dense by exact Hd. reflexivity.
Qed.

(** *** Format 0 *)

Lemma writeFormat0_writes (values : list (Z * Val)) :
  Forall okval values ->
  writes (fun w => writeFormat0 conv_write w values) (format0_bytes values).
Proof.
  intros Hv. unfold writeFormat0, format0_bytes.
  apply (writes_bind (fun w => writeUShort w 0)); [apply writes_word; lia|].
  apply values_written. exact Hv.
Qed.

Lemma format0_reads (values : list (Z * Val)) :
  Z.of_nat (length values) = numGlyphs ->
  Forall okval values ->
  (forall k e, values !! k = Some e -> e.1 = 0 + Z.of_nat k) ->
  reads_mapping (format0_bytes values) (insert_entries ∅ values).
Proof.
  intros Hn Hv Hd pre post off.
  unfold AATLookup_read, format0_bytes. rewrite <- !app_assoc.
  rewrite readUShort_at by (unfold u16; lia). cbn [bind].
  change (0 =? 0) with true. cbv iota. unfold readFormat0.
  rewrite (reader_skip pre (be_encode 2 0) _ off 2 eq_refl).
  rewrite <- Hn, Nat2Z.id.
  rewrite readArray_eager_at by exact Hv. cbn [bind].
  eexists. rewrite insert_run_dense by exact Hd. reflexivity.
Qed.

(** *** Format 6 *)

Lemma length_concat_units {A} (e : A -> bytes) (U : Z) (units : list A) :
  (forall x, Z.of_nat (length (e x)) = U) ->
  Z.of_nat (length (concat (map e units))) = Z.of_nat (length units) * U.
Proof.
  intros HU. induction units as [|u units IH]; [reflexivity|].
  cbn [map concat length]. rewrite length_app.
  specialize (HU u). lia.
Qed.

(** Where unit [i] of a table of units of [U] bytes lies. *)
Lemma unit_at {A} (e : A -> bytes) (U : Z) (units : list A) i u pre post :
  (forall x, Z.of_nat (length (e x)) = U) -> units !! i = Some u ->
  exists pre' post',
    pre ++ concat (map e units) ++ post = pre' ++ e u ++ post' /\
    Z.of_nat (length pre') = Z.of_nat (length pre) + Z.of_nat i * U.
Proof.
  intros HU Hi.
  exists (pre ++ concat (map e (take i units))),
         (concat (map e (drop (S i) units)) ++ post).
  split.
  - rewrite <- (take_drop_middle units i u Hi) at 1.
    rewrite map_app, concat_app. cbn [map concat].
    rewrite <- !app_assoc. reflexivity.
  - rewrite length_app, Nat2Z.inj_add.
    rewrite (length_concat_units e U) by exact HU.
    rewrite length_take. apply lookup_lt_Some in Hi.
    rewrite Nat.min_l by lia. reflexivity.
Qed.

Lemma length_unit6 e : Z.of_nat (length (unit6 e)) = valueSize + 2.
Proof.
  unfold unit6. rewrite length_app, length_be_encode.
  pose proof (enc_length e.2). lia.
Qed.

Lemma writeFormat6_writes (values : list (Z * Val)) :
  0 <= valueSize ->
  Forall (fun e => 0 <= e.1 <= 65535) values -> Forall okval values ->
  (Z.of_nat (length values) + 1) * (valueSize + 2) <= 65535 ->
  writes (fun w => writeFormat6 valueSize conv_write w values)
         (format6_bytes values).
Proof.
  intros Hvs Hg Hv Hfit. unfold writeFormat6, format6_bytes. cbv zeta.
  apply (writes_bind (fun w => writeUShort w 6)); [apply writes_word; lia|].
  apply (writes_bind
           (fun w => writeBinSearchHeader w (Z.of_nat (length values))
                                          (valueSize + 2)));
    [apply writes_header; nia|].
  apply (writes_bind
           (fun w => foldM (fun writer '(glyphID, value) =>
                              bind (writeUShort writer glyphID)
                                   (fun writer => conv_write writer value))
                           values w)).
  { apply (writes_foldM _ unit6). rewrite Forall_forall in *.
    intros [g v] Hin. specialize (Hg _ Hin). specialize (Hv _ Hin).
    cbn [fst snd] in *. unfold unit6. cbn [fst snd].
    apply (writes_bind (fun w => writeUShort w g));
      [apply writes_word; lia|].
    apply value_written. exact Hv. }
  apply (writes_bind (fun w => writeUShort w 0xFFFF));
    [apply writes_word; lia|].
  apply writes_data.
Qed.

(** The loop of [readFormat6] over a table whose units start 12 bytes
    behind [base]. *)
Lemma format6_loop (values : list (Z * Val)) data P Q off base :
  data = P ++ concat (map unit6 values) ++ Q ->
  Z.of_nat (length P) = base + 12 ->
  Forall (fun e => 0 <= e.1 < 65535) values -> Forall okval values ->
  forall m r, r_data r = data /\ r_offset r = off ->
    exists r',
      foldM (fun '(mapping, reader) i =>
               let reader := seek reader (base + i * (valueSize + 2) + 12) in
               do '(glyphID, reader) <- readUShort reader;
               do '(value, reader) <- conv_read reader;
               if negb (glyphID =? 0xFFFF)
               then Ok (<[getGlyphName glyphID := value]> mapping, reader)
               else Ok (mapping, reader))
            (range (Z.of_nat (length values))) (m, r)
      = Ok (insert_entries m values, r') /\
      (r_data r' = data /\ r_offset r' = off).
Proof.
  intros Hdata HP Hg Hv. unfold insert_entries.
  apply (unit_loop _ (fun m e => <[getGlyphName e.1 := e.2]> m)
                   (fun r => r_data r = data /\ r_offset r = off)).
  intros m r i [g v] [Hrd Hro] Hi. cbv beta iota zeta.
  rewrite Forall_forall in Hg, Hv.
  pose proof (Hg _ (list_elem_of_lookup_2 _ _ _ Hi)) as Hgi.
  pose proof (Hv _ (list_elem_of_lookup_2 _ _ _ Hi)) as Hvi.
  cbn [fst snd] in *.
  destruct (unit_at unit6 (valueSize + 2) values i (g, v) P Q
                    length_unit6 Hi) as (pre' & post' & Hsplit & Hlen).
  rewrite <- Hdata in Hsplit.
  unfold seek. rewrite Hrd, Hro.
  replace (base + Z.of_nat i * (valueSize + 2) + 12)
    with (Z.of_nat (length pre')) by lia.
  rewrite Hsplit. unfold unit6. cbn [fst snd]. rewrite <- !app_assoc.
  rewrite readUShort_at by (unfold u16; lia). cbn [bind].
  rewrite (reader_skip pre' (be_encode 2 g) _ off 2 eq_refl).
  rewrite conv_read_ok by exact Hvi. cbn [bind].
  destruct (Z.eqb_spec g 65535) as [E|_]; [lia|]. cbn [negb].
  eexists. split; [reflexivity|]. cbn [r_data r_offset].
  split; [|reflexivity]. rewrite <- !app_assoc. reflexivity.
Qed.

Lemma format6_reads (values : list (Z * Val)) :
  0 <= valueSize ->
  Forall (fun e => 0 <= e.1 < 65535) values -> Forall okval values ->
  (Z.of_nat (length values) + 1) * (valueSize + 2) <= 65535 ->
  reads_mapping (format6_bytes values) (insert_entries ∅ values).
Proof.
  intros Hvs Hg Hv Hfit pre post off.
  unfold AATLookup_read, format6_bytes, header_bytes.
  destruct (getSearchRange (Z.of_nat (length values)) (valueSize + 2))
    as [[sr es] rs].
  rewrite <- !app_assoc.
  rewrite readUShort_at by (unfold u16; lia). cbn [bind].
  change (6 =? 0) with false. change (6 =? 2) with false.
  change (6 =? 4) with false. change (6 =? 6) with true.
  cbv iota. unfold readFormat6. cbn [r_pos].
  rewrite (reader_skip pre (be_encode 2 6) _ off 2 eq_refl).
  rewrite readUShort_at by (unfold u16; nia). cbn [bind].
  replace (2 + valueSize <=? valueSize + 2) with true
    by (symmetry; apply Z.leb_le; lia).
  cbn [assert bind].
  rewrite (reader_skip _ (be_encode 2 (valueSize + 2)) _ off 2 eq_refl).
  rewrite readUShort_at by (unfold u16; nia). cbn [bind].
  replace (Z.of_nat (length pre) + 2 - 2) with (Z.of_nat (length pre))
    by lia.
  match goal with
  | |- context [mkReader ?d off ?p] =>
      destruct (format6_loop values d
                  (pre ++ be_encode 2 6 ++ be_encode 2 (valueSize + 2)
                   ++ be_encode 2 (Z.of_nat (length values))
                   ++ be_encode 2 sr ++ be_encode 2 es ++ be_encode 2 rs)
                  (be_encode 2 65535 ++ replicate (Z.to_nat valueSize) 0
                   ++ post)
                  off (Z.of_nat (length pre))
                  ltac:(rewrite <- !app_assoc; reflexivity)
                  ltac:(rewrite !length_app, !length_be_encode; lia)
                  Hg Hv ∅ (mkReader d off p) (conj eq_refl eq_refl))
        as (r' & E & _)
  end.
  exists r'. exact E.
Qed.

(** *** Format 2 *)

Local Abbreviation expand := (@expand Val).
Local Abbreviation okseg :=
  (fun s : Z * Z * Val =>
     0 <= s.1.1 < 65535 /\ 0 <= s.1.2 < 65535 /\ okp s.2).

Lemma length_unit2 s : Z.of_nat (length (unit2 s)) = valueSize + 4.
Proof.
  unfold unit2. rewrite !length_app, !length_be_encode.
  pose proof (enc_length s.2). lia.
Qed.

Lemma writeFormat2_writes (segments : list (Z * Z * Val)) :
  0 <= valueSize -> Forall okseg segments ->
  (Z.of_nat (length segments) + 1) * (valueSize + 4) <= 65535 ->
  writes (fun w => writeFormat2 valueSize conv_write w segments)
         (format2_bytes segments).
Proof.
  intros Hvs Hs Hfit. unfold writeFormat2, format2_bytes. cbv zeta.
  apply (writes_bind (fun w => writeUShort w 2)); [apply writes_word; lia|].
  apply (writes_bind
           (fun w => writeBinSearchHeader w (Z.of_nat (length segments))
                                          (valueSize + 4)));
    [apply writes_header; nia|].
  apply (writes_bind
           (fun w => foldM (fun writer '(firstGlyph, lastGlyph, value) =>
                              bind (writeUShort writer lastGlyph)
                                (fun writer =>
                                   bind (writeUShort writer firstGlyph)
                                     (fun writer => conv_write writer value)))
                           segments w)).
  { apply (writes_foldM _ unit2). rewrite Forall_forall in *.
    intros [[first last] v] Hin. specialize (Hs _ Hin).
    cbn [fst snd] in *. unfold unit2. cbn [fst snd].
    apply (writes_bind (fun w => writeUShort w last));
      [apply writes_word; lia|].
    apply (writes_bind (fun w => writeUShort w first));
      [apply writes_word; lia|].
    apply value_written. tauto. }
  apply (writes_bind (fun w => writeUShort w 0xFFFF));
    [apply writes_word; lia|].
  apply (writes_bind (fun w => writeUShort w 0xFFFF));
    [apply writes_word; lia|].
  apply writes_data.
Qed.

(** What the segments insert is what the entries they stand for
    insert. *)
Lemma foldl_segments (segments : list (Z * Z * Val)) : forall m,
  foldl (fun m s => foldl (fun m k => <[getGlyphName k := s.2]> m) m
                          (seqZ s.1.1 (s.1.2 + 1 - s.1.1)))
        m segments
  = insert_entries m (expand segments).
Proof.
  unfold insert_entries, expand.
  induction segments as [|s segments IH]; intros m; [reflexivity|].
  cbn [foldl flat_map]. rewrite foldl_app, IH. f_equal.
  generalize (seqZ s.1.1 (s.1.2 + 1 - s.1.1)). intros l. revert m.
  induction l as [|k l IHl]; intros m; [reflexivity|].
  cbn [map foldl fst snd]. apply IHl.
Qed.

Lemma format2_loop (segments : list (Z * Z * Val)) data P Q off base :
  data = P ++ concat (map unit2 segments) ++ Q ->
  Z.of_nat (length P) = base + 12 ->
  Forall okseg segments ->
  forall m r, r_data r = data /\ r_offset r = off ->
    exists r',
      foldM (fun '(mapping, reader) i =>
               let reader := seek reader (base + i * (valueSize + 4) + 12) in
               do '(last, reader) <- readUShort reader;
               do '(first, reader) <- readUShort reader;
               do '(value, reader) <- conv_read reader;
               if negb (last =? 0xFFFF)
               then Ok (foldl (fun m k => <[getGlyphName k := value]> m)
                              mapping (seqZ first (last + 1 - first)), reader)
               else Ok (mapping, reader))
            (range (Z.of_nat (length segments))) (m, r)
      = Ok (insert_entries m (expand segments), r') /\
      (r_data r' = data /\ r_offset r' = off).
Proof.
  intros Hdata HP Hs m r Hr. rewrite <- foldl_segments. revert m r Hr.
  apply (unit_loop _ (fun m (s : Z * Z * Val) =>
                        foldl (fun m k => <[getGlyphName k := s.2]> m) m
                              (seqZ s.1.1 (s.1.2 + 1 - s.1.1)))
                   (fun r => r_data r = data /\ r_offset r = off)).
  intros m r i [[first last] v] [Hrd Hro] Hi. cbv beta iota zeta.
  rewrite Forall_forall in Hs.
  pose proof (Hs _ (list_elem_of_lookup_2 _ _ _ Hi)) as (Hf & Hl & Hv).
  cbn [fst snd] in *.
  destruct (unit_at unit2 (valueSize + 4) segments i (first, last, v) P Q
                    length_unit2 Hi) as (pre' & post' & Hsplit & Hlen).
  rewrite <- Hdata in Hsplit.
  unfold seek. rewrite Hrd, Hro.
  replace (base + Z.of_nat i * (valueSize + 4) + 12)
    with (Z.of_nat (length pre')) by lia.
  rewrite Hsplit. unfold unit2. cbn [fst snd]. rewrite <- !app_assoc.
  rewrite readUShort_at by (unfold u16; lia). cbn [bind].
  rewrite (reader_skip pre' (be_encode 2 last) _ off 2 eq_refl).
  rewrite readUShort_at by (unfold u16; lia). cbn [bind].
  rewrite (reader_skip _ (be_encode 2 first) _ off 2 eq_refl).
  rewrite conv_read_ok by exact Hv. cbn [bind].
  destruct (Z.eqb_spec last 65535) as [E|_]; [lia|]. cbn [negb].
  eexists. split; [reflexivity|]. cbn [r_data r_offset].
  split; [|reflexivity]. rewrite <- !app_assoc. reflexivity.
Qed.

Lemma format2_reads (segments : list (Z * Z * Val)) :
  0 <= valueSize -> Forall okseg segments ->
  (Z.of_nat (length segments) + 1) * (valueSize + 4) <= 65535 ->
  reads_mapping (format2_bytes segments)
                (insert_entries ∅ (expand segments)).
Proof.
  intros Hvs Hs Hfit pre post off.
  unfold AATLookup_read, format2_bytes, header_bytes.
  destruct (getSearchRange (Z.of_nat (length segments)) (valueSize + 4))
    as [[sr es] rs].
  rewrite <- !app_assoc.
  rewrite readUShort_at by (unfold u16; lia). cbn [bind].
  change (2 =? 0) with false. change (2 =? 2) with true.
  cbv iota. unfold readFormat2. cbn [r_pos].
  rewrite (reader_skip pre (be_encode 2 2) _ off 2 eq_refl).
  rewrite readUShort_at by (unfold u16; nia). cbn [bind].
  rewrite (reader_skip _ (be_encode 2 (valueSize + 4)) _ off 2 eq_refl).
  rewrite readUShort_at by (unfold u16; nia). cbn [bind].
  replace (4 + valueSize <=? valueSize + 4) with true
    by (symmetry; apply Z.leb_le; lia).
  cbn [assert bind].
  replace (Z.of_nat (length pre) + 2 - 2) with (Z.of_nat (length pre))
    by lia.
  match goal with
  | |- context [mkReader ?d off ?p] =>
      destruct (format2_loop segments d
                  (pre ++ be_encode 2 2 ++ be_encode 2 (valueSize + 4)
                   ++ be_encode 2 (Z.of_nat (length segments))
                   ++ be_encode 2 sr ++ be_encode 2 es ++ be_encode 2 rs)
                  (be_encode 2 65535 ++ be_encode 2 65535
                   ++ replicate (Z.to_nat valueSize) 0 ++ post)
                  off (Z.of_nat (length pre))
                  ltac:(rewrite <- !app_assoc; reflexivity)
                  ltac:(rewrite !length_app, !length_be_encode; lia)
                  Hs ∅ (mkReader d off p) (conj eq_refl eq_refl))
        as (r' & E & _)
  end.
  exists r'. exact E.
Qed.

(** The segments of [buildFormat2] stand for the entries they were made
    of. *)
Lemma segments_loop_expand (rest : list (Z * Val)) :
  forall segStart segEnd segValue segments,
    segStart <= segEnd ->
    expand (segments_loop rest segStart segEnd segValue segments)
    = expand segments
      ++ map (fun k => (k, segValue))
             (seqZ segStart (segEnd + 1 - segStart))
      ++ rest.
Proof.
  induction rest as [|[g cur] rest IH];
    intros segStart segEnd segValue segments Hle; cbn [segments_loop].
  - unfold expand. rewrite flat_map_app. cbn [flat_map fst snd].
    rewrite !app_nil_r. reflexivity.
  - destruct (negb (g =? segEnd + 1)
              || negb (bool_decide (cur = segValue))) eqn:C.
    + rewrite IH by lia. unfold expand. rewrite flat_map_app.
      cbn [flat_map fst snd]. rewrite app_nil_r, <- !app_assoc.
      do 2 f_equal. replace (g + 1 - g) with 1 by lia.
      rewrite seqZ_cons by lia. reflexivity.
    + apply orb_false_elim in C. destruct C as [C1 C2].
      apply negb_false_iff in C1, C2.
      apply Z.eqb_eq in C1. apply bool_decide_eq_true in C2. subst g cur.
      rewrite IH by lia. f_equal.
      replace (segEnd + 1 + 1 - segStart)
        with ((segEnd + 1 - segStart) + 1) by lia.
      rewrite seqZ_app by lia. rewrite map_app, <- app_assoc. f_equal.
      replace (segStart + (segEnd + 1 - segStart)) with (segEnd + 1) by lia.
      rewrite seqZ_cons by lia. reflexivity.
Qed.

Lemma segments_loop_bounds (rest : list (Z * Val)) :
  forall segStart segEnd segValue segments,
    Forall (fun e => 0 <= e.1 < 65535 /\ okp e.2) rest ->
    0 <= segStart < 65535 -> 0 <= segEnd < 65535 -> okp segValue ->
    Forall okseg segments ->
    Forall okseg (segments_loop rest segStart segEnd segValue segments) /\
    (length (segments_loop rest segStart segEnd segValue segments)
     <= length segments + 1 + length rest)%nat.
Proof.
  induction rest as [|[g cur] rest IH];
    intros segStart segEnd segValue segments Hr Hs He Hv Hsegs;
    cbn [segments_loop].
  - split.
    + apply Forall_app. split; [exact Hsegs|].
      constructor; [|constructor]. cbn [fst snd]. tauto.
    + rewrite length_app. cbn [length]. lia.
  - apply Forall_cons in Hr. destruct Hr as [[Hg Hcur] Hr].
    cbn [fst snd] in *.
    destruct (negb (g =? segEnd + 1)
              || negb (bool_decide (cur = segValue))).
    + destruct (IH g g cur (segments ++ [(segStart, segEnd, segValue)]))
        as [Hf Hl]; try assumption.
      { apply Forall_app. split; [exact Hsegs|].
        constructor; [|constructor]. cbn [fst snd]. tauto. }
      split; [exact Hf|]. rewrite length_app in Hl. cbn [length] in *. lia.
    + destruct (IH segStart g segValue segments) as [Hf Hl];
        try assumption.
      split; [exact Hf|]. cbn [length]. lia.
Qed.

(** *** The entries that [write] sorts *)

Local Abbreviation glyph_of_font :=
  (glyph_of_font getGlyphName numGlyphs getGlyphID).
Local Abbreviation named :=
  (fun e : Z * Val => (getGlyphName e.1, e.2)).

Lemma entries_of_value (value : list (string * Val)) : forall acc,
  Forall (fun x => glyph_of_font x.1) value ->
  exists entries,
    foldM (fun acc '(glyph, val) =>
             do gid <- getGlyphID glyph; Ok (acc ++ [(gid, val)]))
          value acc
    = Ok (acc ++ entries) /\
    map named entries = value /\
    Forall (fun e => 0 <= e.1 < numGlyphs) entries.
Proof.
  induction value as [|[g v] value IH]; intros acc Hf.
  - exists []. rewrite app_nil_r. repeat split; constructor.
  - apply Forall_cons in Hf. destruct Hf as [(gid & Hid & Hr & Hn) Hf].
    cbn [fst] in Hid, Hn.
    destruct (IH (acc ++ [(gid, v)]) Hf) as (entries & E & Hm & Hb).
    exists ((gid, v) :: entries). cbn [foldM]. rewrite Hid. cbn [bind].
    rewrite E, <- app_assoc. split; [reflexivity|]. split.
    + cbn [map fst snd]. rewrite Hn, Hm. reflexivity.
    + constructor; [exact Hr|exact Hb].
Qed.

Lemma Sorted_entries_strict (l : list (Z * Val)) :
  Sorted (entry_le val_le) l -> NoDup (map fst l) ->
  StronglySorted (fun a b => a.1 < b.1) l.
Proof.
  induction l as [|a l IH]; intros Hs Hn; [constructor|].
  apply Sorted_inv in Hs. destruct Hs as [Hs Hhd].
  cbn [map] in Hn. apply NoDup_cons in Hn. destruct Hn as [Ha Hn].
  specialize (IH Hs Hn). constructor; [exact IH|].
  destruct l as [|b l]; [constructor|].
  apply HdRel_inv in Hhd.
  assert (Hab : a.1 < b.1).
  { assert (a.1 <> b.1).
    { intros E. apply Ha. cbn [map]. rewrite E. apply elem_of_cons. auto. }
    unfold entry_le in Hhd. lia. }
  constructor; [exact Hab|].
  apply StronglySorted_inv in IH. destruct IH as [_ Hb].
  eapply Forall_impl; [exact Hb|]. cbv beta. intros x Hx. lia.
Qed.

Lemma last_is_max (l : list (Z * Val)) x :
  StronglySorted (fun a b => a.1 < b.1) l -> last l = Some x ->
  Forall (fun e => e.1 <= x.1) l.
Proof.
  induction l as [|a l IH]; intros Hs Hl; [constructor|].
  apply StronglySorted_inv in Hs. destruct Hs as [Hs Ha].
  destruct l as [|b l].
  - injection Hl as <-. constructor; [lia|constructor].
  - change (last (a :: b :: l)) with (last (b :: l)) in Hl.
    specialize (IH Hs Hl). constructor; [|exact IH].
    apply Forall_cons in Ha, IH. lia.
Qed.

Lemma sorted_values_spec (value : list (string * Val)) :
  (forall x y, val_le x y \/ val_le y x) ->
  Forall (fun x => glyph_of_font x.1) value -> NoDup (map fst value) ->
  exists values,
    sorted_values val_le getGlyphID value = Ok values /\
    map named values ≡ₚ value /\
    Forall (fun e => 0 <= e.1 < numGlyphs) values /\
    StronglySorted (fun a b => a.1 < b.1) values.
Proof.
  intros Htot Hf Hnd.
  destruct (entries_of_value value [] Hf) as (entries & E & Hm & Hb).
  unfold sorted_values. rewrite E. cbn [bind app].
  eexists. split; [reflexivity|].
  pose proof (merge_sort_Permutation (entry_le val_le) entries) as Hp.
  assert (Total (entry_le val_le)) as Htotal.
  { intros a b. unfold entry_le.
    destruct (Z.lt_trichotomy a.1 b.1) as [L|[L|L]];
      [left; left; exact L | | right; left; exact L].
    destruct (Htot a.2 b.2) as [T|T];
      [left; right; split; [exact L|exact T]
      |right; right; split; [symmetry; exact L|exact T]]. }
  pose proof (Sorted_merge_sort (entry_le val_le) entries) as Hs.
  split; [|split].
  - rewrite <- Hm. apply Permutation_map. exact Hp.
  - rewrite Hp. exact Hb.
  - apply Sorted_entries_strict; [exact Hs|].
    rewrite Hp. apply (NoDup_fmap_1 getGlyphName).
    rewrite <- Hm in Hnd. rewrite map_map in Hnd.
    rewrite <- list_fmap_compose. exact Hnd.
Qed.

Lemma value_okv v : okp v -> okv valueSize conv_write v.
Proof.
  intros Hv w. eexists. split; [apply conv_write_ok; exact Hv|].
  pose proof (emits_extend w [IData (enc v)]) as He.
  cbn [items_length fold_right item_length] in He.
  rewrite enc_length, Z.add_0_r in He. exact He.
Qed.

(** Every candidate that [write] builds for sorted entries of distinct
    glyphs writes a table from which [read] decodes the entries. *)
Lemma formats_decodable (values : list (Z * Val)) fs :
  numGlyphs <= 65535 ->
  StronglySorted (fun a b => a.1 < b.1) values ->
  Forall (fun e => 0 <= e.1 < numGlyphs) values -> Forall okval values ->
  (Z.of_nat (length values) + 1) * (valueSize + 4) <= 65535 ->
  formats valueSize conv_write numGlyphs values = Ok fs ->
  Forall (fun c : candidate =>
            exists bs, writes c.2 bs /\
                       reads_mapping bs (insert_entries ∅ values)) fs.
Proof.
  intros Hng Hs Hb Hv Hfit. unfold formats.
  destruct values as [|[g0 v0] rest] eqn:Ev; [discriminate|].
  rewrite <- Ev in *.
  assert (Hvs : 0 <= valueSize) by exact (valueSize_nonneg_of v0).
  assert (Hb16 : Forall (fun e => 0 <= e.1 < 65535) values).
  { eapply Forall_impl; [exact Hb|]. cbv beta. intros x Hx. lia. }
  assert (Hbw : Forall (fun e => 0 <= e.1 <= 65535) values).
  { eapply Forall_impl; [exact Hb|]. cbv beta. intros x Hx. lia. }
  (* format 2 *)
  assert (D2 : forall c, buildFormat2 valueSize conv_write values = Ok c ->
                 exists bs, writes c.2 bs /\
                            reads_mapping bs (insert_entries ∅ values)).
  { intros c Hc. rewrite Ev in Hc. cbn [buildFormat2] in Hc.
    injection Hc as <-. cbn [snd].
    set (segments := segments_loop rest g0 g0 v0 []).
    assert (Hhd : 0 <= g0 < 65535 /\ okp v0).
    { rewrite Ev in Hb16, Hv. apply Forall_cons in Hb16, Hv.
      cbn [fst snd] in *. tauto. }
    assert (Hrest : Forall (fun e => 0 <= e.1 < 65535 /\ okp e.2) rest).
    { rewrite Ev in Hb16, Hv. apply Forall_cons in Hb16, Hv.
      destruct Hb16 as [_ Hb16]. destruct Hv as [_ Hv].
      rewrite Forall_forall in *. intros x Hx. split; auto. }
    destruct (segments_loop_bounds rest g0 g0 v0 [] Hrest)
      as [Hok Hlen]; try tauto; [constructor|].
    fold segments in Hok, Hlen.
    assert (Hex : expand segments = values).
    { unfold segments. rewrite segments_loop_expand by lia.
      rewrite Ev. replace (g0 + 1 - g0) with 1 by lia.
      rewrite seqZ_cons by lia. reflexivity. }
    assert (Hfit2 : (Z.of_nat (length segments) + 1) * (valueSize + 4)
                    <= 65535).
    { rewrite Ev in Hfit. cbn [length] in *. nia. }
    exists (format2_bytes segments). split.
    - apply writeFormat2_writes; assumption.
    - rewrite <- Hex. apply format2_reads; assumption. }
  destruct (buildFormat2 valueSize conv_write values) as [f2|e] eqn:E2;
    [|discriminate].
  specialize (D2 f2 eq_refl). cbn [bind].
  (* format 6 *)
  assert (D6 : exists bs,
             writes (buildFormat6 valueSize conv_write values).2 bs /\
             reads_mapping bs (insert_entries ∅ values)).
  { exists (format6_bytes values). cbn [buildFormat6 snd]. split.
    - apply writeFormat6_writes; try assumption. nia.
    - apply format6_reads; try assumption. nia. }
  (* format 8 *)
  assert (D8 : forall c, buildFormat8 valueSize conv_write values
                         = Ok (Some c) ->
                 exists bs, writes c.2 bs /\
                            reads_mapping bs (insert_entries ∅ values)).
  { intros c Hc. unfold buildFormat8 in Hc. rewrite Ev in Hc.
    rewrite <- Ev in Hc.
    destruct (last values) as [[mx vx]|] eqn:El; [|discriminate].
    destruct (Z.eqb_spec (Z.of_nat (length values)) (mx - g0 + 1))
      as [Hc8|Hc8]; cbn [negb] in Hc; [|discriminate].
    injection Hc as <-. cbn [snd].
    assert (Hd : forall k e, values !! k = Some e ->
                             e.1 = g0 + Z.of_nat k).
    { apply increasing_dense; [exact Hs|].
      pose proof (last_is_max values (mx, vx) Hs El) as Hmax.
      assert (Hmin : Forall (fun e => g0 <= e.1) values).
      { rewrite Ev in Hs |- *. apply StronglySorted_inv in Hs.
        destruct Hs as [_ Hs]. constructor; [cbn; lia|].
        eapply Forall_impl; [exact Hs|]. cbv beta. cbn [fst].
        intros x Hx. lia. }
      rewrite Forall_forall in *. intros x Hx.
      specialize (Hmax x Hx). specialize (Hmin x Hx). cbn [fst] in Hmax.
      lia. }
    assert (Hg0 : 0 <= g0 <= 65535).
    { rewrite Ev in Hbw. apply Forall_cons in Hbw. cbn [fst] in Hbw.
      tauto. }
    exists (format8_bytes g0 values). split.
    - rewrite Ev. apply writeFormat8_writes; rewrite <- ?Ev;
        try assumption. nia.
    - apply format8_reads; try assumption. nia. }
  destruct (buildFormat8 valueSize conv_write values) as [f8|e] eqn:E8;
    [|discriminate].
  cbn [bind].
  (* format 0 *)
  assert (D0 : forall c, buildFormat0 valueSize conv_write numGlyphs values
                         = Some c ->
                 exists bs, writes c.2 bs /\
                            reads_mapping bs (insert_entries ∅ values)).
  { intros c Hc. unfold buildFormat0 in Hc.
    destruct (Z.eqb_spec (Z.of_nat (length values)) numGlyphs)
      as [Hc0|Hc0]; cbn [negb] in Hc; [|discriminate].
    injection Hc as <-. cbn [snd].
    exists (format0_bytes values). split.
    - apply writeFormat0_writes. exact Hv.
    - apply format0_reads; try assumption.
      apply increasing_dense; [exact Hs|].
      eapply Forall_impl; [exact Hb|]. cbv beta. intros x Hx. lia. }
  intros Hfs. injection Hfs as <-.
  rewrite merge_sort_Permutation.
  destruct (buildFormat0 valueSize conv_write numGlyphs values) as [f0|];
    destruct f8 as [f8|]; cbn [omap id mbind option_bind];
    repeat (apply Forall_cons; split); auto; constructor.
Qed.
End AATLookupRoundTrip.

(** X8.  [AATLookup]: read after write.  For a converter of plain values
    of [valueSize] bytes, a font of at most 65535 glyphs, and a
    non-empty mapping whose glyphs are glyphs of the font, whose values
    the converter accepts and can compare, and whose tables fit the
    16-bit fields of a binary-search header: [write] succeeds, appends
    byte spans only, and from these bytes, wherever they lie in a
    buffer, [read] decodes the mapping again, whichever of the formats
    0, 2, 6 and 8 [write] has chosen. *)
Theorem AATLookup_read_write {Val : Type} `{EqDecision Val}
        (val_le : Val -> Val -> Prop)
        {val_le_dec : forall x y, Decision (val_le x y)}
        (valueSize : Z) (okp : Val -> Prop) (enc : Val -> bytes)
        (conv_write : Writer -> Val -> result Writer)
        (conv_read : Reader -> result (Val * Reader))
        (getGlyphID : string -> result Z) (getGlyphName : Z -> string)
        (numGlyphs : Z) (value : list (string * Val)) (writer : Writer) :
  (forall x y, val_le x y \/ val_le y x) ->
  (forall v, Z.of_nat (length (enc v)) = valueSize) ->
  (forall w v, okp v -> conv_write w v = Ok (extend w [IData (enc v)])) ->
  (forall pre v post off, okp v ->
     conv_read (mkReader (pre ++ enc v ++ post) off (Z.of_nat (length pre)))
     = Ok (v, mkReader (pre ++ enc v ++ post) off
                       (Z.of_nat (length pre) + valueSize))) ->
  numGlyphs <= 65535 ->
  value <> [] -> NoDup (map fst value) ->
  Forall (fun x => glyph_of_font getGlyphName numGlyphs getGlyphID x.1 /\
                   okp x.2) value ->
  (Z.of_nat (length value) + 1) * (valueSize + 4) <= 65535 ->
  exists its bs,
    AATLookup_write val_le valueSize conv_write getGlyphID numGlyphs
                    writer value = Ok (extend writer its) /\
    items_data its = Some bs /\
    reads_mapping valueSize conv_read getGlyphName numGlyphs bs
                  (list_to_map value).
Proof.
  intros Htot Hlen Hw Hr Hng Hne Hnd Hval Hfit.
  assert (Hfont : Forall (fun x => glyph_of_font getGlyphName numGlyphs
                                                 getGlyphID x.1) value).
  { eapply Forall_impl; [exact Hval|]. cbv beta. tauto. }
  destruct (sorted_values_spec val_le getGlyphID getGlyphName numGlyphs
                               value Htot Hfont Hnd)
    as (values & Hsv & Hperm & Hb & Hs).
  assert (Hlenv : length values = length value).
  { rewrite <- (Permutation_length Hperm), length_map. reflexivity. }
  assert (Hv : Forall (fun e : Z * Val => okp e.2) values).
  { assert (Hv' : Forall (fun x : string * Val => okp x.2)
                         (map (fun e : Z * Val => (getGlyphName e.1, e.2))
                              values)).
    { rewrite Hperm. eapply Forall_impl; [exact Hval|]. cbv beta. tauto. }
    rewrite Forall_map in Hv'. exact Hv'. }
  assert (Hnev : values <> []).
  { intros ->. destruct value; [contradiction|discriminate]. }
  assert (Hvs : 0 <= valueSize).
  { destruct value as [|[g v] value']; [contradiction|].
    rewrite <- (Hlen v). lia. }
  assert (Hoke : Forall (oke valueSize conv_write) values).
  { rewrite Forall_forall in *. intros e He. split.
    - specialize (Hb e He). unfold u16. lia.
    - apply (value_okv valueSize okp enc conv_write Hlen Hw). auto. }
  rewrite <- Hlenv in Hfit.
  destruct (formats_head valueSize conv_write numGlyphs values
              Hvs Hnev Hoke Hfit)
    as ([[dataSize fmt] method] & rest & Hf & _ & _ & Hgood).
  pose proof (formats_decodable valueSize okp enc conv_write conv_read
                getGlyphID getGlyphName numGlyphs Hlen Hw Hr values _
                Hng Hs Hb Hv Hfit Hf) as Hdec.
  apply Forall_cons in Hdec. destruct Hdec as [(bs & Hwr & Hrd) _].
  cbn [fst snd] in *.
  destruct (Hgood writer) as (w' & Hm & Hl & _).
  destruct (Hwr writer) as (its & Hm' & Hd).
  cbn [fst snd] in *.
  exists its, bs. split; [|split; [exact Hd|]].
  - unfold AATLookup_write. rewrite Hsv. cbn [bind]. rewrite Hf.
    cbn [bind]. rewrite Hm. cbn [bind]. rewrite Hl.
    replace (getDataLength writer + dataSize - getDataLength writer)
      with dataSize by lia.
    rewrite Z.eqb_refl. cbn [assert bind]. congruence.
  - replace (list_to_map value)
      with (insert_entries getGlyphName ∅ values); [exact Hrd|].
    unfold insert_entries. rewrite foldl_insert_entries.
    apply list_to_map_proper.
    + rewrite reverse_Permutation, Hperm. exact Hnd.
    + rewrite reverse_Permutation. exact Hperm.
Qed.

Lemma AATLookup_read_write_witness :
  exists its bs,
    AATLookup_write Z.le 2 writeUShort ex_getGlyphID 20 newWriter
                    [("g12", 5); ("g10", 7); ("g13", 5)]
    = Ok (extend newWriter its) /\
    items_data its = Some bs /\
    reads_mapping 2 readUShort ex_getGlyphName 20 bs
                  (list_to_map [("g12", 5); ("g10", 7); ("g13", 5)]).
Proof.
  apply (AATLookup_read_write Z.le 2 u16 (be_encode 2) writeUShort
           readUShort ex_getGlyphID ex_getGlyphName 20).
  - intros x y. lia.
  - intros v. rewrite length_be_encode. reflexivity.
  - intros w v Hv. apply (writeU_ok 2). exact Hv.
  - intros pre v post off Hv. apply readUShort_at. exact Hv.
  - lia.
  - discriminate.
  - cbn [map fst]. repeat (apply NoDup_cons; split);
      [ | |intros Hin; apply elem_of_nil in Hin; exact Hin|apply NoDup_nil_2];
      intros Hin; repeat (apply elem_of_cons in Hin;
                          destruct Hin as [Hin|Hin]; [discriminate|]);
      apply elem_of_nil in Hin; exact Hin.
  - repeat (apply Forall_cons; split); try apply Forall_nil_2;
      (split; [eexists; split; [reflexivity|]; split; [lia|reflexivity]
              |unfold u16; cbn [snd]; lia]).
  - cbn [length]. lia.
Defined.

(** ** CIDGlyphMap and GlyphCIDMap: decode after encode *)

Lemma max_list_spec (l : list Z) :
  match foldr (fun k acc => Some (match acc with
                                  | Some m => Z.max k m
                                  | None => k
                                  end)) None l with
  | None => l = []
  | Some m => m ∈ l /\ Forall (fun k => k <= m) l
  end.
Proof.
  induction l as [|k l IH]; [reflexivity|]. cbn [foldr].
  destruct (foldr _ None l) as [m|].
  - destruct IH as [Hin Hle]. split.
    + destruct (Z.max_spec k m) as [[_ ->]|[_ ->]];
        [apply elem_of_cons; right; exact Hin | apply elem_of_cons; left; reflexivity].
    + constructor; [lia|]. eapply Forall_impl; [exact Hle|].
      cbv beta. intros x Hx. lia.
  - subst l. split; [apply elem_of_cons; left; reflexivity|].
    constructor; [lia|constructor].
Qed.

Lemma max_key_spec {V} (items : gmap Z V) :
  match max_key items with
  | None => items = ∅
  | Some m => is_Some (items !! m) /\
              forall k, is_Some (items !! k) -> k <= m
  end.
Proof.
  unfold max_key.
  pose proof (max_list_spec (map fst (map_to_list items))) as H.
  destruct (foldr _ None (map fst (map_to_list items))) as [m|].
  - destruct H as [Hin Hle]. split.
    + apply list_elem_of_fmap in Hin. destruct Hin as ([k v] & -> & Hin).
      apply elem_of_map_to_list in Hin. cbn [fst]. eauto.
    + intros k [v Hk]. rewrite Forall_forall in Hle. apply Hle.
      apply list_elem_of_fmap. exists (k, v). split; [reflexivity|].
      apply elem_of_map_to_list. exact Hk.
  - apply fmap_nil_inv in H. apply map_to_list_empty_iff. exact H.
Qed.

Lemma count_of_spec {V} (items : gmap Z V) :
  (forall k, is_Some (items !! k) -> 0 <= k) ->
  0 <= count_of items /\
  (forall k, is_Some (items !! k) -> k < count_of items) /\
  (count_of items = 0 \/ is_Some (items !! (count_of items - 1))).
Proof.
  intros Hk. unfold count_of. pose proof (max_key_spec items) as H.
  destruct (max_key items) as [m|].
  - destruct H as [Hm Hle]. specialize (Hk m Hm). split; [lia|]. split.
    + intros k Hk'. specialize (Hle k Hk'). lia.
    + right. replace (m + 1 - 1) with m by lia. exact Hm.
  - subst items. split; [lia|]. split; [|left; reflexivity].
    intros k [v Hv]. rewrite lookup_empty in Hv. discriminate.
Qed.

Lemma count_of_fmap {V W} (f : V -> W) (items : gmap Z V) :
  count_of (f <$> items) = count_of items.
Proof.
  unfold count_of.
  pose proof (max_key_spec items) as H1.
  pose proof (max_key_spec (f <$> items)) as H2.
  destruct (max_key items) as [m|], (max_key (f <$> items)) as [m'|].
  - destruct H1 as [Hm Hle], H2 as [Hm' Hle'].
    rewrite lookup_fmap in Hm'. apply fmap_is_Some in Hm'.
    specialize (Hle m' Hm').
    assert (is_Some ((f <$> items) !! m))
      by (rewrite lookup_fmap; apply fmap_is_Some; exact Hm).
    specialize (Hle' m ltac:(assumption)). lia.
  - apply fmap_empty_inv in H2. subst items. destruct H1 as [[v Hv] _].
    rewrite lookup_empty in Hv. discriminate.
  - subst items. destruct H2 as [[v Hv] _].
    rewrite fmap_empty, lookup_empty in Hv. discriminate.
  - reflexivity.
Qed.

Lemma foldl_insert_list {K V} `{Countable K} (l : list (K * V)) :
  foldl (fun m e => <[e.1 := e.2]> m) (∅ : gmap K V) l
  = list_to_map (reverse l).
Proof.
  induction l as [|e l IH] using rev_ind; [reflexivity|].
  rewrite foldl_app, reverse_app. cbn [foldl reverse]. rewrite IH.
  reflexivity.
Qed.

Lemma length_cells items :
  (forall k, is_Some (items !! k) -> 0 <= k) ->
  Z.of_nat (length (cells items)) = count_of items.
Proof.
  intros Hk. destruct (count_of_spec items Hk) as [H0 _].
  unfold cells, range. rewrite length_map, length_seqZ. lia.
Qed.

Lemma lookup_cells items (i : nat) :
  Z.of_nat i < count_of items ->
  cells items !! i = Some (default 0xFFFF (items !! Z.of_nat i)).
Proof.
  intros Hi. unfold cells, range. rewrite list_lookup_fmap.
  rewrite lookup_seqZ_lt by lia. cbn. repeat f_equal; lia.
Qed.

(** The last lines of both [write]s. *)
Lemma writes_cells (items : gmap Z Z) :
  (forall k v, items !! k = Some v -> 0 <= k < 65535 /\ 0 <= v <= 65535) ->
  writes (fun writer =>
            do writer <- writeUShort writer (count_of items);
            foldM (fun writer i =>
                     writeUShort writer (default 0xFFFF (items !! i)))
                  (range (count_of items)) writer)
         (cells_bytes items).
Proof.
  intros Hb. unfold cells_bytes.
  assert (Hk : forall k, is_Some (items !! k) -> 0 <= k).
  { intros k [v Hv]. apply Hb in Hv. lia. }
  destruct (count_of_spec items Hk) as (H0 & _ & Hc).
  apply (writes_bind (fun w => writeUShort w (count_of items))).
  { apply writes_word. destruct Hc as [->|[v Hv]]; [lia|].
    apply Hb in Hv. lia. }
  unfold cells. rewrite map_map. apply writes_foldM.
  apply Forall_forall. intros i _. apply writes_word.
  destruct (items !! i) as [v|] eqn:E; cbn [from_option id]; [|lia].
  apply Hb in E. lia.
Qed.

Lemma cells_u16 (items : gmap Z Z) :
  (forall k v, items !! k = Some v -> 0 <= v <= 65535) ->
  Forall u16 (cells items).
Proof.
  intros Hb. unfold cells. apply Forall_forall. intros c Hc.
  apply list_elem_of_fmap in Hc. destruct Hc as (i & -> & _).
  unfold u16. destruct (items !! i) as [v|] eqn:E; cbn [from_option id]; [|lia].
  apply Hb in E. lia.
Qed.

(** What the loop of [CIDGlyphMap.read] makes of an array. *)
Lemma CID_result (name : Z -> string) (arr : list Z) : forall k,
  foldl (fun (result : gmap Z string) '(cid, glyphID) =>
           if negb (glyphID =? 0xFFFF)
           then <[Z.of_nat cid := name glyphID]> result
           else result)
        ∅ (imap (fun cid glyphID => (cid, glyphID)) arr) !! k
  = if 0 <=? k
    then arr !! Z.to_nat k
         ≫= (fun g => if g =? 0xFFFF then None else Some (name g))
    else None.
Proof.
  induction arr as [|g arr IH] using rev_ind; intros k.
  - cbn. rewrite lookup_empty. destruct (0 <=? k); reflexivity.
  - rewrite imap_app, foldl_app. cbn [imap foldl]. unfold compose.
    rewrite Nat.add_0_r.
    assert (Hother : Z.to_nat k <> length arr \/ k < 0 ->
                     (if 0 <=? k
                      then (arr ++ [g]) !! Z.to_nat k
                           ≫= (fun g => if g =? 0xFFFF then None
                                        else Some (name g))
                      else None)
                     = (if 0 <=? k
                        then arr !! Z.to_nat k
                             ≫= (fun g => if g =? 0xFFFF then None
                                          else Some (name g))
                        else None)).
    { intros Hne. destruct (Z.leb_spec 0 k) as [Hk|Hk]; [|reflexivity].
      destruct Hne as [Hne|Hne]; [|lia].
      destruct (Nat.lt_ge_cases (Z.to_nat k) (length arr)) as [Hlt|Hge].
      - rewrite lookup_app_l by exact Hlt. reflexivity.
      - rewrite !lookup_ge_None_2;
          [reflexivity | lia | rewrite length_app; cbn [length]; lia]. }
    assert (Hend : arr !! length arr = None)
      by (apply lookup_ge_None_2; lia).
    destruct (Z.eqb_spec g 65535) as [Eg|Eg]; cbn [negb].
    + rewrite IH. destruct (Z.eq_dec k (Z.of_nat (length arr))) as [->|Hne].
      * rewrite Nat2Z.id, Hend.
        rewrite lookup_app_r by lia. rewrite Nat.sub_diag. cbn.
        destruct (Z.leb_spec 0 (Z.of_nat (length arr))); [|reflexivity].
        destruct (Z.eqb_spec g 65535); [reflexivity|contradiction].
      * symmetry. apply Hother. lia.
    + destruct (Z.eq_dec k (Z.of_nat (length arr))) as [->|Hne].
      * rewrite lookup_insert_eq. rewrite Nat2Z.id.
        rewrite lookup_app_r by lia. rewrite Nat.sub_diag. cbn.
        destruct (Z.leb_spec 0 (Z.of_nat (length arr))); [|lia].
        destruct (Z.eqb_spec g 65535); [contradiction|reflexivity].
      * rewrite lookup_insert_ne by (intros E; apply Hne; symmetry; exact E).
        rewrite IH. symmetry. apply Hother. lia.
Qed.

Lemma ex_readUShortArray_words : reads_words ex_readUShortArray.
Proof.
  intros pre ws post off Hws. unfold ex_readUShortArray.
  rewrite (read_run 2 u16 (be_encode 2) readUShort
                    (fun v => length_be_encode 2 v)
                    (fun pre v post off Hv => readUShort_at pre v post off Hv)
                    post off ws (range (Z.of_nat (length ws))) [] pre)
    by (try exact Hws; rewrite length_range; lia).
  reflexivity.
Qed.

Lemma CID_items getGlyphID (value : list (Z * string)) : forall acc,
  Forall (fun x => exists gid, getGlyphID x.2 = Ok gid) value ->
  foldM (fun (items : gmap Z Z) '(cid, glyph) =>
           do gid <- getGlyphID glyph; Ok (<[cid := gid]> items))
        value acc
  = Ok (foldl (fun m e => <[e.1 := e.2]> m) acc
              (map (prod_map id (gid_of getGlyphID)) value)).
Proof.
  induction value as [|[c g] value IH]; intros acc Hf; [reflexivity|].
  apply Forall_cons in Hf. destruct Hf as [[gid Hg] Hf]. cbn [snd] in Hg.
  cbn [foldM]. rewrite Hg. cbn [bind]. rewrite IH by exact Hf.
  cbn [map foldl prod_map fst snd id]. unfold gid_of at 2. rewrite Hg.
  reflexivity.
Qed.

(** X9.  [CIDGlyphMap]: read after write.  For a dict from CIDs below
    65535 to glyphs that the font resolves to glyph IDs below 65535,
    [write] succeeds and emits the count, which is the largest CID plus
    one (zero for the empty dict), and one 16-bit cell for each CID
    below the count; and [read] decodes the dict again from these bytes,
    the cells of the CIDs that are not keys holding [0xFFFF]. *)
Theorem CIDGlyphMap_read_write
        (readUShortArray : Reader -> Z -> result (list Z * Reader))
        (getGlyphID : string -> result Z) (getGlyphName : Z -> string)
        (value : list (Z * string)) (writer : Writer)
        (pre post : bytes) (off : Z) :
  reads_words readUShortArray ->
  NoDup (map fst value) ->
  Forall (fun x => 0 <= x.1 < 65535 /\
                   exists gid, getGlyphID x.2 = Ok gid /\
                               0 <= gid < 65535 /\
                               getGlyphName gid = x.2) value ->
  exists its bs reader',
    CIDGlyphMap_write getGlyphID writer value = Ok (extend writer its) /\
    items_data its = Some bs /\
    Z.of_nat (length bs)
    = 2 + 2 * count_of (list_to_map value : gmap Z string) /\
    CIDGlyphMap_read readUShortArray getGlyphName
                     (mkReader (pre ++ bs ++ post) off
                               (Z.of_nat (length pre)))
    = Ok (list_to_map value, reader').
Proof.
  intros Hrw Hnd Hval.
  set (M := list_to_map value : gmap Z string).
  set (items := gid_of getGlyphID <$> M).
  assert (Hitems :
            foldM (fun (items : gmap Z Z) '(cid, glyph) =>
                     do gid <- getGlyphID glyph; Ok (<[cid := gid]> items))
                  value ∅ = Ok items).
  { rewrite CID_items.
    2:{ eapply Forall_impl; [exact Hval|]. cbv beta.
        intros x (_ & gid & Hg & _). eauto. }
    f_equal. rewrite foldl_insert_list. unfold items, M.
    rewrite <- list_to_map_fmap. apply list_to_map_proper.
    - rewrite reverse_Permutation, <- list_fmap_compose.
      exact Hnd.
    - apply reverse_Permutation. }
  assert (HM : forall k g, M !! k = Some g ->
                 0 <= k < 65535 /\ 0 <= gid_of getGlyphID g < 65535 /\
                 getGlyphName (gid_of getGlyphID g) = g).
  { intros k g Hk. apply elem_of_list_to_map_2 in Hk.
    rewrite Forall_forall in Hval.
    destruct (Hval _ Hk) as (Hk' & gid & Hg & Hgid & Hn).
    cbn [fst snd] in *. unfold gid_of. rewrite Hg. tauto. }
  assert (Hb : forall k v, items !! k = Some v ->
                 0 <= k < 65535 /\ 0 <= v <= 65535).
  { intros k v Hk. unfold items in Hk. rewrite lookup_fmap in Hk.
    destruct (M !! k) as [g|] eqn:E; [|discriminate].
    injection Hk as <-. apply HM in E. lia. }
  assert (Hk : forall k, is_Some (items !! k) -> 0 <= k).
  { intros k [v Hv]. apply Hb in Hv. lia. }
  destruct (count_of_spec items Hk) as (H0 & Hlt & Hc).
  assert (Hcount : 0 <= count_of items <= 65535).
  { destruct Hc as [->|[v Hv]]; [lia|]. apply Hb in Hv. lia. }
  destruct (writes_cells items Hb writer) as (its & Hw & Hd).
  exists its, (cells_bytes items). eexists.
  split; [|split; [exact Hd|split]].
  - unfold CIDGlyphMap_write. rewrite Hitems. cbn [bind]. exact Hw.
  - unfold cells_bytes. rewrite length_app, length_be_encode.
    rewrite Nat2Z.inj_add.
    rewrite (length_concat_fixed (be_encode 2) 2)
      by (intros v; apply length_be_encode).
    rewrite length_cells by exact Hk. unfold items.
    rewrite count_of_fmap. fold M. lia.
  - unfold CIDGlyphMap_read, cells_bytes. rewrite <- app_assoc.
    rewrite readUShort_at by (unfold u16; lia). cbn [bind].
    rewrite (reader_skip pre (be_encode 2 (count_of items)) _ off 2 eq_refl).
    pose proof (Hrw (pre ++ be_encode 2 (count_of items)) (cells items)
                    post off) as E.
    rewrite length_cells in E by exact Hk. rewrite E.
    2:{ apply cells_u16. intros k v Hv. apply Hb in Hv. lia. }
    cbn [bind]. f_equal. f_equal. apply map_eq. intros k.
    rewrite CID_result.
    destruct (M !! k) as [g|] eqn:EM.
    + destruct (HM k g EM) as (Hk' & Hg & Hn).
      assert (Hik : items !! k = Some (gid_of getGlyphID g))
        by (unfold items; rewrite lookup_fmap, EM; reflexivity).
      assert (k < count_of items) by (apply Hlt; eauto).
      destruct (Z.leb_spec 0 k); [|lia].
      rewrite lookup_cells by lia. rewrite Z2Nat.id by lia.
      rewrite Hik. cbn.
      destruct (Z.eqb_spec (gid_of getGlyphID g) 65535); [lia|].
      rewrite Hn. reflexivity.
    + assert (Hik : items !! k = None)
        by (unfold items; rewrite lookup_fmap, EM; reflexivity).
      destruct (Z.leb_spec 0 k); [|reflexivity].
      destruct (Z.lt_ge_cases k (count_of items)).
      * rewrite lookup_cells by lia. rewrite Z2Nat.id by lia.
        rewrite Hik. reflexivity.
      * rewrite lookup_ge_None_2; [reflexivity|].
        pose proof (length_cells items Hk). lia.
Qed.

Lemma CIDGlyphMap_read_write_witness :
  exists its bs reader',
    CIDGlyphMap_write ex_getGlyphID newWriter [(2, "g12"); (0, "g10")]
    = Ok (extend newWriter its) /\
    items_data its = Some bs /\
    Z.of_nat (length bs)
    = 2 + 2 * count_of (list_to_map [(2, "g12"); (0, "g10")]
                        : gmap Z string) /\
    CIDGlyphMap_read ex_readUShortArray ex_getGlyphName
                     (mkReader ([1] ++ bs ++ [2]) 0 (Z.of_nat (length [1])))
    = Ok (list_to_map [(2, "g12"); (0, "g10")], reader').
Proof.
  apply (CIDGlyphMap_read_write ex_readUShortArray ex_getGlyphID
           ex_getGlyphName [(2, "g12"); (0, "g10")] newWriter [1] [2] 0).
  - exact ex_readUShortArray_words.
  - cbn [map fst]. repeat (apply NoDup_cons; split);
      [ |intros Hin; apply elem_of_nil in Hin; exact Hin|apply NoDup_nil_2].
    intros Hin. apply elem_of_cons in Hin.
    destruct Hin as [Hin|Hin]; [discriminate|].
    apply elem_of_nil in Hin. exact Hin.
  - repeat (apply Forall_cons; split); try apply Forall_nil_2;
      (split; [cbn [fst]; lia
              |eexists; split; [reflexivity|]; split; [lia|reflexivity]]).
Defined.

(** *** GlyphCIDMap *)

Lemma kept_cids_elem (value : list (string * option Z)) g c :
  (g, c) ∈ kept_cids value <-> (g, Some c) ∈ value /\ c <> 65535.
Proof.
  unfold kept_cids. rewrite list_elem_of_omap. split.
  - intros ([g' [c'|]] & Hin & Hx); cbn [fst snd] in Hx; [|discriminate].
    destruct (Z.eqb_spec c' 65535) as [E|E]; [discriminate|].
    injection Hx as <- <-. split; assumption.
  - intros [Hin Hc]. exists (g, Some c). split; [exact Hin|].
    cbn [fst snd]. destruct (Z.eqb_spec c 65535); [contradiction|].
    reflexivity.
Qed.

Lemma kept_cids_NoDup (value : list (string * option Z)) :
  NoDup (map fst value) -> NoDup (map fst (kept_cids value)).
Proof.
  induction value as [|[g c] value IH]; intros Hnd; [constructor|].
  cbn [map fst] in Hnd. apply NoDup_cons in Hnd. destruct Hnd as [Hg Hnd].
  specialize (IH Hnd).
  assert (Hg' : g ∉ map fst (kept_cids value)).
  { intros Hin. apply Hg. apply list_elem_of_fmap in Hin.
    destruct Hin as ([g' c'] & -> & Hin). apply kept_cids_elem in Hin.
    destruct Hin as [Hin _]. apply list_elem_of_fmap.
    exists (g', Some c'). split; [reflexivity|exact Hin]. }
  unfold kept_cids in *. cbn [omap list_omap fst snd].
  destruct c as [c|]; [|exact IH].
  destruct (c =? 65535); [exact IH|].
  cbn [map fst]. apply NoDup_cons. split; assumption.
Qed.

Lemma GlyphCID_items getGlyphID (value : list (string * option Z)) :
  forall acc,
    Forall (fun x => exists gid, getGlyphID x.1 = Ok gid) (kept_cids value) ->
    foldM (fun (items : gmap Z Z) '(g, cid) =>
             match cid with
             | Some cid =>
                 if negb (cid =? 0xFFFF)
                 then do gid <- getGlyphID g; Ok (<[gid := cid]> items)
                 else Ok items
             | None => Ok items
             end)
          value acc
    = Ok (foldl (fun m e => <[e.1 := e.2]> m) acc
                (map (fun x => (gid_of getGlyphID x.1, x.2))
                     (kept_cids value))).
Proof.
  induction value as [|[g c] value IH]; intros acc Hf; [reflexivity|].
  unfold kept_cids in *. cbn [omap list_omap fst snd foldM] in *.
  destruct c as [c|]; [|apply IH; exact Hf].
  destruct (c =? 65535); cbn [negb]; [apply IH; exact Hf|].
  apply Forall_cons in Hf. destruct Hf as [[gid Hg] Hf]. cbn [fst] in Hg.
  rewrite Hg. cbn [bind]. rewrite IH by exact Hf.
  cbn [map foldl fst snd]. unfold gid_of at 2. rewrite Hg. reflexivity.
Qed.

(** The loop of [GlyphCIDMap.read] over the cells of the glyphs below
    [n]. *)
Lemma GlyphCID_loop getGlyphID (glyphOrder : list string)
      (items : gmap Z Z) (K : gmap string Z) :
  (forall k c, items !! k = Some c ->
     c <> 65535 /\
     exists g, K !! g = Some c /\ gid_of getGlyphID g = k) ->
  (forall g c, K !! g = Some c ->
     0 <= gid_of getGlyphID g /\
     items !! gid_of getGlyphID g = Some c /\
     glyphOrder !! Z.to_nat (gid_of getGlyphID g) = Some g) ->
  forall n : nat,
    Z.of_nat n <= count_of items ->
    exists R : gmap string Z,
      foldM (fun (result : gmap string Z) glyphID =>
               do '(_, cid) <- list_index (cells items) glyphID;
               if negb (cid =? 0xFFFF)
               then do '(_, glyph) <- list_index glyphOrder glyphID;
                    Ok (<[glyph := cid]> result)
               else Ok result)
            (range (Z.of_nat n)) ∅
      = Ok R /\
      forall g, R !! g = if gid_of getGlyphID g <? Z.of_nat n
                         then K !! g else None.
Proof.
  intros Hitems HK. induction n as [|n IH]; intros Hn.
  - exists ∅. split; [reflexivity|]. intros g. rewrite lookup_empty.
    destruct (gid_of getGlyphID g <? Z.of_nat 0) eqn:E; [|reflexivity].
    apply Z.ltb_lt in E. destruct (K !! g) as [c|] eqn:EK; [|reflexivity].
    apply HK in EK. lia.
  - destruct (IH ltac:(lia)) as (R & ER & HR).
    unfold range in *.
    replace (Z.of_nat (S n)) with (Z.of_nat n + 1) by lia.
    rewrite seqZ_app by lia. rewrite foldM_app, ER. cbn [bind].
    replace (seqZ (0 + Z.of_nat n) 1) with [Z.of_nat n]
      by (cbn; f_equal; lia).
    cbn [foldM].
    rewrite (list_index_nonneg _ _ (default 0xFFFF (items !! Z.of_nat n)))
      by (try lia; rewrite Nat2Z.id; rewrite lookup_cells by lia;
          reflexivity).
    cbn [bind].
    assert (Hsame : forall g, gid_of getGlyphID g <> Z.of_nat n ->
              (gid_of getGlyphID g <? Z.of_nat n + 1)
              = (gid_of getGlyphID g <? Z.of_nat n)).
    { intros g Hg. destruct (Z.ltb_spec (gid_of getGlyphID g) (Z.of_nat n)),
        (Z.ltb_spec (gid_of getGlyphID g) (Z.of_nat n + 1));
        try reflexivity; lia. }
    destruct (items !! Z.of_nat n) as [c|] eqn:En; cbn [from_option id].
    + destruct (Hitems _ _ En) as (Hc & g & Hg & Hgid).
      destruct (HK _ _ Hg) as (_ & _ & Hord). rewrite Hgid in Hord.
      destruct (Z.eqb_spec c 65535); [contradiction|]. cbn [negb].
      rewrite (list_index_nonneg _ _ g) by (try lia; exact Hord).
      cbn [bind]. eexists. split; [reflexivity|]. intros g'.
      destruct (decide (g' = g)) as [->|Hne].
      * rewrite lookup_insert_eq, Hgid.
        replace (Z.of_nat n <? Z.of_nat n + 1) with true
          by (symmetry; apply Z.ltb_lt; lia).
        symmetry. exact Hg.
      * rewrite lookup_insert_ne by (intros E; apply Hne; symmetry; exact E).
        rewrite HR.
        destruct (Z.eq_dec (gid_of getGlyphID g') (Z.of_nat n)) as [E|E];
          [|rewrite Hsame by exact E; reflexivity].
        rewrite E.
        replace (Z.of_nat n <? Z.of_nat n) with false
          by (symmetry; apply Z.ltb_ge; lia).
        replace (Z.of_nat n <? Z.of_nat n + 1) with true
          by (symmetry; apply Z.ltb_lt; lia).
        destruct (K !! g') as [c'|] eqn:EK; [|reflexivity].
        destruct (HK _ _ EK) as (_ & _ & Hord'). rewrite E in Hord'.
        congruence.
    + change (65535 =? 65535) with true. cbn [negb].
      exists R. split; [reflexivity|]. intros g'. rewrite HR.
      destruct (Z.eq_dec (gid_of getGlyphID g') (Z.of_nat n)) as [E|E];
        [|rewrite Hsame by exact E; reflexivity].
      rewrite E.
      replace (Z.of_nat n <? Z.of_nat n) with false
        by (symmetry; apply Z.ltb_ge; lia).
      replace (Z.of_nat n <? Z.of_nat n + 1) with true
        by (symmetry; apply Z.ltb_lt; lia).
      destruct (K !! g') as [c'|] eqn:EK; [|reflexivity].
      destruct (HK _ _ EK) as (_ & Hi & _). rewrite E in Hi. congruence.
Qed.

(** X10.  [GlyphCIDMap]: read after write.  [write] drops the glyphs
    whose CID is [None] or [0xFFFF] without resolving them; for the
    others, 16-bit CIDs of glyphs that the font resolves to their
    positions in the glyph order, [write] succeeds, and from the bytes
    it emits [read] decodes exactly the entries that were kept. *)
Theorem GlyphCIDMap_read_write
        (readUShortArray : Reader -> Z -> result (list Z * Reader))
        (getGlyphID : string -> result Z) (glyphOrder : list string)
        (value : list (string * option Z)) (writer : Writer)
        (pre post : bytes) (off : Z) :
  reads_words readUShortArray ->
  NoDup (map fst value) ->
  Forall (fun x => 0 <= x.2 <= 65535 /\
                   exists gid, getGlyphID x.1 = Ok gid /\
                               0 <= gid < 65535 /\
                               glyphOrder !! Z.to_nat gid = Some x.1)
         (kept_cids value) ->
  exists its bs reader',
    GlyphCIDMap_write getGlyphID writer value = Ok (extend writer its) /\
    items_data its = Some bs /\
    GlyphCIDMap_read readUShortArray glyphOrder
                     (mkReader (pre ++ bs ++ post) off
                               (Z.of_nat (length pre)))
    = Ok (list_to_map (kept_cids value), reader').
Proof.
  intros Hrw Hnd Hval.
  set (kept := kept_cids value) in *.
  set (K := list_to_map kept : gmap string Z).
  set (gid := gid_of getGlyphID).
  set (L := map (fun x : string * Z => (gid x.1, x.2)) kept).
  set (items := foldl (fun m e => <[e.1 := e.2]> m) (∅ : gmap Z Z) L).
  pose proof (kept_cids_NoDup value Hnd) as Hndk. fold kept in Hndk.
  assert (Hkept : forall g c, (g, c) ∈ kept ->
            c <> 65535 /\ 0 <= c <= 65535 /\ 0 <= gid g < 65535 /\
            glyphOrder !! Z.to_nat (gid g) = Some g).
  { intros g c Hin. split.
    - apply kept_cids_elem in Hin. tauto.
    - rewrite Forall_forall in Hval.
      destruct (Hval _ Hin) as (Hc & gid0 & Hg & Hgid & Hord).
      cbn [fst snd] in *. unfold gid, gid_of. rewrite Hg. tauto. }
  assert (HKin : forall g c, K !! g = Some c <-> (g, c) ∈ kept).
  { intros g c. unfold K. symmetry. apply elem_of_list_to_map.
    exact Hndk. }
  assert (HndL : NoDup (map fst L)).
  { unfold L. rewrite map_map. cbn [fst].
    apply NoDup_fmap_2_strong; [|eapply NoDup_fmap_1; exact Hndk].
    intros [g1 c1] [g2 c2] H1 H2 E. cbn [fst] in E.
    pose proof (Hkept _ _ H1) as (_ & _ & _ & O1).
    pose proof (Hkept _ _ H2) as (_ & _ & _ & O2).
    rewrite E in O1. assert (g1 = g2) by congruence. subst g2.
    apply HKin in H1, H2. congruence. }
  assert (HLin : forall k c, items !! k = Some c <->
                             exists g, (g, c) ∈ kept /\ gid g = k).
  { intros k c. unfold items. rewrite foldl_insert_list.
    rewrite <- elem_of_list_to_map
      by (rewrite reverse_Permutation; exact HndL).
    rewrite elem_of_reverse. unfold L. rewrite list_elem_of_fmap. split.
    - intros ([g c'] & E & Hin). cbn [fst snd] in E.
      injection E as -> ->. exists g. split; [exact Hin|reflexivity].
    - intros (g & Hin & <-). exists (g, c). split; [reflexivity|exact Hin]. }
  assert (Hitems :
            foldM (fun (items : gmap Z Z) '(g, cid) =>
                     match cid with
                     | Some cid =>
                         if negb (cid =? 0xFFFF)
                         then do gid <- getGlyphID g;
                              Ok (<[gid := cid]> items)
                         else Ok items
                     | None => Ok items
                     end)
                  value ∅ = Ok items).
  { rewrite GlyphCID_items; [reflexivity|].
    eapply Forall_impl; [exact Hval|]. cbv beta.
    intros x (_ & gid0 & Hg & _). eauto. }
  assert (Hb : forall k v, items !! k = Some v ->
                 0 <= k < 65535 /\ 0 <= v <= 65535).
  { intros k v Hk. apply HLin in Hk. destruct Hk as (g & Hin & <-).
    apply Hkept in Hin. tauto. }
  assert (Hk : forall k, is_Some (items !! k) -> 0 <= k).
  { intros k [v Hv]. apply Hb in Hv. lia. }
  destruct (count_of_spec items Hk) as (H0 & Hlt & Hc).
  assert (Hcount : 0 <= count_of items <= 65535).
  { destruct Hc as [->|[v Hv]]; [lia|]. apply Hb in Hv. lia. }
  assert (Hord : count_of items <= Z.of_nat (length glyphOrder)).
  { destruct Hc as [->|[v Hv]]; [lia|].
    apply HLin in Hv. destruct Hv as (g & Hin & Hg).
    apply Hkept in Hin. destruct Hin as (_ & _ & _ & Ho).
    apply lookup_lt_Some in Ho. rewrite Hg in Ho. lia. }
  destruct (writes_cells items Hb writer) as (its & Hw & Hd).
  destruct (GlyphCID_loop getGlyphID glyphOrder items K)
    with (n := Z.to_nat (count_of items)) as (R & ER & HR).
  { intros k c Hkc. apply HLin in Hkc. destruct Hkc as (g & Hin & Hg).
    split; [apply Hkept in Hin; tauto|].
    exists g. split; [apply HKin; exact Hin|exact Hg]. }
  { intros g c Hg. apply HKin in Hg. pose proof (Hkept _ _ Hg) as Hg'.
    fold gid. split; [lia|]. split; [|tauto]. apply HLin. eauto. }
  { lia. }
  rewrite Z2Nat.id in ER, HR by lia.
  exists its, (cells_bytes items). eexists.
  split; [|split; [exact Hd|]].
  - unfold GlyphCIDMap_write. rewrite Hitems. cbn [bind]. exact Hw.
  - unfold GlyphCIDMap_read, cells_bytes. rewrite <- app_assoc.
    rewrite readUShort_at by (unfold u16; lia). cbn [bind].
    rewrite (reader_skip pre (be_encode 2 (count_of items)) _ off 2 eq_refl).
    pose proof (Hrw (pre ++ be_encode 2 (count_of items)) (cells items)
                    post off) as E.
    rewrite length_cells in E by exact Hk. rewrite E.
    2:{ apply cells_u16. intros k v Hv. apply Hb in Hv. lia. }
    cbn [bind]. rewrite length_cells by exact Hk.
    rewrite Z.min_l by exact Hord. rewrite ER. cbn [bind].
    f_equal. f_equal. apply map_eq. intros g. rewrite HR.
    destruct (K !! g) as [c|] eqn:EK;
      [|destruct (gid_of getGlyphID g <? count_of items); reflexivity].
    apply HKin in EK.
    assert (is_Some (items !! gid g)) as Hs by (eexists; apply HLin; eauto).
    apply Hlt in Hs. fold gid.
    replace (gid g <? count_of items) with true
      by (symmetry; apply Z.ltb_lt; exact Hs).
    reflexivity.
Qed.

Lemma GlyphCIDMap_read_write_witness :
  exists its bs reader',
    GlyphCIDMap_write ex_getGlyphID newWriter
      [("g12", Some 7); ("g10", None); ("g11", Some 65535); ("g13", Some 1)]
    = Ok (extend newWriter its) /\
    items_data its = Some bs /\
    GlyphCIDMap_read ex_readUShortArray ex_glyphOrder
                     (mkReader ([1] ++ bs ++ [2]) 0 (Z.of_nat (length [1])))
    = Ok (list_to_map [("g12", 7); ("g13", 1)], reader').
Proof.
  apply (GlyphCIDMap_read_write ex_readUShortArray ex_getGlyphID
           ex_glyphOrder
           [("g12", Some 7); ("g10", None); ("g11", Some 65535);
            ("g13", Some 1)] newWriter [1] [2] 0).
  - exact ex_readUShortArray_words.
  - cbn [map fst]. repeat (apply NoDup_cons; split);
      try apply NoDup_nil_2;
      intros Hin; repeat (apply elem_of_cons in Hin;
                          destruct Hin as [Hin|Hin]; [discriminate|]);
      apply elem_of_nil in Hin; exact Hin.
  - change (kept_cids [("g12", Some 7); ("g10", None); ("g11", Some 65535);
                       ("g13", Some 1)])
      with [("g12", 7); ("g13", 1)].
    repeat (apply Forall_cons; split); try apply Forall_nil_2;
      (split; [cbn [snd]; lia
              |eexists; split; [reflexivity|]; split; [lia|reflexivity]]).
Defined.

(** ** Char64: 64 bytes, and what comes back *)

Lemma find_until_nul (data : bytes) :
  (if 0 <=? find data 0 then take (Z.to_nat (find data 0)) data else data)
  = until_nul data /\ -1 <= find data 0.
Proof.
  induction data as [|x data [IH Hf]]; [split; [reflexivity|cbn; lia]|].
  cbn [find until_nul]. destruct (Z.eqb_spec x 0) as [E|E].
  - split; [reflexivity|lia].
  - cbv zeta. destruct (Z.ltb_spec (find data 0) 0) as [Hlt|Hge].
    + split; [|lia]. cbn. f_equal. rewrite <- IH.
      destruct (Z.leb_spec 0 (find data 0)); [lia|reflexivity].
    + split; [|lia].
      destruct (Z.leb_spec 0 (find data 0 + 1)); [|lia].
      replace (Z.to_nat (find data 0 + 1)) with (S (Z.to_nat (find data 0)))
        by lia.
      cbn [take]. f_equal. rewrite <- IH.
      destruct (Z.leb_spec 0 (find data 0)); [reflexivity|lia].
Qed.

Lemma until_nul_zeros n : until_nul (replicate n 0) = [].
Proof. destruct n; reflexivity. Qed.

Lemma until_nul_padded (data : bytes) : forall n m,
  until_nul (take n (data ++ replicate m 0)) = until_nul (take n data).
Proof.
  induction data as [|x data IH]; intros n m.
  - cbn [app]. rewrite take_nil. rewrite take_replicate.
    apply until_nul_zeros.
  - destruct n as [|n]; [reflexivity|]. cbn [app take until_nul].
    destruct (x =? 0); [reflexivity|]. f_equal. apply IH.
Qed.

Lemma until_nul_id (data : bytes) :
  Forall (fun c => c <> 0) data -> until_nul data = data.
Proof.
  induction 1 as [|x data Hx Hd IH]; [reflexivity|].
  cbn [until_nul]. destruct (Z.eqb_spec x 0); [contradiction|].
  rewrite IH. reflexivity.
Qed.

Lemma until_nul_ascii (data : bytes) :
  Forall (fun c => c < 128) data -> Forall (fun c => c < 128) (until_nul data).
Proof.
  induction 1 as [|x data Hx Hd IH]; [constructor|].
  cbn [until_nul]. destruct (x =? 0); constructor; assumption.
Qed.

(** X11.  [Char64]: [write] never fails and emits exactly 64 bytes for
    any string; [read] returns from them the string that [tobytes]
    makes of the value, cut to 64 characters and at its first NUL.  So
    a string of at most 64 ASCII characters other than NUL comes back
    as it was, and any other string comes back changed. *)
Theorem Char64_read_write
        (replacement_byte replacement_char : Z) (value : list Z)
        (writer : Writer) (pre post : bytes) (off : Z) :
  0 <= replacement_byte < 128 ->
  Char64_write replacement_byte writer value
  = Ok (extend writer [IData (Char64_bytes replacement_byte value)]) /\
  length (Char64_bytes replacement_byte value) = 64%nat /\
  Char64_read replacement_char
    (mkReader (pre ++ Char64_bytes replacement_byte value ++ post) off
              (Z.of_nat (length pre)))
  = Ok (until_nul (take 64 (tobytes replacement_byte value)),
        mkReader (pre ++ Char64_bytes replacement_byte value ++ post) off
                 (Z.of_nat (length pre) + 64)) /\
  (until_nul (take 64 (tobytes replacement_byte value)) = value <->
   (length value <= 64)%nat /\ Forall (fun c => c <> 0 /\ c < 128) value).
Proof.
  intros Hrep.
  assert (Hlen : length (Char64_bytes replacement_byte value) = 64%nat).
  { unfold Char64_bytes. rewrite length_take, length_app, length_replicate.
    lia. }
  assert (Hascii : Forall (fun c => c < 128) (tobytes replacement_byte value)).
  { unfold tobytes. apply Forall_forall. intros c Hc.
    apply list_elem_of_fmap in Hc. destruct Hc as (x & -> & _).
    destruct (Z.ltb_spec x 128); lia. }
  assert (Hcut : Forall (fun c => c < 128)
                   (until_nul (take 64 (tobytes replacement_byte value)))).
  { apply until_nul_ascii. apply Forall_take. exact Hascii. }
  split; [reflexivity|]. split; [exact Hlen|]. split.
  - unfold Char64_read, Char64_staticSize.
    pose proof (readData_at pre (Char64_bytes replacement_byte value)
                            post off) as E.
    rewrite Hlen in E. change (Z.of_nat 64) with 64 in E. rewrite E.
    cbn [bind]. cbv zeta.
    destruct (find_until_nul (Char64_bytes replacement_byte value))
      as [-> _].
    unfold Char64_bytes at 1. rewrite until_nul_padded.
    f_equal. f_equal. unfold tounicode.
    induction Hcut as [|x l Hx Hl IH]; [reflexivity|].
    cbn [map]. destruct (Z.ltb_spec x 128); [|lia]. rewrite IH.
    reflexivity.
  - split.
    + intros E.
      assert (Hl : (length value <= 64)%nat).
      { rewrite <- E at 1.
        assert (G : forall d, (length (until_nul d) <= length d)%nat).
        { induction d as [|x d IHd]; [reflexivity|]. cbn [until_nul].
          destruct (x =? 0); cbn [length]; lia. }
        etransitivity; [apply G|]. rewrite length_take. lia. }
      split; [exact Hl|].
      assert (Hnz : forall d, Forall (fun c => c <> 0) (until_nul d)).
      { induction d as [|x d IHd]; [constructor|]. cbn [until_nul].
        destruct (Z.eqb_spec x 0); constructor; assumption. }
      rewrite <- E. apply Forall_forall. intros c Hc. split.
      * pose proof (Hnz (take 64 (tobytes replacement_byte value))) as H.
        rewrite Forall_forall in H. apply H. exact Hc.
      * rewrite Forall_forall in Hcut. apply Hcut. exact Hc.
    + intros [Hl Hv].
      assert (Hid : tobytes replacement_byte value = value).
      { unfold tobytes. clear -Hv.
        induction Hv as [|x l [_ Hx] Hv IH]; [reflexivity|].
        cbn [map]. destruct (Z.ltb_spec x 128); [|lia]. rewrite IH.
        reflexivity. }
      rewrite Hid. rewrite take_ge by lia. apply until_nul_id.
      eapply Forall_impl; [exact Hv|]. cbv beta. tauto.
Qed.

Lemma Char64_read_write_witness :
  Char64_write 63 newWriter [72; 233; 105]
  = Ok (extend newWriter [IData (Char64_bytes 63 [72; 233; 105])]) /\
  length (Char64_bytes 63 [72; 233; 105]) = 64%nat /\
  Char64_read 65533
    (mkReader ([7] ++ Char64_bytes 63 [72; 233; 105] ++ [9]) 0
              (Z.of_nat (length [7])))
  = Ok (until_nul (take 64 (tobytes 63 [72; 233; 105])),
        mkReader ([7] ++ Char64_bytes 63 [72; 233; 105] ++ [9]) 0
                 (Z.of_nat (length [7]) + 64)) /\
  (until_nul (take 64 (tobytes 63 [72; 233; 105])) = [72; 233; 105] <->
   (length [72; 233; 105] <= 64)%nat /\
   Forall (fun c => c <> 0 /\ c < 128) [72; 233; 105]).
Proof.
  apply (Char64_read_write 63 65533 [72; 233; 105] newWriter [7] [9] 0).
  lia.
Defined.

(** ** StructWithLength.write: what it does not accept *)

Lemma last_cons_default {A} (l : list A) : forall a d,
  List.last (a :: l) d = List.last l a.
Proof.
  induction l as [|b l IH]; intros a d; [reflexivity|].
  change (List.last (a :: b :: l) d) with (List.last (b :: l) d).
  rewrite (IH b d), (IH b a). reflexivity.
Qed.

Lemma StructLength_loop_none (convs : list Converter) : forall i last,
  Forall (fun c => c_name c <> "StructLength") convs ->
  StructLength_loop i convs last
  = match convs with
    | [] => last
    | c :: rest => Some ((i + length rest)%nat, List.last rest c)
    end.
Proof.
  induction convs as [|c convs IH]; intros i last Hn; [reflexivity|].
  apply Forall_cons in Hn. destruct Hn as [Hc Hn].
  cbn [StructLength_loop].
  destruct (String.eqb_spec (c_name c) "StructLength"); [contradiction|].
  rewrite IH by exact Hn. destruct convs as [|c' convs'].
  - cbn. do 2 f_equal. lia.
  - rewrite last_cons_default. cbn [length]. do 2 f_equal. lia.
Qed.

(** X12.  [StructWithLength.write] at its edges.  A struct whose body
    does not fit the width of its length field makes the converter of
    the field raise, so that no truncated length is ever written.  A
    length field of another width than 1, 2 or 4 bytes has no
    placeholder: [write] raises before the struct is compiled.  And
    when no field is named [StructLength], the loop that looks for it
    ends on the last field, which is then taken for the length field;
    only a struct without fields raises there. *)
Theorem StructWithLength_write_edges
        (layout : list item -> bytes) (getConverters : list Converter)
        (isFormatSwitching : bool) (compile : Z -> Writer -> result Writer)
        (writer : Writer) :
  (forall writer' convIndex n conv,
     StructLength_loop 0 getConverters None = Some (convIndex, conv) ->
     length_field conv n ->
     compile (be_decode (deadbeef_bytes (Z.of_nat n))) writer = Ok writer' ->
     256 ^ Z.of_nat n <= getDataLength writer' - getDataLength writer ->
     StructWithLength_write layout getConverters isFormatSwitching compile
                            writer
     = Raise StructError) /\
  (forall convIndex conv size,
     StructLength_loop 0 getConverters None = Some (convIndex, conv) ->
     c_staticSize conv = Some size ->
     size <> 1 -> size <> 2 -> size <> 4 ->
     StructWithLength_write layout getConverters isFormatSwitching compile
                            writer
     = Raise KeyError) /\
  (Forall (fun c => c_name c <> "StructLength") getConverters ->
   match getConverters with
   | [] =>
       StructWithLength_write layout getConverters isFormatSwitching
                              compile writer
       = Raise NameError
   | c :: rest =>
       StructLength_loop 0 getConverters None
       = Some (length rest, List.last rest c)
   end).
Proof.
  split; [|split].
  - intros writer' convIndex n conv Hloop Hfield Hcompile Hbig.
    exact (StructWithLength_write_too_long layout getConverters
             isFormatSwitching compile writer writer' convIndex n conv
             Hloop Hfield Hcompile Hbig).
  - intros convIndex conv size Hloop Hsize H1 H2 H4.
    unfold StructWithLength_write. rewrite Hloop. cbn [bind].
    rewrite Hsize. cbn [bind]. unfold deadbeef_of.
    destruct (Z.eqb_spec size 1); [contradiction|].
    destruct (Z.eqb_spec size 2); [contradiction|].
    destruct (Z.eqb_spec size 4); [contradiction|].
    reflexivity.
  - intros Hn. destruct getConverters as [|c rest] eqn:E.
    + reflexivity.
    + rewrite (StructLength_loop_none _ 0 None Hn). reflexivity.
Qed.

Lemma StructWithLength_write_edges_witness :
  StructWithLength_write (fun _ => []) [UShort "Flags"; UInt24 "StructLength"]
                         false ex_struct_compile newWriter
  = Raise KeyError /\
  StructLength_loop 0 [UShort "Flags"; UInt8 "Length"] None
  = Some (1%nat, UInt8 "Length").
Proof.
  destruct (StructWithLength_write_edges
              (fun _ => []) [UShort "Flags"; UInt24 "StructLength"] false
              ex_struct_compile newWriter) as (_ & Hkey & _).
  destruct (StructWithLength_write_edges
              (fun _ => []) [UShort "Flags"; UInt8 "Length"] false
              ex_struct_compile newWriter) as (_ & _ & Hlast).
  split.
  - apply (Hkey 1%nat (UInt24 "StructLength") 3);
      [reflexivity | reflexivity | lia | lia | lia].
  - apply Hlast. repeat (apply Forall_cons; split);
      [discriminate | discriminate | apply Forall_nil_2].
Defined.

(** ** STXHeader.write: the offsets of the header *)

Lemma length_pad4 (data : bytes) : Z.of_nat (length (pad data 4)) mod 4 = 0.
Proof.
  unfold pad. change (1 <? 4) with true. cbv iota zeta.
  destruct (Z.eqb_spec (Z.of_nat (length data) mod 4) 0) as [E|E];
    [exact E|].
  pose proof (Z.mod_pos_bound (Z.of_nat (length data)) 4 ltac:(lia)) as Hr.
  pose proof (Z.div_mod (Z.of_nat (length data)) 4 ltac:(lia)) as Hd.
  rewrite length_app, length_replicate, Nat2Z.inj_add, Z2Nat.id by lia.
  replace (Z.of_nat (length data) + (4 - Z.of_nat (length data) mod 4))
    with ((Z.of_nat (length data) / 4 + 1) * 4) by lia.
  apply Z_mod_mult.
Qed.

(** X13.  What [STXHeader.write] emits when it succeeds: the class
    count, which is the largest class plus one; three offsets, and a
    fourth when the actions have per-glyph lookups; and the four
    sections, each padded to a multiple of four bytes.  The offset of
    the class table is the size of the header, 16 or 20 bytes, and each
    further offset is the one before plus the size of the section
    before: every offset is the distance from the start of the
    structure to the section it names, and a multiple of four. *)
Theorem STXHeader_write_offsets
        (Action : Type) (compile_action : Action -> result bytes)
        (staticSize : Action -> Z) (contextual : Action -> option (Z * Z))
        (getGlyphID : string -> result Z) (numGlyphs : Z)
        (layout : list item -> bytes) (hasPerGlyphLookup : bool)
        (value : AATStateTable Action) (writer writer' : Writer) :
  STXHeader_write Action compile_action staticSize contextual getGlyphID
                  numGlyphs layout hasPerGlyphLookup writer value
  = Ok writer' ->
  exists count classData stateData entryData perGlyphData,
    let classOffset := if hasPerGlyphLookup then 20 else 16 in
    let stateOffset := classOffset + Z.of_nat (length classData) in
    let entryOffset := stateOffset + Z.of_nat (length stateData) in
    let perGlyphOffset := entryOffset + Z.of_nat (length entryData) in
    max_values (GlyphClasses value) = Ok (count - 1) /\
    w_items writer'
    = w_items writer
      ++ [IData (be_encode 4 count); IData (be_encode 4 classOffset);
          IData (be_encode 4 stateOffset); IData (be_encode 4 entryOffset)]
      ++ (if hasPerGlyphLookup then [IData (be_encode 4 perGlyphOffset)]
          else [])
      ++ [IData classData; IData stateData; IData entryData;
          IData perGlyphData] /\
    Forall (fun section => Z.of_nat (length section) mod 4 = 0)
           [classData; stateData; entryData; perGlyphData] /\
    Forall (fun offset => offset mod 4 = 0)
           [classOffset; stateOffset; entryOffset; perGlyphOffset] /\
    getDataLength writer' - getDataLength writer
    = perGlyphOffset + Z.of_nat (length perGlyphData).
Proof.
  intros Hw. unfold STXHeader_write in Hw.
  apply bind_ok in Hw. destruct Hw as (gcw & _ & Hw).
  apply bind_ok in Hw. destruct Hw as (maxClass & Hmax & Hw).
  apply bind_ok in Hw. destruct Hw as ([[entries entryIDs] saw] & _ & Hw).
  apply bind_ok in Hw. destruct Hw as (pg & _ & Hw).
  apply bind_ok in Hw. destruct Hw as (w1 & E1 & Hw).
  apply bind_ok in Hw. destruct Hw as (w2 & E2 & Hw).
  apply bind_ok in Hw. destruct Hw as (w3 & E3 & Hw).
  apply bind_ok in Hw. destruct Hw as (w4 & E4 & Hw).
  apply bind_ok in Hw. destruct Hw as (w5 & E5 & Hw).
  injection Hw as <-.
  apply writeU_inv in E1, E2, E3, E4. subst w1 w2 w3 w4.
  exists (maxClass + 1), (pad (getAllData layout gcw) 4),
         (pad (getAllData layout saw) 4), (pad (concat entries) 4),
         (pad pg 4).
  cbv zeta.
  pose proof (length_pad4 (getAllData layout gcw)) as P1.
  pose proof (length_pad4 (getAllData layout saw)) as P2.
  pose proof (length_pad4 (concat entries)) as P3.
  pose proof (length_pad4 pg) as P4.
  remember (pad (getAllData layout gcw) 4) as c eqn:Ec. clear Ec.
  remember (pad (getAllData layout saw) 4) as s eqn:Es. clear Es.
  remember (pad (concat entries) 4) as e eqn:Ee. clear Ee.
  remember (pad pg 4) as p eqn:Ep. clear Ep.
  split; [rewrite Hmax; f_equal; lia|].
  assert (Hoff : forall a b, a mod 4 = 0 -> b mod 4 = 0 -> (a + b) mod 4 = 0).
  { intros a b Ha Hb. rewrite Z.add_mod, Ha, Hb by lia. reflexivity. }
  assert (Hc : (if hasPerGlyphLookup then 20 else 16) mod 4 = 0)
    by (destruct hasPerGlyphLookup; reflexivity).
  split; [|split; [|split]].
  - destruct hasPerGlyphLookup.
    + apply writeU_inv in E5. subst w5.
      unfold writeData, w_append. rewrite !extend_extend.
      cbn [w_items extend app]. reflexivity.
    + injection E5 as <-.
      unfold writeData, w_append. rewrite !extend_extend.
      cbn [w_items extend app]. reflexivity.
  - repeat constructor; assumption.
  - repeat constructor; auto.
  - unfold getDataLength.
    destruct hasPerGlyphLookup.
    + apply writeU_inv in E5. subst w5.
      unfold writeData, w_append. rewrite !extend_extend.
      cbn [w_items extend]. rewrite items_length_app.
      cbn [items_length fold_right item_length app].
      repeat match goal with
             | |- context [length (be_encode ?n ?v)] =>
                 rewrite (length_be_encode n v)
             end.
      cbn [length]. lia.
    + injection E5 as <-.
      unfold writeData, w_append. rewrite !extend_extend.
      cbn [w_items extend]. rewrite items_length_app.
      cbn [items_length fold_right item_length app].
      repeat match goal with
             | |- context [length (be_encode ?n ?v)] =>
                 rewrite (length_be_encode n v)
             end.
      cbn [length]. lia.
Qed.

Lemma STXHeader_write_offsets_witness :
  exists writer' classData stateData entryData,
    STXHeader_write ex_Action ex_compile ex_staticSize ex_contextual
                    ex_getGlyphID 20 (fun _ => []) false newWriter
                    (ex_table [])
    = Ok writer' /\
    w_items writer'
    = [IData (be_encode 4 2); IData (be_encode 4 16);
       IData (be_encode 4 (16 + Z.of_nat (length classData)));
       IData (be_encode 4 (16 + Z.of_nat (length classData)
                           + Z.of_nat (length stateData)));
       IData classData; IData stateData; IData entryData; IData []] /\
    Forall (fun section => Z.of_nat (length section) mod 4 = 0)
           [classData; stateData; entryData].
Proof.
  destruct (STXHeader_write ex_Action ex_compile ex_staticSize
              ex_contextual ex_getGlyphID 20 (fun _ => []) false newWriter
              (ex_table [])) as [writer'|err] eqn:E;
    [|vm_compute in E; discriminate].
  pose proof (STXHeader_write_offsets _ _ _ _ _ _ _ _ _ _ _ E)
    as (count & c & s & e & p & Hmax & Hitems & Hsec & _ & _).
  cbv zeta in Hitems. cbn [app w_items newWriter] in Hitems.
  injection Hmax as Hcount.
  assert (count = 2) by lia. subst count.
  exists writer', c, s, e. split; [reflexivity|].
  assert (Hp : p = []).
  { assert (Hw : exists w, Ok writer' = Ok w /\
                           last (w_items w) = Some (IData [])).
    { rewrite <- E. vm_compute. eexists. split; reflexivity. }
    destruct Hw as (w & Ew & Hl). injection Ew as <-.
    rewrite Hitems in Hl. cbn in Hl. congruence. }
  subst p. split; [exact Hitems|].
  apply Forall_cons in Hsec. destruct Hsec as [H1 Hsec].
  apply Forall_cons in Hsec. destruct Hsec as [H2 Hsec].
  apply Forall_cons in Hsec. destruct Hsec as [H3 _].
  repeat constructor; assumption.
Defined.

(** ** AATLookupWithDataOffset.write: one copy of each compiled table *)

Lemma located_app table offset data more :
  located table offset data -> located (table ++ more) offset data.
Proof.
  intros (pre & post & -> & Hlen). exists pre, (post ++ more).
  split; [|exact Hlen]. rewrite <- !app_assoc. reflexivity.
Qed.

Section DataOffsetsLoop.
Variable T : Type.
Variable compile_table : T -> result bytes.

Local Abbreviation data_inv := (data_inv T compile_table).
Local Abbreviation data_step := (data_step T compile_table).

Lemma data_inv_init : data_inv [] ([], ∅, 0, []).
Proof.
  split; [reflexivity|]. split; [constructor|]. split; [|split].
  - intros data offset Hd. rewrite lookup_empty in Hd. discriminate.
  - intros data Hin. apply elem_of_nil in Hin. contradiction.
  - constructor.
Qed.

Lemma data_inv_step done acc x data :
  data_inv done acc -> compile_table x.2.2 = Ok data ->
  exists acc', data_step acc x = Ok acc' /\ data_inv (done ++ [x]) acc'.
Proof.
  destruct acc as [[[obg obd] dataLen] cd]. destruct x as [gid [glyph t]].
  intros (Hlen & Hnd & Hloc & Hmem & Hoff) Hc. cbn [fst snd] in Hc.
  unfold data_step. rewrite Hc. cbn [bind].
  destruct (obd !! data) as [offset|] eqn:E.
  - eexists. split; [reflexivity|].
    split; [exact Hlen|]. split; [exact Hnd|]. split; [exact Hloc|].
    split.
    { intros d Hd. destruct (Hmem d Hd) as [Hs (y & Hy & Hyd)].
      split; [exact Hs|]. exists y. split; [|exact Hyd].
      apply elem_of_app. left. exact Hy. }
    apply Forall2_app; [exact Hoff|]. constructor; [|constructor].
    cbn [fst snd]. split; [reflexivity|]. exists data. split; assumption.
  - eexists. split; [reflexivity|].
    assert (Hnew : data ∉ cd).
    { intros Hin. apply Hmem in Hin. rewrite E in Hin.
      destruct Hin as [[? Hin] _]. discriminate. }
    split; [|split; [|split; [|split]]].
    + rewrite concat_app, length_app. cbn [concat].
      rewrite app_nil_r. lia.
    + apply NoDup_app. split; [exact Hnd|]. split.
      * intros d Hd Hd'. apply list_elem_of_singleton in Hd'. subst d.
        contradiction.
      * apply NoDup_singleton.
    + intros d o Hd. rewrite concat_app. cbn [concat]. rewrite app_nil_r.
      destruct (decide (d = data)) as [->|Hne].
      * rewrite lookup_insert_eq in Hd. injection Hd as <-. split.
        -- apply elem_of_app. right. apply list_elem_of_singleton.
           reflexivity.
        -- exists (concat cd), []. rewrite app_nil_r.
           split; [reflexivity|]. symmetry. exact Hlen.
      * rewrite lookup_insert_ne in Hd by (intros Eq; apply Hne; symmetry; exact Eq).
        destruct (Hloc _ _ Hd) as [Hin Hl]. split.
        -- apply elem_of_app. left. exact Hin.
        -- apply located_app. exact Hl.
    + intros d Hd. apply elem_of_app in Hd. destruct Hd as [Hd|Hd].
      * destruct (decide (d = data)) as [->|Hne]; [contradiction|].
        rewrite lookup_insert_ne by (intros Eq; apply Hne; symmetry; exact Eq).
        destruct (Hmem d Hd) as [Hs (y & Hy & Hyd)].
        split; [exact Hs|]. exists y. split; [|exact Hyd].
        apply elem_of_app. left. exact Hy.
      * apply list_elem_of_singleton in Hd. subst d.
        rewrite lookup_insert_eq. split; [eauto|].
        exists (gid, (glyph, t)). split; [|exact Hc].
        apply elem_of_app. right. apply list_elem_of_singleton.
        reflexivity.
    + apply Forall2_app.
      * eapply Forall2_impl; [exact Hoff|]. cbv beta.
        intros o y (Ho & d & Hd & Hod). split; [exact Ho|].
        exists d. split; [exact Hd|].
        rewrite lookup_insert_ne; [exact Hod|].
        intros ->. rewrite E in Hod. discriminate.
      * constructor; [|constructor]. cbn [fst snd].
        split; [reflexivity|]. exists data. split; [exact Hc|].
        apply lookup_insert_eq.
Qed.

Lemma data_loop (todo : list (Z * (string * T))) : forall done acc,
  data_inv done acc ->
  Forall (fun x => exists data, compile_table x.2.2 = Ok data) todo ->
  exists acc', foldM data_step todo acc = Ok acc' /\
               data_inv (done ++ todo) acc'.
Proof.
  induction todo as [|x todo IH]; intros done acc Hinv Hc.
  - exists acc. rewrite app_nil_r. split; [reflexivity|exact Hinv].
  - apply Forall_cons in Hc. destruct Hc as [[data Hd] Hc].
    destruct (data_inv_step done acc x data Hinv Hd) as (acc1 & E1 & Hinv1).
    destruct (IH (done ++ [x]) acc1 Hinv1 Hc) as (acc' & E & Hinv').
    exists acc'. cbn [foldM]. rewrite E1. cbn [bind].
    split; [exact E|]. rewrite <- app_assoc in Hinv'. exact Hinv'.
Qed.
End DataOffsetsLoop.

(** *** AATLookup.write only appends *)

Lemma extends_bind f g :
  extends_only f -> extends_only g ->
  extends_only (fun w => bind (f w) g).
Proof.
  intros Hf Hg w w' H. apply bind_ok in H. destruct H as (w1 & H1 & H2).
  apply Hf in H1. destruct H1 as [i1 ->].
  apply Hg in H2. destruct H2 as [i2 ->].
  exists (i1 ++ i2). apply extend_extend.
Qed.

Lemma extends_writeU n v : extends_only (fun w => writeU n w v).
Proof. intros w w' H. apply writeU_inv in H. eauto. Qed.

Lemma extends_data bs : extends_only (fun w => Ok (writeData w bs)).
Proof. intros w w' H. injection H as <-. eexists. reflexivity. Qed.

Lemma extends_foldM {A} (f : Writer -> A -> result Writer) (l : list A) :
  (forall x, extends_only (fun w => f w x)) ->
  extends_only (fun w => foldM f l w).
Proof.
  intros Hf. induction l as [|x l IH].
  - intros w w' H. injection H as <-. exists []. symmetry.
    apply extend_nil.
  - exact (extends_bind (fun w => f w x) (fun w => foldM f l w) (Hf x) IH).
Qed.

Lemma extends_header n u :
  extends_only (fun w => writeBinSearchHeader w n u).
Proof.
  unfold writeBinSearchHeader.
  destruct (getSearchRange n u) as [[sr es] rs].
  apply (extends_bind (fun w => writeUShort w u)); [apply extends_writeU|].
  apply (extends_bind (fun w => writeUShort w n)); [apply extends_writeU|].
  apply (extends_bind (fun w => writeUShort w sr)); [apply extends_writeU|].
  apply (extends_bind (fun w => writeUShort w es)); [apply extends_writeU|].
  apply extends_writeU.
Qed.

Section AATLookupExtends.
Context {Val : Type} `{EqDecision Val}.
Variable val_le : Val -> Val -> Prop.
Context {val_le_dec : forall x y, Decision (val_le x y)}.
Variable valueSize : Z.
Variable conv_write : Writer -> Val -> result Writer.
Variable getGlyphID : string -> result Z.
Variable numGlyphs : Z.

Hypothesis conv_extends : forall v, extends_only (fun w => conv_write w v).

Lemma values_extend (values : list (Z * Val)) :
  extends_only (fun w => foldM (fun writer '(_, value) =>
                                  conv_write writer value) values w).
Proof. apply extends_foldM. intros [g v]. apply conv_extends. Qed.

Lemma writeFormat0_extends values :
  extends_only (fun w => writeFormat0 conv_write w values).
Proof.
  unfold writeFormat0.
  apply (extends_bind (fun w => writeUShort w 0)); [apply extends_writeU|].
  apply values_extend.
Qed.

Lemma writeFormat8_extends values :
  extends_only (fun w => writeFormat8 conv_write w values).
Proof.
  unfold writeFormat8. destruct values as [|[first v0] rest];
    [intros w w' H; discriminate|].
  apply (extends_bind (fun w => writeUShort w 8)); [apply extends_writeU|].
  apply (extends_bind (fun w => writeUShort w first));
    [apply extends_writeU|].
  apply (extends_bind
           (fun w => writeUShort w (Z.of_nat (length ((first, v0) :: rest)))));
    [apply extends_writeU|].
  apply values_extend.
Qed.

Lemma writeFormat6_extends values :
  extends_only (fun w => writeFormat6 valueSize conv_write w values).
Proof.
  unfold writeFormat6. cbv zeta.
  apply (extends_bind (fun w => writeUShort w 6)); [apply extends_writeU|].
  apply (extends_bind
           (fun w => writeBinSearchHeader w (Z.of_nat (length values))
                                          (valueSize + 2)));
    [apply extends_header|].
  apply (extends_bind
           (fun w => foldM (fun writer '(glyphID, value) =>
                              bind (writeUShort writer glyphID)
                                   (fun writer => conv_write writer value))
                           values w)).
  { apply extends_foldM. intros [g v].
    apply (extends_bind (fun w => writeUShort w g));
      [apply extends_writeU|apply conv_extends]. }
  apply (extends_bind (fun w => writeUShort w 0xFFFF));
    [apply extends_writeU|].
  apply extends_data.
Qed.

Lemma writeFormat2_extends segments :
  extends_only (fun w => writeFormat2 valueSize conv_write w segments).
Proof.
  unfold writeFormat2. cbv zeta.
  apply (extends_bind (fun w => writeUShort w 2)); [apply extends_writeU|].
  apply (extends_bind
           (fun w => writeBinSearchHeader w (Z.of_nat (length segments))
                                          (valueSize + 4)));
    [apply extends_header|].
  apply (extends_bind
           (fun w => foldM (fun writer '(firstGlyph, lastGlyph, value) =>
                              bind (writeUShort writer lastGlyph)
                                (fun writer =>
                                   bind (writeUShort writer firstGlyph)
                                     (fun writer => conv_write writer value)))
                           segments w)).
  { apply extends_foldM. intros [[first last] v].
    apply (extends_bind (fun w => writeUShort w last));
      [apply extends_writeU|].
    apply (extends_bind (fun w => writeUShort w first));
      [apply extends_writeU|apply conv_extends]. }
  apply (extends_bind (fun w => writeUShort w 0xFFFF));
    [apply extends_writeU|].
  apply (extends_bind (fun w => writeUShort w 0xFFFF));
    [apply extends_writeU|].
  apply extends_data.
Qed.

Lemma formats_extend (values : list (Z * Val)) fs :
  formats valueSize conv_write numGlyphs values = Ok fs ->
  Forall (fun c : candidate => extends_only c.2) fs.
Proof.
  unfold formats. intros Hf.
  apply bind_ok in Hf. destruct Hf as (f2 & E2 & Hf).
  apply bind_ok in Hf. destruct Hf as (f8 & E8 & Hf).
  injection Hf as <-. rewrite merge_sort_Permutation.
  assert (H2 : extends_only f2.2).
  { unfold buildFormat2 in E2. destruct values as [|[g v] rest];
      [discriminate|].
    injection E2 as <-. cbn [snd]. apply writeFormat2_extends. }
  assert (H8 : forall c, f8 = Some c -> extends_only c.2).
  { intros c ->. unfold buildFormat8 in E8.
    destruct values as [|[g v] rest]; [discriminate|].
    destruct (last ((g, v) :: rest)) as [[mx vx]|]; [|discriminate].
    destruct (negb _) in E8; [discriminate|].
    match type of E8 with
    | Ok (Some ?x) = _ => replace c with x by congruence
    end.
    cbn [snd]. apply writeFormat8_extends. }
  assert (H0 : forall c, buildFormat0 valueSize conv_write numGlyphs values
                         = Some c -> extends_only c.2).
  { intros c Hc. unfold buildFormat0 in Hc.
    destruct (negb _) in Hc; [discriminate|].
    injection Hc as <-. cbn [snd]. apply writeFormat0_extends. }
  destruct (buildFormat0 valueSize conv_write numGlyphs values) as [f0|];
    destruct f8 as [f8|]; cbn [omap id mbind option_bind];
    repeat (apply Forall_cons; split); auto;
    try apply Forall_nil_2; cbn [buildFormat6 snd];
    apply writeFormat6_extends.
Qed.

Lemma AATLookup_write_extends value :
  extends_only (fun w => AATLookup_write val_le valueSize conv_write
                                         getGlyphID numGlyphs w value).
Proof.
  intros w w' Hw. unfold AATLookup_write in Hw.
  apply bind_ok in Hw. destruct Hw as (vs & _ & Hw).
  apply bind_ok in Hw. destruct Hw as (fs & Hfs & Hw).
  apply formats_extend in Hfs.
  destruct fs as [|[[dataSize fmt] method] rest]; [discriminate|].
  apply Forall_cons in Hfs. destruct Hfs as [Hm _]. cbn [snd] in Hm.
  apply bind_ok in Hw. destruct Hw as (w1 & Hw1 & Hw).
  apply bind_ok in Hw. destruct Hw as (u & _ & Hw).
  injection Hw as <-. apply Hm. exact Hw1.
Qed.
End AATLookupExtends.

Lemma sorted_by_glyphID_perm T getGlyphID (value : list (string * T)) glyphs :
  sorted_by_glyphID T getGlyphID value = Ok glyphs ->
  map snd glyphs ≡ₚ value.
Proof.
  unfold sorted_by_glyphID. intros Hs. apply bind_ok in Hs.
  destruct Hs as (keyed & Hk & Hs). injection Hs as <-.
  rewrite merge_sort_Permutation.
  assert (G : forall (l : list (string * T)) acc r,
            foldM (fun acc '(glyph, table) =>
                     do gid <- getGlyphID glyph;
                     Ok (acc ++ [(gid, (glyph, table))])) l acc = Ok r ->
            map snd r = map snd acc ++ l).
  { induction l as [|[g t] l IH]; intros acc r Hr; cbn [foldM] in Hr.
    - injection Hr as <-. rewrite app_nil_r. reflexivity.
    - apply bind_ok in Hr. destruct Hr as (acc' & Ha & Hr).
      apply bind_ok in Ha. destruct Ha as (gid & _ & Ha).
      injection Ha as <-. apply IH in Hr. rewrite Hr, map_app.
      cbn [map snd]. rewrite <- app_assoc. reflexivity. }
  apply G in Hk. cbn [map app] in Hk. rewrite Hk. reflexivity.
Qed.

Lemma foldl_writeData (cd : list bytes) : forall w,
  foldl writeData w cd = extend w (map IData cd).
Proof.
  induction cd as [|d cd IH]; intros w.
  - symmetry. apply extend_nil.
  - cbn [foldl map]. rewrite IH. unfold writeData, w_append.
    rewrite extend_extend. reflexivity.
Qed.

(** X14.  [AATLookupWithDataOffset.write], for a dict whose tables all
    compile: the loop gives every glyph an offset at which the compiled
    bytes of its table lie in the data table, which is the
    concatenation of [compiledData]; glyphs whose tables compile to the
    same bytes get the same offset; the data table holds each byte
    string once, and none that is not the compiled table of a glyph;
    and [write], when the lookup of the offsets can be written, appends
    two deferred tables with 32-bit offsets: that lookup, and the data
    table. *)
Theorem AATLookupWithDataOffset_offsets
        (T : Type) (compile_table : T -> result bytes)
        (getGlyphID : string -> result Z) (numGlyphs : Z)
        (value : list (string * T)) (glyphs : list (Z * (string * T))) :
  sorted_by_glyphID T getGlyphID value = Ok glyphs ->
  Forall (fun x => exists data, compile_table x.2 = Ok data) value ->
  exists offsetByGlyph offsetByData dataLen compiledData,
    foldM (data_step T compile_table) glyphs ([], ∅, 0, [])
    = Ok (offsetByGlyph, offsetByData, dataLen, compiledData) /\
    map snd glyphs ≡ₚ value /\
    Forall2 (fun (o : string * Z) (x : Z * (string * T)) =>
               o.1 = x.2.1 /\
               exists data, compile_table x.2.2 = Ok data /\
                            offsetByData !! data = Some o.2 /\
                            located (concat compiledData) o.2 data)
            offsetByGlyph glyphs /\
    NoDup compiledData /\
    dataLen = Z.of_nat (length (concat compiledData)) /\
    (forall data, data ∈ compiledData ->
       exists x, x ∈ value /\ compile_table x.2 = Ok data) /\
    (forall writer writer',
       AATLookupWithDataOffset_write T compile_table getGlyphID numGlyphs
                                     writer value = Ok writer' ->
       exists lookupWriter,
         AATLookup_write Z.le 2 writeUShort getGlyphID numGlyphs
                         (set_longOffset (getSubWriter writer))
                         offsetByGlyph = Ok lookupWriter /\
         w_items writer'
         = w_items writer
           ++ [ISub true "" None (w_items lookupWriter);
               ISub true "" None (map IData compiledData)]).
Proof.
  intros Hs Hc.
  pose proof (sorted_by_glyphID_perm T getGlyphID value glyphs Hs) as Hp.
  assert (Hc' : Forall (fun x : Z * (string * T) =>
                          exists data, compile_table x.2.2 = Ok data) glyphs).
  { rewrite <- Hp in Hc. rewrite Forall_map in Hc. exact Hc. }
  destruct (data_loop T compile_table glyphs [] ([], ∅, 0, [])
              (data_inv_init T compile_table) Hc')
    as ([[[obg obd] dataLen] cd] & Hloop & Hinv).
  cbn [app] in Hinv.
  destruct Hinv as (Hlen & Hnd & Hloc & Hmem & Hoff).
  exists obg, obd, dataLen, cd.
  split; [exact Hloop|]. split; [exact Hp|]. split; [|split; [exact Hnd|]].
  { eapply Forall2_impl; [exact Hoff|]. cbv beta.
    intros o x (Ho & data & Hd & Hod). split; [exact Ho|].
    exists data. split; [exact Hd|]. split; [exact Hod|].
    apply (Hloc _ _ Hod). }
  split; [exact Hlen|]. split.
  { intros data Hd. destruct (Hmem data Hd) as [_ (x & Hx & Hxd)].
    exists x.2. split; [|exact Hxd]. rewrite <- Hp.
    apply list_elem_of_fmap. exists x. split; [reflexivity|exact Hx]. }
  intros writer writer' Hw. unfold AATLookupWithDataOffset_write in Hw.
  rewrite Hs in Hw. cbn [bind] in Hw. rewrite Hloop in Hw. cbn [bind] in Hw.
  apply bind_ok in Hw. destruct Hw as (lw & Hlw & Hw).
  injection Hw as <-. exists lw. split; [exact Hlw|].
  destruct (AATLookup_write_extends Z.le 2 writeUShort getGlyphID numGlyphs
              (fun v => extends_writeU 2 v) obg _ _ Hlw) as [its ->].
  rewrite foldl_writeData.
  unfold writeSubTable, w_append, set_longOffset, getSubWriter.
  cbn [w_items w_longOffset w_name w_repeatIndex extend app].
  rewrite <- app_assoc. reflexivity.
Qed.

Lemma AATLookupWithDataOffset_offsets_witness :
  exists offsetByGlyph offsetByData dataLen compiledData,
    foldM (data_step bytes ex_compile_table)
          [(10, ("g10", [3])); (12, ("g12", [1; 2])); (13, ("g13", [3]))]
          ([], ∅, 0, [])
    = Ok (offsetByGlyph, offsetByData, dataLen, compiledData) /\
    map fst offsetByGlyph = ["g10"; "g12"; "g13"] /\
    NoDup compiledData /\
    dataLen = Z.of_nat (length (concat compiledData)).
Proof.
  destruct (AATLookupWithDataOffset_offsets
              bytes ex_compile_table ex_getGlyphID 20
              [("g12", [1; 2]); ("g10", [3]); ("g13", [3])]
              [(10, ("g10", [3])); (12, ("g12", [1; 2])); (13, ("g13", [3]))])
    as (obg & obd & dataLen & cd & Hloop & _ & Hoff & Hnd & Hlen & _).
  - vm_compute. reflexivity.
  - repeat (apply Forall_cons; split); try apply Forall_nil_2;
      eexists; reflexivity.
  - exists obg, obd, dataLen, cd. split; [exact Hloop|].
    split; [|split; assumption].
    apply Forall2_cons_inv_r in Hoff.
    destruct Hoff as (o1 & l1 & [H1 _] & Hoff & ->).
    apply Forall2_cons_inv_r in Hoff.
    destruct Hoff as (o2 & l2 & [H2 _] & Hoff & ->).
    apply Forall2_cons_inv_r in Hoff.
    destruct Hoff as (o3 & l3 & [H3 _] & Hoff & ->).
    apply Forall2_nil_inv_r in Hoff. subst l3.
    cbn [map fst snd] in *. congruence.
Defined.

(** ** AATLookup.write: the order of the items of the dict *)

Lemma entry_le_total {Val : Type} (val_le : Val -> Val -> Prop) :
  (forall x y, val_le x y \/ val_le y x) -> Total (entry_le val_le).
Proof.
  intros Htot a b. unfold entry_le.
  destruct (Z.lt_trichotomy a.1 b.1) as [L|[L|L]];
    [left; left; exact L | | right; left; exact L].
  destruct (Htot a.2 b.2) as [T|T];
    [left; right; split; [exact L|exact T]
    |right; right; split; [symmetry; exact L|exact T]].
Qed.

Lemma entries_resolved {Val : Type} (getGlyphID : string -> result Z)
      (value : list (string * Val)) : forall acc,
  Forall (fun x => exists gid, getGlyphID x.1 = Ok gid) value ->
  foldM (fun acc '(glyph, val) =>
           do gid <- getGlyphID glyph; Ok (acc ++ [(gid, val)]))
        value acc
  = Ok (acc ++ map (fun x => (gid_of getGlyphID x.1, x.2)) value).
Proof.
  induction value as [|[g v] value IH]; intros acc Hf.
  - rewrite app_nil_r. reflexivity.
  - apply Forall_cons in Hf. destruct Hf as [[gid Hg] Hf]. cbn [fst] in Hg.
    cbn [foldM]. rewrite Hg. cbn [bind]. rewrite IH by exact Hf.
    cbn [map fst snd]. unfold gid_of at 2. rewrite Hg.
    rewrite <- app_assoc. reflexivity.
Qed.

(** X15.  [AATLookup.write] does not depend on the order in which the
    dict gives its items: for glyphs that the font resolves to distinct
    glyph IDs, and values that can be compared, two orders of the same
    items are sorted into the same entries, so that the same format is
    chosen and the same bytes are written, or the same error raised. *)
Theorem AATLookup_write_any_order {Val : Type} `{EqDecision Val}
        (val_le : Val -> Val -> Prop)
        {val_le_dec : forall x y, Decision (val_le x y)}
        (valueSize : Z) (conv_write : Writer -> Val -> result Writer)
        (getGlyphID : string -> result Z) (numGlyphs : Z)
        (value value' : list (string * Val)) (writer : Writer) :
  (forall x y, val_le x y \/ val_le y x) ->
  value ≡ₚ value' ->
  NoDup (map fst value) ->
  Forall (fun x => exists gid, getGlyphID x.1 = Ok gid) value ->
  (forall x y, x ∈ value -> y ∈ value ->
               getGlyphID x.1 = getGlyphID y.1 -> x.1 = y.1) ->
  AATLookup_write val_le valueSize conv_write getGlyphID numGlyphs
                  writer value
  = AATLookup_write val_le valueSize conv_write getGlyphID numGlyphs
                    writer value'.
Proof.
  intros Htot Hp Hnd Hres Hinj.
  pose proof (entry_le_total val_le Htot) as Htotal.
  set (entry := fun x : string * Val => (gid_of getGlyphID x.1, x.2)).
  assert (Hs : forall l, Forall (fun x => exists gid, getGlyphID x.1 = Ok gid) l ->
                 sorted_values val_le getGlyphID l
                 = Ok (merge_sort (entry_le val_le) (map entry l))).
  { intros l Hl. unfold sorted_values.
    rewrite (entries_resolved getGlyphID l [] Hl). reflexivity. }
  assert (Hres' : Forall (fun x => exists gid, getGlyphID x.1 = Ok gid) value')
    by (rewrite <- Hp; exact Hres).
  assert (Hndg : NoDup (map fst (map entry value))).
  { rewrite map_map. cbn [entry fst].
    change (NoDup ((fun x : string * Val => gid_of getGlyphID x.1) <$> value)).
    apply NoDup_fmap_2_strong.
    - intros x y Hx Hy E.
      assert (Hxy : x.1 = y.1).
      { apply Hinj; [exact Hx|exact Hy|].
        rewrite Forall_forall in Hres.
        destruct (Hres x Hx) as [gx Hgx]. destruct (Hres y Hy) as [gy Hgy].
        unfold gid_of in E. rewrite Hgx, Hgy in E. congruence. }
      destruct x as [g v], y as [g' v']. cbn [fst] in Hxy. subst g'.
      f_equal.
      assert (Hl : forall l : list (string * Val),
                NoDup (map fst l) -> (g, v) ∈ l -> (g, v') ∈ l -> v = v').
      { clear. intros l Hl H1 H2.
        pose proof (elem_of_list_to_map_1 (M := gmap string) l g v Hl H1).
        pose proof (elem_of_list_to_map_1 (M := gmap string) l g v' Hl H2).
        congruence. }
      exact (Hl value Hnd Hx Hy).
    - eapply NoDup_fmap_1. exact Hnd. }
  assert (Heq : merge_sort (entry_le val_le) (map entry value)
                = merge_sort (entry_le val_le) (map entry value')).
  { apply (StronglySorted_unique_strong (fun a b : Z * Val => a.1 < b.1)).
    - intros x1 x2 _ _ H1 H2. lia.
    - apply (Sorted_entries_strict val_le);
        [apply Sorted_merge_sort; exact Htotal|].
      rewrite merge_sort_Permutation. exact Hndg.
    - apply (Sorted_entries_strict val_le);
        [apply Sorted_merge_sort; exact Htotal|].
      rewrite merge_sort_Permutation. rewrite <- Hp. exact Hndg.
    - rewrite !merge_sort_Permutation. rewrite Hp. reflexivity. }
  unfold AATLookup_write. rewrite (Hs value Hres), (Hs value' Hres'), Heq.
  reflexivity.
Qed.

Lemma AATLookup_write_any_order_witness :
  AATLookup_write Z.le 2 writeUShort ex_getGlyphID 20 newWriter
                  [("g12", 5); ("g10", 7)]
  = AATLookup_write Z.le 2 writeUShort ex_getGlyphID 20 newWriter
                    [("g10", 7); ("g12", 5)].
Proof.
  apply (AATLookup_write_any_order Z.le 2 writeUShort ex_getGlyphID 20).
  - intros x y. lia.
  - apply perm_swap.
  - cbn [map fst]. repeat (apply NoDup_cons; split);
      try apply NoDup_nil_2;
      intros Hin; repeat (apply elem_of_cons in Hin;
                          destruct Hin as [Hin|Hin]; [discriminate|]);
      apply elem_of_nil in Hin; exact Hin.
  - repeat (apply Forall_cons; split); try apply Forall_nil_2;
      eexists; reflexivity.
  - intros x y Hx Hy E.
    repeat (apply elem_of_cons in Hx; destruct Hx as [->|Hx]);
      try (apply elem_of_nil in Hx; contradiction);
      repeat (apply elem_of_cons in Hy; destruct Hy as [->|Hy]);
      try (apply elem_of_nil in Hy; contradiction);
      try reflexivity; discriminate.
Defined.

(** ** GlyphID: names for glyph IDs *)

Lemma glyphOrder_loop (glyphOrder : list string) (name : Z -> string)
      (gids : list Z) : forall acc,
  (forall i g, glyphOrder !! i = Some g -> name (Z.of_nat i) = g) ->
  Forall (fun gid => 0 <= gid) gids ->
  match foldM (fun l gid =>
                 do '(_, glyph) <- list_index glyphOrder gid;
                 Ok (l ++ [glyph]))
              gids acc with
  | Ok l => l = acc ++ map name gids
  | Raise e => e = IndexError
  end.
Proof.
  induction gids as [|gid gids IH]; intros acc Hname Hpos.
  - cbn. rewrite app_nil_r. reflexivity.
  - apply Forall_cons in Hpos. destruct Hpos as [Hg Hpos]. cbn [foldM].
    unfold list_index at 1.
    replace (gid <? 0) with false by (symmetry; apply Z.ltb_ge; lia).
    cbv zeta.
    replace (gid <? 0) with false by (symmetry; apply Z.ltb_ge; lia).
    destruct (glyphOrder !! Z.to_nat gid) as [g|] eqn:E; cbn [bind];
      [|reflexivity].
    specialize (IH (acc ++ [g]) Hname Hpos).
    destruct (foldM _ gids (acc ++ [g])) as [l|e]; [|exact IH].
    rewrite IH, <- app_assoc. cbn [map app]. do 2 f_equal.
    apply Hname in E. rewrite Z2Nat.id in E by lia. symmetry. exact E.
Qed.

(** X16.  [GlyphID]: a glyph of the font is written as its glyph ID in
    two bytes, from which [read] gives the glyph again.  And
    [readArray] never fails on a glyph ID that the glyph order does not
    have: in a font whose [getGlyphName] agrees with its glyph order,
    it returns the name [getGlyphName] gives to each glyph ID, whether
    the glyph order has them all or not. *)
Theorem GlyphID_names
        (readUShortArray : Reader -> Z -> result (list Z * Reader))
        (getGlyphID : string -> result Z) (getGlyphName : Z -> string)
        (glyphOrder : list string) (writer : Writer)
        (pre post : bytes) (off : Z) :
  reads_words readUShortArray ->
  (forall i g, glyphOrder !! i = Some g -> getGlyphName (Z.of_nat i) = g) ->
  (forall glyph gid,
     getGlyphID glyph = Ok gid -> 0 <= gid <= 65535 ->
     getGlyphName gid = glyph ->
     GlyphID_write getGlyphID writer glyph
     = Ok (extend writer [IData (be_encode 2 gid)]) /\
     GlyphID_read getGlyphName
                  (mkReader (pre ++ be_encode 2 gid ++ post) off
                            (Z.of_nat (length pre)))
     = Ok (glyph, mkReader (pre ++ be_encode 2 gid ++ post) off
                           (Z.of_nat (length pre) + 2))) /\
  (forall gids,
     Forall u16 gids ->
     GlyphID_readArray readUShortArray getGlyphName glyphOrder
       (mkReader (pre ++ concat (map (be_encode 2) gids) ++ post) off
                 (Z.of_nat (length pre)))
       (Z.of_nat (length gids))
     = Ok (map getGlyphName gids,
           mkReader (pre ++ concat (map (be_encode 2) gids) ++ post) off
                    (Z.of_nat (length pre) + 2 * Z.of_nat (length gids)))).
Proof.
  intros Hrw Hname. split.
  - intros glyph gid Hg Hgid Hn. split.
    + unfold GlyphID_write. rewrite Hg. cbn [bind].
      apply (writeU_ok 2). cbn. lia.
    + unfold GlyphID_read. rewrite readUShort_at by (unfold u16; lia).
      cbn [bind]. rewrite Hn. reflexivity.
  - intros gids Hu. unfold GlyphID_readArray.
    rewrite Hrw by exact Hu. cbn [bind].
    pose proof (glyphOrder_loop glyphOrder getGlyphName gids [] Hname) as H.
    destruct (foldM _ gids []) as [l|e].
    + rewrite H; [reflexivity|].
      eapply Forall_impl; [exact Hu|]. unfold u16. cbv beta. intros x Hx. lia.
    + rewrite H; [reflexivity|].
      eapply Forall_impl; [exact Hu|]. unfold u16. cbv beta. intros x Hx. lia.
Qed.

Lemma GlyphID_names_witness :
  GlyphID_write ex_getGlyphID newWriter "g12"
  = Ok (extend newWriter [IData (be_encode 2 12)]) /\
  GlyphID_readArray ex_readUShortArray ex_getGlyphName ex_glyphOrder
    (mkReader ([7] ++ concat (map (be_encode 2) [12; 300]) ++ [9]) 0
              (Z.of_nat (length [7])))
    (Z.of_nat (length [12; 300]))
  = Ok (map ex_getGlyphName [12; 300],
        mkReader ([7] ++ concat (map (be_encode 2) [12; 300]) ++ [9]) 0
                 (Z.of_nat (length [7]) + 2 * Z.of_nat (length [12; 300]))).
Proof.
  destruct (GlyphID_names ex_readUShortArray ex_getGlyphID ex_getGlyphName
              ex_glyphOrder newWriter [7] [9] 0) as [Hone Harr].
  - exact ex_readUShortArray_words.
  - intros i g Hi. unfold ex_glyphOrder, range in Hi.
    rewrite list_lookup_fmap in Hi.
    destruct (seqZ 0 14 !! i) as [k|] eqn:E; [|discriminate].
    apply lookup_seqZ in E. injection Hi as <-. f_equal. lia.
  - split.
    + apply (Hone "g12" 12); [reflexivity|lia|reflexivity].
    + apply Harr. repeat constructor; unfold u16; lia.
Defined.

(** ** Arrays of integers: writeArray, then readArray *)

Lemma length_IntValue_bytes c v :
  length (IntValue_bytes c v) = Z.to_nat (IntValue_staticSize c).
Proof.
  unfold IntValue_bytes. destruct c; cbn [IntValue_signed IntValue_staticSize];
    rewrite ?length_signed_bytes, ?length_be_encode; reflexivity.
Qed.

Lemma IntValue_write_bytes c w v :
  IntValue_fits c v ->
  IntValue_write c w v = Ok (extend w [IData (IntValue_bytes c v)]).
Proof.
  unfold IntValue_fits, IntValue_bytes.
  destruct c; cbn [IntValue_signed IntValue_staticSize IntValue_write];
    intros Hv;
    first [ apply writeS_items; exact Hv | apply writeU_ok; exact Hv ].
Qed.

Lemma IntValue_read_bytes c pre v post off :
  IntValue_fits c v ->
  IntValue_read c (mkReader (pre ++ IntValue_bytes c v ++ post) off
                            (Z.of_nat (length pre)))
  = Ok (v, mkReader (pre ++ IntValue_bytes c v ++ post) off
                    (Z.of_nat (length pre)
                     + Z.of_nat (Z.to_nat (IntValue_staticSize c)))).
Proof.
  unfold IntValue_fits, IntValue_bytes.
  destruct c; cbn [IntValue_signed IntValue_staticSize IntValue_read];
    intros Hv;
    first [ apply (readS_at 4); [lia|exact Hv]
          | apply (readS_at 2); [lia|exact Hv]
          | apply (readS_at 1); [lia|exact Hv]
          | apply (readU_at 4); exact Hv
          | apply (readU_at 3); exact Hv
          | apply (readU_at 2); exact Hv
          | apply (readU_at 1); exact Hv ].
Qed.

(** [writeArray] of a converter that has no use for the index. *)
Lemma writeArray_foldM {V} (wr : Writer -> V -> result Writer)
      (vs : list V) : forall w,
  writeArray (fun w v _ => wr w v) w vs = foldM wr vs w.
Proof.
  unfold writeArray.
  assert (G : forall (g : nat -> nat) w,
            foldM (fun writer '(i, value) => wr writer value)
                  (imap (fun i value => (g i, value)) vs) w
            = foldM wr vs w).
  { induction vs as [|v vs IH]; intros g w; [reflexivity|].
    cbn [imap foldM]. destruct (wr w v) as [w1|e]; cbn [bind];
      [|reflexivity].
    exact (IH (fun i => g (S i)) w1). }
  intros w. exact (G (fun i => i) w).
Qed.

(** X17.  An array of integers, written by [writeArray] and read by
    [readArray].  When every value is in the range of the converter,
    [writeArray] appends the values in [staticSize] bytes each, and
    [readArray] moves the cursor behind them.  Read eagerly, the array
    is the list of the values.  Read lazily, which takes [font.lazy]
    and more than 8 values, no byte is decoded at first, and at any
    later time indexing the lazy list at any position of the list,
    counted from either end, gives the value that was written there. *)
Theorem IntValue_array
        (c : IntValue) (vs : list Z) (lazy : bool) (writer : Writer)
        (pre post : bytes) (off : Z) :
  Forall (IntValue_fits c) vs ->
  let size := IntValue_staticSize c in
  let count := Z.of_nat (length vs) in
  let data := concat (map (IntValue_bytes c) vs) in
  let reader := mkReader (pre ++ data ++ post) off (Z.of_nat (length pre)) in
  let conv_read := fun (_ : gmap string Z) r => IntValue_read c r in
  writeArray (fun w v _ => IntValue_write c w v) writer vs
  = Ok (extend writer (map (fun v => IData (IntValue_bytes c v)) vs)) /\
  Z.of_nat (length data) = size * count /\
  exists value,
    readArray conv_read (getRecordSize_static (Some size)) lazy reader ∅
              count
    = Ok (value, advance reader (size * count)) /\
    match value with
    | EagerList l => lazy && (8 <? count) = false /\ l = vs
    | LazyList l =>
        lazy && (8 <? count) = true /\
        ll_data l = MissingItem <$> range count /\
        lazy_of size reader vs l /\
        forall self k j v,
          lazy_of size reader vs self -> list_index vs k = Ok (j, v) ->
          exists self',
            LazyList_getitem conv_read self k = Ok (v, self') /\
            lazy_of size reader vs self'
    end.
Proof.
  intros Hfit size count data reader conv_read.
  assert (Hsize : forall v, Z.of_nat (length (IntValue_bytes c v)) = size).
  { intros v. rewrite length_IntValue_bytes. unfold size.
    destruct c; reflexivity. }
  assert (Hsize0 : 0 <= size) by (unfold size; destruct c; cbn; lia).
  split; [|split].
  - rewrite writeArray_foldM.
    apply (write_all (IntValue_fits c) (IntValue_bytes c));
      [|exact Hfit].
    intros w v Hv. apply IntValue_write_bytes. exact Hv.
  - unfold data. rewrite (length_concat_units _ size) by exact Hsize.
    unfold count. lia.
  - unfold readArray, getRecordSize_static.
    destruct (lazy && (8 <? count)) eqn:Elazy.
    + eexists. split.
      { f_equal. f_equal. unfold advance. f_equal. lia. }
      cbv beta iota.
      assert (Hdec : decodes_to conv_read size reader vs).
      { intros k v Hk. unfold conv_read, reader, data.
        destruct (unit_at (IntValue_bytes c) size vs k v pre post Hsize Hk)
          as (pre' & post' & -> & Hlen).
        unfold advance. cbn [r_data r_offset r_pos].
        replace (Z.of_nat (length pre) + Z.of_nat k * size)
          with (Z.of_nat (length pre')) by lia.
        rewrite IntValue_read_bytes
          by (rewrite Forall_forall in Hfit; apply Hfit;
              eapply list_elem_of_lookup_2; exact Hk).
        do 3 f_equal. fold size. lia. }
      assert (Hlazy : lazy_of size reader vs
                        (mkLazyList (MissingItem <$> range count) reader
                                    (r_pos reader) size)).
      { unfold lazy_of. cbn [ll_pos ll_recordSize ll_reader ll_data].
        repeat (split; [reflexivity|]). split.
        - rewrite length_fmap, length_range. unfold count. lia.
        - intros k s Hk. left. unfold range in Hk.
          rewrite list_lookup_fmap in Hk.
          destruct (seqZ 0 count !! k) as [i|] eqn:E; [|discriminate].
          apply lookup_seqZ in E. injection Hk as <-. f_equal. lia. }
      split; [reflexivity|]. split; [reflexivity|]. split; [exact Hlazy|].
      intros self k j v Hself Hk.
      destruct (getitem_lazy_of conv_read size reader vs self k j v
                  Hdec Hself Hk) as (self' & Hget & _ & Hself').
      exists self'. split; assumption.
    + exists (EagerList vs).
      split; [|split; reflexivity].
      pose proof (read_run (Z.to_nat size) (IntValue_fits c)
                    (IntValue_bytes c) (IntValue_read c)
                    (length_IntValue_bytes c)
                    (IntValue_read_bytes c)
                    post off vs (range count) [] pre) as E.
      unfold reader, data.
      change (fun tableDict : gmap string Z => ?f) with conv_read.
      unfold conv_read. rewrite E.
      * cbn [bind app]. f_equal. f_equal. unfold advance.
        cbn [r_data r_offset r_pos]. f_equal. unfold count. lia.
      * rewrite length_range. unfold count. lia.
      * exact Hfit.
Qed.

Lemma IntValue_array_witness :
  writeArray (fun w v _ => IntValue_write CUShort w v) newWriter
             [1; 2; 3; 4; 5; 6; 7; 8; 9; 10]
  = Ok (extend newWriter
          (map (fun v => IData (IntValue_bytes CUShort v))
               [1; 2; 3; 4; 5; 6; 7; 8; 9; 10])) /\
  exists l reader',
    readArray (fun (_ : gmap string Z) r => IntValue_read CUShort r)
              (getRecordSize_static (Some 2)) true
              (mkReader ([7] ++ concat (map (IntValue_bytes CUShort)
                                            [1; 2; 3; 4; 5; 6; 7; 8; 9; 10])
                             ++ [9]) 0 1)
              ∅ 10
    = Ok (LazyList l, reader') /\
    exists self',
      LazyList_getitem (fun (_ : gmap string Z) r => IntValue_read CUShort r)
                       l (-1)
      = Ok (10, self').
Proof.
  pose proof (IntValue_array CUShort [1; 2; 3; 4; 5; 6; 7; 8; 9; 10] true
                newWriter [7] [9] 0) as H.
  cbv zeta in H. destruct H as (Hw & _ & value & Hr & Hv).
  - repeat constructor; unfold IntValue_fits, IntValue_signed; cbn; lia.
  - split; [exact Hw|].
    destruct value as [l|l]; [destruct Hv as [Hv _]; discriminate|].
    destruct Hv as (_ & _ & Hl & Hget).
    exists l. eexists. split; [exact Hr|].
    destruct (Hget l (-1) 9%nat 10 Hl eq_refl) as (self' & Hg & _).
    exists self'. exact Hg.
Defined.

(** ** mutator.main: axis tags have four characters *)

Lemma pad_tag_loop_spec (fuel : nat) : forall tag,
  (4 <= length tag + fuel)%nat ->
  pad_tag_loop fuel tag = tag ++ replicate (4 - length tag) space.
Proof.
  induction fuel as [|fuel IH]; intros tag Hf.
  - cbn [pad_tag_loop]. replace (4 - length tag)%nat with 0%nat by lia.
    cbn [replicate]. symmetry. apply app_nil_r.
  - cbn [pad_tag_loop]. destruct (Nat.ltb_spec (length tag) 4).
    + rewrite IH by (rewrite length_app; cbn [length]; lia).
      rewrite length_app. cbn [length].
      replace (4 - length tag)%nat
        with (S (4 - (length tag + 1)))%nat by lia.
      cbn [replicate]. rewrite <- app_assoc. reflexivity.
    + replace (4 - length tag)%nat with 0%nat by lia.
      cbn [replicate]. symmetry. apply app_nil_r.
Qed.

(** X18.  The loop of [main] over the location arguments.  An argument
    must split at [=] into exactly a tag and a value, or the loop
    raises [ValueError]; a tag of more than four characters fails the
    assertion before its value is looked at; and when the loop
    succeeds, every key of the location has exactly four characters: it
    is the tag of one of the arguments, of at most four characters,
    followed by spaces.  Characters are counted as [len] counts them,
    whatever their encoding takes. *)
Theorem mutator_location_tags
        (F : Type) (float : text -> result F) (locargs : list text) :
  (forall loc arg,
     length (split equals_sign arg) <> 2%nat ->
     location_step F float loc arg = Raise ValueError) /\
  (forall loc arg tag valstr,
     split equals_sign arg = [tag; valstr] -> (4 < length tag)%nat ->
     location_step F float loc arg = Raise AssertionError) /\
  (forall loc key,
     location F float locargs = Ok loc -> is_Some (loc !! key) ->
     length key = 4%nat /\
     exists arg tag valstr,
       arg ∈ locargs /\ split equals_sign arg = [tag; valstr] /\
       (length tag <= 4)%nat /\
       key = tag ++ replicate (4 - length tag) space).
Proof.
  split; [|split].
  - intros loc arg Hn. unfold location_step.
    destruct (split equals_sign arg) as [|a [|b [|c l]]]; try reflexivity.
    cbn in Hn. contradiction.
  - intros loc arg tag valstr Hs Hl. unfold location_step. rewrite Hs.
    cbn [bind]. rewrite pad_tag_loop_spec by lia.
    replace (4 - length tag)%nat with 0%nat by lia.
    cbn [replicate]. rewrite app_nil_r.
    destruct (Nat.leb_spec (length tag) 4); [lia|]. reflexivity.
  - unfold location.
    assert (G : forall (args : list text) (acc loc : gmap text F) key,
              foldM (location_step F float) args acc = Ok loc ->
              is_Some (loc !! key) ->
              is_Some (acc !! key) \/
              (length key = 4%nat /\
               exists arg tag valstr,
                 arg ∈ args /\ split equals_sign arg = [tag; valstr] /\
                 (length tag <= 4)%nat /\
                 key = tag ++ replicate (4 - length tag) space)).
    { induction args as [|arg args IH]; intros acc loc key Hf Hk.
      - injection Hf as <-. left. exact Hk.
      - cbn [foldM] in Hf. apply bind_ok in Hf.
        destruct Hf as (acc1 & Hstep & Hf).
        destruct (IH acc1 loc key Hf Hk) as [Hin|(Hlen & a & t & v & Ha & Hr)].
        + unfold location_step in Hstep.
          destruct (split equals_sign arg) as [|t [|v [|c l]]] eqn:Es;
            try discriminate.
          cbn [bind] in Hstep. rewrite pad_tag_loop_spec in Hstep by lia.
          apply bind_ok in Hstep. destruct Hstep as (u & Hassert & Hstep).
          apply bind_ok in Hstep. destruct Hstep as (value & _ & Hstep).
          injection Hstep as <-.
          destruct (Nat.leb_spec
                      (length (t ++ replicate (4 - length t) space))
                      4) as [Hle|Hgt]; [|discriminate].
          rewrite length_app, length_replicate in Hle.
          destruct (decide (key = t ++ replicate (4 - length t) space))
            as [->|Hne].
          * right. split.
            { rewrite length_app, length_replicate. lia. }
            exists arg, t, v. split; [apply elem_of_cons; left; reflexivity|].
            split; [exact Es|]. split; [lia|reflexivity].
          * left. rewrite lookup_insert_ne in Hin
              by (intros E; apply Hne; symmetry; exact E).
            exact Hin.
        + right. split; [exact Hlen|]. exists a, t, v.
          split; [apply elem_of_cons; right; exact Ha|exact Hr]. }
    intros loc key Hf Hk.
    destruct (G locargs ∅ loc key Hf Hk) as [[x Hx]|H]; [|exact H].
    rewrite lookup_empty in Hx. discriminate.
Qed.

(** The arguments [weight=140] and [wght]; and [wg=140] with an
    argument whose tag has three characters of which two are not ASCII
    (code point 233). *)
Lemma mutator_location_tags_witness :
  location_step Z (fun _ => Ok 0) ∅ (chars "weight=140")
  = Raise AssertionError /\
  location_step Z (fun _ => Ok 0) ∅ (chars "wght") = Raise ValueError /\
  exists loc,
    location Z (fun _ => Ok 0) [chars "wg=140"; [119; 233; 233; 61; 49]]
    = Ok loc /\
    is_Some (loc !! [119; 233; 233; 32]) /\
    forall key, is_Some (loc !! key) -> length key = 4%nat.
Proof.
  destruct (mutator_location_tags Z (fun _ => Ok 0)
              [chars "wg=140"; [119; 233; 233; 61; 49]])
    as (Hv & Ha & Hk).
  split; [|split].
  - apply (Ha ∅ (chars "weight=140") (chars "weight") (chars "140"));
      [reflexivity|cbn; lia].
  - apply Hv. intros H. vm_compute in H. discriminate.
  - assert (E : location Z (fun _ => Ok 0)
                  [chars "wg=140"; [119; 233; 233; 61; 49]]
                = Ok (<[[119; 233; 233; 32] := 0]>
                        (<[chars "wg  " := 0]> ∅)))
      by reflexivity.
    eexists. split; [exact E|]. split.
    + rewrite lookup_insert_eq. eexists. reflexivity.
    + intros key Hkey. apply (Hk _ key E Hkey).
Defined.
